(** * networkanalysis-ts: a shallow embedding of the clustering and layout core

    The TypeScript classes [Clustering], [Network], [CPMClusteringAlgorithm],
    [StandardLocalMovingAlgorithm], [FastLocalMovingAlgorithm],
    [LocalMergingAlgorithm], [LeidenAlgorithm] and [Layout] are translated
    method by method.

    Conventions of the embedding.
    - Node ids, cluster ids and array indices are [nat]; counters that the
      source decrements are [Z].
    - Weights and quality values are JavaScript numbers.  They are modelled
      in exact arithmetic: rationals [Q] for the clustering code and reals
      [R] for the layout code (which takes square roots).
    - A JavaScript array is a [list].  Reading past the end gives
      [undefined] in the source and [None] here; the whole computation is
      then [None].  Writing at index [length] appends, as in the source;
      writing further out would create a sparse array and is [None].
    - A division whose divisor is zero gives [NaN] or an infinity in the
      source and [None] here.
    - Methods that mutate [this] are functions from the old object to the
      new one, inside the [option] monad. *)

From Stdlib Require Import QArith ZArith List Bool Arith Lia Psatz Reals Sorted.
From stdpp Require Import base option list numbers gmap.

Local Open Scope nat_scope.

(** ** JavaScript arrays *)

Definition aget {A} (a : list A) (i : nat) : option A := a !! i.

Definition aset {A} (a : list A) (i : nat) (v : A) : option (list A) :=
  if decide (i < length a) then Some (<[i:=v]> a)
  else if decide (i = length a) then Some (a ++ [v])
  else None.

(** [a[i] += v] and [a[i]++]: the old value is read first. *)
Definition aaddQ (a : list Q) (i : nat) (v : Q) : option (list Q) :=
  x ← aget a i; aset a i (x + v)%Q.

Definition aincr (a : list nat) (i : nat) : option (list nat) :=
  x ← aget a i; aset a i (S x).

Definition aaddZ (a : list Z) (i : nat) (v : Z) : option (list Z) :=
  x ← aget a i; aset a i (x + v)%Z.

(** [new Array(n)]: a negative length raises a RangeError. *)
Definition newArray {A} (n : Z) (fill : A) : option (list A) :=
  if decide (0 ≤ n)%Z then Some (replicate (Z.to_nat n) fill) else None.

(** [for (let i = start; i < start + count; i++) body]. *)
Fixpoint for_loop {St} (body : nat → St → option St) (start count : nat)
    (s : St) : option St :=
  match count with
  | O => Some s
  | S c => s' ← body start s; for_loop body (S start) c s'
  end.

Definition for_range {St} (lo hi : nat) (body : nat → St → option St)
    (s : St) : option St :=
  for_loop body lo (hi - lo) s.

(** Comparisons and division on rationals. *)
Definition Qlt_bool (x y : Q) : bool := negb (Qle_bool y x).
Definition Qis0 (x : Q) : bool := Qeq_bool x 0.

Definition qdiv (x y : Q) : option Q :=
  if Qis0 y then None else Some (x / y)%Q.

(** [Array.prototype.sort] is stable; for a comparator that is a total
    preorder every stable sort returns the same array.  [le a b] stands for
    [compare(a, b) <= 0]. *)
Fixpoint sort_insert {A} (le : A → A → bool) (x : A) (l : list A) : list A :=
  match l with
  | [] => [x]
  | y :: l' => if le x y then x :: y :: l' else y :: sort_insert le x l'
  end.

Definition js_sort {A} (le : A → A → bool) (l : list A) : list A :=
  foldr (sort_insert le) [] l.

(** ** utils/arrays.ts *)

Definition calcSum (values : list Q) : Q :=
  fold_left Qplus values 0%Q.

Definition calcSumWithinRange (values : list Q) (beginIndex endIndex : nat)
  : option Q :=
  for_range beginIndex endIndex
    (λ i sum, x ← aget values i; Some (sum + x)%Q) 0%Q.

Definition calcMaximum (values : list nat) : option nat :=
  match values with
  | [] => None
  | v0 :: rest => Some (fold_left Nat.max rest v0)
  end.

(** [java-random] is an external package: a generator is a state of some
    type [rng] with the two operations the code uses. *)
Record Random (rng : Type) := {
  nextInt : rng → nat → nat * rng;
  nextDouble : rng → Q * rng;
}.
Arguments nextInt {rng}.
Arguments nextDouble {rng}.

Definition generateRandomPermutation {rng} (R : Random rng)
    (nElements : nat) (random : rng) : option (list nat * rng) :=
  for_range 0 nElements
    (λ i '(permutation, random),
       let '(j, random) := nextInt R random nElements in
       k ← aget permutation i;
       pj ← aget permutation j;
       permutation ← aset permutation i pj;
       permutation ← aset permutation j k;
       Some (permutation, random))
    (seq 0 nElements, random).

(** ** utils/fastMath.ts *)

Definition fastExp (exponent : Q) : Q :=
  if Qlt_bool exponent (-256) then 0%Q
  else
    let e := (1 + exponent / 256)%Q in
    let e := (e * e)%Q in
    let e := (e * e)%Q in
    let e := (e * e)%Q in
    let e := (e * e)%Q in
    let e := (e * e)%Q in
    let e := (e * e)%Q in
    let e := (e * e)%Q in
    let e := (e * e)%Q in
    e.

(** ** clustering.ts *)

Module Clustering.

Record t := mk {
    clusters : list nat;
    nClusters : nat;
    nNodes : nat;
  }.

Definition initSingletonClustersHelper (nNodes : nat) : t :=
    mk (seq 0 nNodes) nNodes nNodes.

Definition initializeBasedOnNNodes (nNodes : nat) : t :=
    initSingletonClustersHelper nNodes.

  (** [calcMaximum] of an empty array is [undefined], and [nClusters]
      would be [NaN]. *)
Definition initializeBasedOnClusters (clusters : list nat) : option t :=
    m ← calcMaximum clusters;
    Some (mk clusters (m + 1) (length clusters)).

Definition getNNodesPerCluster (c : t) : option (list nat) :=
    for_range 0 (nNodes c)
      (λ i nNodesPerCluster,
         ci ← aget (clusters c) i;
         aincr nNodesPerCluster ci)
      (replicate (nClusters c) 0).

Definition getNodesPerCluster (c : t) : option (list (list nat)) :=
    nNodesPerCluster ← getNNodesPerCluster c;
    '(nodesPerCluster, nNodesPerCluster) ←
      for_range 0 (nClusters c)
        (λ i '(nodesPerCluster, nNodesPerCluster),
           n ← aget nNodesPerCluster i;
           nodesPerCluster ← aset nodesPerCluster i (replicate n 0);
           nNodesPerCluster ← aset nNodesPerCluster i 0;
           Some (nodesPerCluster, nNodesPerCluster))
        (replicate (nClusters c) [], nNodesPerCluster);
    '(nodesPerCluster, _) ←
      for_range 0 (nNodes c)
        (λ i '(nodesPerCluster, nNodesPerCluster),
           ci ← aget (clusters c) i;
           row ← aget nodesPerCluster ci;
           k ← aget nNodesPerCluster ci;
           row ← aset row k i;
           nodesPerCluster ← aset nodesPerCluster ci row;
           nNodesPerCluster ← aincr nNodesPerCluster ci;
           Some (nodesPerCluster, nNodesPerCluster))
        (nodesPerCluster, nNodesPerCluster);
    Some nodesPerCluster.

Definition setCluster (c : t) (node cluster : nat) : option t :=
    clusters ← aset (clusters c) node cluster;
    Some (mk clusters (Nat.max (nClusters c) (cluster + 1)) (nNodes c)).

Definition removeEmptyClusters (c : t) : option t :=
    nonEmptyClusters ←
      for_range 0 (nNodes c)
        (λ i nonEmptyClusters,
           ci ← aget (clusters c) i;
           aset nonEmptyClusters ci true)
        (replicate (nClusters c) false);
    '(newClusters, i) ←
      for_range 0 (nClusters c)
        (λ j '(newClusters, i),
           b ← aget nonEmptyClusters j;
           if b : bool then
             newClusters ← aset newClusters j i;
             Some (newClusters, i + 1)
           else Some (newClusters, i))
        (replicate (nClusters c) 0, 0);
    clusters ←
      for_range 0 (nNodes c)
        (λ k clusters,
           ck ← aget clusters k;
           n ← aget newClusters ck;
           aset clusters k n)
        (clusters c);
    Some (mk clusters i (nNodes c)).

  (** The comparator of [orderClustersByWeight] puts [a] before [b] when
      [a.weight >= b.weight]. *)
Definition weight_ge (a b : nat * Q) : bool := Qle_bool (snd b) (snd a).

  (** The [do ... while] loop that numbers the sorted clusters: the first
      one always, the following ones while their weight is positive. *)
Fixpoint number_clusters (sorted : list (nat * Q)) (i : nat)
      (newClusters : list nat) : option (list nat * nat) :=
    match sorted with
    | [] => Some (newClusters, i)
    | (cluster, weight) :: rest =>
        if Qlt_bool 0 weight then
          newClusters ← aset newClusters cluster i;
          number_clusters rest (i + 1) newClusters
        else Some (newClusters, i)
    end.

Definition orderClustersByWeight (c : t) (nodeWeights : list Q) : option t :=
    clusterWeights ←
      for_range 0 (nNodes c)
        (λ i clusterWeights,
           ci ← aget (clusters c) i;
           w ← aget nodeWeights i;
           aaddQ clusterWeights ci w)
        (replicate (nClusters c) 0%Q);
    let sorted := js_sort weight_ge (zip (seq 0 (nClusters c)) clusterWeights) in
    '(newClusters, i) ←
      match sorted with
      | [] => None
      | (cluster, _) :: rest =>
          newClusters ← aset (replicate (nClusters c) 0) cluster 0;
          number_clusters rest 1 newClusters
      end;
    clusters ←
      for_range 0 (nNodes c)
        (λ k clusters,
           ck ← aget clusters k;
           n ← aget newClusters ck;
           aset clusters k n)
        (clusters c);
    Some (mk clusters i (nNodes c)).

Definition orderClustersByNNodes (c : t) : option t :=
    orderClustersByWeight c (replicate (nNodes c) 1%Q).

Definition mergeClusters (c clustering : t) : option t :=
    clusters ←
      for_range 0 (nNodes c)
        (λ i cls,
           ci ← aget cls i;
           n ← aget (clusters clustering) ci;
           aset cls i n)
        (clusters c);
    Some (mk clusters (nClusters clustering) (nNodes c)).

End Clustering.

(** ** network.ts *)

Module Network.

Record t := mk {
    nNodes : nat;
    nodeWeights : list Q;
    firstNeighborIndices : list nat;
    neighbors : list nat;
    edgeWeights : list Q;
    totalEdgeWeightSelfLinks : Q;
    nEdges : nat;
  }.

Definition getTotalNodeWeight (net : t) : Q := calcSum (nodeWeights net).

Definition getNodeWeights (net : t) : list Q := nodeWeights net.

  (** [getTotalEdgeWeight()] without a node. *)
Definition getTotalEdgeWeight (net : t) : Q := (calcSum (edgeWeights net) / 2)%Q.

Definition getTotalEdgeWeightPerNodeHelper (net : t) : option (list Q) :=
    for_range 0 (nNodes net)
      (λ i totalEdgeWeightPerNode,
         b ← aget (firstNeighborIndices net) i;
         e ← aget (firstNeighborIndices net) (i + 1);
         s ← calcSumWithinRange (edgeWeights net) b e;
         aset totalEdgeWeightPerNode i s)
      (replicate (nNodes net) 0%Q).

Definition getTotalEdgeWeightPerNode (net : t) : option (list Q) :=
    getTotalEdgeWeightPerNodeHelper net.

  (** The slots of [new Array(nEdges)] are holes until the loops write
      them; they are zeros here. *)
Definition createNormalizedNetworkUsingAssociationStrength (net : t)
    : option t :=
    let totalNodeWeight := getTotalNodeWeight net in
    normalizedEdgeWeights ←
      for_range 0 (nNodes net)
        (λ i ew,
           b ← aget (firstNeighborIndices net) i;
           e ← aget (firstNeighborIndices net) (i + 1);
           for_range b e
             (λ j ew,
                w ← aget (edgeWeights net) j;
                ni ← aget (nodeWeights net) i;
                nb ← aget (neighbors net) j;
                nj ← aget (nodeWeights net) nb;
                d ← qdiv (ni * nj) totalNodeWeight;
                w' ← qdiv w d;
                aset ew j w')
             ew)
        (replicate (nEdges net) 0%Q);
    Some (mk (nNodes net) (replicate (nNodes net) 1%Q)
            (firstNeighborIndices net) (neighbors net)
            normalizedEdgeWeights 0%Q (nEdges net)).

  (** Working state of [createReducedNetwork]. *)
Record reduce_state := mkRS {
    rNEdges : nat;
    rNodeWeights : list Q;
    rFirstNeighborIndices : list nat;
    rTotalEdgeWeightSelfLinks : Q;
    reducedNetworkNeighbors1 : list nat;
    reducedNetworkEdgeWeights1 : list Q;
    reducedNetworkNeighbors2 : list nat;
    reducedNetworkEdgeWeights2 : list Q;
  }.

  (** The loop over the neighbours [m] of node [l], a member of cluster
      [i]; [j] counts the neighbouring clusters found so far. *)
Definition reduce_edge (net : t) (clustering : Clustering.t) (i : nat)
      (m : nat) (st : reduce_state * nat) : option (reduce_state * nat) :=
    let '(s, j) := st in
    nb ← aget (neighbors net) m;
    n ← aget (Clustering.clusters clustering) nb;
    w ← aget (edgeWeights net) m;
    if decide (n ≠ i) then
      old ← aget (reducedNetworkEdgeWeights2 s) n;
      '(nb2, j) ←
        (if Qis0 old then
           nb2 ← aset (reducedNetworkNeighbors2 s) j n; Some (nb2, j + 1)
         else Some (reducedNetworkNeighbors2 s, j));
      ew2 ← aaddQ (reducedNetworkEdgeWeights2 s) n w;
      Some (mkRS (rNEdges s) (rNodeWeights s) (rFirstNeighborIndices s)
              (rTotalEdgeWeightSelfLinks s)
              (reducedNetworkNeighbors1 s) (reducedNetworkEdgeWeights1 s)
              nb2 ew2, j)
    else
      Some (mkRS (rNEdges s) (rNodeWeights s) (rFirstNeighborIndices s)
              (rTotalEdgeWeightSelfLinks s + w)%Q
              (reducedNetworkNeighbors1 s) (reducedNetworkEdgeWeights1 s)
              (reducedNetworkNeighbors2 s) (reducedNetworkEdgeWeights2 s), j).

Definition reduce_node (net : t) (clustering : Clustering.t) (i : nat)
      (nodes : list nat) (k : nat) (st : reduce_state * nat)
    : option (reduce_state * nat) :=
    let '(s, j) := st in
    l ← aget nodes k;
    wl ← aget (nodeWeights net) l;
    nw ← aaddQ (rNodeWeights s) i wl;
    b ← aget (firstNeighborIndices net) l;
    e ← aget (firstNeighborIndices net) (l + 1);
    for_range b e (reduce_edge net clustering i)
      (mkRS (rNEdges s) nw (rFirstNeighborIndices s)
         (rTotalEdgeWeightSelfLinks s)
         (reducedNetworkNeighbors1 s) (reducedNetworkEdgeWeights1 s)
         (reducedNetworkNeighbors2 s) (reducedNetworkEdgeWeights2 s), j).

  (** Copying the [j] neighbouring clusters of cluster [i] to the output
      arrays and clearing the accumulator. *)
Definition reduce_flush (k : nat) (s : reduce_state) : option reduce_state :=
    n ← aget (reducedNetworkNeighbors2 s) k;
    nb1 ← aset (reducedNetworkNeighbors1 s) (rNEdges s + k) n;
    w ← aget (reducedNetworkEdgeWeights2 s) n;
    ew1 ← aset (reducedNetworkEdgeWeights1 s) (rNEdges s + k) w;
    ew2 ← aset (reducedNetworkEdgeWeights2 s) n 0%Q;
    Some (mkRS (rNEdges s) (rNodeWeights s) (rFirstNeighborIndices s)
            (rTotalEdgeWeightSelfLinks s) nb1 ew1
            (reducedNetworkNeighbors2 s) ew2).

Definition reduce_cluster (net : t) (clustering : Clustering.t)
      (nodesPerCluster : list (list nat)) (i : nat) (s : reduce_state)
    : option reduce_state :=
    nodes ← aget nodesPerCluster i;
    '(s, j) ← for_range 0 (length nodes) (reduce_node net clustering i nodes) (s, 0);
    s ← for_range 0 j reduce_flush s;
    fni ← aset (rFirstNeighborIndices s) (i + 1) (rNEdges s + j);
    Some (mkRS (rNEdges s + j) (rNodeWeights s) fni
            (rTotalEdgeWeightSelfLinks s)
            (reducedNetworkNeighbors1 s) (reducedNetworkEdgeWeights1 s)
            (reducedNetworkNeighbors2 s) (reducedNetworkEdgeWeights2 s)).

Definition createReducedNetwork (net : t) (clustering : Clustering.t)
    : option t :=
    let nClusters := Clustering.nClusters clustering in
    nb2 ← newArray (Z.of_nat nClusters - 1) 0;
    nodesPerCluster ← Clustering.getNodesPerCluster clustering;
    s ← for_range 0 nClusters (reduce_cluster net clustering nodesPerCluster)
          (mkRS 0 (replicate nClusters 0%Q) (replicate (nClusters + 1) 0)
             (totalEdgeWeightSelfLinks net)
             (replicate (nEdges net) 0) (replicate (nEdges net) 0%Q)
             nb2 (replicate nClusters 0%Q));
    Some (mk nClusters (rNodeWeights s) (rFirstNeighborIndices s)
            (take (rNEdges s) (reducedNetworkNeighbors1 s))
            (take (rNEdges s) (reducedNetworkEdgeWeights1 s))
            (rTotalEdgeWeightSelfLinks s) (rNEdges s)).

  (** The three scratch arrays that [createSubnetworks] shares between
      the clusters. *)
Record scratch := mkScratch {
    subnetworkNodes : list nat;
    subnetworkNeighbors : list nat;
    subnetworkEdgeWeights : list Q;
  }.

Definition createSubnetwork (net : t) (clustering : Clustering.t)
      (cluster : nat) (nodes : list nat) (sc : scratch) : option (t * scratch) :=
    if decide (length nodes = 1) then
      n0 ← aget nodes 0;
      w0 ← aget (nodeWeights net) n0;
      Some (mk 1 [w0] [0; 0] [] [] 0%Q 0, sc)
    else
      subnetworkNodes ←
        for_range 0 (length nodes)
          (λ i sn, ni ← aget nodes i; aset sn ni i)
          (subnetworkNodes sc);
      '(nE, nw, fni, snb, sew) ←
        for_range 0 (length nodes)
          (λ i '(nE, nw, fni, snb, sew),
             j ← aget nodes i;
             wj ← aget (nodeWeights net) j;
             nw ← aset nw i wj;
             b ← aget (firstNeighborIndices net) j;
             e ← aget (firstNeighborIndices net) (j + 1);
             '(nE, snb, sew) ←
               for_range b e
                 (λ k '(nE, snb, sew),
                    nb ← aget (neighbors net) k;
                    cnb ← aget (Clustering.clusters clustering) nb;
                    if decide (cnb = cluster) then
                      x ← aget subnetworkNodes nb;
                      snb ← aset snb nE x;
                      w ← aget (edgeWeights net) k;
                      sew ← aset sew nE w;
                      Some (nE + 1, snb, sew)
                    else Some (nE, snb, sew))
                 (nE, snb, sew);
             fni ← aset fni (i + 1) nE;
             Some (nE, nw, fni, snb, sew))
          (0, replicate (length nodes) 0%Q, replicate (length nodes + 1) 0,
           subnetworkNeighbors sc, subnetworkEdgeWeights sc);
      Some (mk (length nodes) nw fni (take nE snb) (take nE sew) 0%Q nE,
            mkScratch subnetworkNodes snb sew).

Definition createSubnetworks (net : t) (clustering : Clustering.t)
    : option (list t) :=
    nodesPerCluster ← Clustering.getNodesPerCluster clustering;
    '(subnetworks, _) ←
      for_range 0 (Clustering.nClusters clustering)
        (λ i '(subnetworks, sc),
           nodes ← aget nodesPerCluster i;
           '(sub, sc) ← createSubnetwork net clustering i nodes sc;
           subnetworks ← aset subnetworks i sub;
           Some (subnetworks, sc))
        ([], mkScratch (replicate (nNodes net) 0) (replicate (nEdges net) 0)
               (replicate (nEdges net) 0%Q));
    Some subnetworks.

  (** [getNEdges()]: the arrays hold every edge in both directions. *)
Definition getNEdges (net : t) : Q :=
    (inject_Z (Z.of_nat (nEdges net)) / 2)%Q.

Definition createNetworkWithoutNodeWeights (net : t) : t :=
    mk (nNodes net) (replicate (nNodes net) 1%Q) (firstNeighborIndices net)
      (neighbors net) (edgeWeights net) (totalEdgeWeightSelfLinks net)
      (nEdges net).

Definition createNetworkWithoutEdgeWeights (net : t) : t :=
    mk (nNodes net) (nodeWeights net) (firstNeighborIndices net)
      (neighbors net) (replicate (nEdges net) 1%Q) 0%Q (nEdges net).

Definition createNetworkWithoutNodeAndEdgeWeights (net : t) : t :=
    mk (nNodes net) (replicate (nNodes net) 1%Q) (firstNeighborIndices net)
      (neighbors net) (replicate (nEdges net) 1%Q) 0%Q (nEdges net).

Definition createNormalizedNetworkUsingFractionalization (net : t)
    : option t :=
    let n := inject_Z (Z.of_nat (nNodes net)) in
    normalizedEdgeWeights ←
      for_range 0 (nNodes net)
        (λ i ew,
           b ← aget (firstNeighborIndices net) i;
           e ← aget (firstNeighborIndices net) (i + 1);
           for_range b e
             (λ j ew,
                w ← aget (edgeWeights net) j;
                ni ← aget (nodeWeights net) i;
                nb ← aget (neighbors net) j;
                nj ← aget (nodeWeights net) nb;
                x ← qdiv n ni;
                y ← qdiv n nj;
                d ← qdiv 2 (x + y);
                w' ← qdiv w d;
                aset ew j w')
             ew)
        (replicate (nEdges net) 0%Q);
    Some (mk (nNodes net) (replicate (nNodes net) 1%Q)
            (firstNeighborIndices net) (neighbors net)
            normalizedEdgeWeights 0%Q (nEdges net)).

  (** [array.fill(value, start, end)] for indices that are not negative. *)
Definition fill {A} (a : list A) (value : A) (start end_ : nat) : list A :=
    let stop := end_ `min` length a in
    if decide (start < stop)
    then take start a ++ replicate (stop - start) value ++ drop stop a
    else a.

  (** [getEdges()]: the first array names the node of every slot of
      [neighbors], the second one is a copy of [neighbors]. *)
Definition getEdges (net : t) : option (list nat * list nat) :=
    edges0 ←
      for_range 0 (nNodes net)
        (λ i edges0,
           b ← aget (firstNeighborIndices net) i;
           e ← aget (firstNeighborIndices net) (i + 1);
           Some (fill edges0 i b e))
        (replicate (nEdges net) 0);
    Some (edges0, neighbors net).

End Network.

(** ** CPMClusteringAlgorithm.ts *)

Module CPMClusteringAlgorithm.

Definition calcQuality (resolution : Q) (network : Network.t)
      (clustering : Clustering.t) : option Q :=
    quality ←
      for_range 0 (Network.nNodes network)
        (λ i quality,
           j ← aget (Clustering.clusters clustering) i;
           b ← aget (Network.firstNeighborIndices network) i;
           e ← aget (Network.firstNeighborIndices network) (i + 1);
           for_range b e
             (λ k quality,
                nb ← aget (Network.neighbors network) k;
                cnb ← aget (Clustering.clusters clustering) nb;
                if decide (cnb = j) then
                  w ← aget (Network.edgeWeights network) k;
                  Some (quality + w)%Q
                else Some quality)
             quality)
        0%Q;
    let quality := (quality + Network.totalEdgeWeightSelfLinks network)%Q in
    clusterWeights ←
      for_range 0 (Network.nNodes network)
        (λ i clusterWeights,
           ci ← aget (Clustering.clusters clustering) i;
           w ← aget (Network.nodeWeights network) i;
           aaddQ clusterWeights ci w)
        (replicate (Clustering.nClusters clustering) 0%Q);
    quality ←
      for_range 0 (Clustering.nClusters clustering)
        (λ i quality,
           cw ← aget clusterWeights i;
           Some (quality - cw * cw * resolution)%Q)
        quality;
    qdiv quality
      (2 * Network.getTotalEdgeWeight network
       + Network.totalEdgeWeightSelfLinks network)%Q.

End CPMClusteringAlgorithm.

(** ** standardLocalMovingAlgorithm.ts and fastLocalMovingAlgorithm.ts

    The two local moving algorithms set up the same bookkeeping and treat
    the selected node [j] with the same statements; these shared blocks
    are written once. *)

Module LocalMoving.

Record state := mkState {
    clusters : list nat;
    nClusters : nat;
    clusterWeights : list Q;
    nNodesPerCluster : list Z;
    unusedClusters : list nat;
    nUnusedClusters : nat;
    edgeWeightPerCluster : list Q;
    neighboringClusters : list nat;
  }.

  (** Cluster weights, cluster sizes and the stack of unused clusters. *)
Definition init (network : Network.t) (clustering : Clustering.t)
    : option state :=
    let n := Network.nNodes network in
    '(clusterWeights, nNodesPerCluster) ←
      for_range 0 n
        (λ i '(cw, nn),
           ci ← aget (Clustering.clusters clustering) i;
           w ← aget (Network.nodeWeights network) i;
           cw ← aaddQ cw ci w;
           nn ← aaddZ nn ci 1;
           Some (cw, nn))
        (replicate n 0%Q, replicate n 0%Z);
    unused0 ← newArray (Z.of_nat n - 1) 0;
    '(unusedClusters, nUnusedClusters) ←
      for_loop
        (λ k '(unused, nUnused),
           let i := n - 1 - k in
           c ← aget nNodesPerCluster i;
           if decide (c = 0%Z) then
             unused ← aset unused nUnused i;
             Some (unused, nUnused + 1)
           else Some (unused, nUnused))
        0 n (unused0, 0);
    Some (mkState (Clustering.clusters clustering)
            (Clustering.nClusters clustering)
            clusterWeights nNodesPerCluster unusedClusters nUnusedClusters
            (replicate n 0%Q) (replicate n 0)).

  (** [unusedClusters[nUnusedClusters - 1]]. *)
Definition top_unused (s : state) : option nat :=
    if decide (nUnusedClusters s = 0) then None
    else aget (unusedClusters s) (nUnusedClusters s - 1).

  (** Removing node [j] from its cluster. *)
Definition remove_node (network : Network.t) (j : nat) (s : state)
    : option (state * nat) :=
    currentCluster ← aget (clusters s) j;
    wj ← aget (Network.nodeWeights network) j;
    cw ← aaddQ (clusterWeights s) currentCluster (- wj)%Q;
    nn ← aaddZ (nNodesPerCluster s) currentCluster (-1);
    c ← aget nn currentCluster;
    '(unused, nUnused) ←
      (if decide (c = 0%Z) then
         unused ← aset (unusedClusters s) (nUnusedClusters s) currentCluster;
         Some (unused, nUnusedClusters s + 1)
       else Some (unusedClusters s, nUnusedClusters s));
    Some (mkState (clusters s) (nClusters s) cw nn unused nUnused
            (edgeWeightPerCluster s) (neighboringClusters s),
          currentCluster).

  (** Identifying the neighbouring clusters of node [j]. *)
Definition scan_neighbors (network : Network.t) (j : nat) (first : nat)
      (s : state) : option (state * nat) :=
    nbc ← aset (neighboringClusters s) 0 first;
    b ← aget (Network.firstNeighborIndices network) j;
    e ← aget (Network.firstNeighborIndices network) (j + 1);
    '(ew, nbc, nNeighboringClusters) ←
      for_range b e
        (λ k '(ew, nbc, nNbc),
           nb ← aget (Network.neighbors network) k;
           l ← aget (clusters s) nb;
           old ← aget ew l;
           '(nbc, nNbc) ←
             (if Qis0 old then
                nbc ← aset nbc nNbc l; Some (nbc, nNbc + 1)
              else Some (nbc, nNbc));
           w ← aget (Network.edgeWeights network) k;
           ew ← aaddQ ew l w;
           Some (ew, nbc, nNbc))
        (edgeWeightPerCluster s, nbc, 1);
    Some (mkState (clusters s) (nClusters s) (clusterWeights s)
            (nNodesPerCluster s) (unusedClusters s) (nUnusedClusters s)
            ew nbc, nNeighboringClusters).

  (** Selecting the cluster with the largest increment of the quality
      function; the old cluster wins ties. *)
Definition select_best (resolution : Q) (network : Network.t) (j : nat)
      (currentCluster nNeighboringClusters : nat) (s : state)
    : option (state * nat) :=
    wj ← aget (Network.nodeWeights network) j;
    ewc ← aget (edgeWeightPerCluster s) currentCluster;
    cwc ← aget (clusterWeights s) currentCluster;
    '(ew, bestCluster, _) ←
      for_range 0 nNeighboringClusters
        (λ k '(ew, bestCluster, maxQualityValueIncrement),
           l ← aget (neighboringClusters s) k;
           ewl ← aget ew l;
           cwl ← aget (clusterWeights s) l;
           let qualityValueIncrement := (ewl - wj * cwl * resolution)%Q in
           let '(bestCluster, maxQualityValueIncrement) :=
             if Qlt_bool maxQualityValueIncrement qualityValueIncrement
             then (l, qualityValueIncrement)
             else (bestCluster, maxQualityValueIncrement) in
           ew ← aset ew l 0%Q;
           Some (ew, bestCluster, maxQualityValueIncrement))
        (edgeWeightPerCluster s, currentCluster,
         (ewc - wj * cwc * resolution)%Q);
    Some (mkState (clusters s) (nClusters s) (clusterWeights s)
            (nNodesPerCluster s) (unusedClusters s) (nUnusedClusters s)
            ew (neighboringClusters s), bestCluster).

  (** Putting node [j] into [bestCluster] and updating the statistics,
      and the clustering when the cluster has changed. *)
Definition add_node (network : Network.t) (j : nat)
      (currentCluster bestCluster : nat) (s : state) : option state :=
    wj ← aget (Network.nodeWeights network) j;
    cw ← aaddQ (clusterWeights s) bestCluster wj;
    nn ← aaddZ (nNodesPerCluster s) bestCluster 1;
    top ← top_unused s;
    let nUnused := if decide (bestCluster = top) then nUnusedClusters s - 1
                   else nUnusedClusters s in
    if decide (bestCluster ≠ currentCluster) then
      cls ← aset (clusters s) j bestCluster;
      let nC := if decide (nClusters s ≤ bestCluster) then bestCluster + 1
                else nClusters s in
      Some (mkState cls nC cw nn (unusedClusters s) nUnused
              (edgeWeightPerCluster s) (neighboringClusters s))
    else
      Some (mkState (clusters s) (nClusters s) cw nn (unusedClusters s) nUnused
              (edgeWeightPerCluster s) (neighboringClusters s)).

  (** One visit of node [j]; returns the old and the new cluster. *)
Definition visit (resolution : Q) (network : Network.t) (j : nat)
      (s : state) : option (state * nat * nat) :=
    '(s, currentCluster) ← remove_node network j s;
    first ← top_unused s;
    '(s, nNeighboringClusters) ← scan_neighbors network j first s;
    '(s, bestCluster) ←
      select_best resolution network j currentCluster nNeighboringClusters s;
    s ← add_node network j currentCluster bestCluster s;
    Some (s, currentCluster, bestCluster).

  (** [if (update) clustering.removeEmptyClusters()] on the clustering
      held by the state. *)
Definition finish (network : Network.t) (s : state) (update : bool)
    : option (Clustering.t * bool) :=
    let c := Clustering.mk (clusters s) (nClusters s) (Network.nNodes network) in
    if update then
      c ← Clustering.removeEmptyClusters c; Some (c, true)
    else Some (c, false).

End LocalMoving.

Module StandardLocalMovingAlgorithm.
Import LocalMoving.

  (** The [do ... while (nUnstableNodes > 0)] loop; [fuel] bounds the
      number of node visits. *)
Fixpoint loop (fuel : nat) (resolution : Q) (network : Network.t)
      (nodeOrder : list nat) (s : state) (nUnstableNodes i : nat)
      (update : bool) : option (state * bool) :=
    match fuel with
    | O => None
    | S fuel =>
        j ← aget nodeOrder i;
        '(s, currentCluster, bestCluster) ← visit resolution network j s;
        let nUnstableNodes := nUnstableNodes - 1 in
        let '(nUnstableNodes, update) :=
          if decide (bestCluster ≠ currentCluster)
          then (Network.nNodes network, true)
          else (nUnstableNodes, update) in
        let i := if decide (i < Network.nNodes network - 1) then i + 1 else 0 in
        if decide (0 < nUnstableNodes)
        then loop fuel resolution network nodeOrder s nUnstableNodes i update
        else Some (s, update)
    end.

Definition improveClustering {rng} (R : Random rng) (fuel : nat)
      (resolution : Q) (network : Network.t) (clustering : Clustering.t)
      (random : rng) : option (Clustering.t * bool * rng) :=
    if decide (Network.nNodes network = 1) then Some (clustering, false, random)
    else
      s ← init network clustering;
      '(nodeOrder, random) ←
        generateRandomPermutation R (Network.nNodes network) random;
      '(s, update) ←
        loop fuel resolution network nodeOrder s (Network.nNodes network) 0 false;
      '(c, update) ← finish network s update;
      Some (c, update, random).

End StandardLocalMovingAlgorithm.

Module FastLocalMovingAlgorithm.
Import LocalMoving.

  (** Marking the stable neighbours of [j] outside [bestCluster] as
      unstable and appending them to the queue. *)
Definition enqueue_neighbors (network : Network.t) (j bestCluster i : nat)
      (cls : list nat) (st : list bool * nat * list nat)
    : option (list bool * nat * list nat) :=
    b ← aget (Network.firstNeighborIndices network) j;
    e ← aget (Network.firstNeighborIndices network) (j + 1);
    for_range b e
      (λ k '(stableNodes, nUnstableNodes, nodeOrder),
         nb ← aget (Network.neighbors network) k;
         stable ← aget stableNodes nb;
         cnb ← aget cls nb;
         if (stable : bool) && bool_decide (cnb ≠ bestCluster) then
           stableNodes ← aset stableNodes nb false;
           let nUnstableNodes := nUnstableNodes + 1 in
           let pos := if decide (i + nUnstableNodes < Network.nNodes network)
                      then i + nUnstableNodes
                      else i + nUnstableNodes - Network.nNodes network in
           nodeOrder ← aset nodeOrder pos nb;
           Some (stableNodes, nUnstableNodes, nodeOrder)
         else Some (stableNodes, nUnstableNodes, nodeOrder))
      st.

Fixpoint loop (fuel : nat) (resolution : Q) (network : Network.t)
      (nodeOrder : list nat) (stableNodes : list bool) (s : state)
      (nUnstableNodes i : nat) (update : bool) : option (state * bool) :=
    match fuel with
    | O => None
    | S fuel =>
        j ← aget nodeOrder i;
        '(s, currentCluster, bestCluster) ← visit resolution network j s;
        stableNodes ← aset stableNodes j true;
        let nUnstableNodes := nUnstableNodes - 1 in
        '(stableNodes, nUnstableNodes, nodeOrder, update) ←
          (if decide (bestCluster ≠ currentCluster) then
             '(stableNodes, nUnstableNodes, nodeOrder) ←
               enqueue_neighbors network j bestCluster i (clusters s)
                 (stableNodes, nUnstableNodes, nodeOrder);
             Some (stableNodes, nUnstableNodes, nodeOrder, true)
           else Some (stableNodes, nUnstableNodes, nodeOrder, update));
        let i := if decide (i < Network.nNodes network - 1) then i + 1 else 0 in
        if decide (0 < nUnstableNodes)
        then loop fuel resolution network nodeOrder stableNodes s
               nUnstableNodes i update
        else Some (s, update)
    end.

Definition improveClusteringOneIteration {rng} (R : Random rng) (fuel : nat)
      (resolution : Q) (network : Network.t) (clustering : Clustering.t)
      (random : rng) : option (Clustering.t * bool * rng) :=
    if decide (Network.nNodes network = 1) then Some (clustering, false, random)
    else
      s ← init network clustering;
      '(nodeOrder, random) ←
        generateRandomPermutation R (Network.nNodes network) random;
      '(s, update) ←
        loop fuel resolution network nodeOrder
          (replicate (Network.nNodes network) false) s
          (Network.nNodes network) 0 false;
      '(c, update) ← finish network s update;
      Some (c, update, random).

End FastLocalMovingAlgorithm.

(** ** localMergingAlgorithm.ts *)

Module LocalMergingAlgorithm.

  (** The parameters of the algorithm.  [isInfinite] answers the test
      [total < Number.POSITIVE_INFINITY] of the source, which depends on
      floating-point overflow and is left open. *)
Record params := mkParams {
    resolution : Q;
    randomness : Q;
    isInfinite : Q → bool;
  }.

Record state := mkState {
    clusters : list nat;
    update : bool;
    clusterWeights : list Q;
    nonSingletonClusters : list bool;
    externalEdgeWeightPerCluster : list Q;
    edgeWeightPerCluster : list Q;
    neighboringClusters : list nat;
    cumTransformedQualityValueIncrementPerCluster : list Q;
  }.

  (** [external[l] >= clusterWeights[l] * (total - clusterWeights[l]) *
      resolution]. *)
Definition well_connected (p : params) (totalNodeWeight : Q)
      (external cw : list Q) (l : nat) : option bool :=
    x ← aget external l;
    w ← aget cw l;
    Some (Qle_bool (w * (totalNodeWeight - w) * resolution p) x).

Definition scan_neighbors (network : Network.t) (j : nat) (s : state)
    : option (list Q * list nat * nat) :=
    nbc ← aset (neighboringClusters s) 0 j;
    b ← aget (Network.firstNeighborIndices network) j;
    e ← aget (Network.firstNeighborIndices network) (j + 1);
    for_range b e
      (λ k '(ew, nbc, nNbc),
         nb ← aget (Network.neighbors network) k;
         l ← aget (clusters s) nb;
         old ← aget ew l;
         '(nbc, nNbc) ←
           (if Qis0 old then
              nbc ← aset nbc nNbc l; Some (nbc, nNbc + 1)
            else Some (nbc, nNbc));
         w ← aget (Network.edgeWeights network) k;
         ew ← aaddQ ew l w;
         Some (ew, nbc, nNbc))
      (edgeWeightPerCluster s, nbc, 1).

  (** The loop over the neighbouring clusters that computes the best
      cluster and the cumulative transformed increments. *)
Definition evaluate (p : params) (network : Network.t) (totalNodeWeight : Q)
      (j : nat) (external cw : list Q) (nbc : list nat)
      (nNeighboringClusters : nat) (ew cum : list Q)
    : option (list Q * list Q * nat * Q) :=
    wj ← aget (Network.nodeWeights network) j;
    '(ew, cum, bestCluster, _, total) ←
      for_range 0 nNeighboringClusters
        (λ k '(ew, cum, bestCluster, maxQualityValueIncrement, total),
           l ← aget nbc k;
           wc ← well_connected p totalNodeWeight external cw l;
           '(bestCluster, maxQualityValueIncrement, total) ←
             (if wc : bool then
                ewl ← aget ew l;
                cwl ← aget cw l;
                let qualityValueIncrement := (ewl - wj * cwl * resolution p)%Q in
                let '(bestCluster, maxQualityValueIncrement) :=
                  if Qlt_bool maxQualityValueIncrement qualityValueIncrement
                  then (l, qualityValueIncrement)
                  else (bestCluster, maxQualityValueIncrement) in
                if Qle_bool 0 qualityValueIncrement then
                  x ← qdiv qualityValueIncrement (randomness p);
                  Some (bestCluster, maxQualityValueIncrement,
                        (total + fastExp x)%Q)
                else Some (bestCluster, maxQualityValueIncrement, total)
              else Some (bestCluster, maxQualityValueIncrement, total));
           cum ← aset cum k total;
           ew ← aset ew l 0%Q;
           Some (ew, cum, bestCluster, maxQualityValueIncrement, total))
        (ew, cum, j, 0%Q, 0%Q);
    Some (ew, cum, bestCluster, total).

  (** The binary search for the first cumulative value that reaches [r].
      The interval [maxIdx - minIdx] shrinks in every round, so [fuel]
      set to its initial width is never used up. *)
Fixpoint search (fuel : nat) (cum : list Q) (r : Q) (minIdx maxIdx : Z)
    : option Z :=
    match fuel with
    | O => None
    | S fuel =>
        if decide (minIdx < maxIdx - 1)%Z then
          let midIdx := Z.quot (minIdx + maxIdx) 2 in
          if decide (midIdx < 0)%Z then None
          else
            c ← aget cum (Z.to_nat midIdx);
            if Qle_bool r c then search fuel cum r minIdx midIdx
            else search fuel cum r midIdx maxIdx
        else Some maxIdx
    end.

Definition choose {rng} (R : Random rng) (p : params) (cum : list Q)
      (nbc : list nat) (nNeighboringClusters bestCluster : nat) (total : Q)
      (random : rng) : option (nat * rng) :=
    if isInfinite p total then Some (bestCluster, random)
    else
      let '(u, random) := nextDouble R random in
      let r := (total * u)%Q in
      maxIdx ← search (nNeighboringClusters + 3) cum r (-1)
                 (Z.of_nat nNeighboringClusters + 1);
      if decide (maxIdx < 0)%Z then None
      else
        chosenCluster ← aget nbc (Z.to_nat maxIdx);
        Some (chosenCluster, random).

  (** Moving node [j] to [chosenCluster]. *)
Definition move (network : Network.t) (j chosenCluster : nat)
      (cls : list nat) (cw external : list Q)
    : option (list Q * list Q) :=
    wj ← aget (Network.nodeWeights network) j;
    cw ← aaddQ cw chosenCluster wj;
    b ← aget (Network.firstNeighborIndices network) j;
    e ← aget (Network.firstNeighborIndices network) (j + 1);
    external ←
      for_range b e
        (λ k external,
           nb ← aget (Network.neighbors network) k;
           cnb ← aget cls nb;
           w ← aget (Network.edgeWeights network) k;
           if decide (cnb = chosenCluster)
           then aaddQ external chosenCluster (- w)%Q
           else aaddQ external chosenCluster w)
        external;
    Some (cw, external).

  (** The body of the loop over [nodeOrder] for node [j]. *)
Definition visit {rng} (R : Random rng) (p : params) (network : Network.t)
      (totalNodeWeight : Q) (j : nat) (st : state * rng)
    : option (state * rng) :=
    let '(s, random) := st in
    ns ← aget (nonSingletonClusters s) j;
    wc ← well_connected p totalNodeWeight (externalEdgeWeightPerCluster s)
           (clusterWeights s) j;
    if negb ns && wc then
      cw ← aset (clusterWeights s) j 0%Q;
      external ← aset (externalEdgeWeightPerCluster s) j 0%Q;
      '(ew, nbc, nNeighboringClusters) ← scan_neighbors network j s;
      '(ew, cum, bestCluster, total) ←
        evaluate p network totalNodeWeight j external cw nbc
          nNeighboringClusters ew
          (cumTransformedQualityValueIncrementPerCluster s);
      '(chosenCluster, random) ←
        choose R p cum nbc nNeighboringClusters bestCluster total random;
      '(cw, external) ← move network j chosenCluster (clusters s) cw external;
      if decide (chosenCluster ≠ j) then
        cls ← aset (clusters s) j chosenCluster;
        nonSingle ← aset (nonSingletonClusters s) chosenCluster true;
        Some (mkState cls true cw nonSingle external ew nbc cum, random)
      else
        Some (mkState (clusters s) (update s) cw (nonSingletonClusters s)
                external ew nbc cum, random)
    else Some (s, random).

Definition findClustering {rng} (R : Random rng) (p : params)
      (network : Network.t) (random : rng) : option (Clustering.t * rng) :=
    let n := Network.nNodes network in
    let clustering := Clustering.initializeBasedOnNNodes n in
    if decide (n = 1) then Some (clustering, random)
    else
      let totalNodeWeight := Network.getTotalNodeWeight network in
      external ← Network.getTotalEdgeWeightPerNode network;
      '(nodeOrder, random) ← generateRandomPermutation R n random;
      '(s, random) ←
        for_range 0 n
          (λ i st, j ← aget nodeOrder i; visit R p network totalNodeWeight j st)
          (mkState (Clustering.clusters clustering) false
             (Network.getNodeWeights network) (replicate n false) external
             (replicate n 0%Q) (replicate n 0) (replicate n 0%Q),
           random);
      let clustering := Clustering.mk (clusters s) n n in
      if update s then
        clustering ← Clustering.removeEmptyClusters clustering;
        Some (clustering, random)
      else Some (clustering, random).

End LocalMergingAlgorithm.

(** ** leidenAlgorithm.ts *)

Module LeidenAlgorithm.

  (** The refinement phase of [improveClusteringOneIteration]: every
      cluster is refined by the local merging algorithm on its subnetwork,
      and the refined cluster ids of consecutive clusters are stacked. *)
Definition refinement {rng} (R : Random rng)
      (p : LocalMergingAlgorithm.params) (network : Network.t)
      (clustering : Clustering.t) (random : rng)
    : option (Clustering.t * rng) :=
    subnetworks ← Network.createSubnetworks network clustering;
    nodesPerCluster ← Clustering.getNodesPerCluster clustering;
    let refinement0 := Clustering.initializeBasedOnNNodes (Network.nNodes network) in
    '(cls, nC, random) ←
      for_range 0 (length subnetworks)
        (λ i '(cls, nC, random),
           sub ← aget subnetworks i;
           '(clusteringSubnetwork, random) ←
             LocalMergingAlgorithm.findClustering R p sub random;
           nodes ← aget nodesPerCluster i;
           cls ←
             for_range 0 (Network.nNodes sub)
               (λ j cls,
                  node ← aget nodes j;
                  cj ← aget (Clustering.clusters clusteringSubnetwork) j;
                  aset cls node (nC + cj))
               cls;
           Some (cls, nC + Clustering.nClusters clusteringSubnetwork, random))
        (Clustering.clusters refinement0, 0, random);
    Some (Clustering.mk cls nC (Network.nNodes network), random).

  (** The clustering of the reduced network with which the recursive call
      starts when the refinement has fewer clusters than the network has
      nodes: the refined cluster of node [i] is put into the cluster of node
      [i]. *)
Definition clusteringReducedNetwork (network : Network.t)
      (clustering refinement : Clustering.t) : option Clustering.t :=
    let c0 := Clustering.initializeBasedOnNNodes
                (Clustering.nClusters refinement) in
    cls ←
      for_range 0 (Network.nNodes network)
        (λ i cls,
           r ← aget (Clustering.clusters refinement) i;
           ci ← aget (Clustering.clusters clustering) i;
           aset cls r ci)
        (Clustering.clusters c0);
    Some (Clustering.mk cls (Clustering.nClusters clustering)
            (Clustering.nNodes c0)).

End LeidenAlgorithm.

(** * Arrays that the caller of the [Network] constructor shares with it *)

(** The constructor receives [edges] (an array of two arrays) and
    [edgeWeights] by reference and assigns to entries of [edges], so the
    arrays live in a heap: a location is the index of an object in the list
    of all objects, and [new Array] puts an object at the end. *)
Module Heap.

Abbreviation loc := nat.

Inductive object :=
  | Ints (a : list nat)     (* an array of node ids, [edges[0]] or [edges[1]] *)
  | Nums (a : list Q)       (* an array of weights *)
  | Refs (a : list loc).    (* an array of arrays, [edges] *)

Abbreviation heap := (list object).

Definition alloc (h : heap) (o : object) : heap * loc := (h ++ [o], length h).

Definition store (h : heap) (l : loc) (o : object) : heap := <[l:=o]> h.

Definition ints (h : heap) (l : loc) : option (list nat) :=
    match h !! l with Some (Ints a) => Some a | _ => None end.

Definition nums (h : heap) (l : loc) : option (list Q) :=
    match h !! l with Some (Nums a) => Some a | _ => None end.

Definition refs (h : heap) (l : loc) : option (list loc) :=
    match h !! l with Some (Refs a) => Some a | _ => None end.

  (** [edges[k]], read through the array of arrays at [edges]. *)
Definition row (h : heap) (edges : loc) (k : nat) : option (list nat) :=
    r ← refs h edges; l ← aget r k; ints h l.

  (** [edges[k] = a] for a newly made array [a]. *)
Definition set_row (h : heap) (edges : loc) (k : nat) (a : list nat)
    : option heap :=
    r ← refs h edges;
    let '(h, l) := alloc h (Ints a) in
    r ← aset r k l;
    Some (store h edges (Refs r)).

  (** The optional argument [edgeWeights]. *)
Definition weights (h : heap) (edgeWeights : option loc)
    : option (option (list Q)) :=
    match edgeWeights with
    | Some l => w ← nums h l; Some (Some w)
    | None => Some None
    end.

End Heap.

(** ** utils/arrays.ts: binarySearch *)

(** [(low + high) >>> 1] on unsigned 32-bit integers. *)
Definition ushr1 (x : Z) : Z := Z.shiftr (x mod 2 ^ 32) 1.

Fixpoint binarySearch_loop (fuel : nat) (sortedValues : list nat)
    (low high : Z) (key : nat) : option Z :=
  match fuel with
  | O => None
  | S fuel =>
      if decide (low ≤ high)%Z then
        let mid := ushr1 (low + high) in
        midVal ← aget sortedValues (Z.to_nat mid);
        if decide (midVal < key) then
          binarySearch_loop fuel sortedValues (mid + 1) high key
        else if decide (key < midVal) then
          binarySearch_loop fuel sortedValues low (mid - 1) key
        else Some mid
      else Some (- (low + 1))%Z
  end.

Definition binarySearch (sortedValues : list nat) (fromIndex toIndex key : nat)
  : option Z :=
  binarySearch_loop (toIndex - fromIndex + 1) sortedValues
    (Z.of_nat fromIndex) (Z.of_nat toIndex - 1) key.

(** * network.ts: the constructor from a list of edges *)

Module NetworkConstructor.
Import Heap.

  (** The first loop of [initializeNetworkBasedOnEdges]: every edge is
      copied, and an edge between two different nodes is copied a second time
      in the other direction.  The result is the three arrays and the number
      [i] of entries written. *)
Definition put_weight (w : option (list Q)) (w2 : option (list Q))
      (i j : nat) : option (option (list Q)) :=
    match w, w2 with
    | Some w, Some w2 => x ← aget w j; w2 ← aset w2 i x; Some (Some w2)
    | _, _ => Some w2
    end.

Definition symmetrize (e0 e1 : list nat) (w : option (list Q))
    : option (list nat * list nat * option (list Q) * nat) :=
    let m := length e0 in
    for_range 0 m
      (λ j '(a0, a1, w2, i),
         x ← aget e0 j;
         y ← aget e1 j;
         a0 ← aset a0 i x;
         a1 ← aset a1 i y;
         w2 ← put_weight w w2 i j;
         let i := i + 1 in
         if decide (x ≠ y) then
           a0 ← aset a0 i y;
           a1 ← aset a1 i x;
           w2 ← put_weight w w2 i j;
           Some (a0, a1, w2, i + 1)
         else Some (a0, a1, w2, i))
      (replicate (2 * m) 0, replicate (2 * m) 0,
       (λ _, replicate (2 * m) 0%Q) <$> w, 0).

  (** [compareEdges(edges, i, j) <= 0].  The indices that are compared are
      keys of [edges[0]]. *)
Definition compareEdges_le (e0 e1 : list nat) (i j : nat) : bool :=
    if decide (nth j e0 0 < nth i e0 0) then false
    else if decide (nth i e0 0 < nth j e0 0) then true
    else if decide (nth j e1 0 < nth i e1 0) then false
    else true.

  (** [Object.assign(target, source)] on arrays: the entries of [source]
      replace the first entries of [target]. *)
Definition assign {A} (target source : list A) : list A :=
    source ++ drop (length source) target.

Definition sortEdges (h : heap) (edges : loc) (edgeWeights : option loc)
    : option heap :=
    e0 ← row h edges 0;
    e1 ← row h edges 1;
    let nEdges := length e0 in
    let indices := js_sort (compareEdges_le e0 e1) (seq 0 nEdges) in
    '(s0, s1) ←
      for_range 0 nEdges
        (λ i '(s0, s1),
           k ← aget indices i;
           x ← aget e0 k;
           y ← aget e1 k;
           s0 ← aset s0 i x;
           s1 ← aset s1 i y;
           Some (s0, s1))
        (replicate nEdges 0, replicate nEdges 0);
    h ← set_row h edges 0 s0;
    h ← set_row h edges 1 s1;
    match edgeWeights with
    | Some lw =>
        w ← nums h lw;
        sorted ←
          for_range 0 nEdges
            (λ i sorted, k ← aget indices i; x ← aget w k; aset sorted i x)
            (replicate nEdges 0%Q);
        Some (store h lw (Nums (assign w sorted)))
    | None => Some h
    end.

  (** The part [if (!sortedEdges) { ... }]: it returns the heap and the
      array that the local variable [edgeWeights] refers to afterwards. *)
Definition prepare (h : heap) (edges : loc) (edgeWeights : option loc)
    : option (heap * option loc) :=
    e0 ← row h edges 0;
    e1 ← row h edges 1;
    w ← weights h edgeWeights;
    '(a0, a1, w2, i) ← symmetrize e0 e1 w;
    h ← set_row h edges 0 (take i a0);
    h ← set_row h edges 1 (take i a1);
    let '(h, edgeWeights) :=
      match w2 with
      | Some w2 => let '(h, l) := alloc h (Nums (take i w2)) in (h, Some l)
      | None => (h, edgeWeights)
      end in
    h ← sortEdges h edges edgeWeights;
    Some (h, edgeWeights).

  (** [for (; i <= bound; i++) firstNeighborIndices[i] = nEdges]. *)
Definition fill_until (fni : list nat) (i bound nEdges : nat)
    : option (list nat * nat) :=
    fni ← for_range i (bound + 1) (λ k fni, aset fni k nEdges) fni;
    Some (fni, i `max` (bound + 1)).

Definition edge_weight (w : option (list Q)) (j : nat) : option Q :=
    match w with Some w => aget w j | None => Some 1%Q end.

  (** The loop over the sorted edges that fills the arrays of the
      network. *)
Definition build (nNodes : nat) (e0 e1 : list nat) (w : option (list Q))
    : option (list nat * list nat * list Q * Q * nat) :=
    let m := length e0 in
    '(fni, neighbors, edgeWeights, selfLinks, nEdges, i) ←
      for_range 0 m
        (λ j '(fni, neighbors, edgeWeights, selfLinks, nEdges, i),
           a ← aget e0 j;
           b ← aget e1 j;
           if decide (a ≠ b) then
             '(fni, i) ← fill_until fni i a nEdges;
             neighbors ← aset neighbors nEdges b;
             wj ← edge_weight w j;
             edgeWeights ← aset edgeWeights nEdges wj;
             Some (fni, neighbors, edgeWeights, selfLinks, nEdges + 1, i)
           else
             wj ← edge_weight w j;
             Some (fni, neighbors, edgeWeights, (selfLinks + wj)%Q, nEdges, i))
        (replicate (nNodes + 1) 0, replicate m 0, replicate m 0%Q, 0%Q, 0, 1);
    '(fni, _) ← fill_until fni i nNodes nEdges;
    Some (fni, take nEdges neighbors, take nEdges edgeWeights, selfLinks,
          nEdges).

  (** [checkIntegrity]: [None] when an error is thrown. *)
Definition check (ok : bool) : option unit := if ok then Some () else None.

Definition check_sorted (net : Network.t) : option unit :=
    for_range 0 (Network.nNodes net)
      (λ i _,
         b ← aget (Network.firstNeighborIndices net) i;
         e ← aget (Network.firstNeighborIndices net) (i + 1);
         _ ← check (bool_decide (b ≤ e));
         for_range b e
           (λ j _,
              k ← aget (Network.neighbors net) j;
              _ ← check (bool_decide (k < Network.nNodes net));
              if decide (b < j) then
                l ← aget (Network.neighbors net) (j - 1);
                check (bool_decide (l < k))
              else Some ())
           ())
      ().

Definition check_both_directions (net : Network.t) : option unit :=
    checked ←
      for_range 0 (Network.nNodes net)
        (λ i checked,
           b ← aget (Network.firstNeighborIndices net) i;
           e ← aget (Network.firstNeighborIndices net) (i + 1);
           for_range b e
             (λ j checked,
                c ← aget checked j;
                if (c : bool) then Some checked
                else
                  k ← aget (Network.neighbors net) j;
                  bk ← aget (Network.firstNeighborIndices net) k;
                  ek ← aget (Network.firstNeighborIndices net) (k + 1);
                  l ← binarySearch (Network.neighbors net) bk ek i;
                  _ ← check (bool_decide (0 ≤ l)%Z);
                  wj ← aget (Network.edgeWeights net) j;
                  wl ← aget (Network.edgeWeights net) (Z.to_nat l);
                  _ ← check (Qeq_bool wj wl);
                  checked ← aset checked j true;
                  aset checked (Z.to_nat l) true)
             checked)
        (replicate (Network.nEdges net) false);
    Some ().

Definition checkIntegrity (net : Network.t) : option unit :=
    _ ← check (negb (bool_decide (Network.nEdges net mod 2 = 1)));
    _ ← check (bool_decide (length (Network.nodeWeights net)
                            = Network.nNodes net));
    _ ← check (bool_decide (length (Network.firstNeighborIndices net)
                            = Network.nNodes net + 1));
    f0 ← aget (Network.firstNeighborIndices net) 0;
    _ ← check (bool_decide (f0 = 0));
    fn ← aget (Network.firstNeighborIndices net) (Network.nNodes net);
    _ ← check (bool_decide (fn = Network.nEdges net));
    _ ← check (bool_decide (length (Network.neighbors net)
                            = Network.nEdges net));
    _ ← check (bool_decide (length (Network.edgeWeights net)
                            = Network.nEdges net));
    _ ← check_sorted net;
    check_both_directions net.

  (** [initializeNetworkBasedOnEdges].  [nodeWeights] is copied, so it is
      passed by value; [sortedEdges] and [checkIntegrity] are [false] when
      they are left out. *)
Definition initializeNetworkBasedOnEdges (h : heap) (nNodes : nat)
      (nodeWeights : option (list Q)) (setNodeWeightsToTotalEdgeWeights : bool)
      (edges : loc) (edgeWeights : option loc)
      (sortedEdges checkIntegrityFlag : bool) : option (heap * Network.t) :=
    '(h, edgeWeights) ←
      (if sortedEdges then Some (h, edgeWeights)
       else prepare h edges edgeWeights);
    e0 ← row h edges 0;
    e1 ← row h edges 1;
    w ← weights h edgeWeights;
    '(fni, neighbors, ews, selfLinks, nEdges) ← build nNodes e0 e1 w;
    let net0 := Network.mk nNodes [] fni neighbors ews selfLinks nEdges in
    nw ←
      match nodeWeights with
      | Some nw => Some nw
      | None =>
          if setNodeWeightsToTotalEdgeWeights
          then Network.getTotalEdgeWeightPerNodeHelper net0
          else Some (replicate nNodes 1%Q)
      end;
    let net := Network.mk nNodes nw fni neighbors ews selfLinks nEdges in
    _ ← (if checkIntegrityFlag then checkIntegrity net else Some ());
    Some (h, net).

  (** [initializeNetworkBasedOnNeighbors].  All arrays are copied. *)
Definition initializeNetworkBasedOnNeighbors (nNodes : nat)
      (nodeWeights : option (list Q)) (setNodeWeightsToTotalEdgeWeights : bool)
      (firstNeighborIndices neighbors : list nat)
      (edgeWeights : option (list Q)) (checkIntegrityFlag : bool)
    : option Network.t :=
    let nEdges := length neighbors in
    let ews := match edgeWeights with
               | Some w => w
               | None => replicate nEdges 1%Q
               end in
    let net0 := Network.mk nNodes [] firstNeighborIndices neighbors ews 0%Q
                  nEdges in
    nw ←
      match nodeWeights with
      | Some nw => Some nw
      | None =>
          if setNodeWeightsToTotalEdgeWeights
          then Network.getTotalEdgeWeightPerNodeHelper net0
          else Some (replicate nNodes 1%Q)
      end;
    let net := Network.mk nNodes nw firstNeighborIndices neighbors ews 0%Q
                 nEdges in
    _ ← (if checkIntegrityFlag then checkIntegrity net else Some ());
    Some net.

End NetworkConstructor.

(** The constructor on the edge list (2,0), (0,1), (1,1), (1,2) with the
    weights 5, 6, 7, 8: the caller holds the array of arrays at location 2
    and the weights at location 3. *)
Definition caller_heap : list Heap.object :=
  [Heap.Ints [2; 0; 1; 1]; Heap.Ints [0; 1; 1; 2]; Heap.Refs [0; 1];
   Heap.Nums [5; 6; 7; 8]%Q].

(** * layout.ts *)

(** Coordinates are real numbers.  A division by zero and the square root
    of a negative number give [NaN] or an infinity in the code; here they
    give [None], and so does every computation that uses such a value. *)
Module Layout.
Local Open Scope R_scope.

Definition rdiv (x y : R) : option R :=
    if Req_EM_T y 0 then None else Some (x / y).

Definition rsqrt (x : R) : option R :=
    if Rlt_dec x 0 then None else Some (sqrt x).

Definition Rle_bool (a b : R) : bool := if Rle_dec a b then true else false.

Definition Rlt_bool (a b : R) : bool := if Rlt_dec a b then true else false.

  (** utils/arrays.ts on arrays of coordinates. *)
Definition calcSum (values : list R) : R := fold_left Rplus values 0.

Definition calcAverage (values : list R) : option R :=
    rdiv (calcSum values) (INR (length values)).

  (** The comparator [(a, b) => a - b] orders the values increasingly. *)
Definition calcMedian (values : list R) : option R :=
    let sortedValues := js_sort Rle_bool values in
    let n := length sortedValues in
    if decide (n mod 2 = 1)%nat then aget sortedValues ((n - 1) / 2)%nat
    else
      if decide (n = 0)%nat then None
      else
        a ← aget sortedValues (n / 2 - 1)%nat;
        b ← aget sortedValues (n / 2)%nat;
        Some ((a + b) / 2).

Record t := mk {
    coordinates0 : list R;
    coordinates1 : list R;
    nNodes : nat;
  }.

  (** [this.coordinates[dimension]]. *)
Definition row (l : t) (dimension : nat) : option (list R) :=
    match dimension with
    | 0%nat => Some (coordinates0 l)
    | 1%nat => Some (coordinates1 l)
    | _ => None
    end.

Definition set_row (l : t) (dimension : nat) (values : list R) : option t :=
    match dimension with
    | 0%nat => Some (mk values (coordinates1 l) (nNodes l))
    | 1%nat => Some (mk (coordinates0 l) values (nNodes l))
    | _ => None
    end.

Definition initializeBasedOnCoordinates (c0 c1 : list R) : t :=
    mk c0 c1 (length c0).

Definition getAverageDistance (l : t) : option R :=
    averageDistance ←
      for_range 0 (nNodes l)
        (λ i averageDistance,
           for_range 0 i
             (λ j averageDistance,
                xi ← aget (coordinates0 l) i;
                xj ← aget (coordinates0 l) j;
                yi ← aget (coordinates1 l) i;
                yj ← aget (coordinates1 l) j;
                let distance1 := xi - xj in
                let distance2 := yi - yj in
                d ← rsqrt (distance1 * distance1 + distance2 * distance2);
                Some (averageDistance + d))
             averageDistance)
        0;
    rdiv averageDistance (INR (nNodes l) * (INR (nNodes l) - 1) / 2).

Definition flip (l : t) (dimension : nat) : option t :=
    values ← row l dimension;
    values ←
      for_range 0 (nNodes l)
        (λ i values, x ← aget values i; aset values i (x * -1)) values;
    set_row l dimension values.

  (** ** standardize, loop by loop *)

  (** The translation to the centre. *)
Definition center (l : t) : option t :=
    averageCoordinate1 ← calcAverage (coordinates0 l);
    averageCoordinate2 ← calcAverage (coordinates1 l);
    '(c0, c1) ←
      for_range 0 (nNodes l)
        (λ i '(c0, c1),
           x ← aget c0 i;
           c0 ← aset c0 i (x - averageCoordinate1);
           y ← aget c1 i;
           c1 ← aset c1 i (y - averageCoordinate2);
           Some (c0, c1))
        (coordinates0 l, coordinates1 l);
    Some (mk c0 c1 (nNodes l)).

  (** [variance1], [variance2] and [covariance]. *)
Definition moments (l : t) : option (R * R * R) :=
    '(variance1, variance2, covariance) ←
      for_range 0 (nNodes l)
        (λ i '(variance1, variance2, covariance),
           x ← aget (coordinates0 l) i;
           y ← aget (coordinates1 l) i;
           Some (variance1 + x * x, variance2 + y * y, covariance + x * y))
        (0, 0, 0);
    variance1 ← rdiv variance1 (INR (nNodes l));
    variance2 ← rdiv variance2 (INR (nNodes l));
    covariance ← rdiv covariance (INR (nNodes l));
    Some (variance1, variance2, covariance).

  (** The two normalized eigenvectors. *)
Definition eigenvectors (variance1 variance2 covariance : R)
    : option (R * R * R * R) :=
    let discriminant :=
      variance1 * variance1 + variance2 * variance2
      - 2 * variance1 * variance2 + 4 * covariance * covariance in
    root ← rsqrt discriminant;
    let eigenvalue1 := (variance1 + variance2 - root) / 2 in
    let eigenvalue2 := (variance1 + variance2 + root) / 2 in
    let normalizedEigenvector11 := variance1 + covariance - eigenvalue1 in
    let normalizedEigenvector12 := variance2 + covariance - eigenvalue1 in
    vectorLength ←
      rsqrt (normalizedEigenvector11 * normalizedEigenvector11
             + normalizedEigenvector12 * normalizedEigenvector12);
    normalizedEigenvector11 ← rdiv normalizedEigenvector11 vectorLength;
    normalizedEigenvector12 ← rdiv normalizedEigenvector12 vectorLength;
    let normalizedEigenvector21 := variance1 + covariance - eigenvalue2 in
    let normalizedEigenvector22 := variance2 + covariance - eigenvalue2 in
    vectorLength ←
      rsqrt (normalizedEigenvector21 * normalizedEigenvector21
             + normalizedEigenvector22 * normalizedEigenvector22);
    normalizedEigenvector21 ← rdiv normalizedEigenvector21 vectorLength;
    normalizedEigenvector22 ← rdiv normalizedEigenvector22 vectorLength;
    Some (normalizedEigenvector11, normalizedEigenvector12,
          normalizedEigenvector21, normalizedEigenvector22).

  (** The rotation onto the eigenvectors. *)
Definition rotate_onto (l : t) (e : R * R * R * R) : option t :=
    let '(e11, e12, e21, e22) := e in
    '(c0, c1) ←
      for_range 0 (nNodes l)
        (λ i '(c0, c1),
           coordinateOld1 ← aget c0 i;
           coordinateOld2 ← aget c1 i;
           c0 ← aset c0 i (e11 * coordinateOld1 + e12 * coordinateOld2);
           c1 ← aset c1 i (e21 * coordinateOld1 + e22 * coordinateOld2);
           Some (c0, c1))
        (coordinates0 l, coordinates1 l);
    Some (mk c0 c1 (nNodes l)).

  (** The reflections that make the medians non-positive. *)
Definition reflect (l : t) : option t :=
    for_range 0 2
      (λ i l,
         values ← row l i;
         median ← calcMedian values;
         if Rlt_bool 0 median then flip l i else Some l)
      l.

  (** The dilation. *)
Definition dilate (l : t) : option t :=
    averageDistance ← getAverageDistance l;
    '(c0, c1) ←
      for_range 0 (nNodes l)
        (λ i '(c0, c1),
           x ← aget c0 i;
           x ← rdiv x averageDistance;
           c0 ← aset c0 i x;
           y ← aget c1 i;
           y ← rdiv y averageDistance;
           c1 ← aset c1 i y;
           Some (c0, c1))
        (coordinates0 l, coordinates1 l);
    Some (mk c0 c1 (nNodes l)).

Definition standardize (standardizeDistances : bool) (l : t) : option t :=
    l ← center l;
    '(variance1, variance2, covariance) ← moments l;
    e ← eigenvectors variance1 variance2 covariance;
    l ← rotate_onto l e;
    l ← reflect l;
    if standardizeDistances then dilate l else Some l.

  (** [rotate(angle)], with the angle in degrees. *)
Definition rotate (l : t) (angle : R) : option t :=
    let sin := sin (- angle * PI / 180) in
    let cos := cos (- angle * PI / 180) in
    '(c0, c1) ←
      for_range 0 (nNodes l)
        (λ i '(c0, c1),
           coordinateOld1 ← aget c0 i;
           coordinateOld2 ← aget c1 i;
           c0 ← aset c0 i (cos * coordinateOld1 - sin * coordinateOld2);
           c1 ← aset c1 i (sin * coordinateOld1 + cos * coordinateOld2);
           Some (c0, c1))
        (coordinates0 l, coordinates1 l);
    Some (mk c0 c1 (nNodes l)).

  (** utils/arrays.ts on arrays of coordinates. *)
Definition calcMinimum (values : list R) : option R :=
    match values with
    | [] => None
    | v0 :: rest => Some (fold_left Rmin rest v0)
    end.

Definition calcMaximum (values : list R) : option R :=
    match values with
    | [] => None
    | v0 :: rest => Some (fold_left Rmax rest v0)
    end.

Definition getMinCoordinates (l : t) : option (R * R) :=
    m0 ← calcMinimum (coordinates0 l);
    m1 ← calcMinimum (coordinates1 l);
    Some (m0, m1).

Definition getMaxCoordinates (l : t) : option (R * R) :=
    m0 ← calcMaximum (coordinates0 l);
    m1 ← calcMaximum (coordinates1 l);
    Some (m0, m1).

End Layout.

(** The layout with node 0 at (1, -1) and node 1 at (-1, 1). *)
Definition diagonal_pair : Layout.t :=
  Layout.initializeBasedOnCoordinates [1; -1]%R [-1; 1]%R.

(** * Generic lemmas on arrays and loops *)

Section Arrays.
Context {A : Type}.
Implicit Types (a : list A) (i : nat) (v : A).

Lemma aset_lt a i v : i < length a → aset a i v = Some (<[i:=v]> a).
  Proof. intros H. unfold aset. by rewrite decide_True. Qed.

Lemma aset_le a i v : i ≤ length a → ∃ a', aset a i v = Some a'.
  Proof. intros H. unfold aset. repeat case_decide; try lia; eauto. Qed.

Lemma aset_inv a i v a' :
    aset a i v = Some a' →
    (i < length a ∧ a' = <[i:=v]> a) ∨ (i = length a ∧ a' = a ++ [v]).
  Proof.
    unfold aset. repeat case_decide; intros; simplify_eq; auto.
  Qed.

Lemma aset_lookup_eq a i v a' : aset a i v = Some a' → a' !! i = Some v.
  Proof.
    intros [[? ->]|[-> ->]]%aset_inv.
    - by apply list_lookup_insert_eq.
    - rewrite lookup_app_r by lia. by rewrite Nat.sub_diag.
  Qed.

Lemma aset_lookup_ne a i v a' k :
    aset a i v = Some a' → k ≠ i → k < length a → a' !! k = a !! k.
  Proof.
    intros [[? ->]|[-> ->]]%aset_inv ??.
    - by apply list_lookup_insert_ne.
    - by rewrite lookup_app_l.
  Qed.

Lemma aset_length a i v a' :
    aset a i v = Some a' → i < length a → length a' = length a.
  Proof.
    intros [[? ->]|[-> ->]]%aset_inv ?; [by rewrite length_insert | lia].
  Qed.

Lemma aset_length_ge a i v a' : aset a i v = Some a' → length a ≤ length a'.
  Proof.
    intros [[? ->]|[-> ->]]%aset_inv.
    - by rewrite length_insert.
    - rewrite length_app. lia.
  Qed.

Lemma aset_index_lt a i v a' : aset a i v = Some a' → i < length a'.
  Proof. intros H. eapply lookup_lt_Some, aset_lookup_eq, H. Qed.

Lemma aget_lt a i : i < length a → ∃ x, aget a i = Some x.
  Proof. intros H. by apply lookup_lt_is_Some_2. Qed.

Lemma aget_Some_lt a i x : aget a i = Some x → i < length a.
  Proof. apply lookup_lt_Some. Qed.
End Arrays.

Section Loops.
Context {St : Type}.
Implicit Types (body : nat → St → option St) (P : nat → St → Prop).

Lemma for_loop_total P body lo n s :
    P lo s →
    (∀ i s, lo ≤ i < lo + n → P i s → ∃ s', body i s = Some s' ∧ P (S i) s') →
    ∃ s', for_loop body lo n s = Some s' ∧ P (lo + n) s'.
  Proof.
    revert lo s. induction n as [|n IH]; intros lo s H0 Hstep; simpl.
    - exists s. by rewrite Nat.add_0_r.
    - destruct (Hstep lo s) as (s1 & -> & H1); [lia | done |]. simpl.
      destruct (IH (S lo) s1) as (s2 & -> & H2); [done | |].
      + intros i s' ? ?. apply Hstep; [lia | done].
      + exists s2. split; [done|]. by replace (lo + S n) with (S lo + n) by lia.
  Qed.

Lemma for_loop_partial P body lo n s s' :
    for_loop body lo n s = Some s' →
    P lo s →
    (∀ i s s', lo ≤ i < lo + n → P i s → body i s = Some s' → P (S i) s') →
    P (lo + n) s'.
  Proof.
    revert lo s. induction n as [|n IH]; intros lo s Hrun H0 Hstep; simpl in Hrun.
    - simplify_eq. by rewrite Nat.add_0_r.
    - destruct (body lo s) as [s1|] eqn:Hb; simpl in Hrun; [|done].
      replace (lo + S n) with (S lo + n) by lia.
      eapply IH; [done | |].
      + eapply Hstep; [|done|done]. lia.
      + intros i s2 s3 ? ? ?. eapply Hstep; [lia|done..].
  Qed.

Lemma for_range_total P body lo hi s :
    lo ≤ hi →
    P lo s →
    (∀ i s, lo ≤ i < hi → P i s → ∃ s', body i s = Some s' ∧ P (S i) s') →
    ∃ s', for_range lo hi body s = Some s' ∧ P hi s'.
  Proof.
    intros Hle H0 Hstep. unfold for_range.
    destruct (for_loop_total P body lo (hi - lo) s) as (s' & ? & ?); [done| |].
    - intros i s1 ? ?. apply Hstep; [lia|done].
    - exists s'. split; [done|]. by replace hi with (lo + (hi - lo)) by lia.
  Qed.

Lemma for_range_partial P body lo hi s s' :
    for_range lo hi body s = Some s' →
    lo ≤ hi →
    P lo s →
    (∀ i s s', lo ≤ i < hi → P i s → body i s = Some s' → P (S i) s') →
    P hi s'.
  Proof.
    intros Hrun Hle H0 Hstep. unfold for_range in Hrun.
    replace hi with (lo + (hi - lo)) by lia.
    eapply for_loop_partial; [done..|].
    intros i s1 s2 ? ? ?. eapply Hstep; [lia|done..].
  Qed.

Lemma for_range_empty body lo hi s : hi ≤ lo → for_range lo hi body s = Some s.
  Proof. intros H. unfold for_range. by replace (hi - lo) with 0 by lia. Qed.
End Loops.

(** * The clustering container *)

Module ClusteringFacts.
Import Clustering.

  (** Every stored cluster id is below [nClusters]. *)
Definition ranged (c : t) : Prop := Forall (λ x, x < nClusters c) (clusters c).

  (** The array of clusters has one entry per node. *)
Definition sized (c : t) : Prop := length (clusters c) = nNodes c.

Lemma calcMaximum_spec (l : list nat) m :
    calcMaximum l = Some m → Forall (λ x, x ≤ m) l ∧ m ∈ l.
  Proof.
    destruct l as [|v0 rest]; [done|]. simpl. intros [= <-].
    assert (∀ (r : list nat) a, a ≤ fold_left Nat.max r a
             ∧ Forall (λ x, x ≤ fold_left Nat.max r a) r
             ∧ (fold_left Nat.max r a = a ∨ fold_left Nat.max r a ∈ r)) as H.
    { induction r as [|x r IH]; intros a; simpl.
      - split; [lia|]. split; [constructor | by left].
      - destruct (IH (Nat.max a x)) as (H1 & H2 & H3).
        split; [lia|]. split.
        + constructor; [lia | done].
        + destruct H3 as [H3|H3].
          * rewrite H3. destruct (Nat.max_spec a x) as [[? ->]|[? ->]].
            -- right. by left.
            -- by left.
          * right. by right. }
    destruct (H rest v0) as (H1 & H2 & H3). split.
    - by constructor.
    - destruct H3 as [->|?]; [by left | by right].
  Qed.

Lemma singleton_ranged n : ranged (initializeBasedOnNNodes n).
  Proof.
    unfold ranged. simpl. apply Forall_forall. intros x Hx.
    apply elem_of_seq in Hx. lia.
  Qed.

Lemma singleton_sized n : sized (initializeBasedOnNNodes n).
  Proof. unfold sized. simpl. by rewrite length_seq. Qed.

Lemma fromClusters_ranged l c :
    initializeBasedOnClusters l = Some c → ranged c ∧ sized c.
  Proof.
    unfold initializeBasedOnClusters. intros H.
    destruct (calcMaximum l) as [m|] eqn:Hm; simplify_eq/=.
    destruct (calcMaximum_spec _ _ Hm) as [H1 _]. split; [|done].
    unfold ranged; simpl. eapply Forall_impl; [done|]. simpl. lia.
  Qed.

Lemma setCluster_ranged c node cluster c' :
    setCluster c node cluster = Some c' → ranged c → ranged c'.
  Proof.
    unfold setCluster, ranged. intros H Hr.
    destruct (aset (clusters c) node cluster) as [cl|] eqn:Hs; simplify_eq/=.
    assert (Forall (λ x, x < Nat.max (nClusters c) (cluster + 1)) (clusters c)) as Hr'.
    { eapply Forall_impl; [done|]. simpl. lia. }
    apply aset_inv in Hs as [[? ->]|[? ->]].
    - apply Forall_insert; [done | lia].
    - apply Forall_app. split; [done|]. constructor; [lia | constructor].
  Qed.

Lemma setCluster_sized c node cluster c' :
    setCluster c node cluster = Some c' → node < nNodes c → sized c → sized c'.
  Proof.
    unfold setCluster, sized. intros H Hn Hs.
    destruct (aset (clusters c) node cluster) as [cl|] eqn:Hset; simplify_eq/=.
    erewrite aset_length; [done..|lia].
  Qed.


  (** The relabelling loop shared by [removeEmptyClusters] and
      [orderClustersByWeight]: [clusters[k] = newClusters[clusters[k]]]. *)
Definition relabel (newClusters : list nat) (n : nat) (cls : list nat) :=
    for_range 0 n
      (λ k cls, ck ← aget cls k; n ← aget newClusters ck; aset cls k n) cls.

Lemma relabel_partial newClusters n cls cls' :
    relabel newClusters n cls = Some cls' →
    n ≤ length cls →
    length cls' = length cls ∧
    ∀ k, k < n → ∃ ck, cls !! k = Some ck ∧ cls' !! k = newClusters !! ck
                      ∧ is_Some (newClusters !! ck).
  Proof.
    intros Hrun Hn.
    pose (P := λ (i : nat) (s : list nat),
      length s = length cls ∧
      (∀ k, k < i → ∃ ck, cls !! k = Some ck ∧ s !! k = newClusters !! ck
                         ∧ is_Some (newClusters !! ck)) ∧
      (∀ k, i ≤ k → s !! k = cls !! k)).
    assert (P n cls') as (? & ? & ?); [|done].
    eapply (for_range_partial P); [exact Hrun | lia | |].
    - split; [done|]. split; [intros; lia | done].
    - intros i s s' Hi (Hlen & Hlo & Hhi) Hbody. unfold aget in Hbody.
      destruct (s !! i) as [ck|] eqn:Hck; simplify_eq/=.
      destruct (newClusters !! ck) as [v|] eqn:Hv; simplify_eq/=.
      assert (i < length s) by lia.
      rewrite aset_lt in Hbody by done. simplify_eq. split; [|split].
      + by rewrite length_insert.
      + intros k Hk. destruct (decide (k = i)) as [->|Hne].
        * exists ck. rewrite <- Hhi by lia. split; [done|].
          rewrite list_lookup_insert_eq by done. rewrite Hv. eauto.
        * rewrite list_lookup_insert_ne by done. apply Hlo. lia.
      + intros k Hk. rewrite list_lookup_insert_ne by lia. apply Hhi. lia.
  Qed.

Lemma relabel_total newClusters n cls :
    n ≤ length cls →
    (∀ k ck, k < n → cls !! k = Some ck → is_Some (newClusters !! ck)) →
    ∃ cls', relabel newClusters n cls = Some cls'.
  Proof.
    intros Hn Hdef.
    pose (P := λ (i : nat) (s : list nat),
      length s = length cls ∧ (∀ k, i ≤ k → s !! k = cls !! k)).
    destruct (for_range_total P
      (λ k cls, ck ← aget cls k; n ← aget newClusters ck; aset cls k n)
      0 n cls) as (s' & ? & _); [lia|done| |by eauto].
    intros i s Hi (Hlen & Hhi). unfold aget.
    destruct (lookup_lt_is_Some_2 cls i) as [ck Hck]; [lia|].
    rewrite Hhi by lia. rewrite Hck. simpl.
    destruct (Hdef i ck) as [v Hv]; [lia|done|]. rewrite Hv. simpl.
    rewrite aset_lt by lia. eexists; split; [done|]. split.
    - by rewrite length_insert.
    - intros k ?. rewrite list_lookup_insert_ne by lia. apply Hhi. lia.
  Qed.

End ClusteringFacts.

Module ClusteringOps.
Import Clustering ClusteringFacts.

  (** ** removeEmptyClusters *)

Definition mark_loop (c : t) :=
    for_range 0 (nNodes c)
      (λ i nonEmptyClusters,
         ci ← aget (clusters c) i; aset nonEmptyClusters ci true)
      (replicate (nClusters c) false).

Definition number_loop (c : t) (nonEmptyClusters : list bool) :=
    for_range 0 (nClusters c)
      (λ j '(newClusters, i),
         b ← aget nonEmptyClusters j;
         if b : bool then
           newClusters ← aset newClusters j i; Some (newClusters, i + 1)
         else Some (newClusters, i))
      (replicate (nClusters c) 0, 0).

Lemma removeEmptyClusters_unfold c :
    removeEmptyClusters c =
      nonEmptyClusters ← mark_loop c;
      '(newClusters, i) ← number_loop c nonEmptyClusters;
      clusters ← relabel newClusters (nNodes c) (clusters c);
      Some (mk clusters i (nNodes c)).
  Proof. reflexivity. Qed.

Lemma mark_loop_partial c ne :
    mark_loop c = Some ne →
    nClusters c ≤ length ne ∧
    ∀ k ck, k < nNodes c → clusters c !! k = Some ck → ne !! ck = Some true.
  Proof.
    intros Hrun.
    pose (P := λ (i : nat) (s : list bool),
      nClusters c ≤ length s ∧
      ∀ k ck, k < i → clusters c !! k = Some ck → s !! ck = Some true).
    assert (P (nNodes c) ne) as [? ?]; [|done].
    eapply (for_range_partial P); [exact Hrun | lia | |].
    - split; [by rewrite length_replicate | intros; lia].
    - intros i s s' Hi [Hlen Hlo] Hbody. unfold aget in Hbody.
      destruct (clusters c !! i) as [ci|] eqn:Hci; simplify_eq/=.
      split.
      + apply aset_length_ge in Hbody. lia.
      + intros k ck Hk Hck. destruct (decide (k = i)) as [->|Hne].
        * simplify_eq. by eapply aset_lookup_eq.
        * destruct (decide (ck = ci)) as [->|Hne'].
          -- by eapply aset_lookup_eq.
          -- assert (s !! ck = Some true) as Hs by (eapply Hlo; [|done]; lia).
             erewrite aset_lookup_ne; [done..|]. by eapply lookup_lt_Some.
  Qed.

Lemma mark_loop_total c :
    sized c → ranged c → ∃ ne, mark_loop c = Some ne.
  Proof.
    intros Hs Hr.
    pose (P := λ (i : nat) (s : list bool), length s = nClusters c).
    destruct (for_range_total P
      (λ i nonEmptyClusters,
         ci ← aget (clusters c) i; aset nonEmptyClusters ci true)
      0 (nNodes c) (replicate (nClusters c) false)) as (s' & ? & _);
      [lia | by unfold P; rewrite length_replicate | | by eauto].
    intros i s Hi Hlen. unfold aget, P in *.
    destruct (lookup_lt_is_Some_2 (clusters c) i) as [ci Hci];
      [unfold sized in Hs; lia|].
    rewrite Hci. simpl.
    assert (ci < nClusters c).
    { unfold ranged in Hr. rewrite Forall_lookup in Hr. by eapply Hr. }
    rewrite aset_lt by lia. eexists; split; [done|]. by rewrite length_insert.
  Qed.

Lemma number_loop_partial c ne newClusters i :
    number_loop c ne = Some (newClusters, i) →
    length newClusters = nClusters c ∧
    ∀ j, j < nClusters c → ne !! j = Some true →
         ∃ v, newClusters !! j = Some v ∧ v < i.
  Proof.
    intros Hrun.
    pose (P := λ (j : nat) (s : list nat * nat),
      length s.1 = nClusters c ∧
      ∀ k, k < j → ne !! k = Some true → ∃ v, s.1 !! k = Some v ∧ v < s.2).
    assert (P (nClusters c) (newClusters, i)) as [? ?]; [|done].
    eapply (for_range_partial P); [exact Hrun | lia | |].
    - split; [by simpl; rewrite length_replicate | intros; lia].
    - intros j [nc n] [nc' n'] Hj [Hlen Hlo] Hbody. simpl in *.
      unfold aget in Hbody.
      destruct (ne !! j) as [b|] eqn:Hb; simplify_eq/=.
      destruct b; simplify_eq/=.
      + rewrite aset_lt in Hbody by lia. simplify_eq/=. split.
        * cbn [fst snd]. by rewrite length_insert.
        * intros k Hk Hne. destruct (decide (k = j)) as [->|?].
          -- exists n. cbn [fst snd].
             rewrite list_lookup_insert_eq by lia. split; [done|lia].
          -- cbn [fst snd]. rewrite list_lookup_insert_ne by done.
             destruct (Hlo k) as (v & ? & ?); [lia|done|].
             exists v. split; [done|lia].
      + split; [done|]. intros k Hk Hne.
        destruct (decide (k = j)) as [->|?]; [congruence|].
        apply Hlo; [lia|done].
  Qed.

Lemma number_loop_total c ne :
    nClusters c ≤ length ne → ∃ r, number_loop c ne = Some r.
  Proof.
    intros Hne.
    pose (P := λ (j : nat) (s : list nat * nat), length s.1 = nClusters c).
    destruct (for_range_total P
      (λ j '(newClusters, i),
         b ← aget ne j;
         if b : bool then
           newClusters ← aset newClusters j i; Some (newClusters, i + 1)
         else Some (newClusters, i))
      0 (nClusters c) (replicate (nClusters c) 0, 0)) as (s' & ? & _);
      [lia | by unfold P; simpl; rewrite length_replicate | | by eauto].
    intros j [nc n] Hj Hlen. unfold aget, P in *. simpl in *.
    destruct (lookup_lt_is_Some_2 ne j) as [b Hb]; [lia|].
    rewrite Hb. simpl. destruct b.
    - rewrite aset_lt by lia. simpl. eexists; split; [done|].
      by simpl; rewrite length_insert.
    - eexists; split; done.
  Qed.

Lemma removeEmptyClusters_partial c c' :
    removeEmptyClusters c = Some c' → sized c →
    ranged c' ∧ sized c' ∧ nNodes c' = nNodes c.
  Proof.
    rewrite removeEmptyClusters_unfold. intros Hrun Hs.
    destruct (mark_loop c) as [ne|] eqn:Hmark; simplify_eq/=.
    destruct (number_loop c ne) as [[nc i]|] eqn:Hnum; simplify_eq/=.
    destruct (relabel nc (nNodes c) (clusters c)) as [cls|] eqn:Hrel;
      simplify_eq/=.
    apply mark_loop_partial in Hmark as [Hlen Hmark].
    apply number_loop_partial in Hnum as [Hlen' Hnum].
    apply relabel_partial in Hrel as [Hl Hrel]; [|unfold sized in Hs; lia].
    unfold ranged, sized in *. simpl. split; [|split; [congruence|done]].
    apply Forall_lookup. intros k v Hk.
    assert (k < nNodes c) as Hkn.
    { apply lookup_lt_Some in Hk. lia. }
    destruct (Hrel k Hkn) as (ck & Hck & Heq & [w Hw]).
    rewrite Hk in Heq.
    destruct (Hnum ck) as (v' & Hv' & ?).
    { apply lookup_lt_Some in Hw. lia. }
    { by eapply Hmark. }
    congruence.
  Qed.

Lemma removeEmptyClusters_total c :
    sized c → ranged c → ∃ c', removeEmptyClusters c = Some c'.
  Proof.
    intros Hs Hr. rewrite removeEmptyClusters_unfold.
    destruct (mark_loop_total c Hs Hr) as [ne Hmark]. rewrite Hmark. simpl.
    destruct (mark_loop_partial _ _ Hmark) as [Hlen _].
    destruct (number_loop_total c ne Hlen) as [[nc i] Hnum]. rewrite Hnum. simpl.
    destruct (number_loop_partial _ _ _ _ Hnum) as [Hlen' _].
    destruct (relabel_total nc (nNodes c) (clusters c)) as [cls Hrel].
    { unfold sized in Hs. lia. }
    { intros k ck Hk Hck. apply lookup_lt_is_Some_2. rewrite Hlen'.
      unfold ranged in Hr. rewrite Forall_lookup in Hr. by eapply Hr. }
    rewrite Hrel. simpl. eauto.
  Qed.

  (** ** orderClustersByWeight *)

Lemma sort_insert_Forall {A} (P : A → Prop) le x l :
    P x → Forall P l → Forall P (sort_insert le x l).
  Proof.
    intros Hx. induction 1 as [|y l Hy Hl IH]; simpl.
    - by repeat constructor.
    - destruct (le x y); repeat constructor; done.
  Qed.

Lemma js_sort_Forall {A} (P : A → Prop) le l :
    Forall P l → Forall P (js_sort le l).
  Proof.
    induction 1; simpl; [constructor | by apply sort_insert_Forall].
  Qed.

Lemma sort_insert_length {A} (le : A → A → bool) x l :
    length (sort_insert le x l) = S (length l).
  Proof. induction l as [|y l IH]; simpl; [done|]. destruct (le x y); simpl; lia. Qed.

Lemma js_sort_length {A} (le : A → A → bool) l :
    length (js_sort le l) = length l.
  Proof. induction l; simpl; [done|]. rewrite sort_insert_length. lia. Qed.

Lemma number_clusters_partial sorted i nc nc' i' :
    number_clusters sorted i nc = Some (nc', i') →
    Forall (λ v, v < i) nc → Forall (λ v, v < i') nc'.
  Proof.
    revert i nc. induction sorted as [|[cl w] rest IH]; intros i nc Hrun Hnc;
      simpl in Hrun.
    - by simplify_eq.
    - destruct (Qlt_bool 0 w); [|by simplify_eq].
      destruct (aset nc cl i) as [nc1|] eqn:Hset; simplify_eq/=.
      eapply IH; [done|].
      assert (Forall (λ v, v < i + 1) nc) as Hnc'.
      { eapply Forall_impl; [done|]. simpl. lia. }
      apply aset_inv in Hset as [[? ->]|[? ->]].
      + apply Forall_insert; [done|lia].
      + apply Forall_app. split; [done|]. repeat constructor. lia.
  Qed.

Lemma number_clusters_total sorted i nc :
    Forall (λ p, p.1 < length nc) sorted →
    ∃ r, number_clusters sorted i nc = Some r.
  Proof.
    revert i nc. induction sorted as [|[cl w] rest IH]; intros i nc Hs; simpl.
    - eauto.
    - destruct (Qlt_bool 0 w); [|eauto].
      inversion Hs as [|? ? Hcl Hrest]; subst. simpl in Hcl.
      rewrite aset_lt by done. simpl. apply IH.
      by rewrite length_insert.
  Qed.

Definition weights_loop (c : t) (nodeWeights : list Q) :=
    for_range 0 (nNodes c)
      (λ i clusterWeights,
         ci ← aget (clusters c) i;
         w ← aget nodeWeights i;
         aaddQ clusterWeights ci w)
      (replicate (nClusters c) 0%Q).

Definition numbering (c : t) (clusterWeights : list Q) :=
    match js_sort weight_ge (zip (seq 0 (nClusters c)) clusterWeights) with
    | [] => None
    | (cluster, _) :: rest =>
        newClusters ← aset (replicate (nClusters c) 0) cluster 0;
        number_clusters rest 1 newClusters
    end.

Lemma orderClustersByWeight_unfold c nodeWeights :
    orderClustersByWeight c nodeWeights =
      clusterWeights ← weights_loop c nodeWeights;
      '(newClusters, i) ← numbering c clusterWeights;
      clusters ← relabel newClusters (nNodes c) (clusters c);
      Some (mk clusters i (nNodes c)).
  Proof. reflexivity. Qed.

Lemma numbering_partial c cw nc i :
    numbering c cw = Some (nc, i) → Forall (λ v, v < i) nc.
  Proof.
    unfold numbering. intros Hrun.
    destruct (js_sort _ _) as [|[cl w] rest]; [done|].
    destruct (aset _ cl 0) as [nc0|] eqn:Hset; simplify_eq/=.
    eapply number_clusters_partial; [done|].
    apply aset_inv in Hset as [[? ->]|[? ->]].
    - apply Forall_insert; [|lia]. apply Forall_replicate. lia.
    - apply Forall_app. split; [apply Forall_replicate; lia|].
      repeat constructor.
  Qed.

Lemma orderClustersByWeight_partial c nodeWeights c' :
    orderClustersByWeight c nodeWeights = Some c' → sized c →
    ranged c' ∧ sized c' ∧ nNodes c' = nNodes c.
  Proof.
    rewrite orderClustersByWeight_unfold. intros Hrun Hs.
    destruct (weights_loop c nodeWeights) as [cw|]; simplify_eq/=.
    destruct (numbering c cw) as [[nc i]|] eqn:Hnum; simplify_eq/=.
    destruct (relabel nc (nNodes c) (clusters c)) as [cls|] eqn:Hrel;
      simplify_eq/=.
    apply numbering_partial in Hnum.
    apply relabel_partial in Hrel as [Hl Hrel]; [|unfold sized in Hs; lia].
    unfold ranged, sized in *. simpl. split; [|split; [congruence|done]].
    apply Forall_lookup. intros k v Hk.
    assert (k < nNodes c) as Hkn.
    { apply lookup_lt_Some in Hk. lia. }
    destruct (Hrel k Hkn) as (ck & Hck & Heq & [w Hw]).
    rewrite Hk in Heq. rewrite Forall_lookup in Hnum. eapply Hnum. by symmetry.
  Qed.

Lemma weights_loop_total c nodeWeights :
    sized c → ranged c → nNodes c ≤ length nodeWeights →
    ∃ cw, weights_loop c nodeWeights = Some cw ∧ length cw = nClusters c.
  Proof.
    intros Hs Hr Hw.
    pose (P := λ (i : nat) (s : list Q), length s = nClusters c).
    destruct (for_range_total P
      (λ i clusterWeights,
         ci ← aget (clusters c) i;
         w ← aget nodeWeights i;
         aaddQ clusterWeights ci w)
      0 (nNodes c) (replicate (nClusters c) 0%Q)) as (s' & ? & ?);
      [lia | by unfold P; rewrite length_replicate | | by eauto].
    intros i s Hi Hlen. unfold aget, aaddQ, P in *.
    destruct (lookup_lt_is_Some_2 (clusters c) i) as [ci Hci];
      [unfold sized in Hs; lia|].
    destruct (lookup_lt_is_Some_2 nodeWeights i) as [w Hwi]; [lia|].
    rewrite Hci, Hwi. simpl.
    assert (ci < nClusters c).
    { unfold ranged in Hr. rewrite Forall_lookup in Hr. by eapply Hr. }
    destruct (lookup_lt_is_Some_2 s ci) as [x Hx]; [lia|].
    unfold aget. rewrite Hx. simpl.
    rewrite aset_lt by lia. eexists; split; [done|]. by rewrite length_insert.
  Qed.

Lemma numbering_total c cw :
    0 < nClusters c → length cw = nClusters c →
    ∃ nc i, numbering c cw = Some (nc, i) ∧ length nc = nClusters c.
  Proof.
    intros Hpos Hlen. unfold numbering.
    assert (Forall (λ p : nat * Q, p.1 < nClusters c)
              (js_sort weight_ge (zip (seq 0 (nClusters c)) cw))) as Hall.
    { apply js_sort_Forall. apply Forall_forall. intros [a b] Hin.
      apply elem_of_zip_l in Hin. apply elem_of_seq in Hin. simpl. lia. }
    assert (length (js_sort weight_ge (zip (seq 0 (nClusters c)) cw))
            = nClusters c) as Hl.
    { rewrite js_sort_length, length_zip, length_seq. lia. }
    destruct (js_sort _ _) as [|[cl w] rest]; [simpl in Hl; lia|].
    inversion Hall as [|? ? Hcl Hrest]; subst. simpl in Hcl.
    rewrite aset_lt by (rewrite length_replicate; lia). simpl.
    destruct (number_clusters_total rest 1 (<[cl:=0]> (replicate (nClusters c) 0)))
      as [[nc i] Hn].
    { by rewrite length_insert, length_replicate. }
    exists nc, i. split; [done|].
    clear -Hn Hrest.
    assert (∀ sorted i nc nc' i',
      number_clusters sorted i nc = Some (nc', i') →
      Forall (λ p : nat * Q, p.1 < length nc) sorted →
      length nc' = length nc) as Hgen.
    { induction sorted as [|[cl' w'] rest' IH]; intros i0 nc0 nc' i' Hrun Hs;
        simpl in Hrun; [by simplify_eq|].
      destruct (Qlt_bool 0 w'); [|by simplify_eq].
      inversion Hs as [|? ? Hc Hr]; subst. simpl in Hc.
      rewrite aset_lt in Hrun by done. simpl in Hrun.
      apply IH in Hrun; [|by rewrite length_insert].
      by rewrite Hrun, length_insert. }
    erewrite Hgen; [|done|].
    - by rewrite length_insert, length_replicate.
    - by rewrite length_insert, length_replicate.
  Qed.

Lemma orderClustersByWeight_total c nodeWeights :
    sized c → ranged c → 0 < nClusters c → nNodes c ≤ length nodeWeights →
    ∃ c', orderClustersByWeight c nodeWeights = Some c'.
  Proof.
    intros Hs Hr Hpos Hw. rewrite orderClustersByWeight_unfold.
    destruct (weights_loop_total c nodeWeights Hs Hr Hw) as (cw & -> & Hlen).
    simpl.
    destruct (numbering_total c cw Hpos Hlen) as (nc & i & -> & Hl). simpl.
    destruct (relabel_total nc (nNodes c) (clusters c)) as [cls Hrel].
    { unfold sized in Hs. lia. }
    { intros k ck Hk Hck. apply lookup_lt_is_Some_2. rewrite Hl.
      unfold ranged in Hr. rewrite Forall_lookup in Hr. by eapply Hr. }
    rewrite Hrel. simpl. eauto.
  Qed.

  (** ** mergeClusters *)

Lemma mergeClusters_unfold c arg :
    mergeClusters c arg =
      clusters ← relabel (clusters arg) (nNodes c) (clusters c);
      Some (mk clusters (nClusters arg) (nNodes c)).
  Proof. reflexivity. Qed.

Lemma mergeClusters_partial c arg c' :
    mergeClusters c arg = Some c' → sized c → ranged arg →
    ranged c' ∧ sized c' ∧ nNodes c' = nNodes c.
  Proof.
    rewrite mergeClusters_unfold. intros Hrun Hs Hr.
    destruct (relabel _ _ _) as [cls|] eqn:Hrel; simplify_eq/=.
    apply relabel_partial in Hrel as [Hl Hrel]; [|unfold sized in Hs; lia].
    unfold ranged, sized in *. simpl. split; [|split; [congruence|done]].
    apply Forall_lookup. intros k v Hk.
    assert (k < nNodes c) as Hkn.
    { apply lookup_lt_Some in Hk. lia. }
    destruct (Hrel k Hkn) as (ck & Hck & Heq & [w Hw]).
    rewrite Hk in Heq. rewrite Forall_lookup in Hr. eapply Hr. by symmetry.
  Qed.

Lemma mergeClusters_total c arg :
    sized c → ranged c → nClusters c ≤ length (clusters arg) →
    ∃ c', mergeClusters c arg = Some c'.
  Proof.
    intros Hs Hr Hlen. rewrite mergeClusters_unfold.
    destruct (relabel_total (clusters arg) (nNodes c) (clusters c)) as [cls Hrel].
    { unfold sized in Hs. lia. }
    { intros k ck Hk Hck. apply lookup_lt_is_Some_2.
      unfold ranged in Hr. rewrite Forall_lookup in Hr.
      specialize (Hr _ _ Hck). simpl in Hr. lia. }
    rewrite Hrel. simpl. eauto.
  Qed.

End ClusteringOps.

(** * Finite sums of rationals *)

(** [sumN f n] is the sum of [f i] for [i < n]; [sumR f lo hi] the sum for
    [lo <= i < hi]. *)
Fixpoint sumN (f : nat → Q) (n : nat) : Q :=
  match n with
  | O => 0
  | S n => sumN f n + f n
  end%Q.

Definition sumR (f : nat → Q) (lo hi : nat) : Q :=
  sumN (λ k, f (lo + k)) (hi - lo).

(** The indicator of a decidable proposition. *)
Definition ind (P : Prop) `{Decision P} : Q := if decide P then 1%Q else 0%Q.

Section Sums.
Implicit Types (f g : nat → Q).

Lemma sumN_ext f g n :
    (∀ i, i < n → (f i == g i)%Q) → (sumN f n == sumN g n)%Q.
  Proof.
    induction n as [|n IH]; intros H; simpl; [reflexivity|].
    rewrite IH by (intros; apply H; lia). rewrite (H n) by lia. reflexivity.
  Qed.

Lemma sumN_zero f n : (∀ i, i < n → (f i == 0)%Q) → (sumN f n == 0)%Q.
  Proof.
    induction n as [|n IH]; intros H; simpl; [reflexivity|].
    rewrite IH by (intros; apply H; lia). rewrite (H n) by lia. ring.
  Qed.

Lemma sumN_plus f g n :
    (sumN (λ i, f i + g i) n == sumN f n + sumN g n)%Q.
  Proof. induction n as [|n IH]; simpl; [ring|]. rewrite IH. ring. Qed.

Lemma sumN_minus f g n :
    (sumN (λ i, f i - g i) n == sumN f n - sumN g n)%Q.
  Proof. induction n as [|n IH]; simpl; [ring|]. rewrite IH. ring. Qed.

Lemma sumN_scal c f n : (sumN (λ i, c * f i) n == c * sumN f n)%Q.
  Proof. induction n as [|n IH]; simpl; [ring|]. rewrite IH. ring. Qed.

Lemma sumN_scal_r c f n : (sumN (λ i, f i * c) n == sumN f n * c)%Q.
  Proof. induction n as [|n IH]; simpl; [ring|]. rewrite IH. ring. Qed.

Lemma sumN_swap (h : nat → nat → Q) n m :
    (sumN (λ i, sumN (λ j, h i j) m) n == sumN (λ j, sumN (λ i, h i j) n) m)%Q.
  Proof.
    induction n as [|n IH]; simpl.
    - symmetry. apply sumN_zero. reflexivity.
    - rewrite IH. rewrite <- sumN_plus. reflexivity.
  Qed.

Lemma sumN_nonneg f n : (∀ i, i < n → (0 <= f i)%Q) → (0 <= sumN f n)%Q.
  Proof.
    induction n as [|n IH]; intros H; simpl; [lra|].
    assert (0 <= sumN f n)%Q by (apply IH; intros; apply H; lia).
    assert (0 <= f n)%Q by (apply H; lia). lra.
  Qed.

Lemma sumN_le f g n :
    (∀ i, i < n → (f i <= g i)%Q) → (sumN f n <= sumN g n)%Q.
  Proof.
    induction n as [|n IH]; intros H; simpl; [lra|].
    assert (sumN f n <= sumN g n)%Q by (apply IH; intros; apply H; lia).
    assert (f n <= g n)%Q by (apply H; lia). lra.
  Qed.

  (** Summing an indicator of a single index picks one term. *)
Lemma sumN_delta f n m :
    m < n → (sumN (λ j, if decide (m = j) then f j else 0) n == f m)%Q.
  Proof.
    induction n as [|n IH]; intros H; [lia|]. simpl.
    destruct (decide (m = n)) as [->|Hne].
    - rewrite sumN_zero; [ring|]. intros i Hi.
      destruct (decide (n = i)); [lia|reflexivity].
    - rewrite IH by lia. ring.
  Qed.

Lemma sumN_delta' f n m :
    m < n → (sumN (λ j, if decide (j = m) then f j else 0) n == f m)%Q.
  Proof.
    intros H. rewrite <- (sumN_delta f n m H). apply sumN_ext. intros i _.
    destruct (decide (i = m)), (decide (m = i)); try lia; reflexivity.
  Qed.

Lemma sumN_front f n :
    (sumN f (S n) == f 0%nat + sumN (λ i, f (S i)) n)%Q.
  Proof.
    induction n as [|n IH]; [simpl; ring|].
    change (sumN f (S (S n))) with (sumN f (S n) + f (S n))%Q.
    rewrite IH. simpl. ring.
  Qed.

Lemma sumR_ext f g lo hi :
    (∀ i, lo ≤ i < hi → (f i == g i)%Q) → (sumR f lo hi == sumR g lo hi)%Q.
  Proof. intros H. apply sumN_ext. intros i Hi. apply H. lia. Qed.

Lemma sumR_empty f lo hi : hi ≤ lo → sumR f lo hi = 0%Q.
  Proof. intros H. unfold sumR. by replace (hi - lo) with 0 by lia. Qed.

Lemma sumR_S f lo hi :
    lo ≤ hi → (sumR f lo (S hi) == sumR f lo hi + f hi)%Q.
  Proof.
    intros H. unfold sumR. replace (S hi - lo) with (S (hi - lo)) by lia.
    simpl. replace (lo + (hi - lo)) with hi by lia. reflexivity.
  Qed.

Lemma sumR_0 f n : sumR f 0 n = sumN f n.
  Proof. unfold sumR. by rewrite Nat.sub_0_r. Qed.

Lemma sumR_split f lo mid hi :
    lo ≤ mid → mid ≤ hi →
    (sumR f lo hi == sumR f lo mid + sumR f mid hi)%Q.
  Proof.
    intros H1 H2. induction hi as [|hi IH].
    - assert (mid = 0) by lia. assert (lo = 0) by lia. subst.
      rewrite !sumR_empty by lia. ring.
    - destruct (decide (mid = S hi)) as [->|Hne].
      + rewrite (sumR_empty f (S hi)) by lia. ring.
      + rewrite !sumR_S by lia. rewrite IH by lia. ring.
  Qed.

Lemma sumR_zero f lo hi :
    (∀ i, lo ≤ i < hi → (f i == 0)%Q) → (sumR f lo hi == 0)%Q.
  Proof. intros H. apply sumN_zero. intros i Hi. apply H. lia. Qed.

Lemma sumR_plus f g lo hi :
    (sumR (λ i, f i + g i) lo hi == sumR f lo hi + sumR g lo hi)%Q.
  Proof. apply sumN_plus. Qed.

Lemma sumR_nonneg f lo hi :
    (∀ i, lo ≤ i < hi → (0 <= f i)%Q) → (0 <= sumR f lo hi)%Q.
  Proof. intros H. apply sumN_nonneg. intros i Hi. apply H. lia. Qed.

Lemma sumN_sumR_swap (h : nat → nat → Q) n lo hi :
    (sumN (λ j, sumR (λ k, h j k) lo hi) n
     == sumR (λ k, sumN (λ j, h j k) n) lo hi)%Q.
  Proof. apply sumN_swap. Qed.

Lemma fold_left_Qplus (l : list Q) (a : Q) :
    (fold_left Qplus l a == a + sumN (λ i, nth i l 0) (length l))%Q.
  Proof.
    revert a. induction l as [|x l IH]; intros a; simpl fold_left.
    - simpl. ring.
    - rewrite IH. change (length (x :: l)) with (S (length l)).
      rewrite sumN_front. simpl nth. ring.
  Qed.

Lemma calcSum_sumN (l : list Q) :
    (calcSum l == sumN (λ i, nth i l 0) (length l))%Q.
  Proof. unfold calcSum. rewrite fold_left_Qplus. ring. Qed.
End Sums.

(** Loops that add one term per round. *)
Lemma for_range_sum (g : nat → Q → option Q) (f : nat → Q) lo hi a0 :
  lo ≤ hi →
  (∀ k a, lo ≤ k < hi → ∃ a', g k a = Some a' ∧ (a' == a + f k)%Q) →
  ∃ r, for_range lo hi g a0 = Some r ∧ (r == a0 + sumR f lo hi)%Q.
Proof.
  intros Hle Hg.
  apply (for_range_total (λ i a, (a == a0 + sumR f lo i)%Q)); [done| |].
  - rewrite sumR_empty by lia. ring.
  - intros i a Hi Ha. destruct (Hg i a Hi) as (a' & -> & Ha').
    exists a'. split; [done|]. rewrite sumR_S by lia. rewrite Ha', Ha. ring.
Qed.

(** Boolean comparisons on rationals. *)
Lemma Qlt_bool_true x y : Qlt_bool x y = true ↔ (x < y)%Q.
Proof.
  unfold Qlt_bool. rewrite negb_true_iff. split.
  - intros H. apply Qnot_le_lt. intros Hle.
    apply Qle_bool_iff in Hle. congruence.
  - intros H. destruct (Qle_bool y x) eqn:E; [|done].
    apply Qle_bool_iff in E. lra.
Qed.

Lemma Qlt_bool_false x y : Qlt_bool x y = false ↔ (y <= x)%Q.
Proof.
  unfold Qlt_bool. rewrite negb_false_iff. apply Qle_bool_iff.
Qed.

Lemma Qis0_true x : Qis0 x = true ↔ (x == 0)%Q.
Proof. unfold Qis0. apply Qeq_bool_iff. Qed.

Lemma Qis0_false x : Qis0 x = false ↔ ¬ (x == 0)%Q.
Proof.
  unfold Qis0. split.
  - intros H E. apply Qeq_bool_iff in E. congruence.
  - intros H. destruct (Qeq_bool x 0) eqn:E; [|done].
    apply Qeq_bool_iff in E. done.
Qed.

Lemma qdiv_Some x y : ¬ (y == 0)%Q → qdiv x y = Some (x / y)%Q.
Proof. intros H. unfold qdiv. apply Qis0_false in H. by rewrite H. Qed.

Lemma qdiv_None x y : (y == 0)%Q → qdiv x y = None.
Proof. intros H. unfold qdiv. apply Qis0_true in H. by rewrite H. Qed.

Lemma lookup_nth {A} (l : list A) i d : i < length l → l !! i = Some (nth i l d).
Proof.
  intros H. destruct (lookup_lt_is_Some_2 l i H) as [x Hx]. rewrite Hx.
  f_equal. symmetry. by apply nth_lookup_Some.
Qed.

Lemma aget_nth {A} (l : list A) i d : i < length l → aget l i = Some (nth i l d).
Proof. apply lookup_nth. Qed.

Lemma lookup_nth_eq {A} (l : list A) i d x : l !! i = Some x → nth i l d = x.
Proof. apply nth_lookup_Some. Qed.

Lemma nth_insert_eq {A} (l : list A) i v d :
  i < length l → nth i (<[i:=v]> l) d = v.
Proof. intros H. apply lookup_nth_eq. by apply list_lookup_insert_eq. Qed.

Lemma nth_insert_ne {A} (l : list A) i j v d :
  i ≠ j → nth j (<[i:=v]> l) d = nth j l d.
Proof.
  intros H. rewrite !nth_lookup. by rewrite list_lookup_insert_ne.
Qed.

Lemma nth_replicate_lt {A} (x d : A) n i : i < n → nth i (replicate n x) d = x.
Proof. intros H. apply lookup_nth_eq. by apply lookup_replicate_2. Qed.

(** * Well-formed networks *)

Module NetworkFacts.
Import Network.

  (** Total accessors for the arrays of a network. *)
Definition fni (net : t) (i : nat) : nat := nth i (firstNeighborIndices net) 0.
Definition nbr (net : t) (k : nat) : nat := nth k (neighbors net) 0.
Definition ew (net : t) (k : nat) : Q := nth k (edgeWeights net) 0%Q.
Definition nw (net : t) (i : nat) : Q := nth i (nodeWeights net) 0%Q.

  (** The compressed sparse row shape that [checkIntegrity] tests: array
      lengths, offsets starting at 0, ending at [nEdges] and
      non-decreasing, neighbour ids below [nNodes]. *)
Record wf (net : t) : Prop := {
    wf_nodeWeights : length (nodeWeights net) = nNodes net;
    wf_fni_length : length (firstNeighborIndices net) = nNodes net + 1;
    wf_fni_0 : fni net 0 = 0;
    wf_fni_last : fni net (nNodes net) = nEdges net;
    wf_fni_mono : ∀ i, i < nNodes net → fni net i ≤ fni net (i + 1);
    wf_neighbors_length : length (neighbors net) = nEdges net;
    wf_edgeWeights_length : length (edgeWeights net) = nEdges net;
    wf_neighbors_range : ∀ k, k < nEdges net → nbr net k < nNodes net;
  }.

  (** No node is its own neighbour. *)
Definition no_self_loops (net : t) : Prop :=
    ∀ i k, i < nNodes net → fni net i ≤ k < fni net (i + 1) → nbr net k ≠ i.

  (** The neighbours of every node are listed in increasing order, without
      duplicates. *)
Definition sorted_neighbors (net : t) : Prop :=
    ∀ i k k', i < nNodes net → fni net i ≤ k → k < k' → k' < fni net (i + 1) →
              nbr net k < nbr net k'.

  (** [adj net i j] is the weight [a_ij] of the edge from [i] to [j]. *)
Definition adj (net : t) (i j : nat) : Q :=
    sumR (λ k, if decide (nbr net k = j) then ew net k else 0%Q)
      (fni net i) (fni net (i + 1)).

  (** Every edge is stored in both directions with the same weight. *)
Definition symmetric (net : t) : Prop :=
    ∀ i j, i < nNodes net → j < nNodes net → (adj net i j == adj net j i)%Q.

Definition nonneg_edges (net : t) : Prop :=
    ∀ k, k < nEdges net → (0 <= ew net k)%Q.

Section WF.
Context (net : t) (Hwf : wf net).

Lemma fni_lookup i : i ≤ nNodes net →
      aget (firstNeighborIndices net) i = Some (fni net i).
    Proof. intros H. apply lookup_nth. rewrite (wf_fni_length _ Hwf). lia. Qed.

Lemma nbr_lookup k : k < nEdges net →
      aget (neighbors net) k = Some (nbr net k).
    Proof. intros H. apply lookup_nth. by rewrite (wf_neighbors_length _ Hwf). Qed.

Lemma ew_lookup k : k < nEdges net →
      aget (edgeWeights net) k = Some (ew net k).
    Proof. intros H. apply lookup_nth. by rewrite (wf_edgeWeights_length _ Hwf). Qed.

Lemma nw_lookup i : i < nNodes net →
      aget (nodeWeights net) i = Some (nw net i).
    Proof. intros H. apply lookup_nth. by rewrite (wf_nodeWeights _ Hwf). Qed.

Lemma fni_mono i j : i ≤ j → j ≤ nNodes net → fni net i ≤ fni net j.
    Proof.
      intros Hij Hj. induction j as [|j IH]; [by replace i with 0 by lia|].
      destruct (decide (i = S j)) as [->|]; [done|].
      pose proof (wf_fni_mono _ Hwf j). replace (j + 1) with (S j) in * by lia.
      lia.
    Qed.

Lemma fni_le_nEdges i : i ≤ nNodes net → fni net i ≤ nEdges net.
    Proof. intros H. rewrite <- (wf_fni_last _ Hwf). by apply fni_mono. Qed.

Lemma slice_lt i k :
      i < nNodes net → k < fni net (i + 1) → k < nEdges net.
    Proof. intros Hi Hk. pose proof (fni_le_nEdges (i + 1)). lia. Qed.

Lemma slice_le i : i < nNodes net → fni net i ≤ fni net (i + 1).
    Proof. apply (wf_fni_mono _ Hwf). Qed.

    (** Summing over the slices of all nodes is summing over all edges. *)
Lemma sum_slices (f : nat → Q) m :
      m ≤ nNodes net →
      (sumN (λ i, sumR f (fni net i) (fni net (i + 1))) m
       == sumR f 0 (fni net m))%Q.
    Proof.
      induction m as [|m IH]; intros Hm; simpl.
      - rewrite (wf_fni_0 _ Hwf). rewrite sumR_empty by lia. reflexivity.
      - rewrite IH by lia. replace (m + 1) with (S m) by lia.
        symmetry. apply sumR_split; [lia|].
        pose proof (slice_le m). replace (m + 1) with (S m) in * by lia. lia.
    Qed.

    (** Row sums of the adjacency weights. *)
Lemma adj_row_sum (g : nat → Q) i :
      i < nNodes net →
      (sumN (λ j, g j * adj net i j) (nNodes net)
       == sumR (λ k, g (nbr net k) * ew net k) (fni net i) (fni net (i + 1)))%Q.
    Proof.
      intros Hi. unfold adj.
      transitivity (sumN (λ j, sumR (λ k,
         if decide (nbr net k = j) then g j * ew net k else 0)
         (fni net i) (fni net (i + 1))) (nNodes net))%Q.
      { apply sumN_ext. intros j Hj. unfold sumR. rewrite <- sumN_scal.
        apply sumN_ext. intros k Hk. case_decide; ring. }
      rewrite sumN_sumR_swap. apply sumR_ext. intros k Hk.
      rewrite <- (sumN_delta (λ j, g j * ew net k)%Q (nNodes net) (nbr net k)).
      - apply sumN_ext. intros j Hj.
        destruct (decide (nbr net k = j)); reflexivity.
      - apply (wf_neighbors_range _ Hwf). eapply slice_lt; [done|lia].
    Qed.
End WF.

End NetworkFacts.

(** * The CPM quality function *)

Module QualityFacts.
Import NetworkFacts ClusteringFacts.

  (** The cluster of node [i] in an array of clusters. *)
Definition cid (cls : list nat) (i : nat) : nat := nth i cls 0.

Definition cl (c : Clustering.t) (i : nat) : nat := cid (Clustering.clusters c) i.

Lemma cid_insert_eq cls j b : j < length cls → cid (<[j:=b]> cls) j = b.
  Proof. apply nth_insert_eq. Qed.

Lemma cid_insert_ne cls j b i : j ≠ i → cid (<[j:=b]> cls) i = cid cls i.
  Proof. apply nth_insert_ne. Qed.

Lemma cid_lookup cls i : i < length cls → aget cls i = Some (cid cls i).
  Proof. apply aget_nth. Qed.

  (** A clustering of the nodes of a network. *)
Record clustering_of (net : Network.t) (c : Clustering.t) : Prop := {
    co_length : length (Clustering.clusters c) = Network.nNodes net;
    co_nNodes : Clustering.nNodes c = Network.nNodes net;
    co_ranged : ranged c;
  }.

Lemma cl_lookup net c i :
    clustering_of net c → i < Network.nNodes net →
    aget (Clustering.clusters c) i = Some (cl c i).
  Proof. intros H Hi. apply lookup_nth. by rewrite (co_length _ _ H). Qed.

Lemma cl_lt net c i :
    clustering_of net c → i < Network.nNodes net →
    cl c i < Clustering.nClusters c.
  Proof.
    intros H Hi. pose proof (co_ranged _ _ H) as Hr. unfold ranged in Hr.
    rewrite Forall_lookup in Hr. eapply Hr. by eapply cl_lookup.
  Qed.

  (** The total node weight of cluster [k]. *)
Definition clusterWeight (net : Network.t) (c : Clustering.t) (k : nat) : Q :=
    sumN (λ i, if decide (cl c i = k) then nw net i else 0%Q) (Network.nNodes net).

  (** The total weight [W] of the undirected edges: every edge has two
      entries [a_ij] and [a_ji]. *)
Definition totalUndirected (net : Network.t) : Q :=
    (sumN (λ i, sumN (λ j, adj net i j) (Network.nNodes net))
       (Network.nNodes net) / 2)%Q.

  (** The quality function as the specification writes it. *)
Definition cpm_numerator (resolution : Q) (net : Network.t)
      (c : Clustering.t) : Q :=
    (sumN (λ i, sumN (λ j, if decide (cl c i = cl c j) then adj net i j else 0)
                  (Network.nNodes net)) (Network.nNodes net)
     + Network.totalEdgeWeightSelfLinks net
     - resolution * sumN (λ k, clusterWeight net c k * clusterWeight net c k)
                      (Clustering.nClusters c))%Q.

Definition cpm_denominator (net : Network.t) : Q :=
    (2 * totalUndirected net + Network.totalEdgeWeightSelfLinks net)%Q.

Definition cpm_quality (resolution : Q) (net : Network.t) (c : Clustering.t) : Q :=
    (cpm_numerator resolution net c / cpm_denominator net)%Q.

  (** The loop that adds node weights to the weight of their cluster. *)
Lemma accumulate_loop (cls : list nat) (xs : list Q) n K :
    n ≤ length cls → n ≤ length xs →
    (∀ i, i < n → nth i cls 0 < K) →
    ∃ cw,
      for_range 0 n
        (λ i cw, ci ← aget cls i; w ← aget xs i; aaddQ cw ci w)
        (replicate K 0%Q) = Some cw
      ∧ length cw = K
      ∧ ∀ k, k < K →
          (nth k cw 0 == sumN (λ i, if decide (nth i cls 0%nat = k)
                                    then nth i xs 0 else 0) n)%Q.
  Proof.
    intros Hc Hx Hr.
    pose (P := λ (m : nat) (cw : list Q),
      length cw = K ∧
      ∀ k, k < K →
        (nth k cw 0 == sumN (λ i, if decide (nth i cls 0%nat = k)
                                  then nth i xs 0 else 0) m)%Q).
    destruct (for_range_total P
      (λ i cw, ci ← aget cls i; w ← aget xs i; aaddQ cw ci w)
      0 n (replicate K 0%Q)) as (cw & Hrun & Hlen & Hval); [lia| | |by eauto].
    - split; [by rewrite length_replicate|]. intros k Hk. simpl.
      rewrite (lookup_nth_eq (replicate K 0%Q) k 0%Q 0%Q)
        by (by apply lookup_replicate_2).
      reflexivity.
    - intros i cw Hi [Hlen Hval]. unfold aaddQ, aget.
      rewrite (lookup_nth cls i 0) by lia. simpl.
      rewrite (lookup_nth xs i 0%Q) by lia. simpl.
      specialize (Hr i ltac:(lia)).
      rewrite (lookup_nth cw (nth i cls 0) 0%Q) by lia. simpl.
      rewrite aset_lt by lia. eexists; split; [done|]. split.
      + by rewrite length_insert.
      + intros k Hk. simpl. destruct (decide (nth i cls 0 = k)) as [<-|Hne].
        * rewrite nth_insert_eq by lia. rewrite Hval by done. reflexivity.
        * rewrite nth_insert_ne by done. rewrite Hval by done. ring.
  Qed.

End QualityFacts.

Module CPMFacts.
Import NetworkFacts ClusteringFacts QualityFacts.
Import CPMClusteringAlgorithm.

  (** The three loops of [calcQuality]. *)
Definition edges_loop (network : Network.t) (clustering : Clustering.t) :=
    for_range 0 (Network.nNodes network)
      (λ i quality,
         j ← aget (Clustering.clusters clustering) i;
         b ← aget (Network.firstNeighborIndices network) i;
         e ← aget (Network.firstNeighborIndices network) (i + 1);
         for_range b e
           (λ k quality,
              nb ← aget (Network.neighbors network) k;
              cnb ← aget (Clustering.clusters clustering) nb;
              if decide (cnb = j) then
                w ← aget (Network.edgeWeights network) k;
                Some (quality + w)%Q
              else Some quality)
           quality)
      0%Q.

Definition weights_loop (network : Network.t) (clustering : Clustering.t) :=
    for_range 0 (Network.nNodes network)
      (λ i clusterWeights,
         ci ← aget (Clustering.clusters clustering) i;
         w ← aget (Network.nodeWeights network) i;
         aaddQ clusterWeights ci w)
      (replicate (Clustering.nClusters clustering) 0%Q).

Definition penalty_loop (resolution : Q) (clustering : Clustering.t)
      (clusterWeights : list Q) (quality : Q) :=
    for_range 0 (Clustering.nClusters clustering)
      (λ i quality,
         cw ← aget clusterWeights i;
         Some (quality - cw * cw * resolution)%Q)
      quality.

Lemma calcQuality_unfold resolution network clustering :
    calcQuality resolution network clustering =
      quality ← edges_loop network clustering;
      clusterWeights ← weights_loop network clustering;
      quality ← penalty_loop resolution clustering clusterWeights
                  (quality + Network.totalEdgeWeightSelfLinks network)%Q;
      qdiv quality
        (2 * Network.getTotalEdgeWeight network
         + Network.totalEdgeWeightSelfLinks network)%Q.
  Proof. reflexivity. Qed.

  (** The value of the first loop. *)
Definition edge_term (net : Network.t) (c : Clustering.t) : Q :=
    sumN (λ i, sumR (λ k, if decide (cl c (nbr net k) = cl c i)
                          then ew net k else 0%Q)
                 (fni net i) (fni net (i + 1))) (Network.nNodes net).

Section Quality.
Context (net : Network.t) (c : Clustering.t).
Context (Hwf : wf net) (Hc : clustering_of net c).

Lemma edges_loop_value :
      ∃ q, edges_loop net c = Some q ∧ (q == edge_term net c)%Q.
    Proof.
      unfold edges_loop, edge_term.
      destruct (for_range_sum
        (λ i quality,
         j ← aget (Clustering.clusters c) i;
         b ← aget (Network.firstNeighborIndices net) i;
         e ← aget (Network.firstNeighborIndices net) (i + 1);
         for_range b e
           (λ k quality,
              nb ← aget (Network.neighbors net) k;
              cnb ← aget (Clustering.clusters c) nb;
              if decide (cnb = j) then
                w ← aget (Network.edgeWeights net) k;
                Some (quality + w)%Q
              else Some quality)
           quality)
        (λ i, sumR (λ k, if decide (cl c (nbr net k) = cl c i)
                         then ew net k else 0%Q)
                (fni net i) (fni net (i + 1)))
        0 (Network.nNodes net) 0%Q) as (q & Hq & Hv); [lia| |].
      - intros i a Hi.
        rewrite (cl_lookup net) by (done || lia). simpl.
        rewrite (fni_lookup net Hwf i) by lia. simpl.
        rewrite (fni_lookup net Hwf (i + 1)) by lia. simpl.
        apply for_range_sum; [apply slice_le; [done|lia]|].
        intros k a' Hk.
        assert (k < Network.nEdges net) by (apply (slice_lt net Hwf i); lia).
        rewrite (nbr_lookup net Hwf) by done. simpl.
        rewrite (cl_lookup net) by (done || by apply (wf_neighbors_range _ Hwf)).
        simpl. case_decide.
        + rewrite (ew_lookup net Hwf) by done. simpl.
          eexists; split; [done|reflexivity].
        + eexists; split; [done|ring].
      - exists q. split; [done|]. rewrite Hv, sumR_0. ring.
    Qed.

Lemma edge_term_spec :
      (edge_term net c
       == sumN (λ i, sumN (λ j, if decide (cl c i = cl c j)
                                then adj net i j else 0)
                       (Network.nNodes net)) (Network.nNodes net))%Q.
    Proof.
      unfold edge_term. apply sumN_ext. intros i Hi. symmetry.
      transitivity (sumN (λ j, (if decide (cl c i = cl c j) then 1 else 0)
                               * adj net i j) (Network.nNodes net))%Q.
      { apply sumN_ext. intros j _. case_decide; ring. }
      rewrite (adj_row_sum net Hwf
                 (λ j, if decide (cl c i = cl c j) then 1 else 0)%Q) by done.
      apply sumR_ext. intros k Hk.
      destruct (decide (cl c i = cl c (nbr net k))),
               (decide (cl c (nbr net k) = cl c i)); try congruence; ring.
    Qed.

Lemma weights_loop_value :
      ∃ cw, weights_loop net c = Some cw
            ∧ length cw = Clustering.nClusters c
            ∧ ∀ k, k < Clustering.nClusters c →
                   (nth k cw 0 == clusterWeight net c k)%Q.
    Proof.
      unfold weights_loop.
      destruct (accumulate_loop (Clustering.clusters c) (Network.nodeWeights net)
                  (Network.nNodes net) (Clustering.nClusters c))
        as (cw & Hrun & Hlen & Hval).
      - by rewrite (co_length _ _ Hc).
      - by rewrite (wf_nodeWeights _ Hwf).
      - intros i Hi. by apply (cl_lt net).
      - exists cw. split; [done|]. split; [done|]. intros k Hk.
        rewrite Hval by done. reflexivity.
    Qed.

Lemma penalty_loop_value resolution cw q0 :
      length cw = Clustering.nClusters c →
      (∀ k, k < Clustering.nClusters c →
            (nth k cw 0 == clusterWeight net c k)%Q) →
      ∃ q, penalty_loop resolution c cw q0 = Some q
           ∧ (q == q0 - resolution
                       * sumN (λ k, clusterWeight net c k * clusterWeight net c k)
                           (Clustering.nClusters c))%Q.
    Proof.
      intros Hlen Hval. unfold penalty_loop.
      destruct (for_range_sum
        (λ i quality, cw0 ← aget cw i; Some (quality - cw0 * cw0 * resolution)%Q)
        (λ k, - (resolution * (clusterWeight net c k * clusterWeight net c k)))%Q
        0 (Clustering.nClusters c) q0) as (q & Hq & Hv); [lia| |].
      - intros k a Hk. unfold aget. rewrite (lookup_nth cw k 0%Q) by lia.
        simpl. eexists; split; [done|]. rewrite (Hval k) by lia. ring.
      - exists q. split; [done|]. rewrite Hv, sumR_0.
        rewrite <- sumN_scal.
        assert (sumN (λ k, - (resolution * (clusterWeight net c k
                                            * clusterWeight net c k)))
                  (Clustering.nClusters c)
                == - sumN (λ i, resolution * (clusterWeight net c i
                                              * clusterWeight net c i))
                       (Clustering.nClusters c))%Q as ->; [|ring].
        generalize (Clustering.nClusters c). intros m.
        induction m as [|m IH]; simpl; [ring|]. rewrite IH. ring.
    Qed.

    (** Twice the total undirected weight is the sum of the stored edge
        weights. *)
Lemma totalUndirected_calcSum :
      (2 * totalUndirected net == calcSum (Network.edgeWeights net))%Q.
    Proof.
      unfold totalUndirected.
      assert (sumN (λ i, sumN (λ j, adj net i j) (Network.nNodes net))
                (Network.nNodes net)
              == calcSum (Network.edgeWeights net))%Q as ->; [|field].
      rewrite calcSum_sumN, (wf_edgeWeights_length _ Hwf).
      transitivity (sumN (λ i, sumR (ew net) (fni net i) (fni net (i + 1)))
                      (Network.nNodes net)).
      - apply sumN_ext. intros i Hi.
        transitivity (sumN (λ j, 1 * adj net i j) (Network.nNodes net))%Q.
        { apply sumN_ext. intros; ring. }
        rewrite (adj_row_sum net Hwf (λ _, 1%Q)) by done.
        apply sumR_ext. intros; ring.
      - rewrite (sum_slices net Hwf) by lia.
        rewrite (wf_fni_last _ Hwf), sumR_0. reflexivity.
    Qed.

Lemma denominator_code :
      (2 * Network.getTotalEdgeWeight net + Network.totalEdgeWeightSelfLinks net
       == cpm_denominator net)%Q.
    Proof.
      unfold cpm_denominator, Network.getTotalEdgeWeight.
      rewrite totalUndirected_calcSum. field.
    Qed.

Lemma calcQuality_value resolution :
      (¬ (cpm_denominator net == 0)%Q →
       ∃ q, calcQuality resolution net c = Some q
            ∧ (q == cpm_quality resolution net c)%Q)
      ∧ ((cpm_denominator net == 0)%Q → calcQuality resolution net c = None).
    Proof.
      rewrite calcQuality_unfold.
      destruct edges_loop_value as (q1 & -> & Hq1). simpl.
      destruct weights_loop_value as (cw & -> & Hlen & Hcw). simpl.
      destruct (penalty_loop_value resolution cw
                  (q1 + Network.totalEdgeWeightSelfLinks net)%Q Hlen Hcw)
        as (q2 & -> & Hq2). simpl.
      split; intros Hd.
      - rewrite qdiv_Some by (by rewrite denominator_code).
        eexists; split; [done|]. unfold cpm_quality, cpm_numerator.
        rewrite denominator_code, Hq2, Hq1, edge_term_spec. reflexivity.
      - apply qdiv_None. by rewrite denominator_code.
    Qed.
End Quality.

  (** The singleton clustering. *)
Lemma singleton_clustering_of net :
    clustering_of net (Clustering.initializeBasedOnNNodes (Network.nNodes net)).
  Proof.
    split; simpl; [by rewrite length_seq | done | apply singleton_ranged].
  Qed.

Lemma cl_singleton n i : i < n → cl (Clustering.initializeBasedOnNNodes n) i = i.
  Proof. intros H. unfold cl, cid. simpl. by rewrite seq_nth. Qed.

Lemma singleton_numerator net :
    wf net → no_self_loops net →
    (cpm_numerator 0 net (Clustering.initializeBasedOnNNodes (Network.nNodes net))
     == Network.totalEdgeWeightSelfLinks net)%Q.
  Proof.
    intros Hwf Hns. unfold cpm_numerator.
    rewrite sumN_zero; [ring|]. intros i Hi.
    apply sumN_zero. intros j Hj.
    rewrite !cl_singleton by done. case_decide; [subst j|reflexivity].
    unfold adj. apply sumR_zero. intros k Hk. case_decide; [|reflexivity].
    exfalso. by eapply (Hns i k).
  Qed.

End CPMFacts.

(** * Claims about the quality function *)

Import NetworkFacts ClusteringFacts QualityFacts CPMFacts.

(** C1.  On a network in compressed sparse row form and a clustering of its
    nodes, [calcQuality] returns the sum of [a_ij] over the ordered pairs of
    nodes in the same cluster, plus the self-link weight [S], minus the
    resolution times the sum of the squared cluster weights, all divided by
    [2W + S]; when [2W + S] is zero the division has no finite result. *)
Theorem calcQuality_formula (resolution : Q) (net : Network.t) (c : Clustering.t) :
  wf net → clustering_of net c →
  (¬ (cpm_denominator net == 0)%Q →
   ∃ q, CPMClusteringAlgorithm.calcQuality resolution net c = Some q
        ∧ (q == cpm_quality resolution net c)%Q)
  ∧ ((cpm_denominator net == 0)%Q →
     CPMClusteringAlgorithm.calcQuality resolution net c = None).
Proof. intros Hwf Hc. by apply calcQuality_value. Qed.

Import NetworkFacts ClusteringFacts QualityFacts CPMFacts.

(** * Example networks *)

(** Two triangles 0-1-2 and 3-4-5 joined by the edge 2-3. *)
Definition triangle_pair : Network.t :=
  Network.mk 6 [1;1;1;1;1;1]%Q [0;2;4;7;10;12;14]
    [1;2; 0;2; 0;1;3; 2;4;5; 3;5; 3;4]
    [1;1; 1;1; 1;1;1; 1;1;1; 1;1; 1;1]%Q 0%Q 14.

(** Two nodes joined by an edge, node 0 carrying a self-link of weight 1:
    the network built from the edge list (0,0), (0,1). *)
Definition self_link_pair : Network.t :=
  Network.mk 2 [1;1]%Q [0;1;2] [1;0] [1;1]%Q 1%Q 2.

(** Decides a statement quantified over the indices below a literal
    bound. *)
Ltac finish_case :=
  first [ done
        | unfold fni, nbr, ew, nw in *; simpl in *; first [lia | lra | done]
        | vm_compute; first [lia | done] ].

Ltac below i :=
  do 20 (try (destruct i as [|i];
              [ try finish_case
              | try (exfalso; unfold fni, nbr, ew, nw in *; simpl in *; lia) ])).

Ltac solve_wf :=
  constructor; try reflexivity;
  [ let i := fresh "i" in intros i ?; below i
  | let k := fresh "k" in intros k ?; below k ].

Lemma triangle_pair_wf : wf triangle_pair.
Proof. solve_wf. Qed.

Lemma self_link_pair_wf : wf self_link_pair.
Proof. solve_wf. Qed.

Lemma self_link_pair_no_self_loops : no_self_loops self_link_pair.
Proof. intros i k Hi Hk. below i; below k. Qed.

Lemma triangle_pair_no_self_loops : no_self_loops triangle_pair.
Proof. intros i k Hi Hk. below i; below k. Qed.

Definition two_triangles : Clustering.t := Clustering.mk [0;0;0;1;1;1] 2 6.

Lemma two_triangles_clustering : clustering_of triangle_pair two_triangles.
Proof.
  split; [done..|]. unfold ranged. simpl. repeat constructor.
Qed.

Lemma triangle_pair_denominator : ¬ (cpm_denominator triangle_pair == 0)%Q.
Proof. vm_compute. discriminate. Qed.

Lemma calcQuality_formula_witness :
  ∃ q, CPMClusteringAlgorithm.calcQuality (1 # 5) triangle_pair two_triangles
       = Some q
       ∧ (q == cpm_quality (1 # 5) triangle_pair two_triangles)%Q.
Proof.
  exact (proj1 (calcQuality_formula (1 # 5) triangle_pair two_triangles
                  triangle_pair_wf two_triangles_clustering)
           triangle_pair_denominator).
Defined.

(** * The singleton clustering at resolution 0 *)

(** C6, as stated, fails: on the network with one edge and one self-link
    the singleton clustering has quality 1/3 at resolution 0. *)
Lemma singleton_quality_counterexample :
  ∃ q, CPMClusteringAlgorithm.calcQuality 0 self_link_pair
         (Clustering.initializeBasedOnNNodes 2) = Some q
       ∧ (q == 1 # 3)%Q ∧ ¬ (q == 0)%Q.
Proof.
  eexists. split; [vm_compute; reflexivity|]. split; [reflexivity|discriminate].
Qed.

(** C6, amended.  At resolution 0 the singleton clustering of a network
    without self-loops in its adjacency has quality [S / (2W + S)], where [S]
    is the self-link weight; the quality is 0 when [S] is 0. *)
Theorem singleton_quality (net : Network.t) :
  wf net → no_self_loops net → ¬ (cpm_denominator net == 0)%Q →
  ∃ q, CPMClusteringAlgorithm.calcQuality 0 net
         (Clustering.initializeBasedOnNNodes (Network.nNodes net)) = Some q
       ∧ (q == Network.totalEdgeWeightSelfLinks net / cpm_denominator net)%Q
       ∧ ((Network.totalEdgeWeightSelfLinks net == 0)%Q → (q == 0)%Q).
Proof.
  intros Hwf Hns Hd.
  destruct (calcQuality_value net _ Hwf (singleton_clustering_of net) 0)
    as [Hsome _].
  destruct (Hsome Hd) as (q & Hq & Hv). exists q. split; [done|].
  unfold cpm_quality in Hv. rewrite singleton_numerator in Hv by done.
  split; [done|]. intros HS. rewrite Hv, HS. field. done.
Qed.

Lemma singleton_quality_witness :
  ∃ q, CPMClusteringAlgorithm.calcQuality 0 triangle_pair
         (Clustering.initializeBasedOnNNodes 6) = Some q
       ∧ (q == Network.totalEdgeWeightSelfLinks triangle_pair
               / cpm_denominator triangle_pair)%Q
       ∧ ((Network.totalEdgeWeightSelfLinks triangle_pair == 0)%Q → (q == 0)%Q).
Proof.
  exact (singleton_quality triangle_pair triangle_pair_wf
           triangle_pair_no_self_loops triangle_pair_denominator).
Defined.

(** * The number of clusters and the largest cluster id *)

(** The clusterings that the public operations of [Clustering] produce. *)
Inductive reachable : Clustering.t → Prop :=
  | reach_nNodes n :
      reachable (Clustering.initializeBasedOnNNodes n)
  | reach_clusters l c :
      Clustering.initializeBasedOnClusters l = Some c → reachable c
  | reach_setCluster c node cluster c' :
      reachable c → node < Clustering.nNodes c →
      Clustering.setCluster c node cluster = Some c' → reachable c'
  | reach_removeEmptyClusters c c' :
      reachable c → Clustering.removeEmptyClusters c = Some c' → reachable c'
  | reach_orderClustersByNNodes c c' :
      reachable c → Clustering.orderClustersByNNodes c = Some c' → reachable c'
  | reach_orderClustersByWeight c nodeWeights c' :
      reachable c → Clustering.orderClustersByWeight c nodeWeights = Some c' →
      reachable c'
  | reach_mergeClusters c clustering c' :
      reachable c → reachable clustering →
      Clustering.mergeClusters c clustering = Some c' → reachable c'.

(** Two nodes in their own clusters, then node 1 assigned to cluster 0. *)
Definition both_in_cluster_0 : Clustering.t := Clustering.mk [0; 0] 2 2.

Lemma both_in_cluster_0_reachable : reachable both_in_cluster_0.
Proof.
  apply (reach_setCluster (Clustering.initializeBasedOnNNodes 2) 1 0).
  - apply reach_nNodes.
  - simpl. lia.
  - reflexivity.
Qed.

(** C7, as stated, fails: after [setCluster(1, 0)] on the singleton
    clustering of two nodes the largest id is 0 and [nClusters] is 2. *)
Lemma nClusters_counterexample :
  reachable both_in_cluster_0
  ∧ calcMaximum (Clustering.clusters both_in_cluster_0) = Some 0
  ∧ Clustering.nClusters both_in_cluster_0 ≠ 0 + 1.
Proof.
  split; [apply both_in_cluster_0_reachable|]. split; [reflexivity|].
  simpl. lia.
Qed.

Lemma reachable_invariant c : reachable c → ranged c ∧ sized c.
Proof.
  induction 1 as [n|l c Hc|c node cluster c' _ [IHr IHs] Hn Hset
                  |c c' _ [IHr IHs] Hrem|c c' _ [IHr IHs] Hord
                  |c w c' _ [IHr IHs] Hord|c arg c' _ [IHr IHs] _ [IHr' _] Hm].
  - split; [apply singleton_ranged | apply singleton_sized].
  - by apply fromClusters_ranged in Hc.
  - split; [by eapply setCluster_ranged | by eapply setCluster_sized].
  - destruct (ClusteringOps.removeEmptyClusters_partial _ _ Hrem IHs)
      as (? & ? & _); done.
  - destruct (ClusteringOps.orderClustersByWeight_partial _ _ _ Hord IHs)
      as (? & ? & _); done.
  - destruct (ClusteringOps.orderClustersByWeight_partial _ _ _ Hord IHs)
      as (? & ? & _); done.
  - destruct (ClusteringOps.mergeClusters_partial _ _ _ Hm IHs IHr')
      as (? & ? & _); done.
Qed.

(** C7, amended.  For every clustering reachable through the public
    operations, [nClusters] is at least one more than the largest cluster
    id stored in the [clusters] array. *)
Theorem nClusters_bounds_maximum (c : Clustering.t) (m : nat) :
  reachable c → calcMaximum (Clustering.clusters c) = Some m →
  m + 1 ≤ Clustering.nClusters c.
Proof.
  intros Hr Hm. destruct (reachable_invariant c Hr) as [Hrg _].
  destruct (calcMaximum_spec _ _ Hm) as [_ Hin].
  unfold ranged in Hrg. rewrite Forall_forall in Hrg.
  specialize (Hrg m Hin). simpl in Hrg. lia.
Qed.

Lemma nClusters_bounds_maximum_witness :
  0 + 1 ≤ Clustering.nClusters both_in_cluster_0.
Proof.
  exact (nClusters_bounds_maximum both_in_cluster_0 0
           both_in_cluster_0_reachable eq_refl).
Defined.

Import NetworkFacts ClusteringFacts QualityFacts CPMFacts.

(** * Normalisation by association strength *)

Module NormalizeFacts.
Import Network.

Definition positive_nodes (net : t) : Prop :=
    ∀ i, i < nNodes net → (0 < nw net i)%Q.

  (** The normalised weight of edge [k] in the slice of node [i]. *)
Definition associationStrength (net : t) (i k : nat) : Q :=
    (ew net k / (nw net i * nw net (nbr net k) / sumN (nw net) (nNodes net)))%Q.

Definition normalize_inner (net : t) (i b e : nat) (ew0 : list Q) :=
    for_range b e
      (λ j ew,
         w ← aget (edgeWeights net) j;
         ni ← aget (nodeWeights net) i;
         nb ← aget (neighbors net) j;
         nj ← aget (nodeWeights net) nb;
         d ← qdiv (ni * nj) (getTotalNodeWeight net);
         w' ← qdiv w d;
         aset ew j w')
      ew0.

Definition normalize_loop (net : t) :=
    for_range 0 (nNodes net)
      (λ i ew,
         b ← aget (firstNeighborIndices net) i;
         e ← aget (firstNeighborIndices net) (i + 1);
         normalize_inner net i b e ew)
      (replicate (nEdges net) 0%Q).

Lemma createNormalized_unfold net :
    createNormalizedNetworkUsingAssociationStrength net =
      normalizedEdgeWeights ← normalize_loop net;
      Some (mk (nNodes net) (replicate (nNodes net) 1%Q)
              (firstNeighborIndices net) (neighbors net)
              normalizedEdgeWeights 0%Q (nEdges net)).
  Proof. reflexivity. Qed.

Lemma totalNodeWeight_sumN net :
    wf net → (getTotalNodeWeight net == sumN (nw net) (nNodes net))%Q.
  Proof.
    intros Hwf. unfold getTotalNodeWeight. rewrite calcSum_sumN.
    by rewrite (wf_nodeWeights _ Hwf).
  Qed.

Lemma sumN_pos (f : nat → Q) n :
    0 < n → (∀ i, i < n → (0 < f i)%Q) → (0 < sumN f n)%Q.
  Proof.
    intros Hn Hf. destruct n as [|n]; [lia|]. simpl.
    assert (0 <= sumN f n)%Q.
    { apply sumN_nonneg. intros i Hi. apply Qlt_le_weak, Hf. lia. }
    assert (0 < f n)%Q by (apply Hf; lia). lra.
  Qed.

Section Normalize.
Context (net : t) (Hwf : wf net) (Hpos : positive_nodes net).

Lemma total_pos : 0 < nNodes net → (0 < getTotalNodeWeight net)%Q.
    Proof.
      intros Hn. rewrite (totalNodeWeight_sumN net Hwf). by apply sumN_pos.
    Qed.

Lemma normalize_inner_value i ew0 :
      i < nNodes net → length ew0 = nEdges net →
      ∃ ew1, normalize_inner net i (fni net i) (fni net (i + 1)) ew0 = Some ew1
             ∧ length ew1 = nEdges net
             ∧ (∀ k, k < fni net i → nth k ew1 0%Q = nth k ew0 0%Q)
             ∧ (∀ k, fni net i ≤ k < fni net (i + 1) →
                     (nth k ew1 0 == associationStrength net i k)%Q).
    Proof.
      intros Hi Hlen.
      pose (P := λ (m : nat) (s : list Q),
        length s = nEdges net
        ∧ (∀ k, k < fni net i → nth k s 0%Q = nth k ew0 0%Q)
        ∧ (∀ k, fni net i ≤ k < m →
                (nth k s 0 == associationStrength net i k)%Q)).
      unfold normalize_inner.
      apply (for_range_total P); [by apply slice_le| |].
      - split; [done|]. split; [done|]. intros; lia.
      - intros k s Hk (Hl & Hlo & Hval).
        assert (k < nEdges net) by (apply (slice_lt net Hwf i); lia).
        assert (nbr net k < nNodes net) by by apply (wf_neighbors_range _ Hwf).
        rewrite (ew_lookup net Hwf), (nw_lookup net Hwf),
          (nbr_lookup net Hwf) by done. simpl.
        rewrite (nw_lookup net Hwf) by done. simpl.
        pose proof (total_pos ltac:(lia)) as HT.
        pose proof (Hpos i Hi) as Hni.
        pose proof (Hpos (nbr net k) ltac:(done)) as Hnj.
        rewrite qdiv_Some by lra. simpl.
        assert (0 < nw net i * nw net (nbr net k) / getTotalNodeWeight net)%Q
          as Hd.
        { apply Qlt_shift_div_l; [done|]. nra. }
        rewrite qdiv_Some by lra. simpl.
        rewrite aset_lt by lia. eexists; split; [done|].
        split; [by rewrite length_insert|]. split.
        + intros k' Hk'. rewrite nth_insert_ne by lia. by apply Hlo.
        + intros k' Hk'. destruct (decide (k' = k)) as [->|].
          * rewrite nth_insert_eq by lia. unfold associationStrength.
            rewrite <- (totalNodeWeight_sumN net Hwf). reflexivity.
          * rewrite nth_insert_ne by lia. apply Hval. lia.
    Qed.

Lemma normalize_loop_value :
      ∃ ew1, normalize_loop net = Some ew1
             ∧ length ew1 = nEdges net
             ∧ ∀ i k, i < nNodes net → fni net i ≤ k < fni net (i + 1) →
                      (nth k ew1 0 == associationStrength net i k)%Q.
    Proof.
      pose (P := λ (m : nat) (s : list Q),
        length s = nEdges net
        ∧ ∀ i k, i < m → fni net i ≤ k < fni net (i + 1) →
                 (nth k s 0 == associationStrength net i k)%Q).
      unfold normalize_loop.
      apply (for_range_total P); [lia| |].
      - split; [by rewrite length_replicate|]. intros; lia.
      - intros i s Hi [Hl Hval].
        rewrite (fni_lookup net Hwf i), (fni_lookup net Hwf (i + 1)) by lia.
        simpl.
        destruct (normalize_inner_value i s ltac:(lia) Hl)
          as (s' & Hrun & Hl' & Hlo & Hnew).
        exists s'. split; [done|]. split; [done|].
        intros i' k Hi' Hk. destruct (decide (i' = i)) as [->|].
        + by apply Hnew.
        + assert (fni net (i' + 1) ≤ fni net i) by (apply (fni_mono net Hwf); lia).
          rewrite Hlo by lia. apply Hval; [lia|done].
    Qed.
End Normalize.

Lemma calcSum_ones n : (calcSum (replicate n 1%Q) == inject_Z (Z.of_nat n))%Q.
  Proof.
    rewrite calcSum_sumN, length_replicate.
    transitivity (sumN (λ _, 1%Q) n).
    - apply sumN_ext. intros i Hi. by rewrite nth_replicate_lt.
    - induction n as [|n IH]; [reflexivity|]. simpl sumN. rewrite IH.
      rewrite Nat2Z.inj_succ. unfold Z.succ. rewrite inject_Z_plus. reflexivity.
  Qed.

End NormalizeFacts.

Import NormalizeFacts.

(** C5.  On a network whose node weights are strictly positive the
    normalisation by association strength keeps the node and edge counts,
    the offsets and the neighbours, replaces the weight [w_ij] of every edge
    by [w_ij / (n_i * n_j / T)] with [T] the total node weight, sets every
    node weight to 1, so that the total node weight is the number of nodes,
    and sets the self-link weight to 0. *)
Theorem normalized_network (net : Network.t) :
  wf net → positive_nodes net →
  ∃ net',
    Network.createNormalizedNetworkUsingAssociationStrength net = Some net'
    ∧ Network.nNodes net' = Network.nNodes net
    ∧ Network.nEdges net' = Network.nEdges net
    ∧ Network.firstNeighborIndices net' = Network.firstNeighborIndices net
    ∧ Network.neighbors net' = Network.neighbors net
    ∧ length (Network.edgeWeights net') = Network.nEdges net
    ∧ (∀ i k, i < Network.nNodes net → fni net i ≤ k < fni net (i + 1) →
              (ew net' k == associationStrength net i k)%Q)
    ∧ Network.nodeWeights net' = replicate (Network.nNodes net) 1%Q
    ∧ (Network.getTotalNodeWeight net'
       == inject_Z (Z.of_nat (Network.nNodes net)))%Q
    ∧ Network.totalEdgeWeightSelfLinks net' = 0%Q.
Proof.
  intros Hwf Hpos. rewrite createNormalized_unfold.
  destruct (normalize_loop_value net Hwf Hpos) as (ew1 & -> & Hlen & Hval).
  simpl. eexists; split; [done|]. simpl.
  repeat (split; [done|]). split; [|done].
  unfold Network.getTotalNodeWeight. simpl. apply calcSum_ones.
Qed.

Lemma triangle_pair_positive : positive_nodes triangle_pair.
Proof. intros i Hi. below i. Qed.

Lemma normalized_network_witness :
  ∃ net',
    Network.createNormalizedNetworkUsingAssociationStrength triangle_pair
      = Some net'
    ∧ Network.nNodes net' = 6
    ∧ Network.nEdges net' = 14
    ∧ Network.firstNeighborIndices net' = Network.firstNeighborIndices triangle_pair
    ∧ Network.neighbors net' = Network.neighbors triangle_pair
    ∧ length (Network.edgeWeights net') = 14
    ∧ (∀ i k, i < 6 → fni triangle_pair i ≤ k < fni triangle_pair (i + 1) →
              (ew net' k == associationStrength triangle_pair i k)%Q)
    ∧ Network.nodeWeights net' = replicate 6 1%Q
    ∧ (Network.getTotalNodeWeight net' == inject_Z (Z.of_nat 6))%Q
    ∧ Network.totalEdgeWeightSelfLinks net' = 0%Q.
Proof.
  exact (normalized_network triangle_pair triangle_pair_wf
           triangle_pair_positive).
Defined.

Import NetworkFacts ClusteringFacts QualityFacts CPMFacts.

(** * The nodes of each cluster *)

Module MembersFacts.
Import Clustering.

  (** The nodes below [n] that belong to cluster [k], in increasing
      order. *)
Definition members (c : t) (k n : nat) : list nat :=
    filter (λ i, cl c i = k) (seq 0 n).

Lemma members_S c k n :
    members c k (S n) = members c k n ++ (if decide (cl c n = k) then [n] else []).
  Proof.
    unfold members. rewrite seq_S, filter_app. reflexivity.
  Qed.

Lemma members_length_mono c k i j :
    i ≤ j → length (members c k i) ≤ length (members c k j).
  Proof.
    induction 1 as [|j _ IH]; [done|]. rewrite members_S, length_app. lia.
  Qed.

Lemma members_length_lt c i n :
    i < n → length (members c (cl c i) i) < length (members c (cl c i) n).
  Proof.
    intros H. pose proof (members_length_mono c (cl c i) (S i) n ltac:(lia)) as Hm.
    rewrite members_S, length_app in Hm. rewrite decide_True in Hm by done.
    simpl in Hm. lia.
  Qed.

Lemma elem_of_members c k n i : i ∈ members c k n ↔ cl c i = k ∧ i < n.
  Proof.
    unfold members. rewrite list_elem_of_filter, elem_of_seq. intuition lia.
  Qed.

Lemma members_singleton_upto n k m :
    m ≤ n →
    members (initializeBasedOnNNodes n) k m = if decide (k < m) then [k] else [].
  Proof.
    induction m as [|m IH]; intros Hm; [done|].
    rewrite members_S, IH by lia. rewrite cl_singleton by lia.
    repeat case_decide; try lia; subst; done.
  Qed.

Lemma members_singleton n k :
    k < n → members (initializeBasedOnNNodes n) k n = [k].
  Proof.
    intros Hk. rewrite members_singleton_upto by done. by rewrite decide_True.
  Qed.

Section Members.
Context (c : t) (Hs : sized c) (Hn : length (clusters c) = nNodes c)
            (Hr : ranged c).

Lemma cl_get i : i < nNodes c → aget (clusters c) i = Some (cl c i).
    Proof. intros H. apply lookup_nth. lia. Qed.

Lemma cl_range i : i < nNodes c → cl c i < nClusters c.
    Proof.
      intros H. unfold ranged in Hr. rewrite Forall_lookup in Hr.
      eapply Hr. by apply cl_get.
    Qed.

Lemma getNNodesPerCluster_value :
      ∃ cnt, getNNodesPerCluster c = Some cnt
             ∧ length cnt = nClusters c
             ∧ ∀ k, k < nClusters c →
                    nth k cnt 0 = length (members c k (nNodes c)).
    Proof.
      pose (P := λ (m : nat) (cnt : list nat),
        length cnt = nClusters c
        ∧ ∀ k, k < nClusters c → nth k cnt 0 = length (members c k m)).
      unfold getNNodesPerCluster.
      apply (for_range_total P); [lia| |].
      - split; [by rewrite length_replicate|]. intros k Hk.
        by rewrite nth_replicate_lt.
      - intros i cnt Hi [Hl Hv]. rewrite cl_get by lia. simpl.
        pose proof (cl_range i ltac:(lia)) as Hc.
        unfold aincr, aget. rewrite (lookup_nth cnt (cl c i) 0) by lia. simpl.
        rewrite aset_lt by lia. eexists; split; [done|].
        split; [by rewrite length_insert|]. intros k Hk.
        rewrite members_S, length_app.
        destruct (decide (cl c i = k)) as [<-|Hne].
        + rewrite nth_insert_eq by lia. rewrite Hv by done. simpl. lia.
        + rewrite nth_insert_ne by done. rewrite Hv by done. simpl. lia.
    Qed.

Lemma getNodesPerCluster_value :
      ∃ npc, getNodesPerCluster c = Some npc
             ∧ length npc = nClusters c
             ∧ ∀ k, k < nClusters c →
                    npc !! k = Some (members c k (nNodes c)).
    Proof.
      unfold getNodesPerCluster.
      destruct getNNodesPerCluster_value as (cnt & -> & Hlc & Hcnt). simpl.
      (* the loop that allocates the rows *)
      pose (PB := λ (m : nat) (s : list (list nat) * list nat),
        length s.1 = nClusters c ∧ length s.2 = nClusters c
        ∧ (∀ k, k < m → nth k s.1 [] = replicate (length (members c k (nNodes c))) 0
                        ∧ nth k s.2 0 = 0)
        ∧ (∀ k, m ≤ k → nth k s.2 0 = nth k cnt 0)).
      destruct (for_range_total PB
        (λ i '(nodesPerCluster, nNodesPerCluster),
           n ← aget nNodesPerCluster i;
           nodesPerCluster ← aset nodesPerCluster i (replicate n 0);
           nNodesPerCluster ← aset nNodesPerCluster i 0;
           Some (nodesPerCluster, nNodesPerCluster))
        0 (nClusters c) (replicate (nClusters c) [], cnt))
        as ([npc0 cnt0] & -> & Hl1 & Hl2 & HB & _); [lia| | |].
      { split; [by simpl; rewrite length_replicate|]. split; [done|].
        split; [intros; lia | done]. }
      { intros i [npc1 cnt1] Hi (Hl1 & Hl2 & Hlo & Hhi). simpl in *.
        unfold aget. rewrite (lookup_nth cnt1 i 0) by lia. simpl.
        rewrite aset_lt by lia. simpl. rewrite aset_lt by lia. simpl.
        eexists; split; [done|]. unfold PB; cbn [fst snd].
        split; [by rewrite length_insert|]. split; [by rewrite length_insert|].
        split.
        - intros k Hk. destruct (decide (k = i)) as [->|Hne].
          + rewrite !nth_insert_eq by lia. rewrite Hhi by lia.
            rewrite Hcnt by lia. done.
          + rewrite !nth_insert_ne by done. apply Hlo. lia.
        - intros k Hk. rewrite nth_insert_ne by lia. apply Hhi. lia. }
      simpl in *.
      (* the loop that fills the rows *)
      pose (PC := λ (m : nat) (s : list (list nat) * list nat),
        length s.1 = nClusters c ∧ length s.2 = nClusters c
        ∧ ∀ k, k < nClusters c →
            nth k s.2 0 = length (members c k m)
            ∧ nth k s.1 [] =
                members c k m
                ++ replicate (length (members c k (nNodes c))
                              - length (members c k m)) 0).
      destruct (for_range_total PC
        (λ i '(nodesPerCluster, nNodesPerCluster),
           ci ← aget (clusters c) i;
           row ← aget nodesPerCluster ci;
           k ← aget nNodesPerCluster ci;
           row ← aset row k i;
           nodesPerCluster ← aset nodesPerCluster ci row;
           nNodesPerCluster ← aincr nNodesPerCluster ci;
           Some (nodesPerCluster, nNodesPerCluster))
        0 (nNodes c) (npc0, cnt0))
        as ([npc cnt2] & -> & Hl3 & Hl4 & HC); [lia| | |].
      { unfold PC; cbn [fst snd]. split; [done|]. split; [done|]. intros k Hk.
        destruct (HB k Hk) as [-> ->]. simpl. split; [done|].
        by rewrite Nat.sub_0_r. }
      { intros i [npc1 cnt1] Hi (Hl3 & Hl4 & Hv). simpl in *.
        rewrite cl_get by lia. simpl.
        pose proof (cl_range i ltac:(lia)) as Hc.
        destruct (Hv (cl c i) Hc) as [Hcount Hrow].
        unfold aincr, aget.
        rewrite (lookup_nth npc1 (cl c i) []) by lia. simpl.
        rewrite (lookup_nth cnt1 (cl c i) 0) by lia. simpl.
        pose proof (members_length_lt c i (nNodes c) ltac:(lia)) as Hlt.
        rewrite Hcount.
        rewrite (aset_lt (nth (cl c i) npc1 [])).
        2:{ rewrite Hrow, length_app, length_replicate. lia. }
        simpl. rewrite (aset_lt npc1) by lia. simpl.
        rewrite (aset_lt cnt1) by lia. simpl.
        eexists; split; [done|]. unfold PC; cbn [fst snd].
        split; [by rewrite length_insert|]. split; [by rewrite length_insert|].
        intros k Hk. rewrite members_S.
        destruct (decide (cl c i = k)) as [<-|Hne].
        - rewrite !nth_insert_eq by lia. split.
          + rewrite length_app. simpl. lia.
          + rewrite Hrow. rewrite insert_app_r_alt by lia.
            rewrite Nat.sub_diag, length_app. simpl.
            destruct (length (members c (cl c i) (nNodes c))
                      - length (members c (cl c i) i)) as [|r] eqn:Hr'; [lia|].
            replace (length (members c (cl c i) (nNodes c))
                     - (length (members c (cl c i) i) + 1)) with r by lia.
            simpl. by rewrite <- app_assoc.
        - rewrite !nth_insert_ne by done. rewrite app_nil_r. by apply Hv. }
      simpl in *. exists npc. split; [done|]. split; [done|].
      intros k Hk. rewrite (lookup_nth npc k []) by lia. f_equal.
      destruct (HC k Hk) as [_ ->]. rewrite Nat.sub_diag. simpl.
      by rewrite app_nil_r.
    Qed.
End Members.

End MembersFacts.

Import NetworkFacts ClusteringFacts QualityFacts CPMFacts MembersFacts.

(** * Reducing a network by its singleton clustering *)

Lemma Qplus_0_l_eq (w : Q) : (0 + w)%Q = w.
Proof. destruct w as [a b]. unfold Qplus. simpl. by rewrite Z.mul_1_r. Qed.

Module ReduceFacts.
Import Network.

Section Singleton.
Context (net : t) (Hwf : wf net) (Hns : no_self_loops net)
            (Hsorted : sorted_neighbors net).

Local Abbreviation n := (nNodes net).
Local Abbreviation c := (Clustering.initializeBasedOnNNodes (nNodes net)).

Lemma nbr_injective i k k' :
      i < n → fni net i ≤ k < fni net (i + 1) →
      fni net i ≤ k' < fni net (i + 1) → nbr net k = nbr net k' → k = k'.
    Proof.
      intros Hi Hk Hk' Heq.
      destruct (Nat.lt_trichotomy k k') as [Hlt|[->|Hlt]]; [|done|].
      - pose proof (Hsorted i k k' Hi ltac:(lia) Hlt ltac:(lia)). lia.
      - pose proof (Hsorted i k' k Hi ltac:(lia) Hlt ltac:(lia)). lia.
    Qed.

Lemma cl_get_singleton x : x < n → aget (Clustering.clusters c) x = Some x.
    Proof. intros H. simpl. unfold aget. by apply lookup_seq_lt. Qed.

    (** The scan of the neighbours of node [i]. *)
Definition scanned (i : nat) (s0 : reduce_state) (m : nat)
        (st : reduce_state * nat) : Prop :=
      let '(s, j) := st in
      j = m - fni net i
      ∧ rNEdges s = rNEdges s0
      ∧ rNodeWeights s = rNodeWeights s0
      ∧ rFirstNeighborIndices s = rFirstNeighborIndices s0
      ∧ rTotalEdgeWeightSelfLinks s = rTotalEdgeWeightSelfLinks s0
      ∧ reducedNetworkNeighbors1 s = reducedNetworkNeighbors1 s0
      ∧ reducedNetworkEdgeWeights1 s = reducedNetworkEdgeWeights1 s0
      ∧ length (reducedNetworkEdgeWeights2 s) = n
      ∧ j ≤ length (reducedNetworkNeighbors2 s)
      ∧ (∀ t, t < j → reducedNetworkNeighbors2 s !! t = Some (nbr net (fni net i + t)))
      ∧ (∀ m', fni net i ≤ m' < m →
               nth (nbr net m') (reducedNetworkEdgeWeights2 s) 0%Q = ew net m')
      ∧ (∀ x, x < n → (∀ m', fni net i ≤ m' < m → nbr net m' ≠ x) →
              nth x (reducedNetworkEdgeWeights2 s) 0%Q = 0%Q).

Lemma scan_edges i s0 :
      i < n →
      length (reducedNetworkEdgeWeights2 s0) = n →
      (∀ x, x < n → nth x (reducedNetworkEdgeWeights2 s0) 0%Q = 0%Q) →
      ∃ st, for_range (fni net i) (fni net (i + 1)) (reduce_edge net c i) (s0, 0)
            = Some st
            ∧ scanned i s0 (fni net (i + 1)) st.
    Proof.
      intros Hi Hl0 Hz0.
      apply (for_range_total (scanned i s0)); [by apply slice_le| |].
      - simpl. rewrite Nat.sub_diag. do 8 (split; [done|]). split; [lia|].
        split; [intros; lia|]. split; [intros; lia|]. intros x Hx _. by apply Hz0.
      - intros m [s j] Hm (Hj & H1 & H2 & H3 & H4 & H5 & H6 & Hl & Hjl & Hnb & Hew & Hz).
        assert (m < nEdges net) by (apply (slice_lt net Hwf i); lia).
        assert (nbr net m < n) by by apply (wf_neighbors_range _ Hwf).
        unfold reduce_edge.
        rewrite (nbr_lookup net Hwf) by done. simpl.
        rewrite cl_get_singleton by done. simpl.
        rewrite (ew_lookup net Hwf) by done. simpl.
        rewrite decide_True by (by apply (Hns i m)).
        assert (nth (nbr net m) (reducedNetworkEdgeWeights2 s) 0%Q = 0%Q) as Hold.
        { apply Hz; [done|]. intros m' Hm' Heq.
          assert (m' = m) by (apply (nbr_injective i); [done|lia|lia|done]). lia. }
        unfold aaddQ, aget.
        rewrite (lookup_nth (reducedNetworkEdgeWeights2 s) (nbr net m) 0%Q) by lia.
        simpl. rewrite Hold. change (Qis0 0) with true. simpl.
        destruct (aset (reducedNetworkNeighbors2 s) j (nbr net m)) as [nb2|] eqn:Hset.
        2:{ unfold aset in Hset. repeat case_decide; try done; lia. }
        simpl. rewrite aset_lt by lia. simpl. rewrite Qplus_0_l_eq.
        eexists; split; [done|]. simpl.
        split; [lia|]. repeat (split; [done|]).
        split; [by rewrite length_insert|].
        split; [apply aset_index_lt in Hset; lia|].
        split; [|split].
        + intros t Ht. destruct (decide (t = j)) as [->|].
          * replace (fni net i + j) with m by lia. by eapply aset_lookup_eq.
          * erewrite aset_lookup_ne; [apply Hnb; lia|done|done|lia].
        + intros m' Hm'. destruct (decide (m' = m)) as [->|].
          * by rewrite nth_insert_eq by lia.
          * rewrite nth_insert_ne; [apply Hew; lia|].
            intros Heq. assert (m = m'); [|lia].
            apply (nbr_injective i); [done|lia|lia|done].
        + intros x Hx Hne. rewrite nth_insert_ne; [|apply Hne; lia].
          apply Hz; [done|]. intros m' Hm'. apply Hne. lia.
    Qed.

    (** Copying the scanned neighbours of node [i] to the output. *)
Definition flushed (i j : nat) (s0 : reduce_state) (k : nat)
        (s : reduce_state) : Prop :=
      rNEdges s = rNEdges s0
      ∧ rNodeWeights s = rNodeWeights s0
      ∧ rFirstNeighborIndices s = rFirstNeighborIndices s0
      ∧ rTotalEdgeWeightSelfLinks s = rTotalEdgeWeightSelfLinks s0
      ∧ reducedNetworkNeighbors2 s = reducedNetworkNeighbors2 s0
      ∧ length (reducedNetworkNeighbors1 s) = nEdges net
      ∧ length (reducedNetworkEdgeWeights1 s) = nEdges net
      ∧ length (reducedNetworkEdgeWeights2 s) = n
      ∧ (∀ t, t < fni net i + k →
              nth t (reducedNetworkNeighbors1 s) 0 = nbr net t
              ∧ nth t (reducedNetworkEdgeWeights1 s) 0%Q = ew net t)
      ∧ (∀ t, k ≤ t < j →
              nth (nbr net (fni net i + t)) (reducedNetworkEdgeWeights2 s) 0%Q
              = ew net (fni net i + t))
      ∧ (∀ x, x < n → (∀ t, k ≤ t < j → nbr net (fni net i + t) ≠ x) →
              nth x (reducedNetworkEdgeWeights2 s) 0%Q = 0%Q).

Lemma flush_edges i s0 :
      i < n →
      rNEdges s0 = fni net i →
      length (reducedNetworkNeighbors1 s0) = nEdges net →
      length (reducedNetworkEdgeWeights1 s0) = nEdges net →
      length (reducedNetworkEdgeWeights2 s0) = n →
      (∀ t, t < fni net i →
            nth t (reducedNetworkNeighbors1 s0) 0 = nbr net t
            ∧ nth t (reducedNetworkEdgeWeights1 s0) 0%Q = ew net t) →
      (∀ t, t < fni net (i + 1) - fni net i →
            reducedNetworkNeighbors2 s0 !! t = Some (nbr net (fni net i + t))) →
      (∀ m', fni net i ≤ m' < fni net (i + 1) →
             nth (nbr net m') (reducedNetworkEdgeWeights2 s0) 0%Q = ew net m') →
      (∀ x, x < n → (∀ m', fni net i ≤ m' < fni net (i + 1) → nbr net m' ≠ x) →
            nth x (reducedNetworkEdgeWeights2 s0) 0%Q = 0%Q) →
      ∃ s, for_range 0 (fni net (i + 1) - fni net i) reduce_flush s0 = Some s
           ∧ flushed i (fni net (i + 1) - fni net i) s0
               (fni net (i + 1) - fni net i) s.
    Proof.
      intros Hi HnE Hl1 Hl2 Hl3 Hout Hnb Hew Hz.
      pose proof (slice_le net Hwf i Hi) as Hle.
      apply (for_range_total (flushed i (fni net (i + 1) - fni net i) s0));
        [lia| |].
      - unfold flushed. repeat (split; [done|]). rewrite Nat.add_0_r.
        split; [done|]. split.
        + intros t Ht. apply Hew. lia.
        + intros x Hx Hne. apply Hz; [done|]. intros m' Hm'.
          replace m' with (fni net i + (m' - fni net i)) by lia. apply Hne. lia.
      - intros k s Hk (H1 & H2 & H3 & H4 & H5 & Hl1' & Hl2' & Hl3' & Hout' & Hew' & Hz').
        assert (fni net i + k < nEdges net) by (apply (slice_lt net Hwf i); lia).
        assert (nbr net (fni net i + k) < n) by by apply (wf_neighbors_range _ Hwf).
        unfold reduce_flush, aget.
        rewrite H5, Hnb by lia. simpl. rewrite H1, HnE.
        rewrite aset_lt by lia. simpl.
        rewrite (lookup_nth (reducedNetworkEdgeWeights2 s) _ 0%Q) by lia. simpl.
        rewrite aset_lt by lia. simpl. rewrite aset_lt by lia. simpl.
        eexists; split; [done|]. unfold flushed; simpl.
        repeat (split; [done|]).
        split; [by rewrite length_insert|]. split; [by rewrite length_insert|].
        split; [by rewrite length_insert|]. split; [|split].
        + intros t Ht. destruct (decide (t = fni net i + k)) as [->|].
          * rewrite !nth_insert_eq by lia. split; [done|]. apply Hew'. lia.
          * rewrite !nth_insert_ne by lia. apply Hout'. lia.
        + intros t Ht. rewrite nth_insert_ne; [apply Hew'; lia|].
          intros Heq. assert (fni net i + k = fni net i + t); [|lia].
          apply (nbr_injective i); [done|lia|lia|done].
        + intros x Hx Hne.
          destruct (decide (x = nbr net (fni net i + k))) as [->|].
          * by rewrite nth_insert_eq by lia.
          * rewrite nth_insert_ne by done. apply Hz'; [done|].
            intros t Ht. destruct (decide (t = k)) as [->|]; [done|].
            apply Hne. lia.
    Qed.

    (** The state after the clusters below [i] have been treated. *)
Definition reduced (i : nat) (s : reduce_state) : Prop :=
      rNEdges s = fni net i
      ∧ length (rNodeWeights s) = n
      ∧ (∀ x, x < i → nth x (rNodeWeights s) 0%Q = nw net x)
      ∧ (∀ x, i ≤ x < n → nth x (rNodeWeights s) 0%Q = 0%Q)
      ∧ length (rFirstNeighborIndices s) = n + 1
      ∧ (∀ x, x ≤ i → nth x (rFirstNeighborIndices s) 0 = fni net x)
      ∧ rTotalEdgeWeightSelfLinks s = totalEdgeWeightSelfLinks net
      ∧ length (reducedNetworkNeighbors1 s) = nEdges net
      ∧ length (reducedNetworkEdgeWeights1 s) = nEdges net
      ∧ (∀ t, t < fni net i →
              nth t (reducedNetworkNeighbors1 s) 0 = nbr net t
              ∧ nth t (reducedNetworkEdgeWeights1 s) 0%Q = ew net t)
      ∧ length (reducedNetworkEdgeWeights2 s) = n
      ∧ (∀ x, x < n → nth x (reducedNetworkEdgeWeights2 s) 0%Q = 0%Q).

Lemma for_range_once {St} (body : nat → St → option St) (s : St) :
      for_range 0 1 body s = body 0 s.
    Proof. unfold for_range. simpl. by destruct (body 0 s). Qed.

Lemma reduce_cluster_step npc i s :
      i < n → aget npc i = Some [i] → reduced i s →
      ∃ s', reduce_cluster net c npc i s = Some s' ∧ reduced (S i) s'.
    Proof.
      intros Hi Hnpc (HnE & Hlw & Hwlo & Hwhi & Hlf & Hf & HS & Hl1 & Hl2 & Hout
                      & Hl3 & Hz).
      unfold reduce_cluster. rewrite Hnpc. cbn [mbind option_bind length].
      rewrite for_range_once. unfold reduce_node.
      change (aget [i] 0) with (Some i). cbn [mbind option_bind].
      rewrite (nw_lookup net Hwf) by done. cbn [mbind option_bind].
      unfold aaddQ at 1.
      rewrite (aget_nth (rNodeWeights s) i 0%Q) by lia.
      cbn [mbind option_bind]. rewrite aset_lt by lia. cbn [mbind option_bind].
      rewrite (fni_lookup net Hwf i), (fni_lookup net Hwf (i + 1)) by lia.
      cbn [mbind option_bind].
      rewrite Hwhi by lia. rewrite Qplus_0_l_eq.
      match goal with
      | |- context [for_range _ _ (reduce_edge net c i) (?s1, 0)] =>
          destruct (scan_edges i s1 Hi) as ([s2 j] & -> & Hscan); [done|done|]
      end.
      simpl in Hscan.
      destruct Hscan as (-> & G1 & G2 & G3 & G4 & G5 & G6 & Gl & Gjl & Gnb & Gew & Gz).
      simpl in *.
      destruct (flush_edges i s2 Hi) as (s3 & Hrun & Hfl);
        [congruence|congruence|congruence|done| |done|done|done|].
      { intros t Ht. rewrite G5, G6. by apply Hout. }
      simpl. rewrite Hrun. simpl.
      destruct Hfl as (F1 & F2 & F3 & F4 & F5 & Fl1 & Fl2 & Fl3 & Fout & Few & Fz).
      rewrite F3, G3, F1, G1, HnE.
      pose proof (slice_le net Hwf i Hi) as Hle.
      rewrite aset_lt by lia. simpl. eexists; split; [done|].
      unfold reduced; simpl.
      replace (fni net i + (fni net (i + 1) - fni net i)) with (fni net (S i))
        by (replace (S i) with (i + 1) by lia; lia).
      split; [done|]. rewrite F2, G2. split; [by rewrite length_insert|].
      split.
      { intros x Hx. destruct (decide (x = i)) as [->|].
        - by rewrite nth_insert_eq by lia.
        - rewrite nth_insert_ne by done. apply Hwlo. lia. }
      split.
      { intros x Hx. rewrite nth_insert_ne by lia. apply Hwhi. lia. }
      split; [by rewrite length_insert|]. split.
      { intros x Hx. destruct (decide (x = i + 1)) as [->|].
        - rewrite nth_insert_eq by lia. f_equal. lia.
        - rewrite nth_insert_ne by done. apply Hf. lia. }
      split; [congruence|]. split; [done|]. split; [done|]. split.
      { intros t Ht. apply Fout. replace (S i) with (i + 1) in Ht by lia. lia. }
      split; [done|]. intros x Hx. apply Fz; [done|]. intros; lia.
    Qed.

Lemma createReducedNetwork_singleton :
      0 < n → createReducedNetwork net c = Some net.
    Proof.
      intros Hpos. unfold createReducedNetwork. simpl Clustering.nClusters.
      unfold newArray. rewrite decide_True by lia. simpl.
      destruct (getNodesPerCluster_value c) as (npc & -> & Hlen & Hnpc).
      { by simpl; rewrite length_seq. }
      { apply singleton_ranged. }
      simpl in *.
      destruct (for_range_total reduced (reduce_cluster net c npc) 0 n
                  (mkRS 0 (replicate n 0%Q) (replicate (n + 1) 0)
                     (totalEdgeWeightSelfLinks net)
                     (replicate (nEdges net) 0) (replicate (nEdges net) 0%Q)
                     (replicate (Z.to_nat (Z.of_nat n - 1)) 0) (replicate n 0%Q)))
        as (s & -> & Hred); [lia| | |].
      { unfold reduced; simpl. rewrite !length_replicate.
        rewrite (wf_fni_0 _ Hwf).
        split; [done|]. split; [done|]. split; [intros; lia|].
        split; [intros; by rewrite nth_replicate_lt by lia|]. split; [done|].
        split.
        { intros x Hx. replace x with 0 by lia.
          rewrite nth_replicate_lt by lia. by rewrite (wf_fni_0 _ Hwf). }
        split; [done|]. split; [done|]. split; [done|].
        split; [intros; lia|]. split; [done|].
        intros; by rewrite nth_replicate_lt by lia. }
      { intros i s Hi Hr. apply reduce_cluster_step; [lia| |done].
        unfold aget. rewrite Hnpc by lia. f_equal. apply members_singleton. lia. }
      simpl.
      destruct Hred as (HnE & Hlw & Hwlo & _ & Hlf & Hf & HS & Hl1 & Hl2 & Hout
                        & _ & _).
      rewrite (wf_fni_last _ Hwf) in *. rewrite HnE.
      rewrite !take_ge by lia.
      f_equal. destruct net as [n0 nws fnis nbs ews S0 nE0]. simpl in *.
      pose proof (wf_nodeWeights _ Hwf) as W1.
      pose proof (wf_fni_length _ Hwf) as W2.
      pose proof (wf_neighbors_length _ Hwf) as W3.
      pose proof (wf_edgeWeights_length _ Hwf) as W4. simpl in *.
      f_equal; try done.
      - apply (nth_ext _ _ 0%Q 0%Q); [lia|]. intros x Hx. apply Hwlo. lia.
      - apply (nth_ext _ _ 0 0); [lia|]. intros x Hx. apply Hf. lia.
      - apply (nth_ext _ _ 0 0); [lia|]. intros x Hx. apply Hout. lia.
      - apply (nth_ext _ _ 0%Q 0%Q); [lia|]. intros x Hx. apply Hout. lia.
    Qed.
End Singleton.

End ReduceFacts.

Import ReduceFacts.

(** The network without nodes that the constructor builds from an empty
    edge list. *)
Definition empty_network : Network.t := Network.mk 0 [] [0] [] [] 0%Q 0.

Lemma empty_network_wf : wf empty_network.
Proof. constructor; try reflexivity; intros i Hi; simpl in Hi; lia. Qed.

(** C4, as stated, fails on the network without nodes: it satisfies the
    construction invariants, and [createReducedNetwork] with its singleton
    clustering asks for an array of length -1, which raises a RangeError. *)
Lemma reduce_singleton_counterexample :
  wf empty_network
  ∧ no_self_loops empty_network
  ∧ sorted_neighbors empty_network
  ∧ symmetric empty_network
  ∧ Network.createReducedNetwork empty_network
      (Clustering.initializeBasedOnNNodes (Network.nNodes empty_network)) = None.
Proof.
  split; [apply empty_network_wf|].
  split; [intros i k Hi; simpl in Hi; lia|].
  split; [intros i k k' Hi; simpl in Hi; lia|].
  split; [intros i j Hi; simpl in Hi; lia|].
  reflexivity.
Qed.

(** C4, amended.  For every network with at least one node that satisfies
    the construction invariants (offsets non-decreasing, neighbour ids in
    range, sorted and duplicate-free per node, no self-loops),
    [createReducedNetwork] with the singleton clustering returns the
    original network, field by field. *)
Theorem reduce_singleton (net : Network.t) :
  wf net → no_self_loops net → sorted_neighbors net → 0 < Network.nNodes net →
  Network.createReducedNetwork net
    (Clustering.initializeBasedOnNNodes (Network.nNodes net)) = Some net.
Proof. intros. by apply createReducedNetwork_singleton. Qed.

Lemma triangle_pair_sorted : sorted_neighbors triangle_pair.
Proof.
  intros i k k' Hi Hk Hkk Hk'.
  below i; below k; below k'.
Qed.

Lemma reduce_singleton_witness :
  Network.createReducedNetwork triangle_pair
    (Clustering.initializeBasedOnNNodes 6) = Some triangle_pair.
Proof.
  exact (reduce_singleton triangle_pair triangle_pair_wf
           triangle_pair_no_self_loops triangle_pair_sorted ltac:(simpl; lia)).
Defined.

Import NetworkFacts ClusteringFacts QualityFacts CPMFacts.

(** * The effect of moving one node on the quality function *)

Module MoveFacts.

Section Move.
Context (net : Network.t) (resolution : Q).
Local Abbreviation n := (Network.nNodes net).

    (** The contribution of the ordered pair [(i, i')] when both nodes are
        in the same cluster. *)
Definition pairTerm (i i' : nat) : Q :=
      (adj net i i' - resolution * nw net i * nw net i')%Q.

    (** The numerator of the quality function without the self-link
        weight, as a sum over ordered pairs of nodes. *)
Definition pairSum (cls : list nat) : Q :=
      sumN (λ i, sumN (λ i', if decide (cid cls i = cid cls i')
                             then pairTerm i i' else 0%Q) n) n.

    (** The total node weight of cluster [l], the weight of the edges from
        node [j] to cluster [l], and the increment of the quality function
        that the local moving algorithms compute for moving [j] to [l]. *)
Definition clusterW (cls : list nat) (l : nat) : Q :=
      sumN (λ i, if decide (cid cls i = l) then nw net i else 0%Q) n.



Lemma sumN_product (f g : nat → Q) a b :
      (sumN f a * sumN g b == sumN (λ i, sumN (λ j, f i * g j) b) a)%Q.
    Proof.
      rewrite <- sumN_scal_r. apply sumN_ext. intros i _.
      by rewrite sumN_scal.
    Qed.

    (** The sum of the squared cluster weights is a sum over pairs of
        nodes in the same cluster. *)
Lemma squares_pairs (cls : list nat) K :
      (∀ i, i < n → cid cls i < K) →
      (sumN (λ k, clusterW cls k * clusterW cls k) K
       == sumN (λ i, sumN (λ i', if decide (cid cls i = cid cls i')
                                 then nw net i * nw net i' else 0) n) n)%Q.
    Proof.
      intros Hr.
      transitivity (sumN (λ k, sumN (λ i, sumN (λ i',
        (if decide (cid cls i = k) then nw net i else 0)
        * (if decide (cid cls i' = k) then nw net i' else 0)) n) n) K)%Q.
      { apply sumN_ext. intros k _. apply sumN_product. }
      rewrite sumN_swap. apply sumN_ext. intros i Hi.
      rewrite sumN_swap. apply sumN_ext. intros i' Hi'.
      transitivity (sumN (λ k, if decide (cid cls i = k)
                               then (if decide (cid cls i' = k)
                                     then nw net i * nw net i' else 0)
                               else 0) K)%Q.
      { apply sumN_ext. intros k _. repeat case_decide; ring. }
      rewrite (sumN_delta
        (λ k, if decide (cid cls i' = k) then nw net i * nw net i' else 0)%Q
        K (cid cls i)) by by apply Hr.
      repeat case_decide; try congruence; reflexivity.
    Qed.

Lemma numerator_pairSum (c : Clustering.t) :
      clustering_of net c →
      (cpm_numerator resolution net c
       == pairSum (Clustering.clusters c)
          + Network.totalEdgeWeightSelfLinks net)%Q.
    Proof.
      intros Hc. unfold cpm_numerator, pairSum.
      assert (sumN (λ k, clusterWeight net c k * clusterWeight net c k)
                (Clustering.nClusters c)
              == sumN (λ i, sumN (λ i',
                   if decide (cl c i = cl c i') then nw net i * nw net i' else 0)
                   n) n)%Q as ->.
      { apply (squares_pairs (Clustering.clusters c)).
        intros i Hi. by apply (cl_lt net). }
      rewrite <- sumN_scal.
      transitivity
        (sumN (λ i, sumN (λ i', if decide (cl c i = cl c i')
                                then adj net i i' else 0) n
                    - resolution * sumN (λ i', if decide (cl c i = cl c i')
                                               then nw net i * nw net i' else 0) n) n
         + Network.totalEdgeWeightSelfLinks net)%Q.
      { rewrite sumN_minus. ring. }
      apply Qplus_comp; [|reflexivity].
      apply sumN_ext. intros i _. rewrite <- sumN_scal, <- sumN_minus.
      apply sumN_ext. intros i' _. unfold pairTerm, cl.
      case_decide; ring.
    Qed.

Context (Hwf : wf net) (Hsym : symmetric net) (Hns : no_self_loops net).






End Move.

End MoveFacts.

Import NetworkFacts ClusteringFacts QualityFacts CPMFacts MoveFacts.

(** * One node visit of the local moving algorithms *)

Module VisitFacts.
Import LocalMoving.








Section Visit.
Context (net : Network.t) (resolution : Q) (Hwf : wf net).
Local Abbreviation n := (Network.nNodes net).





    (** ** Removing the node *)



    (** ** Collecting the neighbouring clusters *)



    (** ** Choosing the best cluster *)


    (** ** Adding the node to its new cluster *)




    (** ** The whole visit *)

End Visit.

End VisitFacts.

Import NetworkFacts ClusteringFacts QualityFacts CPMFacts.

(** * Counting arguments, permutations and compaction *)

Module CountingFacts.


  (** All lists of length [k] with entries below [m]. *)
Fixpoint tuples (m k : nat) : list (list nat) :=
    match k with
    | 0 => [[]]
    | S k => x ← seq 0 m; (λ l, x :: l) <$> tuples m k
    end.



  (** ** generateRandomPermutation *)

  (** A generator keeps its draws below the bound it is given, as
      [Random.nextInt(bound)] does. *)
Definition bounded_draws {rng} (R : Random rng) : Prop :=
    ∀ s bound, 0 < bound → (nextInt R s bound).1 < bound.

Lemma generateRandomPermutation_spec {rng} (R : Random rng) m random :
    bounded_draws R →
    ∃ order random',
      generateRandomPermutation R m random = Some (order, random')
      ∧ length order = m ∧ Forall (λ x, x < m) order ∧ NoDup order.
  Proof.
    intros HR. unfold generateRandomPermutation.
    pose (P := λ (_ : nat) (s : list nat * rng),
      length s.1 = m ∧ Forall (λ x, x < m) s.1 ∧ NoDup s.1).
    destruct (for_range_total P
      (λ i '(permutation, random),
         let '(j, random) := nextInt R random m in
         k ← aget permutation i;
         pj ← aget permutation j;
         permutation ← aset permutation i pj;
         permutation ← aset permutation j k;
         Some (permutation, random))
      0 m (seq 0 m, random)) as ([order random'] & Hrun & Hl & Hf & Hn).
    - lia.
    - unfold P. cbn [fst]. rewrite length_seq. split; [done|]. split.
      + apply Forall_forall. intros x Hx%elem_of_seq. lia.
      + apply NoDup_seq.
    - intros i [p r] Hi (Hl & Hf & Hn). cbn [fst] in *.
      pose proof (HR r m ltac:(lia)) as Hj.
      destruct (nextInt R r m) as [j r']. cbn [fst] in Hj.
      destruct (lookup_lt_is_Some_2 p i) as [k Hk]; [lia|].
      destruct (lookup_lt_is_Some_2 p j) as [pj Hpj]; [lia|].
      unfold aget. rewrite Hk, Hpj. cbn [mbind option_bind].
      rewrite (aset_lt p) by lia. cbn [mbind option_bind].
      rewrite aset_lt by (rewrite length_insert; lia).
      cbn [mbind option_bind]. eexists. split; [done|]. unfold P. cbn [fst].
      rewrite !length_insert. split; [done|]. split.
      + apply Forall_insert; [apply Forall_insert; [done|]|].
        * by eapply (Forall_lookup_1 _ _ _ _ Hf).
        * by eapply (Forall_lookup_1 _ _ _ _ Hf).
      + apply NoDup_alt. intros a b x Ha Hb.
        assert (∀ c y, <[j:=k]> (<[i:=pj]> p) !! c = Some y →
                       p !! (if decide (c = j) then i
                             else if decide (c = i) then j else c) = Some y)
          as Hswap.
        { intros c y Hc. destruct (decide (c = j)) as [->|Hcj].
          - rewrite list_lookup_insert_eq in Hc
              by (rewrite length_insert; lia). congruence.
          - rewrite list_lookup_insert_ne in Hc by done.
            destruct (decide (c = i)) as [->|Hci].
            + rewrite list_lookup_insert_eq in Hc by lia. congruence.
            + by rewrite list_lookup_insert_ne in Hc by done. }
        apply Hswap in Ha. apply Hswap in Hb.
        pose proof (proj1 (NoDup_alt p) Hn _ _ _ Ha Hb) as Heq.
        repeat case_decide; lia.
    - exists order, random'. done.
  Qed.

End CountingFacts.

Import NetworkFacts ClusteringFacts QualityFacts CPMFacts.

(** * Setting up and finishing a run of local moving *)

Module RunFacts.
Import LocalMoving ClusteringOps MoveFacts VisitFacts CountingFacts.

  (** ** Compaction keeps the partition *)

  (** The numbering loop of [removeEmptyClusters] gives different numbers
      to different non-empty clusters. *)
Lemma number_loop_injective c ne newClusters i :
    number_loop c ne = Some (newClusters, i) →
    ∀ k k' v, k < Clustering.nClusters c → k' < Clustering.nClusters c →
              ne !! k = Some true → ne !! k' = Some true →
              newClusters !! k = Some v → newClusters !! k' = Some v → k = k'.
  Proof.
    intros Hrun.
    pose (P := λ (j : nat) (s : list nat * nat),
      length s.1 = Clustering.nClusters c ∧
      (∀ k v, k < j → ne !! k = Some true → s.1 !! k = Some v → v < s.2) ∧
      (∀ k k' v, k < j → k' < j → ne !! k = Some true → ne !! k' = Some true →
                 s.1 !! k = Some v → s.1 !! k' = Some v → k = k')).
    assert (P (Clustering.nClusters c) (newClusters, i)) as (_ & _ & H).
    2: { intros k k' v ? ? ? ? ? ?. by eapply (H k k' v). }
    eapply (for_range_partial P); [exact Hrun | lia | |].
    - split; [by simpl; rewrite length_replicate|]. split; intros; lia.
    - intros j [nc m] [nc' m'] Hj (Hlen & Hlo & Hinj) Hbody.
      cbn [fst snd] in *. unfold aget in Hbody.
      destruct (ne !! j) as [b|] eqn:Hb; simplify_eq/=.
      destruct b; simplify_eq/=.
      + rewrite aset_lt in Hbody by lia. simplify_eq/=.
        unfold P. cbn [fst snd].
        split; [by rewrite length_insert|]. split.
        * intros k v Hk Hne Hv. destruct (decide (k = j)) as [->|?].
          -- rewrite list_lookup_insert_eq in Hv by lia. simplify_eq. lia.
          -- rewrite list_lookup_insert_ne in Hv by done.
             pose proof (Hlo k v ltac:(lia) Hne Hv). lia.
        * intros k k' v Hk Hk' Hne Hne' Hv Hv'.
          destruct (decide (k = j)) as [->|?];
            destruct (decide (k' = j)) as [->|?]; [done| | |].
          -- rewrite list_lookup_insert_eq in Hv by lia.
             rewrite list_lookup_insert_ne in Hv' by done. simplify_eq.
             pose proof (Hlo k' _ ltac:(lia) Hne' Hv'). lia.
          -- rewrite list_lookup_insert_eq in Hv' by lia.
             rewrite list_lookup_insert_ne in Hv by done. simplify_eq.
             pose proof (Hlo k _ ltac:(lia) Hne Hv). lia.
          -- rewrite list_lookup_insert_ne in Hv, Hv' by done.
             apply (Hinj k k' v); try done; lia.
      + unfold P. cbn [fst snd]. split; [done|]. split.
        * intros k v Hk Hne Hv.
          destruct (decide (k = j)) as [->|?]; [congruence|].
          apply (Hlo k v); [lia|done..].
        * intros k k' v Hk Hk' Hne Hne' Hv Hv'.
          destruct (decide (k = j)) as [->|?]; [congruence|].
          destruct (decide (k' = j)) as [->|?]; [congruence|].
          apply (Hinj k k' v); try done; lia.
  Qed.

  (** Two nodes are in the same cluster after [removeEmptyClusters]
      exactly when they were before. *)
Lemma removeEmptyClusters_partition c c' :
    Clustering.removeEmptyClusters c = Some c' → sized c →
    ∀ i i', i < Clustering.nNodes c → i' < Clustering.nNodes c →
            cid (Clustering.clusters c') i = cid (Clustering.clusters c') i'
            ↔ cid (Clustering.clusters c) i = cid (Clustering.clusters c) i'.
  Proof.
    rewrite removeEmptyClusters_unfold. intros Hrun Hs i i' Hi Hi'.
    destruct (mark_loop c) as [ne|] eqn:Hmark; simplify_eq/=.
    destruct (number_loop c ne) as [[nc m]|] eqn:Hnum; simplify_eq/=.
    destruct (relabel nc (Clustering.nNodes c) (Clustering.clusters c))
      as [cls|] eqn:Hrel; simplify_eq/=.
    apply mark_loop_partial in Hmark as [Hlen Hmark].
    pose proof (number_loop_injective _ _ _ _ Hnum) as Hinj.
    apply number_loop_partial in Hnum as [Hlen' Hnum].
    apply relabel_partial in Hrel as [Hl Hrel]; [|unfold sized in Hs; lia].
    destruct (Hrel i Hi) as (ck & Hck & Hv & [v Hnv]).
    destruct (Hrel i' Hi') as (ck' & Hck' & Hv' & [v' Hnv']).
    rewrite Hnv in Hv. rewrite Hnv' in Hv'.
    unfold cid. rewrite (lookup_nth_eq _ _ 0 _ Hv), (lookup_nth_eq _ _ 0 _ Hv').
    rewrite (lookup_nth_eq _ _ 0 _ Hck), (lookup_nth_eq _ _ 0 _ Hck').
    split; [|intros ->; congruence].
    intros ->. apply (Hinj ck ck' v').
    - apply lookup_lt_Some in Hnv. lia.
    - apply lookup_lt_Some in Hnv'. lia.
    - exact (Hmark i ck Hi Hck).
    - exact (Hmark i' ck' Hi' Hck').
    - done.
    - done.
  Qed.

Section Run.
Context (net : Network.t) (resolution : Q) (Hwf : wf net).
Local Abbreviation n := (Network.nNodes net).

    (** ** The statistics computed before the first visit *)


    (** ** Compaction after the loop *)


End Run.

End RunFacts.

Import NetworkFacts ClusteringFacts QualityFacts CPMFacts.

(** * The loop of the standard local moving algorithm *)

Module StandardFacts.
Import LocalMoving ClusteringOps MoveFacts VisitFacts CountingFacts RunFacts.
Import StandardLocalMovingAlgorithm.

Section Standard.
Context (net : Network.t) (resolution : Q).
Context (Hwf : wf net) (Hsym : symmetric net) (Hns : no_self_loops net)
            (Hnn : nonneg_edges net).
Local Abbreviation n := (Network.nNodes net).
Local Abbreviation ps := (pairSum net resolution).

    (** The number of arrays of clusters with a larger sum over pairs: it
        falls with every move. *)
Definition above (cls : list nat) : nat :=
      length (List.filter (λ c, Qlt_bool (ps cls) (ps c)) (tuples n n)).


Lemma above_ext cls cls' : cls = cls' → above cls = above cls'.
    Proof. by intros ->. Qed.





End Standard.

End StandardFacts.

Import NetworkFacts ClusteringFacts QualityFacts CPMFacts.

(** * The queue of the fast local moving algorithm *)

Module FastFacts.
Import LocalMoving ClusteringOps MoveFacts VisitFacts CountingFacts RunFacts.
Import StandardFacts FastLocalMovingAlgorithm.

Section Fast.
Context (net : Network.t) (resolution : Q).
Context (Hwf : wf net) (Hsym : symmetric net) (Hns : no_self_loops net)
            (Hnn : nonneg_edges net).
Local Abbreviation n := (Network.nNodes net).
Local Abbreviation ps := (pairSum net resolution).






    (** ** Adding the neighbours of a moved node to the queue *)

End Fast.

End FastFacts.

Import NetworkFacts ClusteringFacts QualityFacts CPMFacts.

(** * The loop of the fast local moving algorithm *)

Module FastLoopFacts.
Import LocalMoving ClusteringOps MoveFacts VisitFacts CountingFacts RunFacts.
Import StandardFacts FastFacts FastLocalMovingAlgorithm.

Section FastLoop.
Context (net : Network.t) (resolution : Q).
Context (Hwf : wf net) (Hsym : symmetric net) (Hns : no_self_loops net)
            (Hnn : nonneg_edges net).
Local Abbreviation n := (Network.nNodes net).
Local Abbreviation ps := (pairSum net resolution).







End FastLoop.

End FastLoopFacts.

Import NetworkFacts ClusteringFacts QualityFacts CPMFacts.

(** * Complete runs of the two local moving algorithms *)

Module LocalMovingFacts.
Import LocalMoving ClusteringOps MoveFacts VisitFacts CountingFacts RunFacts.
Import StandardFacts FastFacts FastLoopFacts.



Section Runs.
Context {rng : Type} (R : Random rng).
Context (net : Network.t) (resolution : Q).
Context (Hwf : wf net) (Hsym : symmetric net) (Hns : no_self_loops net)
            (Hnn : nonneg_edges net) (HR : bounded_draws R).
Local Abbreviation n := (Network.nNodes net).
Local Abbreviation ps := (pairSum net resolution).







End Runs.

End LocalMovingFacts.

Import NetworkFacts ClusteringFacts QualityFacts CPMFacts.
Import ClusteringOps CountingFacts LocalMovingFacts.

(** * Local moving never lowers the quality *)

(** A generator that counts: the draw below [bound] is the state modulo
    [bound]. *)
Definition counter_random : Random nat :=
  {| nextInt := λ s bound, (s mod bound, S s);
     nextDouble := λ s, (1 # 2, S s) |}.

Lemma counter_random_bounded : bounded_draws counter_random.
Proof. intros s bound Hb. simpl. apply Nat.mod_upper_bound. lia. Qed.


Lemma triangle_pair_nonneg : nonneg_edges triangle_pair.
Proof. intros k Hk. below k. Qed.

Lemma triangle_pair_denominator_pos : (0 < cpm_denominator triangle_pair)%Q.
Proof. vm_compute. reflexivity. Qed.

(** The standard algorithm on the two triangles, started from the
    singleton clustering, finds the two triangles. *)
Example standard_two_triangles :
  fst <$> StandardLocalMovingAlgorithm.improveClustering counter_random 100
            (1 # 5) triangle_pair (Clustering.initializeBasedOnNNodes 6) 0
  = Some (Clustering.mk [0; 0; 0; 1; 1; 1] 2 6, true).
Proof. vm_compute. reflexivity. Qed.

Example fast_two_triangles :
  fst <$> FastLocalMovingAlgorithm.improveClusteringOneIteration counter_random
            100 (1 # 5) triangle_pair (Clustering.initializeBasedOnNNodes 6) 0
  = Some (Clustering.mk [0; 0; 0; 1; 1; 1] 2 6, true).
Proof. vm_compute. reflexivity. Qed.





(** * The constructor of [Network] and the arrays of its caller *)

Module ConstructorFacts.
Import Heap NetworkConstructor.

  (** ** Sorting *)

Lemma sort_insert_perm {A} (le : A → A → bool) x l :
    sort_insert le x l ≡ₚ x :: l.
  Proof.
    induction l as [|y l IH]; simpl; [done|].
    destruct (le x y); [done|]. rewrite IH. apply Permutation_swap.
  Qed.

Lemma js_sort_perm {A} (le : A → A → bool) l : js_sort le l ≡ₚ l.
  Proof.
    induction l as [|x l IH]; simpl; [done|].
    rewrite sort_insert_perm. by rewrite IH.
  Qed.

Lemma sort_insert_sorted {A} (le : A → A → bool) x l :
    (∀ a b, le a b = false → le b a = true) →
    Sorted (λ a b, le a b = true) l →
    Sorted (λ a b, le a b = true) (sort_insert le x l).
  Proof.
    intros Htot. induction 1 as [|y l Hs IH Hhd]; simpl.
    - by repeat constructor.
    - destruct (le x y) eqn:Hxy.
      + constructor; [by constructor|]. by constructor.
      + constructor; [done|].
        destruct l as [|z l]; simpl in *.
        * constructor. by apply Htot.
        * destruct (le x z); constructor; [by apply Htot|].
          by inversion Hhd.
  Qed.

Lemma js_sort_sorted {A} (le : A → A → bool) l :
    (∀ a b, le a b = false → le b a = true) →
    Sorted (λ a b, le a b = true) (js_sort le l).
  Proof.
    intros Htot. induction l as [|x l IH]; simpl; [constructor|].
    by apply sort_insert_sorted.
  Qed.

Lemma Sorted_fmap {A B} (f : A → B) (R : A → A → Prop) (T : B → B → Prop) l :
    (∀ a b, R a b → T (f a) (f b)) → Sorted R l → Sorted T (f <$> l).
  Proof.
    intros HRS. induction 1 as [|x l Hs IH Hhd]; simpl; constructor; [done|].
    destruct Hhd; simpl; constructor. by apply HRS.
  Qed.

  (** ** The order on edges *)

Definition lex_le (p q : nat * nat) : Prop :=
    p.1 < q.1 ∨ (p.1 = q.1 ∧ p.2 ≤ q.2).

Lemma compareEdges_le_total e0 e1 a b :
    compareEdges_le e0 e1 a b = false → compareEdges_le e0 e1 b a = true.
  Proof. unfold compareEdges_le. repeat case_decide; try done; lia. Qed.

Lemma compareEdges_le_lex e0 e1 a b :
    compareEdges_le e0 e1 a b = true →
    lex_le (nth a e0 0, nth a e1 0) (nth b e0 0, nth b e1 0).
  Proof.
    unfold compareEdges_le, lex_le. simpl. repeat case_decide; try done; lia.
  Qed.

  (** ** Arrays filled by a loop *)

Lemma take_write {A} (a : list A) i x :
    i < length a → take (S i) (<[i:=x]> a) = take i a ++ [x].
  Proof.
    intros Hi. rewrite (take_S_r _ _ x) by (by apply list_lookup_insert_eq).
    by rewrite take_insert_ge.
  Qed.

  (** Both directions of every edge between two different nodes. *)
Definition mirror (p : nat * nat) : list (nat * nat) :=
    if decide (p.1 ≠ p.2) then [p; (p.2, p.1)] else [p].

Definition symmetrised (l : list (nat * nat)) : list (nat * nat) :=
    flat_map mirror l.

Lemma symmetrised_snoc l p : symmetrised (l ++ [p]) = symmetrised l ++ mirror p.
  Proof. unfold symmetrised. rewrite flat_map_app. simpl. by rewrite app_nil_r. Qed.

Lemma put_weight_total w w2 i j m :
    (∀ ws, w = Some ws → j < length ws) →
    (∀ ws, w2 = Some ws → length ws = m) →
    (w = None → w2 = None) → i < m →
    ∃ w2', put_weight w w2 i j = Some w2'
           ∧ (∀ ws, w2' = Some ws → length ws = m)
           ∧ (w = None → w2' = None)
           ∧ (is_Some w → is_Some w2 → is_Some w2').
  Proof.
    intros Hw Hw2 Hnone Hi. unfold put_weight.
    destruct w as [ws|]; [|exists w2; split_and!; try done;
                             by intros [? ?]].
    destruct w2 as [ws2|]; [|exists None; split_and!; try done;
                               by intros _ [? ?]].
    destruct (aget_lt ws j (Hw ws eq_refl)) as [x ->]. cbn [mbind option_bind].
    rewrite aset_lt by (rewrite (Hw2 ws2 eq_refl); lia).
    cbn [mbind option_bind]. eexists. split; [done|]. split_and!; try done.
    intros ? [= <-]. rewrite length_insert. by apply Hw2.
  Qed.

  (** ** The loop that adds the second direction *)

Lemma symmetrize_spec e0 e1 w :
    length e0 = length e1 →
    (∀ ws, w = Some ws → length e0 ≤ length ws) →
    ∃ a0 a1 w2 i,
      symmetrize e0 e1 w = Some (a0, a1, w2, i)
      ∧ zip (take i a0) (take i a1) = symmetrised (zip e0 e1)
      ∧ length (take i a0) = i ∧ length (take i a1) = i
      ∧ (w = None → w2 = None)
      ∧ (is_Some w → ∃ ws2, w2 = Some ws2 ∧ i ≤ length ws2).
  Proof.
    intros Hlen Hw. unfold symmetrize.
    set (m := length e0) in *.
    pose (P := λ (j : nat) (s : list nat * list nat * option (list Q) * nat),
      let '(a0, a1, w2, i) := s in
      length a0 = 2 * m ∧ length a1 = 2 * m ∧ i ≤ 2 * j
      ∧ zip (take i a0) (take i a1) = symmetrised (take j (zip e0 e1))
      ∧ (∀ ws, w2 = Some ws → length ws = 2 * m)
      ∧ (w = None → w2 = None)
      ∧ (is_Some w → is_Some w2)).
    destruct (for_range_total P
      (λ j '(a0, a1, w2, i),
         x ← aget e0 j;
         y ← aget e1 j;
         a0 ← aset a0 i x;
         a1 ← aset a1 i y;
         w2 ← put_weight w w2 i j;
         let i := i + 1 in
         if decide (x ≠ y) then
           a0 ← aset a0 i y;
           a1 ← aset a1 i x;
           w2 ← put_weight w w2 i j;
           Some (a0, a1, w2, i + 1)
         else Some (a0, a1, w2, i))
      0 m (replicate (2 * m) 0, replicate (2 * m) 0,
           (λ _, replicate (2 * m) 0%Q) <$> w, 0))
      as ([[[a0 a1] w2] i] & Hrun & Hl0 & Hl1 & Hi & Hzip & Hw2 & Hnone & Hsome).
    { lia. }
    { unfold P. rewrite !length_replicate. split_and!; try done.
      - intros ws. destruct w; simpl; [|done]. intros [= <-].
        by rewrite length_replicate.
      - by intros ->.
      - intros [ws ->]. by eexists. }
    { intros j [[[a0 a1] w2] i] Hj (Hl0 & Hl1 & Hi & Hzip & Hw2 & Hnone & Hsome).
      destruct (aget_lt e0 j ltac:(lia)) as [x Hx].
      destruct (aget_lt e1 j ltac:(lia)) as [y Hy].
      rewrite Hx, Hy. cbn [mbind option_bind].
      rewrite (aset_lt a0), (aset_lt a1) by lia. cbn [mbind option_bind].
      destruct (put_weight_total w w2 i j (2 * m))
        as (w2' & -> & Hw2' & Hnone' & Hsome'); [|done|done|lia|].
      { intros ws Hws. pose proof (Hw ws Hws). lia. }
      cbn [mbind option_bind].
      assert (take (S j) (zip e0 e1) = take j (zip e0 e1) ++ [(x, y)]) as Htk.
      { apply take_S_r. rewrite lookup_zip_with. unfold aget in Hx, Hy.
        by rewrite Hx, Hy. }
      replace (i + 1) with (S i) by lia.
      case_decide as Hxy.
      - rewrite (aset_lt (<[i:=x]> a0)), (aset_lt (<[i:=y]> a1))
          by (rewrite length_insert; lia).
        cbn [mbind option_bind].
        destruct (put_weight_total w w2' (S i) j (2 * m))
          as (w2'' & -> & Hw2'' & Hnone'' & Hsome''); [|done|done|lia|].
        { intros ws Hws. pose proof (Hw ws Hws). lia. }
        cbn [mbind option_bind]. eexists. split; [done|]. unfold P.
        rewrite !length_insert. split_and!; try done; [lia| |by eauto].
        replace (S i + 1) with (S (S i)) by lia.
        rewrite !take_write by (rewrite ?length_insert; lia).
        rewrite Htk, symmetrised_snoc, <- Hzip. unfold mirror. simpl.
        rewrite decide_True by done.
        rewrite <- !(assoc_L (++)). simpl.
        rewrite !zip_with_app by (rewrite !length_take; lia). done.
      - eexists. split; [done|]. unfold P.
        rewrite !length_insert. split_and!; try done; [lia| |by eauto].
        rewrite !take_write by lia.
        rewrite Htk, symmetrised_snoc, <- Hzip. unfold mirror. simpl.
        rewrite decide_False by (intros Hne; by apply Hne).
        rewrite !zip_with_app by (rewrite !length_take; lia). done. }
    exists a0, a1, w2, i. split; [exact Hrun|].
    rewrite (take_ge (zip e0 e1)) in Hzip by (rewrite length_zip_with; lia).
    assert (i ≤ 2 * m) by lia.
    rewrite !length_take. split_and!; try done; try lia.
    intros Hs. destruct (Hsome Hs) as [ws2 ->]. exists ws2. split; [done|].
    rewrite (Hw2 ws2 eq_refl). lia.
  Qed.

  (** ** Reading and writing the heap *)

Lemma refs_lt h l r : refs h l = Some r → l < length h.
  Proof.
    unfold refs. destruct (h !! l) eqn:H; [|done]. intros _.
    by eapply lookup_lt_Some.
  Qed.

Lemma refs_nums_ne h l r l' w : refs h l = Some r → nums h l' = Some w → l ≠ l'.
  Proof.
    unfold refs, nums. intros H1 H2 ->.
    by destruct (h !! l') as [[]|].
  Qed.

  (** What [edges[k] = a] does: the new array is the next object of the
      heap, entry [k] of the array of arrays refers to it, and no other
      object changes. *)
Lemma set_row_spec h edges k a r :
    refs h edges = Some r → k < length r →
    ∃ h', set_row h edges k a = Some h'
          ∧ length h' = S (length h)
          ∧ refs h' edges = Some (<[k:=length h]> r)
          ∧ ints h' (length h) = Some a
          ∧ (∀ l, l ≠ edges → l < length h → h' !! l = h !! l).
  Proof.
    intros Hr Hk. pose proof (refs_lt _ _ _ Hr) as He.
    unfold set_row, alloc. rewrite Hr. cbn [mbind option_bind].
    rewrite aset_lt by done. cbn [mbind option_bind]. eexists. split; [done|].
    unfold store, refs, ints. rewrite length_insert, length_app. simpl.
    split; [lia|]. split.
    { rewrite list_lookup_insert_eq by (rewrite length_app; simpl; lia). done. }
    split.
    { rewrite list_lookup_insert_ne by lia.
      rewrite lookup_app_r by lia. by rewrite Nat.sub_diag. }
    intros l Hne Hl. rewrite list_lookup_insert_ne by done.
    by rewrite lookup_app_l.
  Qed.

Lemma row_lookup h edges r k l a :
    refs h edges = Some r → r !! k = Some l → ints h l = Some a →
    row h edges k = Some a.
  Proof.
    intros Hr Hk Ha. unfold row, aget. rewrite Hr. cbn [mbind option_bind].
    rewrite Hk. done.
  Qed.

Lemma ints_frame h h' l a :
    h' !! l = h !! l → ints h l = Some a → ints h' l = Some a.
  Proof. unfold ints. by intros ->. Qed.

  (** ** Lists given index by index *)

Lemma fmap_nth_seq {A} (l : list A) d :
    (λ k, nth k l d) <$> seq 0 (length l) = l.
  Proof.
    apply list_eq. intros i. rewrite list_lookup_fmap.
    destruct (decide (i < length l)) as [Hi|Hi].
    - rewrite lookup_seq_lt by done. simpl. symmetry. by apply lookup_nth.
    - rewrite lookup_seq_ge by lia. simpl. symmetry.
      apply lookup_ge_None_2. lia.
  Qed.

Lemma zip_fmap {A B C} (f : A → B) (g : A → C) (l : list A) :
    zip (f <$> l) (g <$> l) = (λ x, (f x, g x)) <$> l.
  Proof. induction l as [|x l IH]; simpl; [done|]. f_equal. exact IH. Qed.

Lemma zip_nth (e0 e1 : list nat) :
    length e0 = length e1 →
    zip e0 e1 = (λ k, (nth k e0 0, nth k e1 0)) <$> seq 0 (length e0).
  Proof.
    intros Hlen. rewrite <- (zip_fmap (λ k, nth k e0 0) (λ k, nth k e1 0)).
    rewrite fmap_nth_seq. rewrite Hlen. by rewrite fmap_nth_seq.
  Qed.

  (** A loop that writes [g i] to entry [i] of an array of length [m]. *)
Lemma fill_loop {A} (f : nat → option A) (g : nat → A) m d :
    (∀ i, i < m → f i = Some (g i)) →
    for_range 0 m (λ i s, x ← f i; aset s i x) (replicate m d)
    = Some (g <$> seq 0 m).
  Proof.
    intros Hf.
    pose (P := λ (i : nat) (s : list A),
      length s = m ∧ take i s = g <$> seq 0 i).
    destruct (for_range_total P (λ i s, x ← f i; aset s i x) 0 m
                (replicate m d)) as (s & -> & Hl & Hs).
    - lia.
    - split; [by rewrite length_replicate|]. by rewrite take_0.
    - intros i s Hi [Hl Hs]. rewrite Hf by lia. cbn [mbind option_bind].
      rewrite aset_lt by lia. eexists. split; [done|]. split.
      + by rewrite length_insert.
      + rewrite take_write by lia. rewrite Hs, seq_S, fmap_app. done.
    - f_equal. rewrite <- Hs. rewrite take_ge by lia. done.
  Qed.

End ConstructorFacts.

(** * Sorting the edges in the arrays of the caller *)

Module SortEdgesFacts.
Import Heap NetworkConstructor ConstructorFacts ClusteringOps.

  (** The two loops of [sortEdges] that copy the edges in sorted order. *)
Lemma sorted_rows (e0 e1 indices : list nat) m :
    length e0 = m → length e1 = m → length indices = m →
    Forall (λ k, k < m) indices →
    for_range 0 m
      (λ i '(s0, s1),
         k ← aget indices i;
         x ← aget e0 k;
         y ← aget e1 k;
         s0 ← aset s0 i x;
         s1 ← aset s1 i y;
         Some (s0, s1))
      (replicate m 0, replicate m 0)
    = Some ((λ k, nth k e0 0) <$> indices, (λ k, nth k e1 0) <$> indices).
  Proof.
    intros H0 H1 Hi Hf.
    pose (P := λ (i : nat) (s : list nat * list nat),
      length s.1 = m ∧ length s.2 = m
      ∧ take i s.1 = (λ k, nth k e0 0) <$> take i indices
      ∧ take i s.2 = (λ k, nth k e1 0) <$> take i indices).
    destruct (for_range_total P
      (λ i '(s0, s1),
         k ← aget indices i;
         x ← aget e0 k;
         y ← aget e1 k;
         s0 ← aset s0 i x;
         s1 ← aset s1 i y;
         Some (s0, s1))
      0 m (replicate m 0, replicate m 0))
      as ([s0 s1] & -> & Hl0 & Hl1 & Hs0 & Hs1).
    - lia.
    - unfold P. cbn [fst snd]. rewrite !length_replicate, !take_0. done.
    - intros i [s0 s1] Hlt (Hl0 & Hl1 & Hs0 & Hs1). cbn [fst snd] in *.
      assert (indices !! i = Some (nth i indices 0)) as Hk
        by (apply lookup_nth; lia).
      pose proof (Forall_lookup_1 _ _ _ _ Hf Hk) as Hkm. cbv beta in Hkm.
      rewrite (aget_nth indices i 0) by lia. cbn [mbind option_bind].
      rewrite (aget_nth e0 _ 0), (aget_nth e1 _ 0) by lia.
      cbn [mbind option_bind].
      rewrite (aset_lt s0), (aset_lt s1) by lia. cbn [mbind option_bind].
      eexists. split; [done|]. unfold P. cbn [fst snd].
      rewrite !length_insert, !take_write by lia.
      rewrite (take_S_r _ _ _ Hk), !fmap_app, Hs0, Hs1. done.
    - cbn [fst snd] in *. rewrite !take_ge in Hs0, Hs1 by lia. by subst.
  Qed.

Lemma sorted_weights (w : list Q) (indices : list nat) m :
    m ≤ length w → length indices = m → Forall (λ k, k < m) indices →
    ∃ sorted,
      for_range 0 m
        (λ i sorted, k ← aget indices i; x ← aget w k; aset sorted i x)
        (replicate m 0%Q) = Some sorted
      ∧ length sorted = m.
  Proof.
    intros Hw Hi Hf.
    destruct (for_range_total (λ _ (s : list Q), length s = m)
      (λ i sorted, k ← aget indices i; x ← aget w k; aset sorted i x)
      0 m (replicate m 0%Q)) as (s & Hrun & Hl).
    - lia.
    - by rewrite length_replicate.
    - intros i s Hlt Hl.
      assert (indices !! i = Some (nth i indices 0)) as Hk
        by (apply lookup_nth; lia).
      pose proof (Forall_lookup_1 _ _ _ _ Hf Hk) as Hkm. cbv beta in Hkm.
      rewrite (aget_nth indices i 0) by lia. cbn [mbind option_bind].
      rewrite (aget_nth w _ 0%Q) by lia. cbn [mbind option_bind].
      rewrite aset_lt by lia. eexists. split; [done|].
      by rewrite length_insert.
    - by exists s.
  Qed.

  (** The sorted indices give the edges in lexicographic order. *)
Lemma sorted_indices (e0 e1 : list nat) :
    length e0 = length e1 →
    let indices := js_sort (compareEdges_le e0 e1) (seq 0 (length e0)) in
    length indices = length e0
    ∧ Forall (λ k, k < length e0) indices
    ∧ (λ k, (nth k e0 0, nth k e1 0)) <$> indices ≡ₚ zip e0 e1
    ∧ Sorted lex_le ((λ k, (nth k e0 0, nth k e1 0)) <$> indices).
  Proof.
    intros Hlen indices. split_and!.
    - unfold indices. by rewrite js_sort_length, length_seq.
    - apply js_sort_Forall. apply Forall_forall.
      intros k Hk%elem_of_seq. lia.
    - rewrite (zip_nth e0 e1 Hlen). apply fmap_Permutation.
      apply js_sort_perm.
    - apply (Sorted_fmap _ (λ a b, compareEdges_le e0 e1 a b = true)).
      + intros a b. apply compareEdges_le_lex.
      + apply js_sort_sorted. apply compareEdges_le_total.
  Qed.

  (** ** sortEdges *)

  (** [sortEdges] puts two new arrays into [edges]; besides [edges] it
      changes only the array of weights it is given. *)
Lemma sortEdges_spec h edges ew l0 l1 e0 e1 :
    refs h edges = Some [l0; l1] → ints h l0 = Some e0 → ints h l1 = Some e1 →
    length e0 = length e1 →
    (∀ lw, ew = Some lw → ∃ w, nums h lw = Some w ∧ length e0 ≤ length w) →
    ∃ h' s0 s1,
      sortEdges h edges ew = Some h'
      ∧ row h' edges 0 = Some s0 ∧ row h' edges 1 = Some s1
      ∧ length s0 = length e0 ∧ length s1 = length e0
      ∧ zip s0 s1 ≡ₚ zip e0 e1 ∧ Sorted lex_le (zip s0 s1)
      ∧ (∀ l, l ≠ edges → ew ≠ Some l → l < length h → h' !! l = h !! l)
      ∧ (∀ lw, ew = Some lw →
               ∃ w, nums h' lw = Some w ∧ length e0 ≤ length w).
  Proof.
    intros Hr H0 H1 Hlen Hw. unfold sortEdges.
    rewrite (row_lookup h edges [l0; l1] 0 l0 e0) by done.
    cbn [mbind option_bind].
    rewrite (row_lookup h edges [l0; l1] 1 l1 e1) by done.
    cbn [mbind option_bind].
    destruct (sorted_indices e0 e1 Hlen) as (Hil & Hif & Hperm & Hsorted).
    set (indices := js_sort (compareEdges_le e0 e1) (seq 0 (length e0))) in *.
    rewrite (sorted_rows e0 e1 indices (length e0)) by done.
    cbn [mbind option_bind].
    set (s0 := (λ k, nth k e0 0) <$> indices).
    set (s1 := (λ k, nth k e1 0) <$> indices).
    assert (zip s0 s1 = (λ k, (nth k e0 0, nth k e1 0)) <$> indices) as Hzip
      by apply zip_fmap.
    destruct (set_row_spec h edges 0 s0 [l0; l1] Hr ltac:(simpl; lia))
      as (h1 & -> & Hl1 & Hr1 & Hi1 & Hf1).
    cbn [mbind option_bind]. simpl in Hr1.
    destruct (set_row_spec h1 edges 1 s1 _ Hr1 ltac:(simpl; lia))
      as (h2 & -> & Hl2 & Hr2 & Hi2 & Hf2).
    cbn [mbind option_bind]. simpl in Hr2.
    pose proof (refs_lt _ _ _ Hr) as He.
    assert (ints h2 (length h) = Some s0) as Hi1'.
    { apply (ints_frame h1); [|done]. apply Hf2; lia. }
    assert (∀ l, l ≠ edges → l < length h → h2 !! l = h !! l) as Hf.
    { intros l Hne Hl. rewrite Hf2 by lia. by apply Hf1. }
    destruct ew as [lw|].
    - destruct (Hw lw eq_refl) as (w & Hnw & Hwl).
      pose proof (refs_nums_ne _ _ _ _ _ Hr Hnw) as Hne.
      assert (lw < length h) as Hlw.
      { unfold nums in Hnw. destruct (h !! lw) eqn:E; [|done].
        by eapply lookup_lt_Some. }
      assert (nums h2 lw = Some w) as Hnw2.
      { unfold nums in *. rewrite Hf by (done || lia). done. }
      rewrite Hnw2. cbn [mbind option_bind].
      destruct (sorted_weights w indices (length e0) Hwl Hil Hif)
        as (sorted & -> & Hsl).
      cbn [mbind option_bind]. unfold store.
      exists (<[lw:=Nums (assign w sorted)]> h2), s0, s1. split; [done|].
      split_and!.
      + apply (row_lookup _ _ [length h; length h1] 0 (length h)); [|done|].
        * unfold refs. by rewrite list_lookup_insert_ne by done.
        * unfold ints in *. by rewrite list_lookup_insert_ne by lia.
      + apply (row_lookup _ _ [length h; length h1] 1 (length h1)); [|done|].
        * unfold refs. by rewrite list_lookup_insert_ne by done.
        * unfold ints in *. by rewrite list_lookup_insert_ne by lia.
      + unfold s0. by rewrite length_fmap.
      + unfold s1. by rewrite length_fmap.
      + by rewrite Hzip.
      + by rewrite Hzip.
      + intros l Hl Hlw' Hlt. rewrite list_lookup_insert_ne by congruence.
        by apply Hf.
      + intros ? [= <-]. exists (assign w sorted). split.
        * unfold nums. rewrite list_lookup_insert_eq by lia. done.
        * unfold assign. rewrite length_app. lia.
    - exists h2, s0, s1. split; [done|]. split_and!.
      + by apply (row_lookup _ _ [length h; length h1] 0 (length h)).
      + by apply (row_lookup _ _ [length h; length h1] 1 (length h1)).
      + unfold s0. by rewrite length_fmap.
      + unfold s1. by rewrite length_fmap.
      + by rewrite Hzip.
      + by rewrite Hzip.
      + intros l Hl _ Hlt. by apply Hf.
      + done.
  Qed.

  (** ** The branch for edges that are not sorted *)

Lemma prepare_spec h edges ew l0 l1 e0 e1 :
    refs h edges = Some [l0; l1] → ints h l0 = Some e0 → ints h l1 = Some e1 →
    length e0 = length e1 →
    (∀ lw, ew = Some lw → ∃ w, nums h lw = Some w ∧ length e0 ≤ length w) →
    ∃ h' ew' s0 s1,
      prepare h edges ew = Some (h', ew')
      ∧ row h' edges 0 = Some s0 ∧ row h' edges 1 = Some s1
      ∧ length s0 = length s1
      ∧ zip s0 s1 ≡ₚ symmetrised (zip e0 e1) ∧ Sorted lex_le (zip s0 s1)
      ∧ (∀ l, l ≠ edges → l < length h → h' !! l = h !! l)
      ∧ (∀ lw, ew' = Some lw →
               ∃ w, nums h' lw = Some w ∧ length s0 ≤ length w).
  Proof.
    intros Hr H0 H1 Hlen Hw. unfold prepare.
    rewrite (row_lookup h edges [l0; l1] 0 l0 e0) by done.
    cbn [mbind option_bind].
    rewrite (row_lookup h edges [l0; l1] 1 l1 e1) by done.
    cbn [mbind option_bind].
    pose proof (refs_lt _ _ _ Hr) as He.
    assert (∃ w, weights h ew = Some w
                 ∧ (∀ ws, w = Some ws → length e0 ≤ length ws)
                 ∧ (ew = None → w = None)
                 ∧ (is_Some ew → is_Some w)) as (w & -> & Hwl & Hwn & Hws).
    { destruct ew as [lw|]; simpl.
      - destruct (Hw lw eq_refl) as (w & -> & Hwl). exists (Some w).
        split; [done|]. split; [by intros ? [= <-]|]. split; [done|by eauto].
      - exists None. split; [done|]. split; [done|]. split; [done|].
        by intros [? ?]. }
    cbn [mbind option_bind].
    destruct (symmetrize_spec e0 e1 w Hlen Hwl)
      as (a0 & a1 & w2 & i & -> & Hzip & Ht0 & Ht1 & Hnone & Hsome).
    cbn [mbind option_bind].
    set (t0 := take i a0) in *. set (t1 := take i a1) in *.
    destruct (set_row_spec h edges 0 t0 [l0; l1] Hr ltac:(simpl; lia))
      as (h1 & -> & Hl1 & Hr1 & Hi1 & Hf1).
    cbn [mbind option_bind]. simpl in Hr1.
    destruct (set_row_spec h1 edges 1 t1 _ Hr1 ltac:(simpl; lia))
      as (h2 & -> & Hl2 & Hr2 & Hi2 & Hf2).
    cbn [mbind option_bind]. simpl in Hr2.
    assert (ints h2 (length h) = Some t0) as Hi1'.
    { apply (ints_frame h1); [|done]. apply Hf2; lia. }
    assert (∀ l, l ≠ edges → l < length h → h2 !! l = h !! l) as Hf.
    { intros l Hne Hl. rewrite Hf2 by lia. by apply Hf1. }
    destruct w2 as [ws2|].
    - destruct (Hsome ltac:(destruct w; [by eauto|by specialize (Hnone eq_refl)]))
        as (ws2' & [= <-] & Hi).
      unfold alloc.
      destruct (sortEdges_spec (h2 ++ [Nums (take i ws2)]) edges
                  (Some (length h2)) (length h) (length h1) t0 t1)
        as (h' & s0 & s1 & -> & Hs0 & Hs1 & Hsl0 & Hsl1 & Hperm & Hsorted
            & Hframe & Hweights).
      { unfold refs in *. by rewrite lookup_app_l by lia. }
      { unfold ints in *. by rewrite lookup_app_l by lia. }
      { unfold ints in *. by rewrite lookup_app_l by lia. }
      { lia. }
      { intros ? [= <-]. exists (take i ws2). split.
        - unfold nums. rewrite lookup_app_r by lia. by rewrite Nat.sub_diag.
        - rewrite length_take. lia. }
      cbn [mbind option_bind]. exists h', (Some (length h2)), s0, s1.
      split; [done|]. split_and!; try done.
      + lia.
      + by rewrite Hperm, Hzip.
      + intros l Hne Hl. rewrite Hframe.
        * rewrite lookup_app_l by lia. by apply Hf.
        * done.
        * intros [= Heq]. lia.
        * rewrite length_app. simpl. lia.
      + intros lw Hlw. destruct (Hweights lw Hlw) as (w' & Hw' & Hwl').
        exists w'. split; [done|]. lia.
    - destruct (sortEdges_spec h2 edges ew (length h) (length h1) t0 t1)
        as (h' & s0 & s1 & -> & Hs0 & Hs1 & Hsl0 & Hsl1 & Hperm & Hsorted
            & Hframe & Hweights); [done|done|done|lia| |].
      { intros lw ->. destruct (Hws ltac:(by eauto)) as [ws ->].
        destruct (Hsome ltac:(by eauto)) as (? & ? & _). done. }
      cbn [mbind option_bind]. exists h', ew, s0, s1.
      split; [done|]. split_and!; try done.
      + lia.
      + by rewrite Hperm, Hzip.
      + intros l Hne Hl. rewrite Hframe.
        * by apply Hf.
        * done.
        * intros ->. destruct (Hws ltac:(by eauto)) as [ws ->].
          destruct (Hsome ltac:(by eauto)) as (? & ? & _). done.
        * lia.
      + intros lw ->. destruct (Hws ltac:(by eauto)) as [ws ->].
        destruct (Hsome ltac:(by eauto)) as (? & ? & _). done.
  Qed.

End SortEdgesFacts.

(** * What the constructor leaves in the arrays of its caller *)

Module BuildFacts.
Import Heap NetworkConstructor ConstructorFacts SortEdgesFacts.

Lemma fill_until_total fni i bound nEdges :
    i ≤ length fni →
    ∃ fni', fill_until fni i bound nEdges = Some (fni', i `max` (bound + 1))
            ∧ i `max` (bound + 1) ≤ length fni'.
  Proof.
    intros Hi. unfold fill_until.
    destruct (decide (bound + 1 ≤ i)) as [Hle|Hgt].
    - rewrite for_range_empty by done. cbn [mbind option_bind].
      exists fni. split; [done|lia].
    - destruct (for_range_total (λ k (s : list nat), k ≤ length s)
        (λ k fni, aset fni k nEdges) i (bound + 1) fni)
        as (fni' & -> & Hl); [lia|done| |].
      + intros k s Hk Hl. destruct (aset_le s k nEdges Hl) as [s' Hs'].
        exists s'. split; [done|].
        pose proof (aset_index_lt _ _ _ _ Hs'). lia.
      + cbn [mbind option_bind]. exists fni'. split; [done|lia].
  Qed.

Lemma edge_weight_total w j :
    (∀ ws, w = Some ws → j < length ws) → ∃ x, edge_weight w j = Some x.
  Proof.
    intros Hw. destruct w as [ws|]; simpl; [|by eauto].
    apply aget_lt. by apply Hw.
  Qed.

  (** The loop that fills the arrays of the network returns for every
      list of edges. *)
Lemma build_total nNodes e0 e1 w :
    length e0 = length e1 →
    (∀ ws, w = Some ws → length e0 ≤ length ws) →
    ∃ r, build nNodes e0 e1 w = Some r.
  Proof.
    intros Hlen Hw. unfold build. set (m := length e0) in *.
    pose (P := λ (j : nat)
                 (s : list nat * list nat * list Q * Q * nat * nat),
      let '(fni, neighbors, ews, _, nEdges, i) := s in
      nEdges ≤ j ∧ length neighbors = m ∧ length ews = m ∧ i ≤ length fni).
    destruct (for_range_total P
      (λ j '(fni, neighbors, edgeWeights, selfLinks, nEdges, i),
         a ← aget e0 j;
         b ← aget e1 j;
         if decide (a ≠ b) then
           '(fni, i) ← fill_until fni i a nEdges;
           neighbors ← aset neighbors nEdges b;
           wj ← edge_weight w j;
           edgeWeights ← aset edgeWeights nEdges wj;
           Some (fni, neighbors, edgeWeights, selfLinks, nEdges + 1, i)
         else
           wj ← edge_weight w j;
           Some (fni, neighbors, edgeWeights, (selfLinks + wj)%Q, nEdges, i))
      0 m (replicate (nNodes + 1) 0, replicate m 0, replicate m 0%Q, 0%Q, 0, 1))
      as ([[[[[fni nbrs] ews] self] nEdges] i] & -> & HnE & Hl1 & Hl2 & Hi).
    - lia.
    - unfold P. rewrite !length_replicate. lia.
    - intros j [[[[[fni nbrs] ews] self] nEdges] i] Hj (HnE & Hl1 & Hl2 & Hi).
      destruct (aget_lt e0 j ltac:(lia)) as [a ->].
      destruct (aget_lt e1 j ltac:(lia)) as [b ->].
      cbn [mbind option_bind].
      destruct (edge_weight_total w j) as [wj Hwj].
      { intros ws Hws. pose proof (Hw ws Hws). lia. }
      case_decide.
      + destruct (fill_until_total fni i a nEdges Hi) as (fni' & -> & Hi').
        cbn [mbind option_bind].
        rewrite (aset_lt nbrs) by lia. cbn [mbind option_bind].
        rewrite Hwj. cbn [mbind option_bind].
        rewrite (aset_lt ews) by lia. cbn [mbind option_bind].
        eexists. split; [done|]. unfold P. rewrite !length_insert. lia.
      + rewrite Hwj. cbn [mbind option_bind].
        eexists. split; [done|]. unfold P. lia.
    - cbn [mbind option_bind].
      destruct (fill_until_total fni i nNodes nEdges Hi) as (fni' & -> & _).
      cbn [mbind option_bind]. by eexists.
  Qed.

End BuildFacts.

Import Heap NetworkConstructor ConstructorFacts SortEdgesFacts BuildFacts.

(** The constructor on the heap of the example: the array of arrays at
    location 2 now refers to two new arrays, objects 7 and 8, and the weights
    at location 3 are as before. *)
Example constructor_example :
  initializeNetworkBasedOnEdges caller_heap 3 None false 2 (Some 3) false true
  = Some
      ([Ints [2; 0; 1; 1]; Ints [0; 1; 1; 2]; Refs [7; 8];
        Nums [5; 6; 7; 8]%Q;
        Ints [2; 0; 0; 1; 1; 1; 2]; Ints [0; 2; 1; 0; 1; 2; 1];
        Nums [6; 5; 6; 7; 8; 5; 8]%Q;
        Ints [0; 0; 1; 1; 1; 2; 2]; Ints [1; 2; 0; 1; 2; 0; 1]],
       Network.mk 3 [1; 1; 1]%Q [0; 2; 4; 6] [1; 2; 0; 2; 0; 1]
         [6; 5; 6; 8; 5; 8]%Q 7%Q 6).
Proof. vm_compute. reflexivity. Qed.

(** C10.  Let [edges] be an array of two arrays of the same length in the
    heap of the caller, and [edgeWeights], when it is given, an array with a
    weight for every edge.  When the constructor is called with [sortedEdges]
    false or left out and returns, [edges[0]] and [edges[1]] hold both
    directions of every edge between different nodes and each self-link once,
    in lexicographic order; the array [edgeWeights] of the caller, and every
    other object of the caller besides [edges], is as it was.  The
    constructor returns when the integrity is not checked and the node weights
    are given or set to 1. *)
Theorem constructor_mutates_edges (h : list object) (nNodes : nat)
    (nodeWeights : option (list Q)) (setNodeWeightsToTotalEdgeWeights : bool)
    (edges : nat) (edgeWeights : option nat) (checkIntegrityFlag : bool)
    (l0 l1 : nat) (e0 e1 : list nat) :
  refs h edges = Some [l0; l1] → ints h l0 = Some e0 → ints h l1 = Some e1 →
  length e0 = length e1 →
  (∀ lw, edgeWeights = Some lw →
         ∃ w, nums h lw = Some w ∧ length e0 ≤ length w) →
  (checkIntegrityFlag = false →
   is_Some nodeWeights ∨ setNodeWeightsToTotalEdgeWeights = false →
   is_Some (initializeNetworkBasedOnEdges h nNodes nodeWeights
              setNodeWeightsToTotalEdgeWeights edges edgeWeights false
              checkIntegrityFlag))
  ∧ ∀ h' net,
      initializeNetworkBasedOnEdges h nNodes nodeWeights
        setNodeWeightsToTotalEdgeWeights edges edgeWeights false
        checkIntegrityFlag = Some (h', net) →
      (∃ s0 s1, row h' edges 0 = Some s0 ∧ row h' edges 1 = Some s1
                ∧ length s0 = length s1
                ∧ zip s0 s1 ≡ₚ symmetrised (zip e0 e1)
                ∧ Sorted lex_le (zip s0 s1))
      ∧ (∀ lw, edgeWeights = Some lw → nums h' lw = nums h lw)
      ∧ (∀ l, l ≠ edges → l < length h → h' !! l = h !! l).
Proof.
  intros Hr H0 H1 Hlen Hw.
  destruct (prepare_spec h edges edgeWeights l0 l1 e0 e1 Hr H0 H1 Hlen Hw)
    as (h1 & ew' & s0 & s1 & Hprep & Hs0 & Hs1 & Hsl & Hperm & Hsorted & Hframe
        & Hweights).
  unfold initializeNetworkBasedOnEdges. rewrite Hprep.
  cbn [mbind option_bind]. rewrite Hs0, Hs1. cbn [mbind option_bind].
  assert (∃ w, weights h1 ew' = Some w
               ∧ ∀ ws, w = Some ws → length s0 ≤ length ws)
    as (w & -> & Hwl).
  { destruct ew' as [lw|]; simpl.
    - destruct (Hweights lw eq_refl) as (w & -> & Hwl). exists (Some w).
      split; [done|]. by intros ? [= <-].
    - by exists None. }
  cbn [mbind option_bind].
  destruct (build_total nNodes s0 s1 w Hsl Hwl)
    as ([[[[fni nbrs] ews] self] nEdges] & ->).
  cbn [mbind option_bind]. split.
  - intros -> Hnw. destruct nodeWeights as [nw|]; [by eexists|].
    destruct Hnw as [[? ?]| ->]; [done|]. by eexists.
  - intros h' net Hrun.
    assert (h' = h1) as ->.
    { destruct nodeWeights as [nw|]; cbn [mbind option_bind] in Hrun.
      - destruct checkIntegrityFlag; [|by simplify_eq/=].
        destruct (checkIntegrity _); by simplify_eq/=.
      - destruct setNodeWeightsToTotalEdgeWeights.
        + destruct (Network.getTotalEdgeWeightPerNodeHelper _);
            cbn [mbind option_bind] in Hrun; [|done].
          destruct checkIntegrityFlag; [|by simplify_eq/=].
          destruct (checkIntegrity _); by simplify_eq/=.
        + cbn [mbind option_bind] in Hrun.
          destruct checkIntegrityFlag; [|by simplify_eq/=].
          destruct (checkIntegrity _); by simplify_eq/=. }
    split; [by exists s0, s1|]. split; [|done].
    intros lw ->. destruct (Hw lw eq_refl) as (w0 & Hw0 & _).
    unfold nums. rewrite Hframe; [done| |].
    + intros ->. by apply (refs_nums_ne _ _ _ _ _ Hr Hw0).
    + unfold nums in Hw0. destruct (h !! lw) eqn:E; [|done].
      by eapply lookup_lt_Some.
Qed.

Lemma constructor_mutates_edges_witness :
  ∃ h' net s0 s1,
    initializeNetworkBasedOnEdges caller_heap 3 None false 2 (Some 3) false true
    = Some (h', net)
    ∧ row h' 2 0 = Some s0 ∧ row h' 2 1 = Some s1
    ∧ length s0 = length s1
    ∧ zip s0 s1 ≡ₚ symmetrised (zip [2; 0; 1; 1] [0; 1; 1; 2])
    ∧ Sorted lex_le (zip s0 s1)
    ∧ nums h' 3 = nums caller_heap 3
    ∧ h' !! 0 = caller_heap !! 0 ∧ h' !! 1 = caller_heap !! 1.
Proof.
  assert (∀ lw, Some 3 = Some lw →
                ∃ w, nums caller_heap lw = Some w ∧ 4 ≤ length w) as Hw.
  { intros lw [= <-]. exists [5; 6; 7; 8]%Q. split; [reflexivity|simpl; lia]. }
  destruct (proj2 (constructor_mutates_edges caller_heap 3 None false 2
                     (Some 3) true 0 1 [2; 0; 1; 1] [0; 1; 1; 2]
                     eq_refl eq_refl eq_refl eq_refl Hw)
              _ _ constructor_example)
    as ((s0 & s1 & H0 & H1 & Hl & Hp & Hs) & Hnums & Hframe).
  eexists _, _, s0, s1. split; [exact constructor_example|].
  split; [exact H0|]. split; [exact H1|]. split; [exact Hl|].
  split; [exact Hp|]. split; [exact Hs|]. split; [exact (Hnums 3 eq_refl)|].
  split; apply Hframe; simpl; lia.
Defined.

(** * Standardizing a layout whose variances are equal *)

Module LayoutFacts.
Import Layout.
Local Open Scope R_scope.

Lemma rdiv_Some x y : y ≠ 0 → rdiv x y = Some (x / y).
  Proof. intros H. unfold rdiv. by destruct (Req_EM_T y 0). Qed.

Lemma rdiv_0 x : rdiv x 0 = None.
  Proof. unfold rdiv. by destruct (Req_EM_T 0 0). Qed.

Lemma rsqrt_Some x : 0 <= x → rsqrt x = Some (sqrt x).
  Proof. intros H. unfold rsqrt. destruct (Rlt_dec x 0); [lra|done]. Qed.

  (** With [variance1 = variance2] and a covariance that is not positive
      the first eigenvector is computed as (0, 0) and its length is 0. *)
Lemma eigenvectors_first_zero v c : c <= 0 → eigenvectors v v c = None.
  Proof.
    intros Hc. unfold eigenvectors.
    rewrite rsqrt_Some by nra. cbn [mbind option_bind].
    replace (sqrt (v * v + v * v - 2 * v * v + 4 * c * c)) with (- 2 * c)
      by (symmetry; apply sqrt_lem_1; nra).
    replace (v + c - (v + v - -2 * c) / 2) with 0 by lra.
    replace (0 * 0 + 0 * 0) with 0 by lra.
    rewrite (rsqrt_Some 0) by lra. rewrite sqrt_0. cbn [mbind option_bind].
    by rewrite rdiv_0.
  Qed.

  (** With [variance1 = variance2] and a positive covariance the second
      eigenvector is computed as (0, 0). *)
Lemma eigenvectors_second_zero v c : 0 < c → eigenvectors v v c = None.
  Proof.
    intros Hc. unfold eigenvectors.
    rewrite rsqrt_Some by nra. cbn [mbind option_bind].
    replace (sqrt (v * v + v * v - 2 * v * v + 4 * c * c)) with (2 * c)
      by (symmetry; apply sqrt_lem_1; nra).
    replace (v + c - (v + v - 2 * c) / 2) with (2 * c) by lra.
    replace (v + c - (v + v + 2 * c) / 2) with 0 by lra.
    rewrite (rsqrt_Some (2 * c * (2 * c) + 2 * c * (2 * c))) by nra.
    cbn [mbind option_bind].
    assert (sqrt (2 * c * (2 * c) + 2 * c * (2 * c)) ≠ 0) as Hlen.
    { intros H0. apply sqrt_eq_0 in H0; nra. }
    rewrite !rdiv_Some by done. cbn [mbind option_bind].
    replace (0 * 0 + 0 * 0) with 0 by lra.
    rewrite (rsqrt_Some 0) by lra. rewrite sqrt_0. cbn [mbind option_bind].
    by rewrite rdiv_0.
  Qed.

Lemma eigenvectors_equal_variances v c : eigenvectors v v c = None.
  Proof.
    destruct (Rle_dec c 0); [by apply eigenvectors_first_zero|].
    apply eigenvectors_second_zero. lra.
  Qed.

  (** A layout whose centred coordinates have the same variance in both
      dimensions has no standardized layout. *)
Lemma standardize_equal_variances standardizeDistances l l' v c :
    center l = Some l' → moments l' = Some (v, v, c) →
    standardize standardizeDistances l = None.
  Proof.
    intros Hc Hm. unfold standardize. rewrite Hc. cbn [mbind option_bind].
    rewrite Hm. cbn [mbind option_bind].
    by rewrite eigenvectors_equal_variances.
  Qed.

Lemma center_diagonal_pair :
    center diagonal_pair = Some (mk [1; -1] [-1; 1] 2).
  Proof.
    unfold center, diagonal_pair, initializeBasedOnCoordinates, calcAverage,
      calcSum.
    cbn [coordinates0 coordinates1 nNodes length fold_left].
    rewrite !rdiv_Some by (simpl; lra). cbn.
    repeat (rewrite aset_lt by (simpl; lia); cbn).
    do 2 f_equal; repeat f_equal; lra.
  Qed.

Lemma moments_diagonal_pair : moments (mk [1; -1] [-1; 1] 2) = Some (1, 1, -1).
  Proof.
    unfold moments. cbn. rewrite !rdiv_Some by lra. cbn.
    repeat f_equal; field.
  Qed.

End LayoutFacts.

(** C8.  The layout with the two nodes (1, -1) and (-1, 1) has nodes that
    are not all coincident, and [standardize(true)] has no result for it: both
    variances are 1 and the covariance is -1, the first eigenvector is
    computed as (0, 0), and it is divided by its length 0. *)
Theorem standardize_diagonal_pair :
  Layout.standardize true diagonal_pair = None.
Proof.
  apply (LayoutFacts.standardize_equal_variances true diagonal_pair
           _ 1%R (-1)%R LayoutFacts.center_diagonal_pair).
  apply LayoutFacts.moments_diagonal_pair.
Qed.

Import NetworkFacts ClusteringFacts QualityFacts CPMFacts.

(** * The clusterings that local merging returns *)

Module MergingFacts.
Import ClusteringOps MembersFacts.

  (** Takes a successful sequence of steps apart. *)
Ltac bind_inv H :=
    repeat (let x := fresh "x" in
            let E := fresh "E" in
            apply bind_Some in H as (x & E & H); cbn beta in H).

  (** The array that [generateRandomPermutation] returns holds node ids,
      whatever the generator draws. *)
Lemma generateRandomPermutation_ids {rng} (R : Random rng) m random order r' :
    generateRandomPermutation R m random = Some (order, r') →
    length order = m ∧ Forall (λ x, x < m) order.
  Proof.
    unfold generateRandomPermutation. intros Hrun.
    pose (P := λ (_ : nat) (s : list nat * rng),
      length s.1 = m ∧ Forall (λ x, x < m) s.1).
    apply (for_range_partial P _ _ _ _ _ Hrun); [lia| |].
    - unfold P. cbn [fst]. rewrite length_seq. split; [done|].
      apply Forall_forall. intros x Hx%elem_of_seq. lia.
    - intros i [p r] [p' r''] Hi [Hl Hf] Hbody. cbn [fst] in *.
      destruct (nextInt R r m) as [j r1].
      bind_inv Hbody. simplify_eq.
      unfold aget in *.
      pose proof (Forall_lookup_1 _ _ _ _ Hf E) as Hx. cbv beta in Hx.
      pose proof (Forall_lookup_1 _ _ _ _ Hf E0) as Hx0. cbv beta in Hx0.
      pose proof (lookup_lt_Some _ _ _ E0) as Hj.
      rewrite aset_lt in E1 by lia. simplify_eq.
      rewrite aset_lt in E2 by (rewrite length_insert; lia). simplify_eq.
      unfold P. cbn [fst]. rewrite !length_insert. split; [done|].
      by repeat apply Forall_insert.
  Qed.

Section Merging.
Context {rng : Type} (R : Random rng) (p : LocalMergingAlgorithm.params)
            (net : Network.t).
Local Abbreviation n := (Network.nNodes net).

    (** What the loop of [findClustering] keeps: one cluster per node, and
        the singleton clustering as long as no node has moved. *)
Definition kept (s : LocalMergingAlgorithm.state) : Prop :=
      length (LocalMergingAlgorithm.clusters s) = n
      ∧ (LocalMergingAlgorithm.update s = false →
         LocalMergingAlgorithm.clusters s = seq 0 n).

Lemma visit_kept totalNodeWeight j s random s' random' :
      LocalMergingAlgorithm.visit R p net totalNodeWeight j (s, random)
      = Some (s', random') →
      j < n → kept s → kept s'.
    Proof.
      unfold LocalMergingAlgorithm.visit. intros Hrun Hj [Hlen Hupd].
      bind_inv Hrun.
      destruct (negb x && x0); [|by simplify_eq].
      bind_inv Hrun. destruct x3 as [[ew nbc] nNbc]. cbn in Hrun.
      bind_inv Hrun. destruct x3 as [[[ew' cum] best] total]. cbn in Hrun.
      bind_inv Hrun. destruct x3 as [chosen random1]. cbn in Hrun.
      bind_inv Hrun. destruct x3 as [cw external]. cbn in Hrun.
      case_decide.
      - bind_inv Hrun. simplify_eq.
        match goal with
        | H : aset (LocalMergingAlgorithm.clusters s) j _ = Some _ |- _ =>
            rewrite aset_lt in H by lia; simplify_eq
        end.
        split; cbn; [by rewrite length_insert|done].
      - simplify_eq. split; cbn; done.
    Qed.

Lemma findClustering_ranged random cs random' :
      LocalMergingAlgorithm.findClustering R p net random = Some (cs, random') →
      ranged cs ∧ sized cs ∧ Clustering.nNodes cs = n.
    Proof.
      unfold LocalMergingAlgorithm.findClustering. intros Hrun.
      case_decide.
      { simplify_eq. split; [apply singleton_ranged|].
        split; [apply singleton_sized|done]. }
      bind_inv Hrun. destruct x0 as [order random1].
      cbv beta iota zeta in Hrun.
      bind_inv Hrun. destruct x0 as [s random2]. cbv beta iota zeta in Hrun.
      destruct (generateRandomPermutation_ids _ _ _ _ _ E0) as [Hol Hof].
      assert (kept s) as [Hlen Hupd].
      { pose (P := λ (_ : nat) (st : LocalMergingAlgorithm.state * rng),
                 kept st.1).
        apply (for_range_partial P _ _ _ _ _ E1); [lia| |].
        - unfold P, kept. cbn. rewrite length_seq. done.
        - intros i [s1 r1] [s2 r2] Hi Hk Hbody. unfold P in *. cbn [fst] in *.
          apply bind_Some in Hbody as (j & Ej & Hbody).
          pose proof (Forall_lookup_1 _ _ _ _ Hof Ej) as Hx. cbv beta in Hx.
          by eapply visit_kept. }
      destruct (LocalMergingAlgorithm.update s) eqn:Hu.
      - apply bind_Some in Hrun as (cs' & Ecs & Hrun). simplify_eq.
        by apply (removeEmptyClusters_partial _ _ Ecs).
      - simplify_eq. rewrite Hupd by done.
        split; [apply singleton_ranged|]. split; [apply singleton_sized|done].
    Qed.
End Merging.

End MergingFacts.

Import NetworkFacts ClusteringFacts QualityFacts CPMFacts.

(** * The refinement of the Leiden algorithm *)

Module RefinementFacts.
Import ClusteringOps MembersFacts MergingFacts.

  (** A subnetwork has one node for every node of its cluster. *)
Lemma createSubnetwork_nNodes net c cluster nodes sc sub sc' :
    Network.createSubnetwork net c cluster nodes sc = Some (sub, sc') →
    Network.nNodes sub = length nodes.
  Proof.
    unfold Network.createSubnetwork. intros Hrun. case_decide.
    - bind_inv Hrun. by simplify_eq.
    - bind_inv Hrun. destruct x0 as [[[[nE nw] fni] snb] sew].
      cbv beta iota zeta in Hrun. by simplify_eq.
  Qed.

Lemma createSubnetworks_sizes net c subs npc :
    Network.createSubnetworks net c = Some subs →
    Clustering.getNodesPerCluster c = Some npc →
    length subs = Clustering.nClusters c
    ∧ ∀ i sub, subs !! i = Some sub →
               ∃ nodes, npc !! i = Some nodes
                        ∧ Network.nNodes sub = length nodes.
  Proof.
    unfold Network.createSubnetworks. intros Hrun Hnpc. rewrite Hnpc in Hrun.
    cbn [mbind option_bind] in Hrun.
    apply bind_Some in Hrun as ([subs' sc] & Hloop & Hrun).
    cbv beta iota zeta in Hrun. simplify_eq.
    pose (P := λ (i : nat) (s : list Network.t * Network.scratch),
      length s.1 = i
      ∧ ∀ k sub, s.1 !! k = Some sub →
                 ∃ nodes, npc !! k = Some nodes
                          ∧ Network.nNodes sub = length nodes).
    assert (P (Clustering.nClusters c) (subs, sc)) as [? ?]; [|done].
    apply (for_range_partial P _ _ _ _ _ Hloop); [lia| |].
    - split; [done|]. intros k sub Hk. cbn [fst] in Hk. done.
    - intros i [l sc1] [l' sc2] Hi [Hlen Hall] Hbody. cbn [fst] in *.
      apply bind_Some in Hbody as (nodes & Hnodes & Hbody).
      apply bind_Some in Hbody as ([sub sc3] & Hsub & Hbody).
      cbv beta iota zeta in Hbody.
      apply bind_Some in Hbody as (l2 & Hset & Hbody). simplify_eq.
      apply createSubnetwork_nNodes in Hsub.
      apply aset_inv in Hset as [[Hlt ->]|[_ ->]]; [lia|].
      unfold P. cbn [fst]. rewrite length_app. simpl. split; [lia|].
      intros k sub' Hk. apply lookup_snoc_Some in Hk as [[Hk1 Hk2]|[-> <-]].
      + by apply Hall.
      + by exists nodes.
  Qed.

Section Stack.
Context (c : Clustering.t) (m : nat).
Context (Hs : sized c) (Hr : ranged c) (Hm : Clustering.nNodes c = m).

    (** The loop that writes the refined clusters of cluster [i]: its
        nodes get ids from [nC] up to [nC + nCs], the others keep theirs. *)
Lemma stack_cluster (cs : Clustering.t) (i nC : nat) (cls cls' : list nat) :
      i < Clustering.nClusters c → ranged cs → length cls = m →
      for_range 0 (length (members c i m))
        (λ j cls,
           node ← aget (members c i m) j;
           cj ← aget (Clustering.clusters cs) j;
           aset cls node (nC + cj))
        cls = Some cls' →
      length cls' = m
      ∧ (∀ v, v < m → cl c v = i →
              nC ≤ cid cls' v < nC + Clustering.nClusters cs)
      ∧ (∀ v, cl c v ≠ i → cid cls' v = cid cls v).
    Proof.
      intros Hi Hcs Hlen Hrun.
      set (nodes := members c i m) in *.
      pose (P := λ (j : nat) (s : list nat),
        length s = m
        ∧ (∀ v, v ∈ take j nodes →
                nC ≤ cid s v < nC + Clustering.nClusters cs)
        ∧ (∀ v, v ∉ take j nodes → cid s v = cid cls v)).
      assert (P (length nodes) cls') as (Hl & Hin & Hout).
      { apply (for_range_partial P _ _ _ _ _ Hrun); [lia| |].
        - split; [done|]. split; [|done].
          intros v Hv. rewrite take_0 in Hv. by apply elem_of_nil in Hv.
        - intros j s s' Hj (Hl & Hin & Hout) Hbody.
          apply bind_Some in Hbody as (node & Hnode & Hbody).
          apply bind_Some in Hbody as (cj & Hcj & Hbody).
          assert (node < m) as Hnm.
          { assert (node ∈ nodes) as Hel
              by (apply list_elem_of_lookup; by exists j).
            apply elem_of_members in Hel. lia. }
          assert (cj < Clustering.nClusters cs) as Hcjn
            by apply (Forall_lookup_1 _ _ _ _ Hcs Hcj).
          rewrite aset_lt in Hbody by lia. simplify_eq.
          unfold P. rewrite (take_S_r _ _ _ Hnode).
          split; [by rewrite length_insert|]. split.
          + intros v Hv. destruct (decide (v = node)) as [->|Hne].
            * rewrite cid_insert_eq by lia. lia.
            * rewrite cid_insert_ne by done. apply Hin.
              apply elem_of_app in Hv as [Hv|Hv]; [done|].
              by apply list_elem_of_singleton in Hv.
          + intros v Hv. rewrite cid_insert_ne.
            * apply Hout. intros Hv'. apply Hv. apply elem_of_app. by left.
            * intros ->. apply Hv. apply elem_of_app. right.
              by apply list_elem_of_singleton. }
      rewrite take_ge in Hin, Hout by done.
      split; [done|]. split.
      - intros v Hv Hc. apply Hin. by apply elem_of_members.
      - intros v Hc. apply Hout. intros Hel%elem_of_members. tauto.
    Qed.
End Stack.

  (** The refinement gives different ids to nodes of different clusters. *)
Lemma refinement_stacks {rng} (R : Random rng)
      (p : LocalMergingAlgorithm.params) net c random r random' :
    sized c → ranged c → Clustering.nNodes c = Network.nNodes net →
    LeidenAlgorithm.refinement R p net c random = Some (r, random') →
    sized r ∧ ranged r ∧ Clustering.nNodes r = Network.nNodes net
    ∧ ∀ v w, v < Network.nNodes net → w < Network.nNodes net →
             cl r v = cl r w → cl c v = cl c w.
  Proof.
    intros Hs Hr Hn Hrun. unfold LeidenAlgorithm.refinement in Hrun.
    apply bind_Some in Hrun as (subs & Hsubs & Hrun).
    apply bind_Some in Hrun as (npc & Hnpc & Hrun).
    apply bind_Some in Hrun as ([[cls nC] rnd] & Hloop & Hrun).
    cbv beta iota zeta in Hrun. simplify_eq.
    destruct (getNodesPerCluster_value c Hs Hr) as (npc0 & Hnpc0 & _ & Hnv).
    assert (npc0 = npc) as -> by congruence.
    destruct (createSubnetworks_sizes _ _ _ _ Hsubs Hnpc) as [Hlen Hsizes].
    pose (P := λ (i : nat) (s : list nat * nat * rng),
      length s.1.1 = (Network.nNodes net)
      ∧ (∀ v, v < (Network.nNodes net) → cl c v < i → cid s.1.1 v < s.1.2)
      ∧ (∀ v w, v < (Network.nNodes net) → w < (Network.nNodes net) → cl c v < i → cl c w < i →
                cid s.1.1 v = cid s.1.1 w → cl c v = cl c w)).
    assert (P (length subs) (cls, nC, random')) as (Hl & Hlt & Hpair).
    { apply (for_range_partial P _ _ _ _ _ Hloop); [lia| |].
      - unfold P. cbn. rewrite length_seq. split; [done|]. split; intros; lia.
      - intros i [[cls1 nC1] r1] [[cls2 nC2] r2] Hi (Hl & Hlt & Hpair) Hbody.
        cbn [fst snd] in *.
        apply bind_Some in Hbody as (sub & Hsub & Hbody).
        apply bind_Some in Hbody as ([cs r3] & Hcs & Hbody).
        cbv beta iota zeta in Hbody.
        apply bind_Some in Hbody as (nodes & Hnodes & Hbody).
        apply bind_Some in Hbody as (cls3 & Hinner & Hbody). simplify_eq.
        destruct (findClustering_ranged _ _ _ _ _ _ Hcs) as (Hcr & _ & _).
        destruct (Hsizes i sub Hsub) as (nodes' & Hn' & Hsize).
        assert (nodes' = nodes) as -> by (unfold aget in Hnodes; congruence).
        assert (nodes = members c i (Network.nNodes net)) as ->.
        { rewrite Hnv in Hn' by lia. rewrite Hn in Hn'. congruence. }
        rewrite Hsize in Hinner.
        destruct (stack_cluster c (Network.nNodes net) Hn cs i nC1 cls1 cls2
                    ltac:(lia) Hcr Hl Hinner)
          as (Hl2 & Hin & Hout).
        unfold P. cbn [fst snd]. split; [done|]. split.
        + intros v Hv Hc. destruct (decide (cl c v = i)) as [Hi'|Hi'].
          * pose proof (Hin v Hv Hi'). lia.
          * rewrite Hout by done. pose proof (Hlt v Hv ltac:(lia)). lia.
        + intros v w Hv Hw Hcv Hcw Heq.
          destruct (decide (cl c v = i)) as [Hv'|Hv'];
            destruct (decide (cl c w = i)) as [Hw'|Hw']; [congruence| | |].
          * pose proof (Hin v Hv Hv'). rewrite (Hout w) in Heq by done.
            pose proof (Hlt w Hw ltac:(lia)). lia.
          * pose proof (Hin w Hw Hw'). rewrite (Hout v) in Heq by done.
            pose proof (Hlt v Hv ltac:(lia)). lia.
          * rewrite (Hout v), (Hout w) in Heq by done.
            apply Hpair; try done; lia. }
    cbn [fst snd] in Hl, Hlt, Hpair.
    assert (∀ v, v < (Network.nNodes net) → cl c v < length subs) as Hall.
    { intros v Hv. rewrite Hlen. apply (cl_range c Hs Hr). lia. }
    split; [done|]. split; [|split; [done|]].
    - unfold ranged. cbn. apply Forall_lookup. intros v x Hx.
      pose proof (lookup_lt_Some _ _ _ Hx) as Hv.
      rewrite <- (lookup_nth_eq _ _ 0 _ Hx). apply Hlt; [lia|]. apply Hall. lia.
    - intros v w Hv Hw Heq. apply Hpair; try done; by apply Hall.
  Qed.

End RefinementFacts.

Import NetworkFacts ClusteringFacts QualityFacts CPMFacts.
Import RefinementFacts.

(** * Refined clusters stay inside the clusters *)

(** The two triangles with the nodes assigned alternately to two
    clusters, and the parameters of the refinement. *)
Definition alternating : Clustering.t := Clustering.mk [0; 1; 0; 1; 0; 1] 2 6.

Definition merging_params : LocalMergingAlgorithm.params :=
  LocalMergingAlgorithm.mkParams (1 # 5) 1 (λ _, false).

(** The refinement of the alternating clustering: cluster 0 = {0, 2, 4}
    is split into the refined clusters 0 and 1, cluster 1 = {1, 3, 5} into
    the refined clusters 2 and 3. *)
Example refinement_alternating :
  LeidenAlgorithm.refinement counter_random merging_params triangle_pair
    alternating 0
  = Some (Clustering.mk [0; 2; 0; 3; 1; 3] 4 6, 8).
Proof. vm_compute. reflexivity. Qed.

(** C3.  When the refinement phase of an iteration of the Leiden algorithm
    is run on a clustering of the nodes of the network, two nodes to which the
    refinement gives the same cluster id have the same cluster id in the
    clustering that is refined; the refinement is again a clustering of the
    nodes with every id below its [nClusters]. *)
Theorem refinement_respects_clusters {rng} (R : Random rng)
    (p : LocalMergingAlgorithm.params) (net : Network.t) (c : Clustering.t)
    (random : rng) (r : Clustering.t) (random' : rng) :
  sized c → ranged c → Clustering.nNodes c = Network.nNodes net →
  LeidenAlgorithm.refinement R p net c random = Some (r, random') →
  clustering_of net r
  ∧ ∀ i j, i < Network.nNodes net → j < Network.nNodes net →
           cl r i = cl r j → cl c i = cl c j.
Proof.
  intros Hs Hr Hn Hrun.
  destruct (refinement_stacks R p net c random r random' Hs Hr Hn Hrun)
    as (Hs' & Hr' & Hn' & Hpair).
  split; [|done]. constructor; [|done|done].
  unfold sized in Hs'. by rewrite Hs', Hn'.
Qed.

Lemma refinement_respects_clusters_witness :
  clustering_of triangle_pair (Clustering.mk [0; 2; 0; 3; 1; 3] 4 6)
  ∧ ∀ i j, i < 6 → j < 6 →
           cl (Clustering.mk [0; 2; 0; 3; 1; 3] 4 6) i
           = cl (Clustering.mk [0; 2; 0; 3; 1; 3] 4 6) j →
           cl alternating i = cl alternating j.
Proof.
  apply (refinement_respects_clusters counter_random merging_params
           triangle_pair alternating 0 _ 8).
  - reflexivity.
  - unfold ranged. simpl. repeat constructor.
  - reflexivity.
  - vm_compute. reflexivity.
Defined.

(** * utils/arrays.ts: searching, summing and shuffling *)

Module SearchFacts.

  (** For sums below [2^32] the unsigned shift halves. *)
Lemma ushr1_half x : (0 ≤ x < 2 ^ 32)%Z → ushr1 x = (x / 2)%Z.
  Proof.
    intros Hx. unfold ushr1. rewrite Z.mod_small by done.
    by rewrite Z.shiftr_div_pow2.
  Qed.

  (** The values at the indices [fromIndex, ..., toIndex - 1] do not
      decrease. *)
Definition sorted_range (values : list nat) (fromIndex toIndex : nat) : Prop :=
    ∀ i j, fromIndex ≤ i → i ≤ j → j < toIndex →
           nth i values 0 ≤ nth j values 0.

  (** What the search returns: an index of the range that holds the key, or
      [-(p + 1)] for a position [p] of the range or just behind it. *)
Definition found (values : list nat) (fromIndex toIndex key : nat) (r : Z)
    : Prop :=
    (0 ≤ r)%Z ∧ fromIndex ≤ Z.to_nat r < toIndex
    ∧ values !! Z.to_nat r = Some key.

Definition missing (values : list nat) (fromIndex toIndex key : nat) (r : Z)
    : Prop :=
    ∃ p, r = (- (Z.of_nat p + 1))%Z ∧ fromIndex ≤ p ≤ toIndex
         ∧ (sorted_range values fromIndex toIndex →
            (∀ i, fromIndex ≤ i < p → nth i values 0 < key)
            ∧ (∀ i, p ≤ i < toIndex → key < nth i values 0)).

Section Search.
Context (values : list nat) (fromIndex toIndex key : nat).
Context (Hlen : toIndex ≤ length values).
Context (Hsmall : (Z.of_nat toIndex ≤ 2 ^ 31)%Z).

Lemma binarySearch_loop_spec fuel (low high : nat) :
      fromIndex ≤ low → low ≤ high → high ≤ toIndex → high - low < fuel →
      (sorted_range values fromIndex toIndex →
       (∀ i, fromIndex ≤ i < low → nth i values 0 < key)
       ∧ (∀ i, high ≤ i < toIndex → key < nth i values 0)) →
      ∃ r, binarySearch_loop fuel values (Z.of_nat low) (Z.of_nat high - 1) key
           = Some r
           ∧ (found values fromIndex toIndex key r
              ∨ missing values fromIndex toIndex key r).
    Proof.
      revert low high. induction fuel as [|fuel IH]; intros low high; [lia|].
      intros Hlow Hlh Hhigh Hfuel Hinv. cbn [binarySearch_loop].
      case_decide as Hcmp.
      - assert (low < high) as Hlt by lia.
        assert (ushr1 (Z.of_nat low + (Z.of_nat high - 1))
                = Z.of_nat ((low + high - 1) / 2)) as Hmid.
        { rewrite ushr1_half by lia. rewrite Nat2Z.inj_div.
          f_equal. lia. }
        rewrite Hmid. clear Hmid. set (mid := (low + high - 1) / 2).
        assert (low ≤ mid < high) as Hm.
        { unfold mid. split.
          - apply Nat.div_le_lower_bound; lia.
          - apply Nat.Div0.div_lt_upper_bound; lia. }
        rewrite Nat2Z.id.
        rewrite (aget_nth values mid 0) by lia. cbn [mbind option_bind].
        case_decide as Hless; [|case_decide as Hmore].
        + replace (Z.of_nat mid + 1)%Z with (Z.of_nat (mid + 1)) by lia.
          apply IH; [lia..|].
          intros Hs. destruct (Hinv Hs) as [Hlo Hhi]. split; [|done].
          intros i Hi. destruct (decide (i < low)); [apply Hlo; lia|].
          pose proof (Hs i mid ltac:(lia) ltac:(lia) ltac:(lia)). lia.
        + apply IH; [lia..|].
          intros Hs. destruct (Hinv Hs) as [Hlo Hhi]. split; [done|].
          intros i Hi. destruct (decide (high ≤ i)); [apply Hhi; lia|].
          pose proof (Hs mid i ltac:(lia) ltac:(lia) ltac:(lia)). lia.
        + exists (Z.of_nat mid). split; [done|]. left.
          unfold found. rewrite Nat2Z.id. split; [lia|]. split; [lia|].
          rewrite (lookup_nth values mid 0) by lia. f_equal. lia.
      - assert (high = low) as -> by lia.
        exists (- (Z.of_nat low + 1))%Z. split; [done|]. right.
        exists low. split; [done|]. split; [lia|done].
    Qed.
End Search.

Lemma binarySearch_result values fromIndex toIndex key :
    fromIndex ≤ toIndex → toIndex ≤ length values →
    (Z.of_nat toIndex ≤ 2 ^ 31)%Z →
    ∃ r, binarySearch values fromIndex toIndex key = Some r
         ∧ (found values fromIndex toIndex key r
            ∨ missing values fromIndex toIndex key r).
  Proof.
    intros Hle Hlen Hsmall. unfold binarySearch.
    apply (binarySearch_loop_spec values fromIndex toIndex key Hlen Hsmall);
      [lia..|].
    intros _. split; intros i Hi; lia.
  Qed.

  (** ** calcSumWithinRange *)

Lemma calcSumWithinRange_value (values : list Q) b e :
    b ≤ e → e ≤ length values →
    ∃ r, calcSumWithinRange values b e = Some r
         ∧ (r == sumR (λ i, nth i values 0%Q) b e)%Q.
  Proof.
    intros Hbe He. unfold calcSumWithinRange.
    destruct (for_range_sum (λ i sum, x ← aget values i; Some (sum + x)%Q)
                (λ i, nth i values 0%Q) b e 0%Q Hbe) as (r & Hrun & Hr).
    - intros k a Hk. rewrite (aget_nth values k 0%Q) by lia.
      cbn [mbind option_bind]. eexists. split; [done|reflexivity].
    - exists r. split; [done|]. rewrite Hr. ring.
  Qed.

  (** Reading past the end of the array gives [undefined], and the sum is
      [NaN]. *)
Lemma calcSumWithinRange_outside (values : list Q) b e :
    b < e → length values < e → calcSumWithinRange values b e = None.
  Proof.
    intros Hbe He. unfold calcSumWithinRange.
    destruct (for_range b e _ 0%Q) as [r|] eqn:Hrun; [exfalso|done].
    pose (P := λ (i : nat) (_ : Q), i ≤ length values).
    assert (P e r) as HP; [|unfold P in HP; lia].
    destruct (decide (b ≤ length values)) as [Hb|Hb].
    - apply (for_range_partial P _ _ _ _ _ Hrun); [lia|done|].
      intros i s s' Hi HPi Hbody. unfold P in *.
      apply bind_Some in Hbody as (x & Hx & _).
      apply lookup_lt_Some in Hx. lia.
    - unfold for_range in Hrun. destruct (e - b) as [|c] eqn:Hc; [lia|].
      cbn [for_loop] in Hrun. unfold aget in Hrun.
      rewrite (proj2 (lookup_ge_None values b)) in Hrun by lia. done.
  Qed.

End SearchFacts.

Import SearchFacts.

(** [binarySearch] returns for every range that lies in the array and below
    index [2^31].  A result that is not negative is an index of the range at
    which the key stands.  A negative result is [-(p + 1)] for a position [p]
    with [fromIndex <= p <= toIndex], and when the values of the range do not
    decrease all values before [p] are smaller than the key and all values
    from [p] on are larger: the key does not occur in the range. *)
Theorem binarySearch_spec (sortedValues : list nat)
    (fromIndex toIndex key : nat) :
  fromIndex ≤ toIndex → toIndex ≤ length sortedValues →
  (Z.of_nat toIndex ≤ 2 ^ 31)%Z →
  ∃ r, binarySearch sortedValues fromIndex toIndex key = Some r
       ∧ (found sortedValues fromIndex toIndex key r
          ∨ missing sortedValues fromIndex toIndex key r).
Proof. apply binarySearch_result. Qed.

Lemma binarySearch_spec_witness :
  ∃ r, binarySearch [1; 3; 5; 7; 9] 1 4 6 = Some r
       ∧ (found [1; 3; 5; 7; 9] 1 4 6 r ∨ missing [1; 3; 5; 7; 9] 1 4 6 r).
Proof.
  apply (binarySearch_spec [1; 3; 5; 7; 9] 1 4 6); simpl; lia.
Defined.

(** In a range whose values do not decrease [binarySearch] finds every key
    that occurs in it: the result is not negative exactly when the key stands
    somewhere in the range. *)
Theorem binarySearch_finds (sortedValues : list nat)
    (fromIndex toIndex key : nat) :
  fromIndex ≤ toIndex → toIndex ≤ length sortedValues →
  (Z.of_nat toIndex ≤ 2 ^ 31)%Z →
  sorted_range sortedValues fromIndex toIndex →
  ∃ r, binarySearch sortedValues fromIndex toIndex key = Some r
       ∧ ((0 ≤ r)%Z ↔ ∃ i, fromIndex ≤ i < toIndex
                            ∧ sortedValues !! i = Some key).
Proof.
  intros Hle Hlen Hsmall Hs.
  destruct (binarySearch_result sortedValues fromIndex toIndex key Hle Hlen Hsmall)
    as (r & Hrun & Hr).
  exists r. split; [done|]. destruct Hr as [(H0 & Hi & Hv)|(p & -> & Hp & Hmiss)].
  - split; [|done]. intros _. by exists (Z.to_nat r).
  - destruct (Hmiss Hs) as [Hlo Hhi]. split; [lia|].
    intros (i & Hi & Hv). apply (lookup_nth_eq _ _ 0) in Hv.
    destruct (decide (i < p)).
    + pose proof (Hlo i ltac:(lia)). lia.
    + pose proof (Hhi i ltac:(lia)). lia.
Qed.

Lemma binarySearch_finds_witness :
  ∃ r, binarySearch [1; 3; 5; 7; 9] 0 5 7 = Some r
       ∧ ((0 ≤ r)%Z ↔ ∃ i, 0 ≤ i < 5 ∧ [1; 3; 5; 7; 9] !! i = Some 7).
Proof.
  apply (binarySearch_finds [1; 3; 5; 7; 9] 0 5 7); [simpl; lia..|].
  intros i j Hi Hij Hj.
  do 5 (destruct i as [|i]; [do 5 (destruct j as [|j]; [simpl; lia|]); lia|]).
  lia.
Defined.

(** The sum over a range that lies in the array is the sum over its first
    part plus the sum over the rest, and over the whole array it is
    [calcSum]; a range that is not empty and reaches past the end of the array
    has no sum. *)
Theorem calcSumWithinRange_splits (values : list Q)
    (beginIndex midIndex endIndex : nat) :
  beginIndex ≤ midIndex → midIndex ≤ endIndex →
  (endIndex ≤ length values →
   ∃ whole first rest,
     calcSumWithinRange values beginIndex endIndex = Some whole
     ∧ calcSumWithinRange values beginIndex midIndex = Some first
     ∧ calcSumWithinRange values midIndex endIndex = Some rest
     ∧ (whole == first + rest)%Q)
  ∧ (∃ all, calcSumWithinRange values 0 (length values) = Some all
            ∧ (all == calcSum values)%Q)
  ∧ (beginIndex < endIndex → length values < endIndex →
     calcSumWithinRange values beginIndex endIndex = None).
Proof.
  intros Hbm Hme. split; [|split].
  - intros He.
    destruct (calcSumWithinRange_value values beginIndex endIndex)
      as (whole & Hw & Hwv); [lia..|].
    destruct (calcSumWithinRange_value values beginIndex midIndex)
      as (first & Hf & Hfv); [lia..|].
    destruct (calcSumWithinRange_value values midIndex endIndex)
      as (rest & Hr & Hrv); [lia..|].
    exists whole, first, rest. split; [done|]. split; [done|]. split; [done|].
    rewrite Hwv, Hfv, Hrv. by apply sumR_split.
  - destruct (calcSumWithinRange_value values 0 (length values))
      as (all & Ha & Hav); [lia..|].
    exists all. split; [done|]. rewrite Hav, calcSum_sumN.
    unfold sumR. rewrite Nat.sub_0_r. reflexivity.
  - apply calcSumWithinRange_outside.
Qed.

Lemma calcSumWithinRange_splits_witness :
  (∃ whole first rest,
     calcSumWithinRange [1; 2; 3; 4]%Q 1 4 = Some whole
     ∧ calcSumWithinRange [1; 2; 3; 4]%Q 1 2 = Some first
     ∧ calcSumWithinRange [1; 2; 3; 4]%Q 2 4 = Some rest
     ∧ (whole == first + rest)%Q)
  ∧ calcSumWithinRange [1; 2; 3; 4]%Q 1 5 = None.
Proof.
  destruct (calcSumWithinRange_splits [1; 2; 3; 4]%Q 1 2 4)
    as (Hin & _ & _); [lia..|].
  destruct (calcSumWithinRange_splits [1; 2; 3; 4]%Q 1 2 5)
    as (_ & _ & Hout); [lia..|].
  split; [apply Hin; simpl; lia|apply Hout; simpl; lia].
Defined.

(** With a generator whose draws stay below the bound it is given,
    [generateRandomPermutation] returns a permutation of the integers
    [0, ..., nElements - 1]. *)
Theorem generateRandomPermutation_permutes {rng} (R : Random rng)
    (nElements : nat) (random : rng) :
  CountingFacts.bounded_draws R →
  ∃ permutation random',
    generateRandomPermutation R nElements random = Some (permutation, random')
    ∧ permutation ≡ₚ seq 0 nElements.
Proof.
  intros HR.
  destruct (CountingFacts.generateRandomPermutation_spec R nElements random HR)
    as (order & random' & Hrun & Hl & Hf & Hn).
  exists order, random'. split; [done|].
  apply submseteq_length_Permutation; [|by rewrite length_seq, Hl].
  apply NoDup_submseteq; [done|]. intros x Hx. apply elem_of_seq.
  rewrite Forall_forall in Hf. pose proof (Hf x Hx). lia.
Qed.

Lemma generateRandomPermutation_permutes_witness :
  ∃ permutation random',
    generateRandomPermutation counter_random 5 0 = Some (permutation, random')
    ∧ permutation ≡ₚ seq 0 5.
Proof.
  apply (generateRandomPermutation_permutes counter_random 5 0).
  apply counter_random_bounded.
Defined.

Import NetworkFacts ClusteringFacts QualityFacts CPMFacts.

(** * clustering.ts: compaction, members and merging *)

Module CompactionFacts.
Import Clustering ClusteringOps MembersFacts RunFacts.

  (** Every cluster that the first loop of [removeEmptyClusters] marks has
      a node. *)
Lemma mark_loop_marked c ne :
    mark_loop c = Some ne →
    ∀ k, ne !! k = Some true → ∃ i, i < nNodes c ∧ clusters c !! i = Some k.
  Proof.
    intros Hrun.
    pose (P := λ (m : nat) (s : list bool),
      ∀ k, s !! k = Some true → ∃ i, i < m ∧ clusters c !! i = Some k).
    assert (P (nNodes c) ne) as H; [|done].
    eapply (for_range_partial P); [exact Hrun|lia| |].
    - intros k Hk. apply lookup_replicate in Hk as [? _]. done.
    - intros i s s' Hi HP Hbody.
      apply bind_Some in Hbody as (ci & Hci & Hset).
      intros k Hk. destruct (decide (k = ci)) as [->|Hne].
      + exists i. split; [lia|done].
      + apply aset_inv in Hset as [[Hlt ->]|[Hlen ->]].
        * rewrite list_lookup_insert_ne in Hk by done.
          destruct (HP k Hk) as (i' & ? & ?). exists i'. split; [lia|done].
        * apply lookup_snoc_Some in Hk as [[_ Hk]|[? _]]; [|lia].
          destruct (HP k Hk) as (i' & ? & ?). exists i'. split; [lia|done].
  Qed.

  (** The second loop hands out every number below the new number of
      clusters to a marked cluster. *)
Lemma number_loop_onto c ne newClusters i :
    number_loop c ne = Some (newClusters, i) →
    ∀ v, v < i → ∃ j, j < nClusters c ∧ ne !! j = Some true
                      ∧ newClusters !! j = Some v.
  Proof.
    intros Hrun.
    pose (P := λ (m : nat) (s : list nat * nat),
      length s.1 = nClusters c
      ∧ ∀ v, v < s.2 → ∃ j, j < m ∧ ne !! j = Some true ∧ s.1 !! j = Some v).
    assert (P (nClusters c) (newClusters, i)) as [_ H]; [|done].
    eapply (for_range_partial P); [exact Hrun|lia| |].
    - split; [by simpl; rewrite length_replicate|]. simpl. intros; lia.
    - intros j [nc m] [nc' m'] Hj [Hlen HP] Hbody. cbn [fst snd] in *.
      apply bind_Some in Hbody as (b & Hb & Hbody). destruct b.
      + rewrite aset_lt in Hbody by lia. simplify_eq/=.
        unfold P. cbn [fst snd]. split; [by rewrite length_insert|].
        intros v Hv. destruct (decide (v = m)) as [->|Hne].
        * exists j. split; [lia|]. split; [done|].
          by rewrite list_lookup_insert_eq by lia.
        * destruct (HP v ltac:(lia)) as (j' & ? & ? & ?). exists j'.
          split; [lia|]. split; [done|].
          by rewrite list_lookup_insert_ne by lia.
      + simplify_eq/=. unfold P. cbn [fst snd]. split; [done|].
        intros v Hv. destruct (HP v Hv) as (j' & ? & ? & ?). exists j'.
        split; [lia|done].
  Qed.

Lemma removeEmptyClusters_onto c c' :
    removeEmptyClusters c = Some c' → sized c →
    ∀ v, v < nClusters c' → ∃ i, i < nNodes c ∧ cl c' i = v.
  Proof.
    rewrite removeEmptyClusters_unfold. intros Hrun Hs v Hv.
    destruct (mark_loop c) as [ne|] eqn:Hmark; simplify_eq/=.
    destruct (number_loop c ne) as [[nc m]|] eqn:Hnum; simplify_eq/=.
    destruct (relabel nc (nNodes c) (clusters c)) as [cls|] eqn:Hrel;
      simplify_eq/=.
    destruct (number_loop_onto _ _ _ _ Hnum v Hv) as (j & Hj & Hne & Hnc).
    destruct (mark_loop_marked _ _ Hmark j Hne) as (i & Hi & Hci).
    apply relabel_partial in Hrel as [Hl Hrel]; [|unfold sized in Hs; lia].
    destruct (Hrel i Hi) as (ck & Hck & Hnew & _).
    exists i. split; [done|]. unfold cl, cid. cbn [clusters].
    apply lookup_nth_eq. rewrite Hnew. congruence.
  Qed.

  (** ** mergeClusters *)

Lemma mergeClusters_value c arg c' :
    mergeClusters c arg = Some c' → sized c →
    nClusters c' = nClusters arg ∧ nNodes c' = nNodes c
    ∧ length (clusters c') = nNodes c
    ∧ ∀ i, i < nNodes c → cl c' i = cl arg (cl c i).
  Proof.
    rewrite mergeClusters_unfold. intros Hrun Hs.
    destruct (relabel _ _ _) as [cls|] eqn:Hrel; simplify_eq/=.
    apply relabel_partial in Hrel as [Hl Hrel]; [|unfold sized in Hs; lia].
    split; [done|]. split; [done|]. split; [unfold sized in Hs; lia|].
    intros i Hi. destruct (Hrel i Hi) as (ck & Hck & Hnew & [v Hv]).
    unfold cl, cid. cbn [clusters]. rewrite (lookup_nth_eq _ _ 0 _ Hck).
    rewrite Hv in Hnew.
    by rewrite (lookup_nth_eq _ _ 0 _ Hnew), (lookup_nth_eq _ _ 0 _ Hv).
  Qed.

End CompactionFacts.

Import Clustering ClusteringOps MembersFacts RunFacts CompactionFacts.

(** [removeEmptyClusters] on a clustering with one entry per node and every
    id below [nClusters]: it returns, two nodes are in the same cluster
    afterwards exactly when they were before, and afterwards the ids are
    below the new [nClusters] and every id below it is the cluster of some
    node. *)
Theorem removeEmptyClusters_compacts (c : Clustering.t) :
  sized c → ranged c →
  ∃ c', Clustering.removeEmptyClusters c = Some c'
        ∧ Clustering.nNodes c' = Clustering.nNodes c
        ∧ length (Clustering.clusters c') = Clustering.nNodes c
        ∧ (∀ i i', i < Clustering.nNodes c → i' < Clustering.nNodes c →
                   cl c' i = cl c' i' ↔ cl c i = cl c i')
        ∧ (∀ i, i < Clustering.nNodes c → cl c' i < Clustering.nClusters c')
        ∧ (∀ v, v < Clustering.nClusters c' →
                ∃ i, i < Clustering.nNodes c ∧ cl c' i = v).
Proof.
  intros Hs Hr. destruct (removeEmptyClusters_total c Hs Hr) as [c' Hrun].
  destruct (removeEmptyClusters_partial c c' Hrun Hs) as (Hr' & Hs' & Hn).
  exists c'. split; [done|]. split; [done|].
  split; [unfold sized in Hs'; lia|]. split; [|split].
  - apply (removeEmptyClusters_partition c c' Hrun Hs).
  - intros i Hi. apply (cl_range c' Hs' Hr'). lia.
  - by apply removeEmptyClusters_onto.
Qed.

Lemma removeEmptyClusters_compacts_witness :
  ∃ c', Clustering.removeEmptyClusters (Clustering.mk [4; 1; 4; 6] 7 4)
        = Some c'
        ∧ Clustering.nNodes c' = 4
        ∧ length (Clustering.clusters c') = 4
        ∧ (∀ i i', i < 4 → i' < 4 →
                   cl c' i = cl c' i'
                   ↔ cl (Clustering.mk [4; 1; 4; 6] 7 4) i
                     = cl (Clustering.mk [4; 1; 4; 6] 7 4) i')
        ∧ (∀ i, i < 4 → cl c' i < Clustering.nClusters c')
        ∧ (∀ v, v < Clustering.nClusters c' → ∃ i, i < 4 ∧ cl c' i = v).
Proof.
  apply (removeEmptyClusters_compacts (Clustering.mk [4; 1; 4; 6] 7 4)).
  - reflexivity.
  - unfold ranged. simpl. repeat constructor; lia.
Defined.

(** [getNodesPerCluster] and [getNNodesPerCluster] on such a clustering: the
    row of cluster [k] lists the nodes of cluster [k] in increasing order, and
    the count of cluster [k] is the length of its row. *)
Theorem getNodesPerCluster_lists (c : Clustering.t) :
  sized c → ranged c →
  ∃ nodesPerCluster nNodesPerCluster,
    Clustering.getNodesPerCluster c = Some nodesPerCluster
    ∧ Clustering.getNNodesPerCluster c = Some nNodesPerCluster
    ∧ length nodesPerCluster = Clustering.nClusters c
    ∧ length nNodesPerCluster = Clustering.nClusters c
    ∧ ∀ k, k < Clustering.nClusters c →
           nodesPerCluster !! k
           = Some (filter (λ i, cl c i = k) (seq 0 (Clustering.nNodes c)))
           ∧ ∃ row, nodesPerCluster !! k = Some row
                    ∧ nNodesPerCluster !! k = Some (length row).
Proof.
  intros Hs Hr.
  destruct (getNodesPerCluster_value c Hs Hr) as (npc & Hnpc & Hl & Hrows).
  destruct (getNNodesPerCluster_value c Hs Hr) as (cnt & Hcnt & Hlc & Hcounts).
  exists npc, cnt. split; [done|]. split; [done|]. split; [done|].
  split; [done|]. intros k Hk. split; [by apply Hrows|].
  exists (members c k (Clustering.nNodes c)). split; [by apply Hrows|].
  rewrite <- Hcounts by done. apply lookup_nth. lia.
Qed.

Lemma getNodesPerCluster_lists_witness :
  ∃ nodesPerCluster nNodesPerCluster,
    Clustering.getNodesPerCluster (Clustering.mk [2; 0; 2; 0; 2] 3 5)
    = Some nodesPerCluster
    ∧ Clustering.getNNodesPerCluster (Clustering.mk [2; 0; 2; 0; 2] 3 5)
      = Some nNodesPerCluster
    ∧ length nodesPerCluster = 3
    ∧ length nNodesPerCluster = 3
    ∧ ∀ k, k < 3 →
           nodesPerCluster !! k
           = Some (filter (λ i, cl (Clustering.mk [2; 0; 2; 0; 2] 3 5) i = k)
                     (seq 0 5))
           ∧ ∃ row, nodesPerCluster !! k = Some row
                    ∧ nNodesPerCluster !! k = Some (length row).
Proof.
  apply (getNodesPerCluster_lists (Clustering.mk [2; 0; 2; 0; 2] 3 5)).
  - reflexivity.
  - unfold ranged. simpl. repeat constructor; lia.
Defined.

(** [mergeClusters] composes the two clusterings: node [i] ends in the
    cluster that [clustering] gives to the old cluster of [i], and the number
    of clusters becomes that of [clustering].  Merging with the singleton
    clustering of the clusters leaves every node where it is. *)
Theorem mergeClusters_composes (c clustering : Clustering.t) :
  sized c → ranged c →
  Clustering.nClusters c ≤ length (Clustering.clusters clustering) →
  (∃ c', Clustering.mergeClusters c clustering = Some c'
         ∧ Clustering.nClusters c' = Clustering.nClusters clustering
         ∧ Clustering.nNodes c' = Clustering.nNodes c
         ∧ length (Clustering.clusters c') = Clustering.nNodes c
         ∧ ∀ i, i < Clustering.nNodes c → cl c' i = cl clustering (cl c i))
  ∧ Clustering.mergeClusters c
      (Clustering.initializeBasedOnNNodes (Clustering.nClusters c))
    = Some c.
Proof.
  intros Hs Hr Hlen. split.
  - destruct (mergeClusters_total c clustering Hs Hr Hlen) as [c' Hrun].
    exists c'. split; [done|]. by apply mergeClusters_value.
  - destruct (mergeClusters_total c
                (Clustering.initializeBasedOnNNodes (Clustering.nClusters c))
                Hs Hr) as [c' Hrun].
    { simpl. by rewrite length_seq. }
    rewrite Hrun. f_equal.
    destruct (mergeClusters_value _ _ _ Hrun Hs) as (HnC & HnN & Hl & Hv).
    destruct c as [cls nC nN], c' as [cls' nC' nN']. simpl in *.
    unfold sized in Hs. simpl in Hs. subst. f_equal.
    apply (nth_ext _ _ 0 0); [lia|]. intros i Hi.
    specialize (Hv i ltac:(lia)). unfold cl, cid in Hv. simpl in Hv.
    rewrite Hv. apply seq_nth.
    unfold ranged in Hr. rewrite Forall_forall in Hr. simpl in Hr.
    apply Hr. apply list_elem_of_lookup. exists i.
    apply lookup_nth. lia.
Qed.

Lemma mergeClusters_composes_witness :
  (∃ c', Clustering.mergeClusters (Clustering.mk [0; 1; 2; 1] 3 4)
           (Clustering.mk [1; 0; 1] 2 3) = Some c'
         ∧ Clustering.nClusters c' = 2
         ∧ Clustering.nNodes c' = 4
         ∧ length (Clustering.clusters c') = 4
         ∧ ∀ i, i < 4 → cl c' i = cl (Clustering.mk [1; 0; 1] 2 3)
                                    (cl (Clustering.mk [0; 1; 2; 1] 3 4) i))
  ∧ Clustering.mergeClusters (Clustering.mk [0; 1; 2; 1] 3 4)
      (Clustering.initializeBasedOnNNodes 3)
    = Some (Clustering.mk [0; 1; 2; 1] 3 4).
Proof.
  apply (mergeClusters_composes (Clustering.mk [0; 1; 2; 1] 3 4)
           (Clustering.mk [1; 0; 1] 2 3)).
  - reflexivity.
  - unfold ranged. simpl. repeat constructor; lia.
  - simpl. lia.
Defined.

(** * network.ts: what [checkIntegrity] guarantees *)

Module IntegrityFacts.
Import Network NetworkFacts Heap NetworkConstructor SearchFacts MergingFacts.

  (** Every stored edge has its opposite edge, with the same weight, among
      the edges of its end node. *)
Definition both_directions (net : t) : Prop :=
    ∀ i j, i < nNodes net → fni net i ≤ j < fni net (i + 1) →
      ∃ l, fni net (nbr net j) ≤ l < fni net (nbr net j + 1)
           ∧ nbr net l = i ∧ (ew net l == ew net j)%Q.

Lemma check_Some b : check b = Some () → b = true.
  Proof. by destruct b. Qed.

Lemma check_decide (P : Prop) `{Decision P} :
    check (bool_decide P) = Some () → P.
  Proof. intros Hc%check_Some. by apply bool_decide_eq_true in Hc. Qed.

  (** What the loop over the sorted edges has tested for node [i]. *)
Definition slice_ok (net : t) (i : nat) : Prop :=
    fni net i ≤ fni net (i + 1)
    ∧ ∀ j, fni net i ≤ j < fni net (i + 1) →
           j < length (neighbors net) ∧ nbr net j < nNodes net
           ∧ (fni net i < j → nbr net (j - 1) < nbr net j).

Lemma check_sorted_partial net :
    check_sorted net = Some () → ∀ i, i < nNodes net → slice_ok net i.
  Proof.
    unfold check_sorted. intros Hrun.
    pose (P := λ (m : nat) (_ : ()), ∀ i, i < m → slice_ok net i).
    apply (for_range_partial P _ _ _ _ _ Hrun); [lia|intros i; lia|].
    intros i [] [] Hi HP Hbody i' Hi'.
    destruct (decide (i' = i)) as [->|Hne]; [|apply HP; lia].
    apply bind_Some in Hbody as (b & Hb & Hbody).
    apply bind_Some in Hbody as (e & He & Hbody).
    apply bind_Some in Hbody as ([] & Hbe%check_decide & Hinner).
    apply (lookup_nth_eq _ _ 0) in Hb, He. fold (fni net i) in Hb.
    fold (fni net (i + 1)) in He. subst b e. split; [done|].
    pose (Q := λ (m : nat) (_ : ()),
      ∀ j, fni net i ≤ j < m →
           j < length (neighbors net) ∧ nbr net j < nNodes net
           ∧ (fni net i < j → nbr net (j - 1) < nbr net j)).
    apply (for_range_partial Q _ _ _ _ _ Hinner); [done|intros j; lia|].
    intros j [] [] Hj HQ Hstep j' Hj'.
    destruct (decide (j' = j)) as [->|Hne]; [|apply HQ; lia].
    apply bind_Some in Hstep as (k & Hk & Hstep).
    apply bind_Some in Hstep as ([] & Hkn%check_decide & Hstep).
    pose proof (lookup_lt_Some _ _ _ Hk) as Hjl.
    apply (lookup_nth_eq _ _ 0) in Hk. fold (nbr net j) in Hk. subst k.
    split; [done|]. split; [done|]. intros Hlt.
    rewrite decide_True in Hstep by done.
    apply bind_Some in Hstep as (l & Hl & Hstep%check_decide).
    apply (lookup_nth_eq _ _ 0) in Hl. fold (nbr net (j - 1)) in Hl. by subst l.
  Qed.

  (** Every position below [fni m] lies in the slice of a node below [m]. *)
Lemma slice_of net m k :
    fni net 0 = 0 → k < fni net m →
    ∃ i, i < m ∧ fni net i ≤ k < fni net (i + 1).
  Proof.
    intros H0. induction m as [|m IH]; intros Hk; [lia|].
    destruct (decide (k < fni net m)) as [Hlt|Hge].
    - destruct (IH Hlt) as (i & ? & ?). exists i. split; [lia|done].
    - exists m. replace (m + 1) with (S m) by lia. lia.
  Qed.

Lemma checkIntegrity_wf net :
    checkIntegrity net = Some () →
    wf net ∧ sorted_neighbors net ∧ Nat.Even (nEdges net)
    ∧ check_both_directions net = Some ().
  Proof.
    unfold checkIntegrity. intros Hrun.
    apply bind_Some in Hrun as ([] & Heven%check_Some & Hrun).
    apply bind_Some in Hrun as ([] & Hnw%check_decide & Hrun).
    apply bind_Some in Hrun as ([] & Hfl%check_decide & Hrun).
    apply bind_Some in Hrun as (f0 & Hf0 & Hrun).
    apply bind_Some in Hrun as ([] & H0%check_decide & Hrun).
    apply bind_Some in Hrun as (fn & Hfn & Hrun).
    apply bind_Some in Hrun as ([] & Hn%check_decide & Hrun).
    apply bind_Some in Hrun as ([] & Hnl%check_decide & Hrun).
    apply bind_Some in Hrun as ([] & Hel%check_decide & Hrun).
    apply bind_Some in Hrun as ([] & Hsorted & Hboth).
    apply (lookup_nth_eq _ _ 0) in Hf0, Hfn.
    fold (fni net 0) in Hf0. fold (fni net (nNodes net)) in Hfn. subst f0 fn.
    pose proof (check_sorted_partial net Hsorted) as Hok.
    split; [|split; [|split; [|done]]].
    - constructor; try done.
      + intros i Hi. by apply (Hok i Hi).
      + intros k Hk. rewrite <- Hn in Hk.
        destruct (slice_of net _ k H0 Hk) as (i & Hi & Hs).
        by apply (Hok i Hi).
    - intros i k k' Hi Hk Hkk' Hk'.
      destruct (Hok i Hi) as [_ Hs].
      induction k' as [|k' IH]; [lia|].
      destruct (Hs (S k') ltac:(lia)) as (_ & _ & Hstep).
      specialize (Hstep ltac:(lia)). replace (S k' - 1) with k' in Hstep by lia.
      destruct (decide (k = k')) as [->|Hne]; [done|].
      specialize (IH ltac:(lia) ltac:(lia)). lia.
    - apply negb_true_iff, bool_decide_eq_false in Heven.
      destruct (Nat.Even_or_Odd (nEdges net)) as [He|Ho]; [done|].
      exfalso. apply Heven. destruct Ho as [m ->].
      replace (2 * m + 1) with (1 + m * 2) by lia.
      by rewrite Nat.Div0.mod_add.
  Qed.

Section Both.
Context (net : t) (Hwf : wf net).
Context (Hsmall : (Z.of_nat (nEdges net) ≤ 2 ^ 31)%Z).

    (** Edge [j] has an opposite edge. *)
Definition paired (j : nat) : Prop :=
      ∃ i l, i < nNodes net ∧ fni net i ≤ j < fni net (i + 1)
             ∧ fni net (nbr net j) ≤ l < fni net (nbr net j + 1)
             ∧ nbr net l = i ∧ (ew net l == ew net j)%Q.

Lemma slice_unique i i' j :
      i < nNodes net → i' < nNodes net →
      fni net i ≤ j < fni net (i + 1) → fni net i' ≤ j < fni net (i' + 1) →
      i = i'.
    Proof.
      intros Hi Hi' Hj Hj'.
      destruct (decide (i = i')) as [|Hne]; [done|exfalso].
      destruct (decide (i < i')).
      - pose proof (fni_mono net Hwf (i + 1) i' ltac:(lia) ltac:(lia)). lia.
      - pose proof (fni_mono net Hwf (i' + 1) i ltac:(lia) ltac:(lia)). lia.
    Qed.

Lemma check_both_directions_partial :
      check_both_directions net = Some () → both_directions net.
    Proof.
      unfold check_both_directions. intros Hrun.
      apply bind_Some in Hrun as (checked & Hloop & _).
      pose (P := λ (m : nat) (s : list bool),
        length s = nEdges net
        ∧ (∀ j, s !! j = Some true → paired j)
        ∧ (∀ i j, i < m → fni net i ≤ j < fni net (i + 1) → paired j)).
      assert (P (nNodes net) checked) as (_ & _ & Hall).
      { apply (for_range_partial P _ _ _ _ _ Hloop); [lia| |].
        - split; [by rewrite length_replicate|]. split; [|intros; lia].
          intros j Hj. apply lookup_replicate in Hj as [? _]. done.
        - intros i s s' Hi (Hlen & Hch & Hlo) Hbody.
          apply bind_Some in Hbody as (b & Hb & Hbody).
          apply bind_Some in Hbody as (e & He & Hinner).
          apply (lookup_nth_eq _ _ 0) in Hb, He. fold (fni net i) in Hb.
          fold (fni net (i + 1)) in He. subst b e.
          pose (Q := λ (m : nat) (s : list bool),
            length s = nEdges net
            ∧ (∀ j, s !! j = Some true → paired j)
            ∧ (∀ j, fni net i ≤ j < m → paired j)).
          assert (Q (fni net (i + 1)) s') as (Hlen' & Hch' & Hnew).
          { apply (for_range_partial Q _ _ _ _ _ Hinner);
              [apply (wf_fni_mono _ Hwf); lia| |].
            - split; [done|]. split; [done|]. intros; lia.
            - intros j t t' Hj (Hl & Hc & Hn) Hstep.
              apply bind_Some in Hstep as (c & Hcj & Hstep). destruct c.
              + simplify_eq. split; [done|]. split; [done|].
                intros j' Hj'. destruct (decide (j' = j)) as [->|Hne].
                * by apply Hc.
                * apply Hn. lia.
              + apply bind_Some in Hstep as (k & Hk & Hstep).
                apply bind_Some in Hstep as (bk & Hbk & Hstep).
                apply bind_Some in Hstep as (ek & Hek & Hstep).
                apply bind_Some in Hstep as (l & Hsearch & Hstep).
                apply bind_Some in Hstep as ([] & Hl0%check_decide & Hstep).
                apply bind_Some in Hstep as (wj & Hwj & Hstep).
                apply bind_Some in Hstep as (wl & Hwl & Hstep).
                apply bind_Some in Hstep as ([] & Heq%check_Some & Hstep).
                apply bind_Some in Hstep as (t1 & Ht1 & Ht').
                apply (lookup_nth_eq _ _ 0) in Hk, Hbk, Hek.
                apply (lookup_nth_eq _ _ 0%Q) in Hwj, Hwl.
                fold (nbr net j) in Hk. subst k.
                fold (fni net (nbr net j)) in Hbk.
                fold (fni net (nbr net j + 1)) in Hek. subst bk ek.
                fold (ew net j) in Hwj. fold (ew net (Z.to_nat l)) in Hwl.
                subst wj wl. apply Qeq_bool_eq in Heq.
                assert (j < nEdges net) as Hjn
                  by (apply (slice_lt net Hwf i); lia).
                pose proof (wf_neighbors_range _ Hwf j Hjn) as Hkn.
                destruct (binarySearch_result (neighbors net)
                            (fni net (nbr net j)) (fni net (nbr net j + 1)) i)
                  as (r & Hr & Hfound).
                { apply (wf_fni_mono _ Hwf); lia. }
                { rewrite (wf_neighbors_length _ Hwf).
                  apply (fni_le_nEdges net Hwf). lia. }
                { pose proof (fni_le_nEdges net Hwf (nbr net j + 1)
                                ltac:(lia)). lia. }
                assert (r = l) as -> by congruence.
                destruct Hfound as [(_ & Hrange & Hval)|(p & -> & _)]; [|lia].
                apply (lookup_nth_eq _ _ 0) in Hval.
                fold (nbr net (Z.to_nat l)) in Hval.
                set (l' := Z.to_nat l) in *.
                assert (l' < nEdges net) as Hln
                  by (apply (slice_lt net Hwf (nbr net j)); lia).
                assert (paired j) as Hpj.
                { exists i, l'. split; [lia|]. split; [lia|].
                  split; [lia|]. split; [done|]. by symmetry. }
                assert (paired l') as Hpl.
                { exists (nbr net j), j. split; [done|]. split; [lia|].
                  rewrite Hval. split; [lia|]. split; [done|]. done. }
                rewrite aset_lt in Ht1 by lia. simplify_eq.
                rewrite aset_lt in Ht' by (rewrite length_insert; lia).
                simplify_eq. unfold Q. rewrite !length_insert.
                split; [done|]. split.
                * intros j' Hj'.
                  destruct (decide (j' = l')) as [->|Hne1]; [done|].
                  rewrite list_lookup_insert_ne in Hj' by done.
                  destruct (decide (j' = j)) as [->|Hne2]; [done|].
                  rewrite list_lookup_insert_ne in Hj' by done.
                  by apply Hc.
                * intros j' Hj'. destruct (decide (j' = j)) as [->|Hne].
                  -- done.
                  -- apply Hn. lia. }
          split; [done|]. split; [done|].
          intros i' j Hi' Hj. destruct (decide (i' = i)) as [->|Hne].
          + by apply Hnew.
          + apply (Hlo i'); [lia|done]. }
      intros i j Hi Hj.
      destruct (Hall i j Hi Hj) as (i' & l & Hi' & Hj' & Hl & Hnl & Hw).
      assert (i' = i) as -> by by apply (slice_unique i' i j).
      by exists l.
    Qed.
End Both.

  (** With neighbours in increasing order the weight [a_ij] is the weight
      of the one edge from [i] to [j], when there is one. *)
Section Adjacency.
Context (net : t) (Hwf : wf net) (Hsorted : sorted_neighbors net).

Lemma adj_edge i k :
      i < nNodes net → fni net i ≤ k < fni net (i + 1) →
      (adj net i (nbr net k) == ew net k)%Q.
    Proof.
      intros Hi Hk. unfold adj.
      rewrite (sumR_split _ _ k) by lia.
      rewrite (sumR_split _ k (S k)) by lia.
      rewrite (sumR_zero _ (fni net i) k).
      2: { intros k' Hk'. case_decide as Heq; [|reflexivity].
           pose proof (Hsorted i k' k Hi ltac:(lia) ltac:(lia) ltac:(lia)).
           lia. }
      rewrite (sumR_zero _ (S k)).
      2: { intros k' Hk'. case_decide as Heq; [|reflexivity].
           pose proof (Hsorted i k k' Hi ltac:(lia) ltac:(lia) ltac:(lia)).
           lia. }
      rewrite sumR_S by lia. rewrite sumR_empty by lia.
      rewrite decide_True by done. ring.
    Qed.

Lemma adj_none i j :
      i < nNodes net →
      (∀ k, fni net i ≤ k < fni net (i + 1) → nbr net k ≠ j) →
      (adj net i j == 0)%Q.
    Proof.
      intros Hi Hno. unfold adj. apply sumR_zero. intros k Hk.
      rewrite decide_False; [reflexivity|]. by apply Hno.
    Qed.

Lemma both_directions_symmetric : both_directions net → symmetric net.
    Proof.
      intros Hboth.
      assert (∀ i j, i < nNodes net → j < nNodes net →
                (∃ k, fni net i ≤ k < fni net (i + 1) ∧ nbr net k = j) →
                (adj net i j == adj net j i)%Q) as Hedge.
      { intros i j Hi Hj (k & Hk & Hnk).
        destruct (Hboth i k Hi Hk) as (l & Hl & Hnl & Hw).
        rewrite Hnk in Hl.
        rewrite <- Hnk at 1. rewrite (adj_edge i k Hi Hk).
        rewrite <- Hnl. rewrite (adj_edge j l Hj Hl). by symmetry. }
      intros i j Hi Hj.
      destruct (decide (Exists (λ k, nbr net k = j)
                          (seq (fni net i) (fni net (i + 1) - fni net i))))
        as [Hex|Hno].
      - apply Exists_exists in Hex as (k & Hk%elem_of_seq & Hnk).
        apply Hedge; [done..|]. exists k. split; [lia|done].
      - destruct (decide (Exists (λ k, nbr net k = i)
                            (seq (fni net j) (fni net (j + 1) - fni net j))))
          as [Hex'|Hno'].
        + apply Exists_exists in Hex' as (k & Hk%elem_of_seq & Hnk).
          symmetry. apply Hedge; [done..|]. exists k. split; [lia|done].
        + rewrite !adj_none; [reflexivity|done| |done|].
          * intros k Hk Hnk. apply Hno'. apply Exists_exists. exists k.
            split; [|done]. apply elem_of_seq. lia.
          * intros k Hk Hnk. apply Hno. apply Exists_exists. exists k.
            split; [|done]. apply elem_of_seq. lia.
    Qed.
End Adjacency.

Lemma checkIntegrity_sound net :
    (Z.of_nat (nEdges net) ≤ 2 ^ 31)%Z →
    checkIntegrity net = Some () →
    wf net ∧ sorted_neighbors net ∧ Nat.Even (nEdges net)
    ∧ both_directions net ∧ symmetric net.
  Proof.
    intros Hsmall Hrun.
    destruct (checkIntegrity_wf net Hrun) as (Hwf & Hsorted & Heven & Hboth).
    pose proof (check_both_directions_partial net Hwf Hsmall Hboth) as Hb.
    split; [done|]. split; [done|]. split; [done|]. split; [done|].
    by apply both_directions_symmetric.
  Qed.

End IntegrityFacts.

Import Network NetworkFacts Heap NetworkConstructor IntegrityFacts.

(** A network with at most [2^31] stored edges on which [checkIntegrity]
    throws no error has the shape of compressed sparse rows (array lengths,
    offsets from 0 to [nEdges] that do not decrease, neighbours below
    [nNodes]), lists the neighbours of every node in increasing order, has an
    even [nEdges], stores for every edge the opposite edge with the same
    weight, and so has a symmetric matrix of weights. *)
Theorem checkIntegrity_guarantees (net : Network.t) :
  (Z.of_nat (Network.nEdges net) ≤ 2 ^ 31)%Z →
  checkIntegrity net = Some () →
  wf net ∧ sorted_neighbors net ∧ Nat.Even (Network.nEdges net)
  ∧ both_directions net ∧ symmetric net.
Proof. apply checkIntegrity_sound. Qed.

Lemma checkIntegrity_guarantees_witness :
  wf triangle_pair ∧ sorted_neighbors triangle_pair
  ∧ Nat.Even (Network.nEdges triangle_pair)
  ∧ both_directions triangle_pair ∧ symmetric triangle_pair.
Proof.
  apply (checkIntegrity_guarantees triangle_pair).
  - simpl. lia.
  - vm_compute. reflexivity.
Defined.

(** A network that the constructor builds from [firstNeighborIndices] and
    [neighbors] with [checkIntegrity] set holds copies of the arrays it was
    given (edge weights 1 when none are given), has no self-link weight, and
    has everything [checkIntegrity] guarantees. *)
Theorem initializeNetworkBasedOnNeighbors_checked (nNodes : nat)
    (nodeWeights : option (list Q)) (setNodeWeightsToTotalEdgeWeights : bool)
    (firstNeighborIndices neighbors : list nat) (edgeWeights : option (list Q))
    (net : Network.t) :
  (Z.of_nat (length neighbors) ≤ 2 ^ 31)%Z →
  initializeNetworkBasedOnNeighbors nNodes nodeWeights
    setNodeWeightsToTotalEdgeWeights firstNeighborIndices neighbors
    edgeWeights true = Some net →
  Network.nNodes net = nNodes
  ∧ Network.firstNeighborIndices net = firstNeighborIndices
  ∧ Network.neighbors net = neighbors
  ∧ Network.edgeWeights net
    = default (replicate (length neighbors) 1%Q) edgeWeights
  ∧ (∀ nw, nodeWeights = Some nw → Network.nodeWeights net = nw)
  ∧ Network.totalEdgeWeightSelfLinks net = 0%Q
  ∧ wf net ∧ sorted_neighbors net ∧ both_directions net ∧ symmetric net.
Proof.
  unfold initializeNetworkBasedOnNeighbors. intros Hsmall Hrun.
  apply bind_Some in Hrun as (nw & Hnw & Hrun).
  apply bind_Some in Hrun as ([] & Hcheck & Hrun). simplify_eq.
  pose proof (λ H, checkIntegrity_sound _ H Hcheck) as Hsound.
  destruct (Hsound Hsmall) as (Hwf & Hs & _ & Hb & Hsym).
  cbn [Network.nNodes Network.firstNeighborIndices Network.neighbors
       Network.edgeWeights Network.nodeWeights Network.totalEdgeWeightSelfLinks].
  split; [done|]. split; [done|]. split; [done|].
  split; [by destruct edgeWeights|]. split; [|done].
  intros nw' ->. by simplify_eq.
Qed.

Lemma initializeNetworkBasedOnNeighbors_checked_witness :
  ∃ net,
    initializeNetworkBasedOnNeighbors 3 None true [0; 1; 3; 4] [1; 0; 2; 1]
      (Some [2; 2; 5; 5]%Q) true = Some net
    ∧ Network.nodeWeights net = [2; 7; 5]%Q
    ∧ wf net ∧ sorted_neighbors net ∧ both_directions net ∧ symmetric net.
Proof.
  eexists. split; [vm_compute; reflexivity|]. split; [reflexivity|].
  apply (initializeNetworkBasedOnNeighbors_checked 3 None true [0; 1; 3; 4]
           [1; 0; 2; 1] (Some [2; 2; 5; 5]%Q)).
  - simpl. lia.
  - vm_compute. reflexivity.
Defined.

(** * network.ts: edge weights per node and derived networks *)

Module WeightFacts.
Import Network NetworkFacts NormalizeFacts SearchFacts.

Lemma sumN_ones n : (sumN (λ _, 1%Q) n == inject_Z (Z.of_nat n))%Q.
  Proof.
    induction n as [|n IH]; [reflexivity|]. simpl sumN. rewrite IH.
    rewrite Nat2Z.inj_succ. unfold Z.succ. rewrite inject_Z_plus. reflexivity.
  Qed.

Section PerNode.
Context (net : t) (Hwf : wf net).

Lemma perNode_value :
      ∃ perNode, getTotalEdgeWeightPerNodeHelper net = Some perNode
                 ∧ length perNode = nNodes net
                 ∧ ∀ i, i < nNodes net →
                        (nth i perNode 0
                         == sumR (ew net) (fni net i) (fni net (i + 1)))%Q.
    Proof.
      pose (P := λ (m : nat) (s : list Q),
        length s = nNodes net
        ∧ ∀ i, i < m →
               (nth i s 0 == sumR (ew net) (fni net i) (fni net (i + 1)))%Q).
      unfold getTotalEdgeWeightPerNodeHelper.
      apply (for_range_total P); [lia| |].
      - split; [by rewrite length_replicate|]. intros; lia.
      - intros i s Hi [Hl Hv].
        rewrite (fni_lookup net Hwf i), (fni_lookup net Hwf (i + 1)) by lia.
        cbn [mbind option_bind].
        destruct (calcSumWithinRange_value (edgeWeights net) (fni net i)
                    (fni net (i + 1))) as (r & -> & Hr).
        { apply (wf_fni_mono _ Hwf). lia. }
        { rewrite (wf_edgeWeights_length _ Hwf).
          apply (fni_le_nEdges net Hwf). lia. }
        cbn [mbind option_bind]. rewrite aset_lt by lia.
        eexists. split; [done|]. split; [by rewrite length_insert|].
        intros i' Hi'. destruct (decide (i' = i)) as [->|Hne].
        + rewrite nth_insert_eq by lia. exact Hr.
        + rewrite nth_insert_ne by lia. apply Hv. lia.
    Qed.

Lemma calcSum_edgeWeights :
      (calcSum (edgeWeights net) == sumR (ew net) 0 (nEdges net))%Q.
    Proof.
      rewrite calcSum_sumN, (wf_edgeWeights_length _ Hwf), sumR_0. reflexivity.
    Qed.

Lemma perNode_total perNode :
      length perNode = nNodes net →
      (∀ i, i < nNodes net →
            (nth i perNode 0
             == sumR (ew net) (fni net i) (fni net (i + 1)))%Q) →
      (calcSum perNode == 2 * getTotalEdgeWeight net)%Q.
    Proof.
      intros Hl Hv. rewrite calcSum_sumN, Hl.
      rewrite (sumN_ext _ (λ i, sumR (ew net) (fni net i) (fni net (i + 1))))
        by done.
      rewrite (sum_slices net Hwf) by lia.
      rewrite (wf_fni_last _ Hwf). unfold getTotalEdgeWeight.
      rewrite calcSum_edgeWeights. field.
    Qed.
End PerNode.

  (** ** The network without edge weights *)

Lemma withoutEdgeWeights_wf net :
    wf net → wf (createNetworkWithoutEdgeWeights net).
  Proof.
    intros [H1 H2 H3 H4 H5 H6 H7 H8]. constructor; try done.
    cbn. by rewrite length_replicate.
  Qed.

  (** ** Normalisation by fractionalization *)

  (** The normalised weight of edge [k] in the slice of node [i]. *)
Definition fractionalization (net : t) (i k : nat) : Q :=
    let n := inject_Z (Z.of_nat (nNodes net)) in
    (ew net k * (n / nw net i + n / nw net (nbr net k)) / 2)%Q.

Definition fractionalize_inner (net : t) (i b e : nat) (ew0 : list Q) :=
    for_range b e
      (λ j ew,
         w ← aget (edgeWeights net) j;
         ni ← aget (nodeWeights net) i;
         nb ← aget (neighbors net) j;
         nj ← aget (nodeWeights net) nb;
         x ← qdiv (inject_Z (Z.of_nat (nNodes net))) ni;
         y ← qdiv (inject_Z (Z.of_nat (nNodes net))) nj;
         d ← qdiv 2 (x + y);
         w' ← qdiv w d;
         aset ew j w')
      ew0.

Definition fractionalize_loop (net : t) :=
    for_range 0 (nNodes net)
      (λ i ew,
         b ← aget (firstNeighborIndices net) i;
         e ← aget (firstNeighborIndices net) (i + 1);
         fractionalize_inner net i b e ew)
      (replicate (nEdges net) 0%Q).

Lemma createFractionalized_unfold net :
    createNormalizedNetworkUsingFractionalization net =
      normalizedEdgeWeights ← fractionalize_loop net;
      Some (mk (nNodes net) (replicate (nNodes net) 1%Q)
              (firstNeighborIndices net) (neighbors net)
              normalizedEdgeWeights 0%Q (nEdges net)).
  Proof. reflexivity. Qed.

Section Fractionalize.
Context (net : t) (Hwf : wf net) (Hpos : positive_nodes net).

Lemma fractionalize_inner_value i ew0 :
      i < nNodes net → length ew0 = nEdges net →
      ∃ ew1, fractionalize_inner net i (fni net i) (fni net (i + 1)) ew0
             = Some ew1
             ∧ length ew1 = nEdges net
             ∧ (∀ k, k < fni net i → nth k ew1 0%Q = nth k ew0 0%Q)
             ∧ (∀ k, fni net i ≤ k < fni net (i + 1) →
                     (nth k ew1 0 == fractionalization net i k)%Q).
    Proof.
      intros Hi Hlen.
      pose (P := λ (m : nat) (s : list Q),
        length s = nEdges net
        ∧ (∀ k, k < fni net i → nth k s 0%Q = nth k ew0 0%Q)
        ∧ (∀ k, fni net i ≤ k < m →
                (nth k s 0 == fractionalization net i k)%Q)).
      unfold fractionalize_inner.
      apply (for_range_total P); [by apply slice_le| |].
      - split; [done|]. split; [done|]. intros; lia.
      - intros k s Hk (Hl & Hlo & Hval).
        assert (k < nEdges net) by (apply (slice_lt net Hwf i); lia).
        assert (nbr net k < nNodes net) by by apply (wf_neighbors_range _ Hwf).
        rewrite (ew_lookup net Hwf), (nw_lookup net Hwf),
          (nbr_lookup net Hwf) by done. simpl.
        rewrite (nw_lookup net Hwf) by done. simpl.
        pose proof (Hpos i Hi) as Hni.
        pose proof (Hpos (nbr net k) ltac:(done)) as Hnj.
        set (n := inject_Z (Z.of_nat (nNodes net))).
        assert (0 < n)%Q as Hn.
        { unfold n, Qlt, inject_Z. simpl. lia. }
        rewrite !qdiv_Some by lra. simpl.
        assert (0 < n / nw net i)%Q as Hx by (apply Qlt_shift_div_l; lra).
        assert (0 < n / nw net (nbr net k))%Q as Hy
          by (apply Qlt_shift_div_l; lra).
        rewrite qdiv_Some by lra. simpl.
        assert (0 < 2 / (n / nw net i + n / nw net (nbr net k)))%Q as Hd
          by (apply Qlt_shift_div_l; lra).
        rewrite qdiv_Some by lra. simpl.
        rewrite aset_lt by lia. eexists; split; [done|].
        split; [by rewrite length_insert|]. split.
        + intros k' Hk'. rewrite nth_insert_ne by lia. by apply Hlo.
        + intros k' Hk'. destruct (decide (k' = k)) as [->|].
          * rewrite nth_insert_eq by lia. unfold fractionalization.
            fold n. field. split; [lra|]. split; [lra|nra].
          * rewrite nth_insert_ne by lia. apply Hval. lia.
    Qed.

Lemma fractionalize_loop_value :
      ∃ ew1, fractionalize_loop net = Some ew1
             ∧ length ew1 = nEdges net
             ∧ ∀ i k, i < nNodes net → fni net i ≤ k < fni net (i + 1) →
                      (nth k ew1 0 == fractionalization net i k)%Q.
    Proof.
      pose (P := λ (m : nat) (s : list Q),
        length s = nEdges net
        ∧ ∀ i k, i < m → fni net i ≤ k < fni net (i + 1) →
                 (nth k s 0 == fractionalization net i k)%Q).
      unfold fractionalize_loop.
      apply (for_range_total P); [lia| |].
      - split; [by rewrite length_replicate|]. intros; lia.
      - intros i s Hi [Hl Hval].
        rewrite (fni_lookup net Hwf i), (fni_lookup net Hwf (i + 1)) by lia.
        simpl.
        destruct (fractionalize_inner_value i s ltac:(lia) Hl)
          as (s' & Hrun & Hl' & Hlo & Hnew).
        exists s'. split; [done|]. split; [done|].
        intros i' k Hi' Hk. destruct (decide (i' = i)) as [->|].
        + by apply Hnew.
        + assert (fni net (i' + 1) ≤ fni net i)
            by (apply (fni_mono net Hwf); lia).
          rewrite Hlo by lia. apply Hval; [lia|done].
    Qed.
End Fractionalize.

End WeightFacts.

Import Network NetworkFacts NormalizeFacts WeightFacts.

(** On a well-formed network [getTotalEdgeWeightPerNode] returns for every
    node the sum of the weights of its edges, and these sums add up to twice
    [getTotalEdgeWeight()]. *)
Theorem totalEdgeWeightPerNode_sums (net : Network.t) :
  wf net →
  ∃ perNode,
    Network.getTotalEdgeWeightPerNode net = Some perNode
    ∧ length perNode = Network.nNodes net
    ∧ (∀ i, i < Network.nNodes net →
            (nth i perNode 0 == sumR (ew net) (fni net i) (fni net (i + 1)))%Q)
    ∧ (calcSum perNode == 2 * Network.getTotalEdgeWeight net)%Q.
Proof.
  intros Hwf. destruct (perNode_value net Hwf) as (perNode & Hrun & Hl & Hv).
  exists perNode. split; [done|]. split; [done|]. split; [done|].
  by apply perNode_total.
Qed.

Lemma totalEdgeWeightPerNode_sums_witness :
  ∃ perNode,
    Network.getTotalEdgeWeightPerNode triangle_pair = Some perNode
    ∧ length perNode = 6
    ∧ (∀ i, i < 6 →
            (nth i perNode 0
             == sumR (ew triangle_pair) (fni triangle_pair i)
                  (fni triangle_pair (i + 1)))%Q)
    ∧ (calcSum perNode == 2 * Network.getTotalEdgeWeight triangle_pair)%Q.
Proof. exact (totalEdgeWeightPerNode_sums triangle_pair triangle_pair_wf). Defined.

(** The network without edge weights of a well-formed network is well
    formed, its total edge weight is [getNEdges()], the number of edges, and
    its total edge weight per node is the number of neighbours of the node. *)
Theorem networkWithoutEdgeWeights_counts (net : Network.t) :
  wf net →
  wf (Network.createNetworkWithoutEdgeWeights net)
  ∧ (Network.getTotalEdgeWeight (Network.createNetworkWithoutEdgeWeights net)
     == Network.getNEdges net)%Q
  ∧ ∃ perNode,
      Network.getTotalEdgeWeightPerNode
        (Network.createNetworkWithoutEdgeWeights net) = Some perNode
      ∧ ∀ i, i < Network.nNodes net →
             (nth i perNode 0
              == inject_Z (Z.of_nat (fni net (i + 1) - fni net i)))%Q.
Proof.
  intros Hwf. pose proof (withoutEdgeWeights_wf net Hwf) as Hwf'.
  split; [done|]. split.
  - unfold Network.getTotalEdgeWeight, Network.getNEdges.
    cbn [Network.createNetworkWithoutEdgeWeights Network.edgeWeights].
    by rewrite calcSum_ones.
  - destruct (perNode_value _ Hwf') as (perNode & Hrun & Hl & Hv).
    exists perNode. split; [done|]. intros i Hi. rewrite (Hv i Hi).
    change (fni (Network.createNetworkWithoutEdgeWeights net)) with (fni net).
    unfold sumR. rewrite <- sumN_ones. apply sumN_ext. intros k Hk.
    unfold ew. cbn [Network.createNetworkWithoutEdgeWeights Network.edgeWeights].
    rewrite nth_replicate_lt; [reflexivity|].
    pose proof (fni_le_nEdges net Hwf (i + 1) ltac:(lia)). lia.
Qed.

Lemma networkWithoutEdgeWeights_counts_witness :
  wf (Network.createNetworkWithoutEdgeWeights triangle_pair)
  ∧ (Network.getTotalEdgeWeight
       (Network.createNetworkWithoutEdgeWeights triangle_pair)
     == Network.getNEdges triangle_pair)%Q
  ∧ ∃ perNode,
      Network.getTotalEdgeWeightPerNode
        (Network.createNetworkWithoutEdgeWeights triangle_pair) = Some perNode
      ∧ ∀ i, i < 6 →
             (nth i perNode 0
              == inject_Z (Z.of_nat (fni triangle_pair (i + 1)
                                     - fni triangle_pair i)))%Q.
Proof.
  exact (networkWithoutEdgeWeights_counts triangle_pair triangle_pair_wf).
Defined.

(** On a well-formed network whose node weights are strictly positive the
    normalisation by fractionalization keeps the node and edge counts, the
    offsets and the neighbours, replaces the weight [w_ij] of every edge by
    [w_ij * (n / n_i + n / n_j) / 2] with [n] the number of nodes, sets every
    node weight to 1 and the self-link weight to 0. *)
Theorem fractionalized_network (net : Network.t) :
  wf net → positive_nodes net →
  ∃ net',
    Network.createNormalizedNetworkUsingFractionalization net = Some net'
    ∧ Network.nNodes net' = Network.nNodes net
    ∧ Network.nEdges net' = Network.nEdges net
    ∧ Network.firstNeighborIndices net' = Network.firstNeighborIndices net
    ∧ Network.neighbors net' = Network.neighbors net
    ∧ length (Network.edgeWeights net') = Network.nEdges net
    ∧ (∀ i k, i < Network.nNodes net → fni net i ≤ k < fni net (i + 1) →
              (ew net' k == fractionalization net i k)%Q)
    ∧ Network.nodeWeights net' = replicate (Network.nNodes net) 1%Q
    ∧ Network.totalEdgeWeightSelfLinks net' = 0%Q.
Proof.
  intros Hwf Hpos. rewrite createFractionalized_unfold.
  destruct (fractionalize_loop_value net Hwf Hpos) as (ew1 & -> & Hlen & Hval).
  simpl. eexists; split; [done|]. simpl.
  repeat (split; [done|]). done.
Qed.

Lemma fractionalized_network_witness :
  ∃ net',
    Network.createNormalizedNetworkUsingFractionalization triangle_pair
    = Some net'
    ∧ Network.nNodes net' = 6
    ∧ Network.nEdges net' = 14
    ∧ Network.firstNeighborIndices net'
      = Network.firstNeighborIndices triangle_pair
    ∧ Network.neighbors net' = Network.neighbors triangle_pair
    ∧ length (Network.edgeWeights net') = 14
    ∧ (∀ i k, i < 6 → fni triangle_pair i ≤ k < fni triangle_pair (i + 1) →
              (ew net' k == fractionalization triangle_pair i k)%Q)
    ∧ Network.nodeWeights net' = replicate 6 1%Q
    ∧ Network.totalEdgeWeightSelfLinks net' = 0%Q.
Proof.
  exact (fractionalized_network triangle_pair triangle_pair_wf
           triangle_pair_positive).
Defined.

Import NetworkFacts ClusteringFacts QualityFacts CPMFacts.

(** * What the clustering algorithms return *)

(** Every id below [nClusters] is the cluster of a node. *)
Definition no_empty_cluster (c : Clustering.t) : Prop :=
  ∀ v, v < Clustering.nClusters c → ∃ i, i < Clustering.nNodes c ∧ cl c i = v.

Module FlagFacts.
Import LocalMoving ClusteringOps MergingFacts CompactionFacts.

  (** ** A visit that keeps the node in its cluster changes no cluster *)








Section Flag.
Context (net : Network.t) (resolution : Q).
Local Abbreviation n := (Network.nNodes net).





End Flag.

  (** ** Local merging *)

Lemma singleton_no_empty_cluster m :
    no_empty_cluster (Clustering.initializeBasedOnNNodes m).
  Proof.
    intros v Hv. exists v. split; [done|]. unfold cl, cid. cbn.
    by apply seq_nth.
  Qed.

Lemma findClustering_compact {rng} (R : Random rng)
      (p : LocalMergingAlgorithm.params) net random cs random' :
    LocalMergingAlgorithm.findClustering R p net random = Some (cs, random') →
    no_empty_cluster cs.
  Proof.
    unfold LocalMergingAlgorithm.findClustering. intros Hrun.
    case_decide.
    { simplify_eq. apply singleton_no_empty_cluster. }
    bind_inv Hrun. destruct x0 as [order random1].
    cbv beta iota zeta in Hrun.
    bind_inv Hrun. destruct x0 as [s random2]. cbv beta iota zeta in Hrun.
    destruct (generateRandomPermutation_ids _ _ _ _ _ E0) as [Hol Hof].
    assert (kept net s) as [Hlen Hupd].
    { pose (P := λ (_ : nat) (st : LocalMergingAlgorithm.state * rng),
               kept net st.1).
      apply (for_range_partial P _ _ _ _ _ E1); [lia| |].
      - unfold P, kept. cbn. rewrite length_seq. done.
      - intros i [s1 r1] [s2 r2] Hi Hk Hbody. unfold P in *. cbn [fst] in *.
        apply bind_Some in Hbody as (j & Ej & Hbody).
        pose proof (Forall_lookup_1 _ _ _ _ Hof Ej) as Hx. cbv beta in Hx.
        by eapply visit_kept. }
    destruct (LocalMergingAlgorithm.update s) eqn:Hu.
    - apply bind_Some in Hrun as (cs' & Ecs & Hrun). simplify_eq.
      assert (sized (Clustering.mk (LocalMergingAlgorithm.clusters s)
                       (Network.nNodes net) (Network.nNodes net))) as Hs
        by done.
      destruct (removeEmptyClusters_partial _ _ Ecs Hs) as (_ & _ & Hn').
      intros v Hv. destruct (removeEmptyClusters_onto _ _ Ecs Hs v Hv)
        as (i & Hi & Hcl).
      exists i. split; [|done]. by rewrite Hn'.
    - simplify_eq. rewrite Hupd by done. apply singleton_no_empty_cluster.
  Qed.

  (** ** The initial clustering of the reduced network *)

Lemma clusteringReducedNetwork_value net (c r : Clustering.t) :
    sized r → ranged r → Clustering.nNodes r = Network.nNodes net →
    Network.nNodes net ≤ length (Clustering.clusters c) →
    (∀ i j, i < Network.nNodes net → j < Network.nNodes net →
            cl r i = cl r j → cl c i = cl c j) →
    ∃ crn, LeidenAlgorithm.clusteringReducedNetwork net c r = Some crn
           ∧ Clustering.nNodes crn = Clustering.nClusters r
           ∧ Clustering.nClusters crn = Clustering.nClusters c
           ∧ length (Clustering.clusters crn) = Clustering.nClusters r
           ∧ ∀ i, i < Network.nNodes net → cl crn (cl r i) = cl c i.
  Proof.
    intros Hs Hr Hn Hc Href. unfold LeidenAlgorithm.clusteringReducedNetwork.
    pose (P := λ (m : nat) (cls : list nat),
      length cls = Clustering.nClusters r
      ∧ ∀ i, i < m → cid cls (cl r i) = cl c i).
    destruct (for_range_total P
      (λ i cls,
         ri ← aget (Clustering.clusters r) i;
         ci ← aget (Clustering.clusters c) i;
         aset cls ri ci)
      0 (Network.nNodes net)
      (Clustering.clusters
         (Clustering.initializeBasedOnNNodes (Clustering.nClusters r))))
      as (cls & Hrun & Hl & Hv); [lia| | |].
    - split; [cbn; by rewrite length_seq|]. intros; lia.
    - intros i cls Hi [Hl Hv].
      assert (cl r i < Clustering.nClusters r) as Hri.
      { unfold ranged in Hr. rewrite Forall_forall in Hr. apply Hr.
        apply list_elem_of_lookup. exists i. apply lookup_nth.
        unfold sized in Hs. lia. }
      rewrite (cid_lookup (Clustering.clusters r) i)
        by (unfold sized in Hs; lia).
      cbn [mbind option_bind].
      rewrite (cid_lookup (Clustering.clusters c) i) by lia.
      cbn [mbind option_bind]. fold (cl r i). fold (cl c i).
      rewrite aset_lt by lia. eexists. split; [done|].
      split; [by rewrite length_insert|]. intros i' Hi'.
      destruct (decide (cl r i' = cl r i)) as [Heq|Hne].
      + rewrite Heq, cid_insert_eq by lia. symmetry. apply Href; [lia..|done].
      + rewrite cid_insert_ne by done. apply Hv.
        assert (i' ≠ i) by (intros ->; done). lia.
    - rewrite Hrun. cbn [mbind option_bind]. eexists. split; [done|].
      cbn. split; [done|]. split; [done|]. split; [done|]. exact Hv.
  Qed.

  (** ** Node weights of the subnetworks *)

Lemma createSubnetwork_nodes net c cluster nodes sc sub sc' :
    Network.createSubnetwork net c cluster nodes sc = Some (sub, sc') →
    Network.nNodes sub = length nodes
    ∧ Network.totalEdgeWeightSelfLinks sub = 0%Q
    ∧ length (Network.nodeWeights sub) = length nodes
    ∧ ∀ k node, nodes !! k = Some node →
                Network.nodeWeights sub !! k = Network.nodeWeights net !! node.
  Proof.
    unfold Network.createSubnetwork. intros Hrun. case_decide as H1.
    - apply bind_Some in Hrun as (n0 & Hn0 & Hrun).
      apply bind_Some in Hrun as (w0 & Hw0 & Hrun). simplify_eq. cbn.
      split; [done|]. split; [done|]. split; [done|].
      intros k node Hk. destruct k as [|k].
      + unfold aget in Hn0. by simplify_eq.
      + apply lookup_lt_Some in Hk. lia.
    - apply bind_Some in Hrun as (sn & _ & Hrun).
      apply bind_Some in Hrun as ([[[[nE nw] fni] snb] sew] & Hloop & Hrun).
      cbv beta iota zeta in Hrun. simplify_eq. cbn.
      split; [done|]. split; [done|].
      pose (P := λ (i : nat)
                   (st : nat * list Q * list nat * list nat * list Q),
        length st.1.1.1.2 = length nodes
        ∧ ∀ k node, k < i → nodes !! k = Some node →
                    st.1.1.1.2 !! k = Network.nodeWeights net !! node).
      assert (P (length nodes) (nE, nw, fni, snb, sew)) as [Hl Hv].
      { apply (for_range_partial P _ _ _ _ _ Hloop); [lia| |].
        - split; [cbn; by rewrite length_replicate|]. intros; lia.
        - intros i [[[[nE1 nw1] fni1] snb1] sew1] [[[[nE2 nw2] fni2] snb2] sew2]
            Hi [Hl Hv] Hbody. cbn [fst snd] in *.
          apply bind_Some in Hbody as (j & Hj & Hbody).
          apply bind_Some in Hbody as (wj & Hwj & Hbody).
          apply bind_Some in Hbody as (nw' & Hnw' & Hbody).
          apply bind_Some in Hbody as (b & _ & Hbody).
          apply bind_Some in Hbody as (e & _ & Hbody).
          apply bind_Some in Hbody as ([[nE3 snb3] sew3] & _ & Hbody).
          cbv beta iota zeta in Hbody.
          apply bind_Some in Hbody as (fni3 & _ & Hbody). simplify_eq.
          rewrite aset_lt in Hnw' by lia. simplify_eq.
          unfold P. cbn [fst snd]. split; [by rewrite length_insert|].
          intros k node Hk Hnode. destruct (decide (k = i)) as [->|Hne].
          + rewrite list_lookup_insert_eq by lia.
            unfold aget in *. by simplify_eq.
          + rewrite list_lookup_insert_ne by done. apply Hv; [lia|done]. }
      cbn [fst snd] in *. split; [done|]. intros k node Hk.
      apply Hv; [|done]. by eapply lookup_lt_Some.
  Qed.

Lemma createSubnetworks_nodes net c subs npc :
    Network.createSubnetworks net c = Some subs →
    Clustering.getNodesPerCluster c = Some npc →
    length subs = Clustering.nClusters c
    ∧ ∀ i sub, subs !! i = Some sub →
        ∃ nodes, npc !! i = Some nodes
          ∧ Network.nNodes sub = length nodes
          ∧ Network.totalEdgeWeightSelfLinks sub = 0%Q
          ∧ length (Network.nodeWeights sub) = length nodes
          ∧ ∀ k node, nodes !! k = Some node →
              Network.nodeWeights sub !! k = Network.nodeWeights net !! node.
  Proof.
    unfold Network.createSubnetworks. intros Hrun Hnpc. rewrite Hnpc in Hrun.
    cbn [mbind option_bind] in Hrun.
    apply bind_Some in Hrun as ([subs' sc] & Hloop & Hrun).
    cbv beta iota zeta in Hrun. simplify_eq.
    pose (P := λ (i : nat) (s : list Network.t * Network.scratch),
      length s.1 = i
      ∧ ∀ k sub, s.1 !! k = Some sub →
          ∃ nodes, npc !! k = Some nodes
            ∧ Network.nNodes sub = length nodes
            ∧ Network.totalEdgeWeightSelfLinks sub = 0%Q
            ∧ length (Network.nodeWeights sub) = length nodes
            ∧ ∀ j node, nodes !! j = Some node →
                Network.nodeWeights sub !! j = Network.nodeWeights net !! node).
    assert (P (Clustering.nClusters c) (subs, sc)) as [? ?]; [|done].
    apply (for_range_partial P _ _ _ _ _ Hloop); [lia| |].
    - split; [done|]. intros k sub Hk. cbn [fst] in Hk. done.
    - intros i [l sc1] [l' sc2] Hi [Hlen Hall] Hbody. cbn [fst] in *.
      apply bind_Some in Hbody as (nodes & Hnodes & Hbody).
      apply bind_Some in Hbody as ([sub sc3] & Hsub & Hbody).
      cbv beta iota zeta in Hbody.
      apply bind_Some in Hbody as (l2 & Hset & Hbody). simplify_eq.
      apply createSubnetwork_nodes in Hsub.
      apply aset_inv in Hset as [[Hlt ->]|[_ ->]]; [lia|].
      unfold P. cbn [fst]. rewrite length_app. simpl. split; [lia|].
      intros k sub' Hk. apply lookup_snoc_Some in Hk as [[Hk1 Hk2]|[-> <-]].
      + by apply Hall.
      + by exists nodes.
  Qed.

End FlagFacts.

Import ClusteringOps MembersFacts CompactionFacts MergingFacts FlagFacts.



(** The clustering that [findClustering] of the local merging algorithm
    returns has one entry per node of the network, every id below
    [nClusters], and no empty cluster. *)
Theorem local_merging_clustering {rng} (R : Random rng)
    (p : LocalMergingAlgorithm.params) (net : Network.t) (random : rng)
    (cs : Clustering.t) (random' : rng) :
  LocalMergingAlgorithm.findClustering R p net random = Some (cs, random') →
  sized cs ∧ ranged cs ∧ Clustering.nNodes cs = Network.nNodes net
  ∧ no_empty_cluster cs.
Proof.
  intros Hrun.
  destruct (findClustering_ranged R p net random cs random' Hrun)
    as (Hr & Hs & Hn).
  split; [done|]. split; [done|]. split; [done|].
  by apply (findClustering_compact R p net random cs random').
Qed.

(** Two nodes of weight 1 joined by an edge of weight 1. *)
Definition edge_pair : Network.t :=
  Network.mk 2 [1; 1]%Q [0; 1; 2] [1; 0] [1; 1]%Q 0%Q 2.

Lemma local_merging_clustering_witness :
  sized (Clustering.mk [0; 1] 2 2) ∧ ranged (Clustering.mk [0; 1] 2 2)
  ∧ Clustering.nNodes (Clustering.mk [0; 1] 2 2) = Network.nNodes edge_pair
  ∧ no_empty_cluster (Clustering.mk [0; 1] 2 2).
Proof.
  apply (local_merging_clustering counter_random
           (LocalMergingAlgorithm.mkParams 1 1 (λ _, false)) edge_pair 0
           (Clustering.mk [0; 1] 2 2) 4).
  vm_compute. reflexivity.
Defined.

(** The Leiden algorithm starts the recursive call on the reduced network
    from the clustering that puts every refined cluster into the cluster of
    its nodes.  When the refinement has one entry per node, ids below its
    [nClusters], and gives equal ids only to nodes of the same cluster, this
    clustering has one node per refined cluster, and merging the refinement
    with it gives back the clustering that was refined. *)
Theorem leiden_aggregation_merges_back (net : Network.t)
    (clustering refinement : Clustering.t) :
  sized clustering → Clustering.nNodes clustering = Network.nNodes net →
  sized refinement → ranged refinement →
  Clustering.nNodes refinement = Network.nNodes net →
  (∀ i j, i < Network.nNodes net → j < Network.nNodes net →
          cl refinement i = cl refinement j → cl clustering i = cl clustering j) →
  ∃ clusteringReducedNetwork,
    LeidenAlgorithm.clusteringReducedNetwork net clustering refinement
    = Some clusteringReducedNetwork
    ∧ Clustering.nNodes clusteringReducedNetwork
      = Clustering.nClusters refinement
    ∧ length (Clustering.clusters clusteringReducedNetwork)
      = Clustering.nClusters refinement
    ∧ Clustering.nClusters clusteringReducedNetwork
      = Clustering.nClusters clustering
    ∧ (∀ i, i < Network.nNodes net →
            cl clusteringReducedNetwork (cl refinement i) = cl clustering i)
    ∧ Clustering.mergeClusters refinement clusteringReducedNetwork
      = Some clustering.
Proof.
  intros Hsc Hnc Hsr Hrr Hnr Href.
  destruct (clusteringReducedNetwork_value net clustering refinement Hsr Hrr Hnr)
    as (crn & Hrun & Hn & HnC & Hl & Hv); [unfold sized in Hsc; lia|done|].
  exists crn. split; [done|]. split; [done|]. split; [done|]. split; [done|].
  split; [done|].
  destruct (mergeClusters_total refinement crn Hsr Hrr ltac:(lia))
    as [c' Hmerge].
  rewrite Hmerge. f_equal.
  destruct (mergeClusters_value _ _ _ Hmerge Hsr) as (H1 & H2 & H3 & H4).
  destruct clustering as [cls nC nN], c' as [cls' nC' nN'].
  unfold sized in Hsc. cbn in *. subst. f_equal; [|congruence..].
  apply (nth_ext _ _ 0 0); [lia|]. intros i Hi.
  specialize (H4 i ltac:(lia)). unfold cl at 1, cid in H4. cbn in H4.
  rewrite H4. apply Hv. lia.
Qed.

Lemma leiden_aggregation_merges_back_witness :
  ∃ clusteringReducedNetwork,
    LeidenAlgorithm.clusteringReducedNetwork triangle_pair alternating
      (Clustering.mk [0; 2; 0; 3; 1; 3] 4 6)
    = Some clusteringReducedNetwork
    ∧ Clustering.nNodes clusteringReducedNetwork = 4
    ∧ length (Clustering.clusters clusteringReducedNetwork) = 4
    ∧ Clustering.nClusters clusteringReducedNetwork = 2
    ∧ (∀ i, i < 6 →
            cl clusteringReducedNetwork
              (cl (Clustering.mk [0; 2; 0; 3; 1; 3] 4 6) i)
            = cl alternating i)
    ∧ Clustering.mergeClusters (Clustering.mk [0; 2; 0; 3; 1; 3] 4 6)
        clusteringReducedNetwork
      = Some alternating.
Proof.
  apply (leiden_aggregation_merges_back triangle_pair alternating
           (Clustering.mk [0; 2; 0; 3; 1; 3] 4 6)); try reflexivity.
  - unfold ranged. simpl. repeat constructor; lia.
  - intros i j Hi Hj. simpl in Hi, Hj.
    do 6 (destruct i as [|i];
          [do 6 (destruct j as [|j]; [vm_compute; congruence|]); lia|]).
    lia.
Defined.

(** [createSubnetworks] on a clustering with one entry per node and ids
    below [nClusters], when it returns: there is one subnetwork per cluster;
    subnetwork [i] has one node for every node of cluster [i], taken in
    increasing order, with the weight of that node, and no self-link
    weight. *)
Theorem createSubnetworks_nodes_of_clusters (net : Network.t)
    (c : Clustering.t) (subnetworks : list Network.t) :
  sized c → ranged c →
  Network.createSubnetworks net c = Some subnetworks →
  length subnetworks = Clustering.nClusters c
  ∧ ∀ i sub, subnetworks !! i = Some sub →
      let nodes := filter (λ v, cl c v = i) (seq 0 (Clustering.nNodes c)) in
      Network.nNodes sub = length nodes
      ∧ Network.totalEdgeWeightSelfLinks sub = 0%Q
      ∧ length (Network.nodeWeights sub) = length nodes
      ∧ ∀ k node, nodes !! k = Some node →
          Network.nodeWeights sub !! k = Network.nodeWeights net !! node.
Proof.
  intros Hs Hr Hrun.
  destruct (getNodesPerCluster_value c Hs Hr) as (npc & Hnpc & Hl & Hrows).
  destruct (createSubnetworks_nodes net c subnetworks npc Hrun Hnpc)
    as [Hlen Hall].
  split; [done|]. intros i sub Hsub.
  destruct (Hall i sub Hsub) as (nodes & Hnodes & H).
  assert (i < Clustering.nClusters c) as Hi
    by (rewrite <- Hlen; by eapply lookup_lt_Some).
  rewrite (Hrows i Hi) in Hnodes. by simplify_eq.
Qed.

Lemma createSubnetworks_nodes_of_clusters_witness :
  ∃ subnetworks,
    Network.createSubnetworks triangle_pair two_triangles = Some subnetworks
    ∧ length subnetworks = 2
    ∧ ∀ i sub, subnetworks !! i = Some sub →
        let nodes := filter (λ v, cl two_triangles v = i) (seq 0 6) in
        Network.nNodes sub = length nodes
        ∧ Network.totalEdgeWeightSelfLinks sub = 0%Q
        ∧ length (Network.nodeWeights sub) = length nodes
        ∧ ∀ k node, nodes !! k = Some node →
            Network.nodeWeights sub !! k
            = Network.nodeWeights triangle_pair !! node.
Proof.
  eexists. split; [vm_compute; reflexivity|].
  apply (createSubnetworks_nodes_of_clusters triangle_pair two_triangles).
  - reflexivity.
  - unfold ranged. simpl. repeat constructor; lia.
  - vm_compute. reflexivity.
Defined.

Import NetworkFacts ClusteringFacts QualityFacts CPMFacts.
Import ClusteringOps CountingFacts LocalMovingFacts FlagFacts.

(** * The range invariant of a clustering *)



Import NetworkFacts ClusteringFacts QualityFacts CPMFacts.

(** * CPMClusteringAlgorithm.ts: what the quality depends on *)

Module BoundFacts.
Import ClusteringOps MoveFacts RunFacts.

Section Bound.
Context (net : Network.t) (Hwf : wf net) (resolution : Q).
Local Abbreviation n := (Network.nNodes net).

Lemma pairSum_partition (cls cls' : list nat) :
      (∀ i j, i < n → j < n → cid cls i = cid cls j ↔ cid cls' i = cid cls' j) →
      (pairSum net resolution cls == pairSum net resolution cls')%Q.
    Proof.
      intros Hsame. unfold pairSum. apply sumN_ext. intros i Hi.
      apply sumN_ext. intros j Hj. specialize (Hsame i j Hi Hj).
      repeat case_decide; tauto || reflexivity.
    Qed.

Lemma quality_partition c c' :
      clustering_of net c → clustering_of net c' →
      ¬ (cpm_denominator net == 0)%Q →
      (∀ i j, i < n → j < n → cl c i = cl c j ↔ cl c' i = cl c' j) →
      ∃ q q', CPMClusteringAlgorithm.calcQuality resolution net c = Some q
              ∧ CPMClusteringAlgorithm.calcQuality resolution net c' = Some q'
              ∧ (q == q')%Q.
    Proof.
      intros Hc Hc' Hden Hsame.
      destruct (proj1 (calcQuality_value net c Hwf Hc resolution) Hden)
        as (q & Hq & Hqv).
      destruct (proj1 (calcQuality_value net c' Hwf Hc' resolution) Hden)
        as (q' & Hq' & Hqv').
      exists q, q'. split; [done|]. split; [done|].
      rewrite Hqv, Hqv'. unfold cpm_quality.
      rewrite (numerator_pairSum net resolution c Hc).
      rewrite (numerator_pairSum net resolution c' Hc').
      by rewrite (pairSum_partition _ _ Hsame).
    Qed.

Lemma adj_nonneg i j :
      nonneg_edges net → i < n → (0 <= adj net i j)%Q.
    Proof.
      intros Hnn Hi. unfold adj. apply sumR_nonneg. intros k Hk.
      case_decide; [|lra]. apply Hnn. apply (slice_lt net Hwf i); lia.
    Qed.

Lemma numerator_le_denominator c :
      nonneg_edges net → (0 <= resolution)%Q →
      (cpm_numerator resolution net c <= cpm_denominator net)%Q.
    Proof.
      intros Hnn Hres. unfold cpm_numerator, cpm_denominator, totalUndirected.
      set (A := sumN (λ i, sumN (λ j, if decide (cl c i = cl c j)
                                      then adj net i j else 0%Q) n) n).
      set (B := sumN (λ i, sumN (λ j, adj net i j) n) n).
      set (C := sumN (λ k, clusterWeight net c k * clusterWeight net c k)%Q
                  (Clustering.nClusters c)).
      assert (A <= B)%Q as Hle.
      { apply sumN_le. intros i Hi. apply sumN_le. intros j Hj.
        pose proof (adj_nonneg i j Hnn Hi). case_decide; lra. }
      assert (0 <= C)%Q as Hsq.
      { apply sumN_nonneg. intros k Hk. nra. }
      assert (2 * (B / 2) == B)%Q as HB by field.
      assert (0 <= resolution * C)%Q as HC by nra. lra.
    Qed.

Lemma quality_at_most_one c :
      clustering_of net c → nonneg_edges net → (0 <= resolution)%Q →
      (0 < cpm_denominator net)%Q →
      ∃ q, CPMClusteringAlgorithm.calcQuality resolution net c = Some q
           ∧ (q <= 1)%Q.
    Proof.
      intros Hc Hnn Hres Hden.
      assert (¬ (cpm_denominator net == 0)%Q) as Hnz by lra.
      destruct (proj1 (calcQuality_value net c Hwf Hc resolution) Hnz)
        as (q & Hq & Hqv).
      exists q. split; [done|]. rewrite Hqv. unfold cpm_quality.
      apply Qle_shift_div_r; [done|].
      pose proof (numerator_le_denominator c Hnn Hres). lra.
    Qed.
End Bound.

End BoundFacts.

Import ClusteringOps RunFacts BoundFacts.

(** [calcQuality] depends on the partition only: two clusterings of the
    nodes of a well-formed network that put the same pairs of nodes together
    have the same quality, whatever ids they use. *)
Theorem calcQuality_partition_invariant (resolution : Q) (net : Network.t)
    (c c' : Clustering.t) :
  wf net → clustering_of net c → clustering_of net c' →
  ¬ (cpm_denominator net == 0)%Q →
  (∀ i j, i < Network.nNodes net → j < Network.nNodes net →
          cl c i = cl c j ↔ cl c' i = cl c' j) →
  ∃ q q', CPMClusteringAlgorithm.calcQuality resolution net c = Some q
          ∧ CPMClusteringAlgorithm.calcQuality resolution net c' = Some q'
          ∧ (q == q')%Q.
Proof. intros Hwf. by apply quality_partition. Qed.

Lemma calcQuality_partition_invariant_witness :
  ∃ q q', CPMClusteringAlgorithm.calcQuality (1 # 5) triangle_pair two_triangles
          = Some q
          ∧ CPMClusteringAlgorithm.calcQuality (1 # 5) triangle_pair
              (Clustering.mk [4; 4; 4; 2; 2; 2] 5 6) = Some q'
          ∧ (q == q')%Q.
Proof.
  apply (calcQuality_partition_invariant (1 # 5) triangle_pair two_triangles
           (Clustering.mk [4; 4; 4; 2; 2; 2] 5 6) triangle_pair_wf
           two_triangles_clustering).
  - constructor; [reflexivity..|]. unfold ranged. simpl.
    repeat constructor; lia.
  - vm_compute. congruence.
  - intros i j Hi Hj. simpl in Hi, Hj.
    do 6 (destruct i as [|i];
          [do 6 (destruct j as [|j]; [vm_compute; split; congruence|]); lia|]).
    lia.
Defined.

(** [removeEmptyClusters] does not change the quality of a clustering. *)
Theorem removeEmptyClusters_keeps_quality (resolution : Q) (net : Network.t)
    (c : Clustering.t) :
  wf net → clustering_of net c → ¬ (cpm_denominator net == 0)%Q →
  ∃ c' q q',
    Clustering.removeEmptyClusters c = Some c'
    ∧ CPMClusteringAlgorithm.calcQuality resolution net c = Some q
    ∧ CPMClusteringAlgorithm.calcQuality resolution net c' = Some q'
    ∧ (q == q')%Q.
Proof.
  intros Hwf Hc Hden. pose proof Hc as [Hl Hn Hr].
  assert (sized c) as Hs by (unfold sized; lia).
  destruct (removeEmptyClusters_total c Hs Hr) as [c' Hrun].
  destruct (removeEmptyClusters_partial c c' Hrun Hs) as (Hr' & Hs' & Hn').
  assert (clustering_of net c') as Hc'.
  { constructor; [unfold sized in Hs'; lia|lia|done]. }
  destruct (quality_partition net Hwf resolution c c' Hc Hc' Hden)
    as (q & q' & Hq & Hq' & Heq).
  { intros i j Hi Hj. symmetry.
    apply (removeEmptyClusters_partition c c' Hrun Hs); lia. }
  by exists c', q, q'.
Qed.

Lemma removeEmptyClusters_keeps_quality_witness :
  ∃ c' q q',
    Clustering.removeEmptyClusters (Clustering.mk [4; 4; 4; 2; 2; 2] 5 6)
    = Some c'
    ∧ CPMClusteringAlgorithm.calcQuality (1 # 5) triangle_pair
        (Clustering.mk [4; 4; 4; 2; 2; 2] 5 6) = Some q
    ∧ CPMClusteringAlgorithm.calcQuality (1 # 5) triangle_pair c' = Some q'
    ∧ (q == q')%Q.
Proof.
  apply (removeEmptyClusters_keeps_quality (1 # 5) triangle_pair
           (Clustering.mk [4; 4; 4; 2; 2; 2] 5 6) triangle_pair_wf).
  - constructor; [reflexivity..|]. unfold ranged. simpl.
    repeat constructor; lia.
  - vm_compute. congruence.
Defined.

(** With edge weights that are not negative, a resolution that is not
    negative and [2W + S > 0], the quality of a clustering of the nodes of a
    well-formed network is at most 1. *)
Theorem calcQuality_at_most_one (resolution : Q) (net : Network.t)
    (c : Clustering.t) :
  wf net → clustering_of net c → nonneg_edges net → (0 <= resolution)%Q →
  (0 < cpm_denominator net)%Q →
  ∃ q, CPMClusteringAlgorithm.calcQuality resolution net c = Some q
       ∧ (q <= 1)%Q.
Proof. intros Hwf. by apply quality_at_most_one. Qed.

Lemma calcQuality_at_most_one_witness :
  ∃ q, CPMClusteringAlgorithm.calcQuality (1 # 5) triangle_pair two_triangles
       = Some q
       ∧ (q <= 1)%Q.
Proof.
  apply (calcQuality_at_most_one (1 # 5) triangle_pair two_triangles
           triangle_pair_wf two_triangles_clustering triangle_pair_nonneg).
  - vm_compute. congruence.
  - apply triangle_pair_denominator_pos.
Defined.

(** * network.ts: the networks that [checkIntegrity] accepts *)

Module AcceptFacts.
Import Network NetworkFacts Heap NetworkConstructor SearchFacts IntegrityFacts.

Lemma check_true (P : Prop) `{Decision P} : P → check (bool_decide P) = Some ().
  Proof. intros HP. by rewrite bool_decide_true. Qed.

Section Accept.
Context (net : t) (Hwf : wf net) (Hsorted : sorted_neighbors net).
Context (Hboth : both_directions net).
Context (Hsmall : (Z.of_nat (nEdges net) ≤ 2 ^ 31)%Z).

Lemma check_sorted_total : check_sorted net = Some ().
    Proof.
      unfold check_sorted.
      destruct (for_range_total (λ _ (_ : ()), True)
        (λ i (_ : ()),
           b ← aget (firstNeighborIndices net) i;
           e ← aget (firstNeighborIndices net) (i + 1);
           _ ← check (bool_decide (b ≤ e));
           for_range b e
             (λ j (_ : ()),
                k ← aget (neighbors net) j;
                _ ← check (bool_decide (k < nNodes net));
                if decide (b < j) then
                  l ← aget (neighbors net) (j - 1);
                  check (bool_decide (l < k))
                else Some ())
             ())
        0 (nNodes net) ()) as ([] & Hrun & _); [lia|done| |done].
      intros i [] Hi _.
      rewrite (fni_lookup net Hwf i), (fni_lookup net Hwf (i + 1)) by lia.
      cbn [mbind option_bind].
      rewrite check_true by (apply (wf_fni_mono _ Hwf); lia).
      cbn [mbind option_bind].
      destruct (for_range_total (λ _ (_ : ()), True)
        (λ j (_ : ()),
           k ← aget (neighbors net) j;
           _ ← check (bool_decide (k < nNodes net));
           if decide (fni net i < j) then
             l ← aget (neighbors net) (j - 1);
             check (bool_decide (l < k))
           else Some ())
        (fni net i) (fni net (i + 1)) ()) as ([] & Hrun & _);
        [apply (wf_fni_mono _ Hwf); lia|done| |by exists ()].
      intros j [] Hj _.
      assert (j < nEdges net) as Hjn by (apply (slice_lt net Hwf i); lia).
      rewrite (nbr_lookup net Hwf j Hjn). cbn [mbind option_bind].
      rewrite check_true by by apply (wf_neighbors_range _ Hwf).
      cbn [mbind option_bind]. exists (). split; [|done].
      case_decide as Hlt; [|done].
      rewrite (nbr_lookup net Hwf (j - 1)) by lia. cbn [mbind option_bind].
      apply check_true. apply (Hsorted i); lia.
    Qed.

    (** In the slice of a node every neighbour stands once. *)
Lemma slice_injective i k k' :
      i < nNodes net → fni net i ≤ k < fni net (i + 1) →
      fni net i ≤ k' < fni net (i + 1) → nbr net k = nbr net k' → k = k'.
    Proof.
      intros Hi Hk Hk' Heq.
      destruct (decide (k = k')) as [|Hne]; [done|exfalso].
      destruct (decide (k < k')).
      - pose proof (Hsorted i k k' Hi ltac:(lia) ltac:(lia) ltac:(lia)). lia.
      - pose proof (Hsorted i k' k Hi ltac:(lia) ltac:(lia) ltac:(lia)). lia.
    Qed.

Lemma opposite_found i j :
      i < nNodes net → fni net i ≤ j < fni net (i + 1) →
      ∃ l, binarySearch (neighbors net) (fni net (nbr net j))
             (fni net (nbr net j + 1)) i = Some (Z.of_nat l)
           ∧ l < nEdges net ∧ (ew net j == ew net l)%Q.
    Proof.
      intros Hi Hj.
      assert (j < nEdges net) as Hjn by (apply (slice_lt net Hwf i); lia).
      pose proof (wf_neighbors_range _ Hwf j Hjn) as Hkn.
      destruct (Hboth i j Hi Hj) as (l0 & Hl0 & Hnl0 & Hw).
      destruct (binarySearch_result (neighbors net)
                  (fni net (nbr net j)) (fni net (nbr net j + 1)) i)
        as (r & Hr & Hfound).
      { apply (wf_fni_mono _ Hwf); lia. }
      { rewrite (wf_neighbors_length _ Hwf).
        apply (fni_le_nEdges net Hwf). lia. }
      { pose proof (fni_le_nEdges net Hwf (nbr net j + 1) ltac:(lia)). lia. }
      destruct Hfound as [(H0 & Hrange & Hval)|(p & -> & Hp & Hmiss)].
      - apply (lookup_nth_eq _ _ 0) in Hval.
        fold (nbr net (Z.to_nat r)) in Hval.
        assert (Z.to_nat r = l0) as Hl.
        { apply (slice_injective (nbr net j)); [done|lia|lia|congruence]. }
        exists l0. rewrite <- Hl, Z2Nat.id by done. split; [done|].
        split; [apply (slice_lt net Hwf (nbr net j)); lia|]. rewrite Hl.
        by symmetry.
      - exfalso. destruct Hmiss as [Hlo Hhi].
        { intros a b Ha Hab Hb. destruct (decide (a = b)) as [->|Hne]; [done|].
          pose proof (Hsorted (nbr net j) a b Hkn ltac:(lia) ltac:(lia)
                        ltac:(lia)) as Hlt.
          unfold nbr in Hlt. lia. }
        fold (nbr net l0) in *.
        destruct (decide (l0 < p)).
        + pose proof (Hlo l0 ltac:(lia)) as Hx. fold (nbr net l0) in Hx. lia.
        + pose proof (Hhi l0 ltac:(lia)) as Hx. fold (nbr net l0) in Hx. lia.
    Qed.

Lemma check_both_directions_total : check_both_directions net = Some ().
    Proof.
      unfold check_both_directions.
      destruct (for_range_total (λ _ (s : list bool), length s = nEdges net)
        (λ i checked,
           b ← aget (firstNeighborIndices net) i;
           e ← aget (firstNeighborIndices net) (i + 1);
           for_range b e
             (λ j checked,
                c ← aget checked j;
                if (c : bool) then Some checked
                else
                  k ← aget (neighbors net) j;
                  bk ← aget (firstNeighborIndices net) k;
                  ek ← aget (firstNeighborIndices net) (k + 1);
                  l ← binarySearch (neighbors net) bk ek i;
                  _ ← check (bool_decide (0 ≤ l)%Z);
                  wj ← aget (edgeWeights net) j;
                  wl ← aget (edgeWeights net) (Z.to_nat l);
                  _ ← check (Qeq_bool wj wl);
                  checked ← aset checked j true;
                  aset checked (Z.to_nat l) true)
             checked)
        0 (nNodes net) (replicate (nEdges net) false))
        as (checked & -> & _); [lia|by rewrite length_replicate| |done].
      intros i s Hi Hlen.
      rewrite (fni_lookup net Hwf i), (fni_lookup net Hwf (i + 1)) by lia.
      cbn [mbind option_bind].
      apply (for_range_total (λ _ (s : list bool), length s = nEdges net));
        [apply (wf_fni_mono _ Hwf); lia|done|].
      intros j t Hj Hl.
      assert (j < nEdges net) as Hjn by (apply (slice_lt net Hwf i); lia).
      destruct (aget_lt t j ltac:(lia)) as [c ->]. cbn [mbind option_bind].
      destruct c; [by exists t|].
      pose proof (wf_neighbors_range _ Hwf j Hjn) as Hkn.
      rewrite (nbr_lookup net Hwf j Hjn). cbn [mbind option_bind].
      rewrite (fni_lookup net Hwf (nbr net j)),
        (fni_lookup net Hwf (nbr net j + 1)) by lia.
      cbn [mbind option_bind].
      destruct (opposite_found i j ltac:(lia) Hj) as (l & -> & Hln & Hw).
      cbn [mbind option_bind]. rewrite check_true by lia.
      cbn [mbind option_bind]. rewrite Nat2Z.id.
      rewrite (ew_lookup net Hwf j Hjn), (ew_lookup net Hwf l Hln).
      cbn [mbind option_bind].
      apply Qeq_bool_iff in Hw. rewrite Hw. cbn [check mbind option_bind].
      rewrite (aset_lt t) by lia. cbn [mbind option_bind].
      rewrite aset_lt by (rewrite length_insert; lia).
      eexists. split; [done|]. by rewrite !length_insert.
    Qed.

Lemma checkIntegrity_total :
      Nat.Even (nEdges net) → checkIntegrity net = Some ().
    Proof.
      intros [m Hm]. unfold checkIntegrity.
      assert (nEdges net mod 2 = 0) as Hmod.
      { rewrite Hm. replace (2 * m) with (0 + m * 2) by lia.
        by rewrite Nat.Div0.mod_add. }
      rewrite Hmod. cbn [bool_decide negb check mbind option_bind].
      rewrite (bool_decide_false (0 = 1)) by lia.
      cbn [negb check mbind option_bind].
      rewrite (check_true (length (nodeWeights net) = nNodes net))
        by apply (wf_nodeWeights _ Hwf).
      cbn [mbind option_bind].
      rewrite (check_true (length (firstNeighborIndices net) = nNodes net + 1))
        by apply (wf_fni_length _ Hwf).
      cbn [mbind option_bind].
      rewrite (fni_lookup net Hwf 0) by lia. cbn [mbind option_bind].
      rewrite (check_true (fni net 0 = 0)) by apply (wf_fni_0 _ Hwf).
      cbn [mbind option_bind].
      rewrite (fni_lookup net Hwf (nNodes net)) by lia.
      cbn [mbind option_bind].
      rewrite (check_true (fni net (nNodes net) = nEdges net))
        by apply (wf_fni_last _ Hwf).
      cbn [mbind option_bind].
      rewrite (check_true (length (neighbors net) = nEdges net))
        by apply (wf_neighbors_length _ Hwf).
      cbn [mbind option_bind].
      rewrite (check_true (length (edgeWeights net) = nEdges net))
        by apply (wf_edgeWeights_length _ Hwf).
      cbn [mbind option_bind].
      rewrite check_sorted_total. cbn [mbind option_bind].
      apply check_both_directions_total.
    Qed.
End Accept.

End AcceptFacts.

Import Network NetworkFacts Heap NetworkConstructor IntegrityFacts AcceptFacts.

(** [checkIntegrity] throws no error on a well-formed network with at most
    [2^31] stored edges and an even [nEdges] that lists the neighbours of
    every node in strictly increasing order and stores every edge in both
    directions with the same weight. *)
Theorem checkIntegrity_accepts (net : Network.t) :
  (Z.of_nat (Network.nEdges net) ≤ 2 ^ 31)%Z →
  wf net → sorted_neighbors net → Nat.Even (Network.nEdges net) →
  both_directions net →
  checkIntegrity net = Some ().
Proof.
  intros Hsmall Hwf Hsorted Heven Hboth. by apply checkIntegrity_total.
Qed.

Lemma self_link_pair_sorted : sorted_neighbors self_link_pair.
Proof.
  intros i k k' Hi Hk Hkk' Hk'. simpl in Hi.
  destruct i as [|[|i]]; [| |lia]; unfold fni in *; simpl in *; lia.
Qed.

Lemma self_link_pair_both_directions : both_directions self_link_pair.
Proof.
  intros i j Hi Hj. simpl in Hi.
  destruct i as [|[|i]]; [| |lia]; unfold fni in Hj; simpl in Hj.
  - assert (j = 0) as -> by lia. exists 1. unfold fni, nbr, ew. simpl.
    split; [lia|]. split; [done|reflexivity].
  - assert (j = 1) as -> by lia. exists 0. unfold fni, nbr, ew. simpl.
    split; [lia|]. split; [done|reflexivity].
Qed.

Lemma checkIntegrity_accepts_witness : checkIntegrity self_link_pair = Some ().
Proof.
  apply (checkIntegrity_accepts self_link_pair).
  - simpl. lia.
  - apply self_link_pair_wf.
  - apply self_link_pair_sorted.
  - by exists 1.
  - apply self_link_pair_both_directions.
Defined.

(** * network.ts: from a network to its list of edges and back *)

Module EdgesFacts.
Import Network NetworkFacts Heap NetworkConstructor.

  (** ** fill *)

Lemma fill_length {A} (a : list A) v s e : length (fill a v s e) = length a.
  Proof.
    unfold fill. case_decide; [|done].
    rewrite !length_app, length_take, length_replicate, length_drop. lia.
  Qed.

Lemma fill_lookup {A} (a : list A) v s e k :
    e ≤ length a →
    fill a v s e !! k = if decide (s ≤ k < e) then Some v else a !! k.
  Proof.
    intros He. unfold fill. rewrite Nat.min_l by done.
    case_decide as Hse; [|by rewrite decide_False by lia].
    destruct (decide (k < s)) as [Hks|Hks].
    - rewrite decide_False by lia. rewrite lookup_app_l
        by (rewrite length_take; lia).
      by rewrite lookup_take_lt.
    - rewrite lookup_app_r by (rewrite length_take; lia).
      rewrite length_take, Nat.min_l by lia.
      destruct (decide (k < e)) as [Hke|Hke].
      + rewrite decide_True by lia. rewrite lookup_app_l
          by (rewrite length_replicate; lia).
        apply lookup_replicate_2. lia.
      + rewrite decide_False by lia. rewrite lookup_app_r
          by (rewrite length_replicate; lia).
        rewrite length_replicate, lookup_drop. f_equal. lia.
  Qed.

  (** ** getEdges *)

Lemma getEdges_value net :
    wf net →
    ∃ e0, getEdges net = Some (e0, neighbors net)
          ∧ length e0 = nEdges net
          ∧ ∀ i k, i < nNodes net → fni net i ≤ k < fni net (i + 1) →
                   nth k e0 0 = i.
  Proof.
    intros Hwf. unfold getEdges.
    pose (P := λ (m : nat) (e0 : list nat),
      length e0 = nEdges net
      ∧ ∀ i k, i < m → fni net i ≤ k < fni net (i + 1) → nth k e0 0 = i).
    destruct (for_range_total P
      (λ i edges0,
         b ← aget (firstNeighborIndices net) i;
         e ← aget (firstNeighborIndices net) (i + 1);
         Some (fill edges0 i b e))
      0 (nNodes net) (replicate (nEdges net) 0))
      as (e0 & -> & Hl & Hv); [lia| | |by exists e0].
    - split; [by rewrite length_replicate|]. intros; lia.
    - intros i e0 Hi [Hl Hv].
      rewrite (fni_lookup net Hwf i), (fni_lookup net Hwf (i + 1)) by lia.
      cbn [mbind option_bind]. eexists. split; [done|].
      split; [by rewrite fill_length|]. intros i' k Hi' Hk.
      pose proof (fni_le_nEdges net Hwf (i + 1) ltac:(lia)) as He.
      apply lookup_nth_eq. rewrite fill_lookup by lia.
      destruct (decide (i' = i)) as [->|Hne].
      + by rewrite decide_True by lia.
      + pose proof (fni_mono net Hwf (i' + 1) i ltac:(lia) ltac:(lia)).
        rewrite decide_False by lia. rewrite <- (Hv i' k) by (done || lia).
        apply lookup_nth. pose proof (fni_le_nEdges net Hwf (i' + 1)
                                        ltac:(lia)). lia.
  Qed.

  (** ** The loop that fills the offsets *)

Lemma fill_until_value fni0 i bound nEdges0 :
    bound + 1 ≤ length fni0 →
    ∃ fni1, fill_until fni0 i bound nEdges0 = Some (fni1, i `max` (bound + 1))
            ∧ length fni1 = length fni0
            ∧ (∀ k, i ≤ k ≤ bound → nth k fni1 0 = nEdges0)
            ∧ (∀ k, ¬ (i ≤ k ≤ bound) → nth k fni1 0 = nth k fni0 0).
  Proof.
    intros Hb. unfold fill_until.
    destruct (decide (bound + 1 ≤ i)) as [Hle|Hgt].
    - rewrite for_range_empty by done. cbn [mbind option_bind].
      exists fni0. split; [done|]. split; [done|]. split; [intros; lia|done].
    - pose (P := λ (m : nat) (s : list nat),
        length s = length fni0
        ∧ (∀ k, i ≤ k < m → nth k s 0 = nEdges0)
        ∧ (∀ k, ¬ (i ≤ k < m) → nth k s 0 = nth k fni0 0)).
      destruct (for_range_total P (λ k fni, aset fni k nEdges0) i (bound + 1)
                  fni0) as (fni1 & -> & Hl & Hin & Hout); [lia| | |].
      + split; [done|]. split; [intros; lia|done].
      + intros k s Hk (Hl & Hin & Hout). rewrite aset_lt by lia.
        eexists. split; [done|]. split; [by rewrite length_insert|]. split.
        * intros k' Hk'. destruct (decide (k' = k)) as [->|Hne].
          -- by rewrite nth_insert_eq by lia.
          -- rewrite nth_insert_ne by lia. apply Hin. lia.
        * intros k' Hk'. rewrite nth_insert_ne by lia. apply Hout. lia.
      + cbn [mbind option_bind]. exists fni1. split; [done|].
        split; [done|]. split.
        * intros k Hk. apply Hin. lia.
        * intros k Hk. apply Hout. lia.
  Qed.

  (** ** Building the network from its own edges *)

Section Build.
Context (net : t) (Hwf : wf net) (Hns : no_self_loops net).
Context (e0 : list nat) (Hl0 : length e0 = nEdges net).
Context (Hnode : ∀ i k, i < nNodes net → fni net i ≤ k < fni net (i + 1) →
                            nth k e0 0 = i).
Local Abbreviation n := (nNodes net).
Local Abbreviation m := (nEdges net).

    (** The node whose slice holds position [k]. *)
Lemma node_of k :
      k < m → ∃ i, i < n ∧ fni net i ≤ k < fni net (i + 1).
    Proof.
      intros Hk. rewrite <- (wf_fni_last _ Hwf) in Hk. revert Hk.
      generalize n at 1 2. intros b. induction b as [|b IH]; intros Hk.
      - rewrite (wf_fni_0 _ Hwf) in Hk. lia.
      - destruct (decide (k < fni net b)) as [Hlt|Hge].
        + destruct (IH Hlt) as (i & ? & ?). exists i. split; [lia|done].
        + exists b. replace (b + 1) with (S b) by lia. lia.
    Qed.

Lemma build_own_edges :
      build n e0 (neighbors net) (Some (edgeWeights net))
      = Some (firstNeighborIndices net, neighbors net, edgeWeights net, 0%Q, m).
    Proof.
      unfold build. rewrite Hl0.
      pose (P := λ (j : nat)
                   (s : list nat * list nat * list Q * Q * nat * nat),
        let '(fni1, nb1, ew1, self, nE, i) := s in
        nE = j ∧ self = 0%Q
        ∧ length fni1 = n + 1 ∧ length nb1 = m ∧ length ew1 = m
        ∧ 1 ≤ i ≤ n + 1
        ∧ (∀ k, k < i → nth k fni1 0 = fni net k)
        ∧ (i ≤ n → j ≤ fni net i)
        ∧ fni net (i - 1) ≤ j
        ∧ (∀ k, k < j → nth k nb1 0 = nbr net k ∧ nth k ew1 0%Q = ew net k)).
      destruct (for_range_total P
        (λ j '(fni, neighbors, edgeWeights, selfLinks, nEdges, i),
           a ← aget e0 j;
           b ← aget (Network.neighbors net) j;
           if decide (a ≠ b) then
             '(fni, i) ← fill_until fni i a nEdges;
             neighbors ← aset neighbors nEdges b;
             wj ← edge_weight (Some (Network.edgeWeights net)) j;
             edgeWeights ← aset edgeWeights nEdges wj;
             Some (fni, neighbors, edgeWeights, selfLinks, nEdges + 1, i)
           else
             wj ← edge_weight (Some (Network.edgeWeights net)) j;
             Some (fni, neighbors, edgeWeights, (selfLinks + wj)%Q, nEdges, i))
        0 m (replicate (n + 1) 0, replicate m 0, replicate m 0%Q, 0%Q, 0, 1))
        as ([[[[[fni1 nb1] ew1] self] nE] i] & -> & HP); [lia| | |].
      - unfold P. rewrite !length_replicate. split; [done|]. split; [done|].
        split; [done|]. split; [done|]. split; [done|]. split; [lia|].
        split.
        { intros k Hk. assert (k = 0) as -> by lia.
          rewrite nth_replicate_lt by lia. by rewrite (wf_fni_0 _ Hwf). }
        split; [lia|]. split; [|intros; lia].
        cbn. rewrite (wf_fni_0 _ Hwf). lia.
      - intros j [[[[[fni1 nb1] ew1] self] nE] i] Hj
          (-> & -> & Hlf & Hlb & Hle & Hi & Hfni & Hup & Hdown & Hcopy).
        destruct (node_of j ltac:(lia)) as (a & Ha & Hslice).
        rewrite (aget_nth e0 j 0) by lia. rewrite (Hnode a j Ha Hslice).
        cbn [mbind option_bind].
        rewrite (nbr_lookup net Hwf j) by lia. cbn [mbind option_bind].
        rewrite decide_True by (intros Heq; by apply (Hns a j Ha Hslice)).
        destruct (fill_until_value fni1 i a j ltac:(lia))
          as (fni2 & -> & Hlf2 & Hin & Hout).
        cbn [mbind option_bind].
        rewrite (aset_lt nb1) by lia. cbn [mbind option_bind edge_weight].
        rewrite (ew_lookup net Hwf j) by lia. cbn [mbind option_bind].
        rewrite (aset_lt ew1) by lia. cbn [mbind option_bind].
        eexists. split; [done|]. unfold P. rewrite !length_insert.
        assert (i - 1 ≤ a) as Hia.
        { destruct (decide (i - 1 ≤ a)) as [|Hgt]; [done|exfalso].
          pose proof (fni_mono net Hwf (a + 1) (i - 1) ltac:(lia) ltac:(lia)).
          lia. }
        split; [lia|]. split; [done|]. split; [lia|]. split; [done|].
        split; [done|]. split; [lia|]. split.
        { intros k Hk. destruct (decide (i ≤ k ≤ a)) as [Hin'|Hout'].
          - rewrite (Hin k Hin').
            pose proof (fni_mono net Hwf i k ltac:(lia) ltac:(lia)).
            pose proof (fni_mono net Hwf k a ltac:(lia) ltac:(lia)).
            specialize (Hup ltac:(lia)). lia.
          - rewrite (Hout k Hout'). apply Hfni. lia. }
        split.
        { intros Hn'.
          pose proof (fni_mono net Hwf (a + 1) (i `max` (a + 1)) ltac:(lia)
                        ltac:(lia)). lia. }
        split.
        { destruct (decide (a + 1 ≤ i)) as [Hle'|Hgt'].
          - replace (i `max` (a + 1) - 1) with (i - 1) by lia. lia.
          - replace (i `max` (a + 1) - 1) with a by lia. lia. }
        intros k Hk. destruct (decide (k = j)) as [->|Hne].
        + rewrite !nth_insert_eq by lia. done.
        + rewrite !nth_insert_ne by lia. apply Hcopy. lia.
      - destruct HP as (-> & -> & Hlf & Hlb & Hle & Hi & Hfni & Hup & Hdown
                        & Hcopy).
        cbn [mbind option_bind].
        destruct (fill_until_value fni1 i n m ltac:(lia))
          as (fni2 & -> & Hlf2 & Hin & Hout).
        cbn [mbind option_bind].
        assert (fni2 = firstNeighborIndices net) as ->.
        { apply (nth_ext _ _ 0 0); [rewrite (wf_fni_length _ Hwf); lia|].
          intros k Hk. fold (fni net k).
          destruct (decide (i ≤ k ≤ n)) as [Hin'|Hout'].
          - rewrite (Hin k Hin').
            pose proof (fni_mono net Hwf i k ltac:(lia) ltac:(lia)).
            pose proof (fni_le_nEdges net Hwf k ltac:(lia)).
            specialize (Hup ltac:(lia)). lia.
          - rewrite (Hout k Hout'). apply Hfni. lia. }
        assert (take m nb1 = neighbors net) as ->.
        { rewrite take_ge by lia.
          apply (nth_ext _ _ 0 0); [rewrite (wf_neighbors_length _ Hwf); lia|].
          intros k Hk. apply Hcopy. lia. }
        assert (take m ew1 = edgeWeights net) as ->.
        { rewrite take_ge by lia.
          apply (nth_ext _ _ 0%Q 0%Q);
            [rewrite (wf_edgeWeights_length _ Hwf); lia|].
          intros k Hk. apply Hcopy. lia. }
        done.
    Qed.
End Build.

End EdgesFacts.

Import Network NetworkFacts Heap NetworkConstructor EdgesFacts.

(** [getEdges] on a well-formed network returns the node of every stored
    edge and a copy of [neighbors].  When the network has no node among its own
    neighbours, the constructor called with these edges, the node and edge
    weights of the network and [sortedEdges] set builds the same arrays again,
    with self-link weight 0, and changes no array of its caller. *)
Theorem getEdges_round_trip (net : Network.t) (h : list object)
    (edges edgeWeights : nat) :
  wf net → no_self_loops net →
  ∃ edges0 edges1,
    Network.getEdges net = Some (edges0, edges1)
    ∧ length edges0 = Network.nEdges net
    ∧ edges1 = Network.neighbors net
    ∧ (∀ i k, i < Network.nNodes net → fni net i ≤ k < fni net (i + 1) →
              nth k edges0 0 = i)
    ∧ (row h edges 0 = Some edges0 → row h edges 1 = Some edges1 →
       nums h edgeWeights = Some (Network.edgeWeights net) →
       initializeNetworkBasedOnEdges h (Network.nNodes net)
         (Some (Network.nodeWeights net)) false edges (Some edgeWeights)
         true false
       = Some (h, Network.mk (Network.nNodes net) (Network.nodeWeights net)
                    (Network.firstNeighborIndices net) (Network.neighbors net)
                    (Network.edgeWeights net) 0%Q (Network.nEdges net))).
Proof.
  intros Hwf Hns. destruct (getEdges_value net Hwf) as (e0 & Hrun & Hl & Hv).
  exists e0, (Network.neighbors net). split; [done|]. split; [done|].
  split; [done|]. split; [done|]. intros H0 H1 Hw.
  unfold initializeNetworkBasedOnEdges. cbn [mbind option_bind].
  rewrite H0, H1. cbn [mbind option_bind]. unfold weights. rewrite Hw.
  cbn [mbind option_bind].
  rewrite (build_own_edges net Hwf Hns e0 Hl Hv). done.
Qed.

Lemma triangle_heap_rows :
  let h := [Ints [0; 0; 1; 1; 2; 2; 2; 3; 3; 3; 4; 4; 5; 5];
            Ints (Network.neighbors triangle_pair); Refs [0; 1];
            Nums (Network.edgeWeights triangle_pair)] in
  row h 2 0 = Some [0; 0; 1; 1; 2; 2; 2; 3; 3; 3; 4; 4; 5; 5]
  ∧ row h 2 1 = Some (Network.neighbors triangle_pair)
  ∧ nums h 3 = Some (Network.edgeWeights triangle_pair).
Proof. done. Qed.

Lemma getEdges_round_trip_witness :
  Network.getEdges triangle_pair
  = Some ([0; 0; 1; 1; 2; 2; 2; 3; 3; 3; 4; 4; 5; 5],
          Network.neighbors triangle_pair)
  ∧ ∃ h, initializeNetworkBasedOnEdges h 6
           (Some (Network.nodeWeights triangle_pair)) false 2 (Some 3)
           true false
         = Some (h, triangle_pair).
Proof.
  split; [vm_compute; reflexivity|].
  exists [Ints [0; 0; 1; 1; 2; 2; 2; 3; 3; 3; 4; 4; 5; 5];
          Ints (Network.neighbors triangle_pair); Refs [0; 1];
          Nums (Network.edgeWeights triangle_pair)].
  destruct (getEdges_round_trip triangle_pair
              [Ints [0; 0; 1; 1; 2; 2; 2; 3; 3; 3; 4; 4; 5; 5];
               Ints (Network.neighbors triangle_pair); Refs [0; 1];
               Nums (Network.edgeWeights triangle_pair)]
              2 3 triangle_pair_wf triangle_pair_no_self_loops)
    as (e0 & e1 & Hrun & _ & He1 & _ & Hback).
  assert (e0 = [0; 0; 1; 1; 2; 2; 2; 3; 3; 3; 4; 4; 5; 5]) as ->.
  { assert (Network.getEdges triangle_pair
            = Some ([0; 0; 1; 1; 2; 2; 2; 3; 3; 3; 4; 4; 5; 5],
                    Network.neighbors triangle_pair)) as Hval
      by (vm_compute; reflexivity).
    congruence. }
  subst e1. apply Hback; reflexivity.
Defined.

(** * clustering.ts: ordering the clusters *)

(** The total weight of the nodes of cluster [k]. *)
Definition clusterTotal (c : Clustering.t) (nodeWeights : list Q) (k : nat) : Q :=
  sumN (λ i, if decide (QualityFacts.cl c i = k) then nth i nodeWeights 0%Q
             else 0%Q) (Clustering.nNodes c).

(** The number of nodes of cluster [k]. *)
Definition clusterSize (c : Clustering.t) (k : nat) : nat :=
  length (filter (λ i, QualityFacts.cl c i = k) (seq 0 (Clustering.nNodes c))).

Module OrderFacts.
Import Clustering ClusteringFacts ClusteringOps QualityFacts ConstructorFacts.

Lemma strongly_sorted_lookup {A} (R : A → A → Prop) l i j x y :
    StronglySorted R l → i < j → l !! i = Some x → l !! j = Some y → R x y.
  Proof.
    intros Hs. revert i j.
    induction Hs as [|a l Hs IH Hall]; intros i j Hij Hi Hj; [done|].
    destruct j as [|j]; [lia|]. destruct i as [|i]; simpl in *.
    - simplify_eq. rewrite Forall_lookup in Hall. by eapply Hall.
    - eapply IH; [|done..]. lia.
  Qed.

Lemma filter_ext_in {A} (P1 P2 : A → Prop) `{∀ x, Decision (P1 x)}
      `{∀ x, Decision (P2 x)} (l : list A) :
    (∀ x, x ∈ l → P1 x ↔ P2 x) → filter P1 l = filter P2 l.
  Proof.
    induction l as [|a l IH]; intros Hl; [done|].
    rewrite !filter_cons. rewrite IH by (intros x Hx; apply Hl; by right).
    pose proof (Hl a ltac:(left)).
    destruct (decide (P1 a)), (decide (P2 a)); tauto || done.
  Qed.

Lemma count_sum (P : nat → Prop) `{∀ i, Decision (P i)} n :
    (sumN (λ i, if decide (P i) then 1 else 0) n
     == inject_Z (Z.of_nat (length (filter P (seq 0 n)))))%Q.
  Proof.
    induction n as [|n IH]; [reflexivity|].
    rewrite seq_S, filter_app, length_app. simpl sumN. rewrite IH.
    rewrite filter_cons, filter_nil. simpl.
    destruct (decide (P n)); simpl; rewrite Nat2Z.inj_add, inject_Z_plus;
      simpl; ring.
  Qed.

Lemma weight_ge_total (a b : nat * Q) :
    weight_ge a b = false → weight_ge b a = true.
  Proof.
    unfold weight_ge. intros Hab. apply Qle_bool_iff.
    destruct (Qle_bool a.2 b.2) eqn:E; [by apply Qle_bool_iff|].
    assert (¬ (b.2 <= a.2)%Q) by (intros Hle; apply Qle_bool_iff in Hle;
                                  congruence).
    assert (¬ (a.2 <= b.2)%Q) by (intros Hle; apply Qle_bool_iff in Hle;
                                  congruence).
    lra.
  Qed.

Lemma weight_ge_sorted (l : list (nat * Q)) :
    StronglySorted (λ a b, (b.2 <= a.2)%Q) (js_sort weight_ge l).
  Proof.
    apply Sorted_StronglySorted.
    { intros a b d Hab Hbd. lra. }
    pose proof (js_sort_sorted weight_ge l weight_ge_total) as Hs.
    induction Hs as [|a s Hs IH Hhd]; constructor; [done|].
    destruct Hhd as [|b s Hab]; constructor.
    by apply Qle_bool_iff in Hab.
  Qed.

  (** ** The loop that numbers the sorted clusters *)

Lemma number_clusters_value rest : ∀ i0 nc0 nc i,
    NoDup (rest.*1) → Forall (λ p : nat * Q, p.1 < length nc0) rest →
    number_clusters rest i0 nc0 = Some (nc, i) →
    ∃ p, i = i0 + p ∧ p ≤ length rest
      ∧ (∀ t k w, t < p → rest !! t = Some (k, w) →
                  (0 < w)%Q ∧ nth k nc 0 = i0 + t)
      ∧ (∀ k w, rest !! p = Some (k, w) → (w <= 0)%Q)
      ∧ (∀ k, (∀ t w, t < p → rest !! t ≠ Some (k, w)) →
              nth k nc 0 = nth k nc0 0).
  Proof.
    induction rest as [|[k0 w0] rest IH]; intros i0 nc0 nc i Hnd Hall Hrun;
      simpl in Hrun.
    - simplify_eq. exists 0. split; [lia|]. split; [done|].
      split; [intros; lia|]. split; [done|done].
    - inversion Hall as [|? ? Hk0 Hrest]; subst. simpl in Hk0.
      rewrite fmap_cons in Hnd. apply NoDup_cons in Hnd as [Hfresh Hnd].
      simpl in Hfresh.
      destruct (Qlt_bool 0 w0) eqn:Hw0.
      + apply Qlt_bool_true in Hw0. rewrite aset_lt in Hrun by done.
        cbn [mbind option_bind] in Hrun.
        destruct (IH (i0 + 1) (<[k0:=i0]> nc0) nc i Hnd) as
          (p & -> & Hp & Hnum & Hstop & Hframe);
          [by rewrite length_insert|done|].
        exists (S p). split; [lia|]. split; [simpl; lia|]. split; [|split].
        * intros t k w Ht Hlook. destruct t as [|t]; simpl in Hlook.
          -- simplify_eq. split; [done|]. rewrite Hframe.
             ++ rewrite nth_insert_eq by done. lia.
             ++ intros t w' _ Hlook. apply Hfresh.
                apply list_elem_of_fmap. exists (k, w'). split; [done|].
                by eapply list_elem_of_lookup_2.
          -- destruct (Hnum t k w ltac:(lia) Hlook) as [? ->]. split; [done|].
             lia.
        * intros k w Hlook. simpl in Hlook. by eapply Hstop.
        * intros k Hk. rewrite Hframe.
          -- apply nth_insert_ne. intros ->. by apply (Hk 0 w0); [lia|].
          -- intros t w Ht. apply (Hk (S t) w). lia.
      + apply Qlt_bool_false in Hw0. simplify_eq. exists 0.
        split; [lia|]. split; [lia|]. split; [intros; lia|].
        split; [|done]. intros k w Hlook. simpl in Hlook. by simplify_eq.
  Qed.

  (** ** The new ids *)

Section Order.
Context (c : Clustering.t) (cw : list Q).
Context (Hlen : length cw = nClusters c).
Local Abbreviation K := (nClusters c).
Local Abbreviation sorted := (js_sort weight_ge (zip (seq 0 K) cw)).

Lemma sorted_entry s k w :
      sorted !! s = Some (k, w) → k < K ∧ w = nth k cw 0%Q.
    Proof.
      intros Hs. apply list_elem_of_lookup_2 in Hs.
      rewrite (js_sort_perm weight_ge) in Hs.
      apply list_elem_of_lookup_1 in Hs as [j Hj].
      apply lookup_zip_with_Some in Hj as (a & b & ? & Ha & Hb).
      simplify_eq. apply lookup_seq in Ha as [-> ?].
      split; [done|]. symmetry. by apply lookup_nth_eq.
    Qed.

Lemma sorted_position k :
      k < K → ∃ s, sorted !! s = Some (k, nth k cw 0%Q).
    Proof.
      intros Hk. apply list_elem_of_lookup_1.
      rewrite (js_sort_perm weight_ge). apply list_elem_of_lookup_2 with k.
      apply lookup_zip_with_Some. exists k, (nth k cw 0%Q).
      split; [done|]. split; [by apply lookup_seq|].
      apply lookup_nth. lia.
    Qed.

Lemma sorted_NoDup : NoDup (sorted.*1).
    Proof.
      rewrite (js_sort_perm weight_ge). rewrite fst_zip
        by (rewrite length_seq; lia).
      apply NoDup_seq.
    Qed.

Lemma sorted_same_cluster s s' k w w' :
      sorted !! s = Some (k, w) → sorted !! s' = Some (k, w') → s = s'.
    Proof.
      intros Hs Hs'. apply (NoDup_lookup _ s s' k sorted_NoDup).
      - by rewrite list_lookup_fmap, Hs.
      - by rewrite list_lookup_fmap, Hs'.
    Qed.

Lemma numbering_value nc i :
      numbering c cw = Some (nc, i) →
      1 ≤ i ≤ length sorted
      ∧ (∀ s k w, s < i → sorted !! s = Some (k, w) →
                  nth k nc 0 = s ∧ (1 ≤ s → (0 < w)%Q))
      ∧ (∀ k w, sorted !! i = Some (k, w) → (w <= 0)%Q)
      ∧ (∀ k, (∀ s w, s < i → sorted !! s ≠ Some (k, w)) → nth k nc 0 = 0).
    Proof.
      unfold numbering. intros Hrun. pose proof sorted_NoDup as Hnd.
      assert (Forall (λ p : nat * Q, p.1 < K) sorted) as Hall.
      { apply Forall_lookup. intros s [k w] Hs.
        by destruct (sorted_entry s k w Hs). }
      destruct sorted as [|[k0 w0] rest]; [done|].
      inversion Hall as [|? ? Hk0 Hrest]; subst. simpl in Hk0.
      rewrite fmap_cons in Hnd. apply NoDup_cons in Hnd as [Hfresh Hnd].
      simpl in Hfresh.
      rewrite aset_lt in Hrun by (rewrite length_replicate; lia).
      cbn [mbind option_bind] in Hrun.
      destruct (number_clusters_value rest 1
                  (<[k0:=0]> (replicate (nClusters c) 0)) nc i Hnd) as
        (p & -> & Hp & Hnum & Hstop & Hframe); [|done|].
      { by rewrite length_insert, length_replicate. }
      assert (∀ k, nth k (<[k0:=0]> (replicate K 0)) 0 = 0) as Hzero.
      { intros k. destruct (decide (k = k0)) as [->|Hne].
        - rewrite nth_insert_eq by (rewrite length_replicate; lia). done.
        - rewrite nth_insert_ne by done.
          destruct (decide (k < K)); [by apply nth_replicate_lt|].
          apply nth_overflow. rewrite length_replicate. lia. }
      split; [simpl; lia|]. split; [|split].
      - intros s k w Hs Hlook. destruct s as [|s]; simpl in Hlook.
        + simplify_eq. split; [|lia]. rewrite Hframe; [apply Hzero|].
          intros t w' _ Hlook. apply Hfresh.
          apply list_elem_of_fmap. exists (k, w'). split; [done|].
          by eapply list_elem_of_lookup_2.
        + destruct (Hnum s k w ltac:(lia) Hlook) as [? ->]. split; [lia|done].
      - intros k w Hlook. simpl in Hlook. by eapply Hstop.
      - intros k Hk. rewrite Hframe; [apply Hzero|].
        intros t w Ht. apply (Hk (S t) w). lia.
    Qed.

Section Numbered.
Context (nc : list nat) (i : nat) (Hrun : numbering c cw = Some (nc, i)).
Local Abbreviation newId k := (nth k nc 0).
Local Abbreviation weight k := (nth k cw 0%Q).

Lemma positive_position k s :
        k < K → (0 < weight k)%Q → sorted !! s = Some (k, weight k) →
        s < i ∧ newId k = s.
      Proof.
        intros Hk Hpos Hs.
        destruct (numbering_value nc i Hrun) as (Hi & Hnum & Hstop & Hframe).
        destruct (decide (s < i)) as [Hlt|Hge].
        { split; [done|]. by destruct (Hnum s k _ Hlt Hs). }
        exfalso. destruct (decide (s = i)) as [->|Hne].
        { pose proof (Hstop _ _ Hs). lra. }
        destruct (lookup_lt_is_Some_2 sorted i) as [[k' w'] Hi'].
        { apply lookup_lt_Some in Hs. lia. }
        pose proof (Hstop _ _ Hi').
        pose proof (strongly_sorted_lookup _ _ i s _ _ (weight_ge_sorted _)
                      ltac:(lia) Hi' Hs) as Hle.
        simpl in Hle. lra.
      Qed.

Lemma nonpositive_id k :
        k < K → (weight k <= 0)%Q → newId k = 0.
      Proof.
        intros Hk Hw. destruct (sorted_position k Hk) as [s Hs].
        destruct (numbering_value nc i Hrun) as (Hi & Hnum & Hstop & Hframe).
        destruct (decide (s < i)) as [Hlt|Hge].
        - destruct (Hnum s k _ Hlt Hs) as [-> Hpos].
          destruct (decide (1 ≤ s)) as [H1|]; [|lia].
          specialize (Hpos H1). lra.
        - apply Hframe. intros t w Ht Hlook.
          pose proof (sorted_same_cluster _ _ _ _ _ Hs Hlook). lia.
      Qed.

Lemma positive_injective k l :
        k < K → l < K → (0 < weight k)%Q → (0 < weight l)%Q →
        newId k = newId l → k = l.
      Proof.
        intros Hk Hl Hwk Hwl Heq.
        destruct (sorted_position k Hk) as [s Hs].
        destruct (sorted_position l Hl) as [s' Hs'].
        destruct (positive_position k s Hk Hwk Hs) as [_ Hidk].
        destruct (positive_position l s' Hl Hwl Hs') as [_ Hidl].
        assert (s = s') as -> by lia. by simplify_eq.
      Qed.

Lemma positive_ordered k l :
        k < K → l < K → (0 < weight k)%Q → (0 < weight l)%Q →
        newId k < newId l → (weight l <= weight k)%Q.
      Proof.
        intros Hk Hl Hwk Hwl Hlt.
        destruct (sorted_position k Hk) as [s Hs].
        destruct (sorted_position l Hl) as [s' Hs'].
        destruct (positive_position k s Hk Hwk Hs) as [_ Hidk].
        destruct (positive_position l s' Hl Hwl Hs') as [_ Hidl].
        apply (strongly_sorted_lookup _ _ s s' _ _ (weight_ge_sorted _)
                 ltac:(lia) Hs Hs').
      Qed.

Lemma id_used v :
        v < i → ∃ k, k < K ∧ newId k = v ∧ (1 ≤ v → (0 < weight k)%Q)
                     ∧ (v = 0 → ∀ l, l < K → (weight l <= weight k)%Q).
      Proof.
        intros Hv.
        destruct (numbering_value nc i Hrun) as (Hi & Hnum & Hstop & Hframe).
        destruct (lookup_lt_is_Some_2 sorted v) as [[k w] Hs]; [lia|].
        destruct (sorted_entry v k w Hs) as [Hk ->].
        destruct (Hnum v k _ Hv Hs) as [Hid Hpos].
        exists k. split; [done|]. split; [done|]. split; [done|].
        intros -> l Hl. destruct (sorted_position l Hl) as [s Hl'].
        destruct s as [|s].
        - rewrite Hs in Hl'. simplify_eq. lra.
        - apply (strongly_sorted_lookup _ _ 0 (S s) _ _ (weight_ge_sorted _)
                   ltac:(lia) Hs Hl').
      Qed.
End Numbered.
End Order.

  (** ** orderClustersByWeight *)

Lemma clusterTotal_member c nodeWeights k :
    (0 < clusterTotal c nodeWeights k)%Q → ∃ i, i < nNodes c ∧ cl c i = k.
  Proof.
    unfold clusterTotal. generalize (nNodes c). intros n.
    induction n as [|n IH]; simpl; [lra|]. intros Hpos.
    destruct (decide (cl c n = k)) as [Hn|Hn]; [exists n; split; [lia|done]|].
    destruct IH as (i & ? & ?); [lra|]. exists i. split; [lia|done].
  Qed.

Lemma orderClustersByWeight_value c nodeWeights :
    sized c → ranged c → 0 < nClusters c → nNodes c ≤ length nodeWeights →
    ∃ c', orderClustersByWeight c nodeWeights = Some c'
      ∧ sized c' ∧ ranged c' ∧ nNodes c' = nNodes c
      ∧ 1 ≤ nClusters c' ≤ nClusters c
      ∧ (∀ i, i < nNodes c → (clusterTotal c nodeWeights (cl c i) <= 0)%Q →
              cl c' i = 0)
      ∧ (∀ i j, i < nNodes c → j < nNodes c →
           (0 < clusterTotal c nodeWeights (cl c i))%Q →
           (0 < clusterTotal c nodeWeights (cl c j))%Q →
           (cl c' i = cl c' j ↔ cl c i = cl c j)
           ∧ (cl c' i < cl c' j →
              (clusterTotal c nodeWeights (cl c j)
               <= clusterTotal c nodeWeights (cl c i))%Q))
      ∧ (∀ v, 1 ≤ v < nClusters c' →
              ∃ i, i < nNodes c ∧ cl c' i = v
                   ∧ (0 < clusterTotal c nodeWeights (cl c i))%Q)
      ∧ (∀ k, k < nClusters c → (0 < clusterTotal c nodeWeights k)%Q →
              ∃ i, i < nNodes c ∧ cl c' i = 0
                   ∧ (0 < clusterTotal c nodeWeights (cl c i))%Q
                   ∧ ∀ l, l < nClusters c →
                          (clusterTotal c nodeWeights l
                           <= clusterTotal c nodeWeights (cl c i))%Q).
  Proof.
    intros Hs Hr Hpos Hw.
    destruct (orderClustersByWeight_total c nodeWeights Hs Hr Hpos Hw)
      as [c' Hrun].
    destruct (orderClustersByWeight_partial c nodeWeights c' Hrun Hs)
      as (Hr' & Hs' & Hn').
    exists c'. split; [done|]. split; [done|]. split; [done|]. split; [done|].
    rewrite orderClustersByWeight_unfold in Hrun.
    assert (∀ i, i < nNodes c → cl c i < nClusters c) as Hcl.
    { intros i Hi. unfold ranged in Hr. rewrite Forall_lookup in Hr.
      apply (Hr i). apply lookup_nth. unfold sized in Hs. lia. }
    destruct (accumulate_loop (clusters c) nodeWeights (nNodes c) (nClusters c))
      as (cw & Hcw & Hlen & Hval); [unfold sized in Hs; lia|done|done|].
    unfold weights_loop in Hrun. rewrite Hcw in Hrun.
    cbn [mbind option_bind] in Hrun.
    destruct (numbering c cw) as [[nc i]|] eqn:Hnum; [|done].
    cbn [mbind option_bind] in Hrun.
    destruct (relabel nc (nNodes c) (clusters c)) as [cls|] eqn:Hrel; [|done].
    cbn [mbind option_bind] in Hrun. simplify_eq. simpl in *.
    apply relabel_partial in Hrel as [Hl Hrel]; [|unfold sized in Hs; lia].
    assert (∀ k, k < nClusters c →
                 (nth k cw 0 == clusterTotal c nodeWeights k)%Q) as Hweight.
    { intros k Hk. rewrite (Hval k Hk). reflexivity. }
    assert (∀ j, j < nNodes c →
                 cl (mk cls i (nNodes c)) j = nth (cl c j) nc 0) as Hnew.
    { intros j Hj. destruct (Hrel j Hj) as (ck & Hck & Heq & [v Hv]).
      unfold cl, cid. simpl. rewrite (lookup_nth_eq _ _ 0 _ Hck).
      rewrite Hv in Heq. rewrite (lookup_nth_eq _ _ 0 _ Heq).
      symmetry. by apply lookup_nth_eq. }
    destruct (numbering_value c cw Hlen nc i Hnum) as (Hi & _).
    rewrite js_sort_length, length_zip, length_seq, Hlen in Hi.
    split; [lia|]. split; [|split; [|split]].
    - intros j Hj Hle. rewrite (Hnew j Hj).
      apply (nonpositive_id c cw Hlen nc i Hnum); [by apply Hcl|].
      rewrite Hweight by (by apply Hcl). done.
    - intros j l Hj Hl0 Hpj Hpl. rewrite (Hnew j Hj), (Hnew l Hl0).
      rewrite <- (Hweight (cl c j)) in * by (by apply Hcl).
      rewrite <- (Hweight (cl c l)) in * by (by apply Hcl).
      split; [split|].
      + apply (positive_injective c cw Hlen nc i Hnum); by try apply Hcl.
      + by intros ->.
      + apply (positive_ordered c cw Hlen nc i Hnum); by try apply Hcl.
    - intros v Hv.
      destruct (id_used c cw Hlen nc i Hnum v ltac:(lia))
        as (k & Hk & Hid & Hp & _).
      specialize (Hp ltac:(lia)). rewrite (Hweight k Hk) in Hp.
      destruct (clusterTotal_member c nodeWeights k Hp) as (j & Hj & <-).
      exists j. split; [done|]. split; [|done]. by rewrite (Hnew j Hj).
    - intros k Hk Hp.
      destruct (id_used c cw Hlen nc i Hnum 0 ltac:(lia))
        as (k0 & Hk0 & Hid & _ & Hmax).
      pose proof (Hmax eq_refl k Hk) as Hle.
      rewrite (Hweight k Hk), (Hweight k0 Hk0) in Hle.
      assert (0 < clusterTotal c nodeWeights k0)%Q as Hp0 by lra.
      destruct (clusterTotal_member c nodeWeights k0 Hp0) as (j & Hj & Hk0j).
      exists j. split; [done|]. split; [by rewrite (Hnew j Hj), Hk0j|].
      rewrite Hk0j. split; [done|]. intros l Hlt.
      rewrite <- (Hweight l Hlt), <- (Hweight k0 Hk0). by apply Hmax.
  Qed.

  (** ** orderClustersByNNodes *)

Lemma clusterTotal_ones c k :
    (clusterTotal c (replicate (nNodes c) 1%Q) k
     == inject_Z (Z.of_nat (clusterSize c k)))%Q.
  Proof.
    unfold clusterTotal, clusterSize.
    rewrite <- (count_sum (λ i, cl c i = k)). apply sumN_ext. intros i Hi.
    by rewrite nth_replicate_lt.
  Qed.

Lemma clusterSize_member c i : i < nNodes c → 0 < clusterSize c (cl c i).
  Proof.
    intros Hi. unfold clusterSize.
    assert (i ∈ filter (λ j, cl c j = cl c i) (seq 0 (nNodes c))) as Hin.
    { apply list_elem_of_filter. split; [done|]. apply elem_of_seq. lia. }
    destruct (filter _ _); [by apply elem_of_nil in Hin|simpl; lia].
  Qed.

Lemma clusterSize_same c c' i :
    nNodes c' = nNodes c →
    (∀ j, j < nNodes c → cl c' j = cl c' i ↔ cl c j = cl c i) →
    clusterSize c' (cl c' i) = clusterSize c (cl c i).
  Proof.
    intros Hn Hsame. unfold clusterSize. rewrite Hn. f_equal.
    apply filter_ext_in. intros j Hj. apply elem_of_seq in Hj.
    apply Hsame. lia.
  Qed.
End OrderFacts.

Import Clustering ClusteringFacts ClusteringOps QualityFacts OrderFacts.

(** [orderClustersByWeight] on a clustering with one entry per node, ids
    below [nClusters] and at least one cluster: it returns; the nodes of
    every cluster whose total weight is not positive end in cluster 0;
    clusters of positive total weight stay apart and are numbered by
    decreasing total weight; every new id from 1 on is the id of a cluster of
    positive weight; and when some cluster has positive weight, cluster 0
    holds the nodes of a cluster of largest total weight. *)
Theorem orderClustersByWeight_orders (c : Clustering.t) (nodeWeights : list Q) :
  sized c → ranged c → 0 < nClusters c → nNodes c ≤ length nodeWeights →
  ∃ c', orderClustersByWeight c nodeWeights = Some c'
    ∧ sized c' ∧ ranged c' ∧ nNodes c' = nNodes c
    ∧ 1 ≤ nClusters c' ≤ nClusters c
    ∧ (∀ i, i < nNodes c → (clusterTotal c nodeWeights (cl c i) <= 0)%Q →
            cl c' i = 0)
    ∧ (∀ i j, i < nNodes c → j < nNodes c →
         (0 < clusterTotal c nodeWeights (cl c i))%Q →
         (0 < clusterTotal c nodeWeights (cl c j))%Q →
         (cl c' i = cl c' j ↔ cl c i = cl c j)
         ∧ (cl c' i < cl c' j →
            (clusterTotal c nodeWeights (cl c j)
             <= clusterTotal c nodeWeights (cl c i))%Q))
    ∧ (∀ v, 1 ≤ v < nClusters c' →
            ∃ i, i < nNodes c ∧ cl c' i = v
                 ∧ (0 < clusterTotal c nodeWeights (cl c i))%Q)
    ∧ (∀ k, k < nClusters c → (0 < clusterTotal c nodeWeights k)%Q →
            ∃ i, i < nNodes c ∧ cl c' i = 0
                 ∧ (0 < clusterTotal c nodeWeights (cl c i))%Q
                 ∧ ∀ l, l < nClusters c →
                        (clusterTotal c nodeWeights l
                         <= clusterTotal c nodeWeights (cl c i))%Q).
Proof.
  intros Hs Hr Hpos Hw.
  destruct (orderClustersByWeight_value c nodeWeights Hs Hr Hpos Hw)
    as (c' & Hrun & Hs' & Hr' & Hn & HK & Hzero & Hpart & Hused & Hfirst).
  exists c'. by repeat (split; [done|]).
Qed.

(** Five nodes in four clusters, the second of which has total weight 0. *)
Definition weighted_clusters : Clustering.t := Clustering.mk [0; 1; 2; 1; 3] 4 5.

Definition five_weights : list Q := [1; 0; 2; 0; 3]%Q.

Lemma orderClustersByWeight_orders_witness :
  ∃ c', orderClustersByWeight weighted_clusters five_weights = Some c'
    ∧ sized c' ∧ ranged c' ∧ nNodes c' = 5
    ∧ 1 ≤ nClusters c' ≤ 4
    ∧ (∀ i, i < 5 →
         (clusterTotal weighted_clusters five_weights
            (cl weighted_clusters i) <= 0)%Q →
         cl c' i = 0)
    ∧ (∀ i j, i < 5 → j < 5 →
         (0 < clusterTotal weighted_clusters five_weights
                (cl weighted_clusters i))%Q →
         (0 < clusterTotal weighted_clusters five_weights
                (cl weighted_clusters j))%Q →
         (cl c' i = cl c' j ↔ cl weighted_clusters i = cl weighted_clusters j)
         ∧ (cl c' i < cl c' j →
            (clusterTotal weighted_clusters five_weights
               (cl weighted_clusters j)
             <= clusterTotal weighted_clusters five_weights
                  (cl weighted_clusters i))%Q))
    ∧ (∀ v, 1 ≤ v < nClusters c' →
            ∃ i, i < 5 ∧ cl c' i = v
                 ∧ (0 < clusterTotal weighted_clusters five_weights
                          (cl weighted_clusters i))%Q)
    ∧ (∀ k, k < 4 →
            (0 < clusterTotal weighted_clusters five_weights k)%Q →
            ∃ i, i < 5 ∧ cl c' i = 0
                 ∧ (0 < clusterTotal weighted_clusters five_weights
                          (cl weighted_clusters i))%Q
                 ∧ ∀ l, l < 4 →
                        (clusterTotal weighted_clusters five_weights l
                         <= clusterTotal weighted_clusters five_weights
                              (cl weighted_clusters i))%Q).
Proof.
  apply (orderClustersByWeight_orders weighted_clusters five_weights).
  - reflexivity.
  - unfold ranged. simpl. repeat constructor; lia.
  - simpl. lia.
  - simpl. lia.
Defined.

(** [orderClustersByNNodes] on a clustering of at least one node, with one
    entry per node and ids below [nClusters]: it returns; two nodes share a
    cluster afterwards exactly when they did before; no cluster is empty
    afterwards; and the number of nodes of a cluster does not increase with
    its id. *)
Theorem orderClustersByNNodes_orders (c : Clustering.t) :
  sized c → ranged c → 0 < nNodes c →
  ∃ c', orderClustersByNNodes c = Some c'
    ∧ sized c' ∧ ranged c' ∧ nNodes c' = nNodes c
    ∧ (∀ i j, i < nNodes c → j < nNodes c →
              cl c' i = cl c' j ↔ cl c i = cl c j)
    ∧ no_empty_cluster c'
    ∧ (∀ v w, v ≤ w → w < nClusters c' → clusterSize c' w ≤ clusterSize c' v).
Proof.
  intros Hs Hr Hn.
  assert (∀ i, i < nNodes c → cl c i < nClusters c) as Hcl.
  { intros i Hi. unfold ranged in Hr. rewrite Forall_lookup in Hr.
    apply (Hr i). apply lookup_nth. unfold sized in Hs. lia. }
  pose proof (Hcl 0 Hn) as HK.
  destruct (orderClustersByWeight_value c (replicate (nNodes c) 1%Q) Hs Hr)
    as (c' & Hrun & Hs' & Hr' & Hn' & HK' & _ & Hpart & Hused & Hfirst);
    [lia|by rewrite length_replicate|].
  assert (∀ i, i < nNodes c →
               (0 < clusterTotal c (replicate (nNodes c) 1%Q) (cl c i))%Q)
    as Hpos.
  { intros i Hi. rewrite clusterTotal_ones.
    pose proof (clusterSize_member c i Hi).
    replace 0%Q with (inject_Z 0) by done. rewrite <- Zlt_Qlt. lia. }
  assert (∀ i j, i < nNodes c → j < nNodes c →
                 cl c' i = cl c' j ↔ cl c i = cl c j) as Hsame.
  { intros i j Hi Hj. by apply Hpart; try apply Hpos. }
  assert (no_empty_cluster c') as Hne.
  { intros v Hv. rewrite Hn'. destruct (decide (v = 0)) as [->|Hv0].
    - destruct (Hfirst (cl c 0) HK (Hpos 0 Hn)) as (i & Hi & Hid & _).
      by exists i.
    - destruct (Hused v ltac:(lia)) as (i & Hi & Hid & _). by exists i. }
  exists c'. split; [done|]. split; [done|]. split; [done|]. split; [done|].
  split; [done|]. split; [done|]. intros v w Hvw Hw.
  destruct (decide (v = w)) as [->|Hlt]; [done|].
  destruct (Hne v ltac:(lia)) as (i & Hi & <-).
  destruct (Hne w Hw) as (j & Hj & <-). rewrite Hn' in Hi, Hj.
  rewrite (clusterSize_same c c' i Hn'), (clusterSize_same c c' j Hn')
    by (intros; by apply Hsame).
  destruct (Hpart i j Hi Hj (Hpos i Hi) (Hpos j Hj)) as [_ Hle].
  specialize (Hle ltac:(lia)). rewrite !clusterTotal_ones in Hle.
  rewrite <- Zle_Qle in Hle. lia.
Qed.

(** Six nodes in clusters of sizes 1, 3, 0 and 2. *)
Definition uneven_clusters : Clustering.t :=
  Clustering.mk [3; 1; 1; 3; 1; 0] 4 6.

Lemma orderClustersByNNodes_orders_witness :
  ∃ c', orderClustersByNNodes uneven_clusters = Some c'
    ∧ sized c' ∧ ranged c' ∧ nNodes c' = 6
    ∧ (∀ i j, i < 6 → j < 6 →
              cl c' i = cl c' j ↔ cl uneven_clusters i = cl uneven_clusters j)
    ∧ no_empty_cluster c'
    ∧ (∀ v w, v ≤ w → w < nClusters c' → clusterSize c' w ≤ clusterSize c' v).
Proof.
  apply (orderClustersByNNodes_orders uneven_clusters).
  - reflexivity.
  - unfold ranged. simpl. repeat constructor; lia.
  - simpl. lia.
Defined.

(** * network.ts: the reduced network of a clustering *)

Module AggregateFacts.
Import Network NetworkFacts ClusteringFacts QualityFacts CPMFacts MembersFacts.

  (** The sum of the first [K] entries of an array, and the sum of [f] over
      the entries of a list of nodes. *)
Definition asum (a : list Q) (K : nat) : Q := sumN (λ x, nth x a 0%Q) K.

Definition lsum (f : nat → Q) (l : list nat) : Q :=
    sumN (λ p, f (nth p l 0)) (length l).

Lemma aset_nth_eq {A} (a : list A) i v a' d :
    aset a i v = Some a' → nth i a' d = v.
  Proof. intros H. apply lookup_nth_eq. by eapply aset_lookup_eq. Qed.

Lemma aset_nth_ne {A} (a : list A) i v a' k d :
    aset a i v = Some a' → k ≠ i → nth k a' d = nth k a d.
  Proof.
    intros [[? ->]|[-> ->]]%aset_inv Hne.
    - apply nth_insert_ne. by intros ->.
    - destruct (decide (k < length a)).
      + by rewrite app_nth1.
      + rewrite !nth_overflow; [done|lia|rewrite length_app; simpl; lia].
  Qed.

Lemma nth_take_lt {A} (l : list A) m k d :
    m < k → nth m (take k l) d = nth m l d.
  Proof. intros H. rewrite !nth_lookup. by rewrite lookup_take_lt. Qed.

Lemma asum_insert a x v K :
    x < K → x < length a →
    (asum (<[x:=v]> a) K == asum a K - nth x a 0 + v)%Q.
  Proof.
    intros Hx Hl. unfold asum.
    transitivity (sumN (λ y, nth y a 0
                             - (if decide (y = x) then nth y a 0 else 0)
                             + (if decide (y = x) then v else 0)) K)%Q.
    - apply sumN_ext. intros y Hy. destruct (decide (y = x)) as [->|Hne].
      + rewrite nth_insert_eq by done. ring.
      + rewrite nth_insert_ne by done. ring.
    - rewrite sumN_plus, sumN_minus.
      rewrite (sumN_delta' (λ y, nth y a 0%Q) K x Hx).
      rewrite (sumN_delta' (λ _, v) K x Hx). reflexivity.
  Qed.

Lemma lsum_snoc f l x : (lsum f (l ++ [x]) == lsum f l + f x)%Q.
  Proof.
    unfold lsum. rewrite length_app. simpl.
    replace (length l + 1) with (S (length l)) by lia. simpl.
    rewrite nth_middle.
    assert (sumN (λ p, f (nth p (l ++ [x]) 0%nat)) (length l)
            == sumN (λ p, f (nth p l 0%nat)) (length l))%Q as ->; [|reflexivity].
    apply sumN_ext. intros p Hp. rewrite app_nth1 by done. reflexivity.
  Qed.

Lemma members_sum c f k m :
    (lsum f (members c k m)
     == sumN (λ l, if decide (cl c l = k) then f l else 0) m)%Q.
  Proof.
    induction m as [|m IH]; [reflexivity|].
    rewrite members_S. simpl sumN. destruct (decide (cl c m = k)).
    - rewrite lsum_snoc, IH. reflexivity.
    - rewrite app_nil_r, IH. ring.
  Qed.

Lemma partition_sum c (h : nat → nat → Q) m K :
    (∀ l, l < m → cl c l < K) →
    (sumN (λ k, sumN (λ l, if decide (cl c l = k) then h k l else 0) m) K
     == sumN (λ l, h (cl c l) l) m)%Q.
  Proof.
    intros Hcl.
    rewrite (sumN_swap (λ k l, if decide (cl c l = k) then h k l else 0%Q)).
    apply sumN_ext. intros l Hl.
    exact (sumN_delta (λ k, h k l) K (cl c l) (Hcl l Hl)).
  Qed.

Section Reduce.
Context (net : Network.t) (c : Clustering.t).
Context (Hwf : wf net) (Hc : clustering_of net c).
Local Abbreviation N := (nNodes net).
Local Abbreviation K := (Clustering.nClusters c).

    (** The weight of stored edge [m] when it leads into cluster [i], and
        when it leads out of it. *)
Definition edgeIn (i m : nat) : Q :=
      if decide (cl c (nbr net m) = i) then ew net m else 0%Q.

Definition edgeOut (i m : nat) : Q :=
      if decide (cl c (nbr net m) = i) then 0%Q else ew net m.

Definition nodeSum (g : nat → Q) (l : nat) : Q :=
      sumR g (fni net l) (fni net (l + 1)).

    (** ** The loops over the nodes of cluster [i] and their edges *)

Record scan (i : nat) (s0 : reduce_state) (wi A B : Q)
        (s : reduce_state) (j : nat) : Prop := {
      scan_nE : rNEdges s = rNEdges s0;
      scan_fni : rFirstNeighborIndices s = rFirstNeighborIndices s0;
      scan_nb1 : reducedNetworkNeighbors1 s = reducedNetworkNeighbors1 s0;
      scan_ew1 : reducedNetworkEdgeWeights1 s = reducedNetworkEdgeWeights1 s0;
      scan_nw_len : length (rNodeWeights s) = K;
      scan_nw_i : (nth i (rNodeWeights s) 0 == wi)%Q;
      scan_nw_other : ∀ k, k ≠ i →
        nth k (rNodeWeights s) 0%Q = nth k (rNodeWeights s0) 0%Q;
      scan_self : (rTotalEdgeWeightSelfLinks s == A)%Q;
      scan_ew2_len : length (reducedNetworkEdgeWeights2 s) = K;
      scan_ew2_sum : (asum (reducedNetworkEdgeWeights2 s) K == B)%Q;
      scan_listed : ∀ x, x < K →
        ¬ (nth x (reducedNetworkEdgeWeights2 s) 0 == 0)%Q →
        ∃ t, t < j ∧ nth t (reducedNetworkNeighbors2 s) 0 = x;
      scan_nb2 : ∀ t, t < j →
        nth t (reducedNetworkNeighbors2 s) 0 < K
        ∧ nth t (reducedNetworkNeighbors2 s) 0 ≠ i;
      scan_nb2_len : j ≤ length (reducedNetworkNeighbors2 s);
    }.

Lemma scan_eq i s0 wi A B wi' A' B' s j :
      scan i s0 wi A B s j → (wi == wi')%Q → (A == A')%Q → (B == B')%Q →
      scan i s0 wi' A' B' s j.
    Proof.
      intros [] Hw HA HB. constructor; try done.
      - by rewrite <- Hw.
      - by rewrite <- HA.
      - by rewrite <- HB.
    Qed.

Lemma reduce_edge_scan i s0 wi A B s j m :
      i < K → m < nEdges net → scan i s0 wi A B s j →
      ∃ s' j', reduce_edge net c i m (s, j) = Some (s', j')
               ∧ scan i s0 wi (A + edgeIn i m) (B + edgeOut i m) s' j'.
    Proof.
      intros Hi Hm Hs.
      pose proof Hs as [HnE Hfni Hnb1 Hew1 Hnwl Hnwi Hnwo Hself Hl2 Hsum
                          Hlisted Hnb2 Hjl].
      unfold reduce_edge.
      rewrite (nbr_lookup net Hwf m Hm). cbn [mbind option_bind].
      assert (nbr net m < N) as Hnb by (by apply (wf_neighbors_range _ Hwf)).
      rewrite (cl_lookup net c _ Hc Hnb). cbn [mbind option_bind].
      rewrite (ew_lookup net Hwf m Hm). cbn [mbind option_bind].
      pose proof (cl_lt net c _ Hc Hnb) as Hx.
      unfold edgeIn, edgeOut.
      destruct (decide (cl c (nbr net m) = i)) as [Heq|Hne].
      - rewrite decide_False by (intros H; by apply H).
        eexists _, _. split; [reflexivity|].
        constructor; simpl; try done.
        + rewrite Hself. reflexivity.
        + rewrite Hsum. ring.
      - rewrite decide_True by done.
        rewrite (aget_nth _ (cl c (nbr net m)) 0%Q) by lia.
        cbn [mbind option_bind]. unfold aaddQ.
        rewrite (aget_nth _ (cl c (nbr net m)) 0%Q) by lia.
        cbn [mbind option_bind].
        rewrite (aset_lt (reducedNetworkEdgeWeights2 s)) by lia.
        destruct (Qis0 (nth (cl c (nbr net m))
                          (reducedNetworkEdgeWeights2 s) 0%Q)) eqn:Hold.
        + destruct (aset_le (reducedNetworkNeighbors2 s) j
                      (cl c (nbr net m)) Hjl) as [nb2' Hset].
          rewrite Hset. cbn [mbind option_bind].
          eexists _, _. split; [reflexivity|].
          apply Qis0_true in Hold.
          constructor; simpl; try done.
          * rewrite Hself. ring.
          * by rewrite length_insert.
          * rewrite asum_insert by lia. rewrite Hsum. ring.
          * intros y Hy Hnz.
            destruct (decide (y = cl c (nbr net m))) as [->|Hyx].
            -- exists j. split; [lia|]. by eapply aset_nth_eq.
            -- rewrite nth_insert_ne in Hnz by done.
               destruct (Hlisted y Hy Hnz) as (t & Ht & Hv).
               exists t. split; [lia|].
               rewrite (aset_nth_ne _ _ _ _ t 0 Hset) by lia. done.
          * intros t Ht. destruct (decide (t = j)) as [->|Htj].
            -- rewrite (aset_nth_eq _ _ _ _ 0 Hset). done.
            -- rewrite (aset_nth_ne _ _ _ _ t 0 Hset) by done.
               apply Hnb2. lia.
          * apply aset_index_lt in Hset. lia.
        + cbn [mbind option_bind].
          eexists _, _. split; [reflexivity|].
          apply Qis0_false in Hold.
          constructor; simpl; try done.
          * rewrite Hself. ring.
          * by rewrite length_insert.
          * rewrite asum_insert by lia. rewrite Hsum. ring.
          * intros y Hy Hnz.
            destruct (decide (y = cl c (nbr net m))) as [->|Hyx].
            -- by apply Hlisted.
            -- rewrite nth_insert_ne in Hnz by done. by apply Hlisted.
    Qed.

Lemma reduce_edges_scan i s0 wi A B s j l :
      i < K → l < N → scan i s0 wi A B s j →
      ∃ s' j',
        for_range (fni net l) (fni net (l + 1)) (reduce_edge net c i) (s, j)
        = Some (s', j')
        ∧ scan i s0 wi (A + nodeSum (edgeIn i) l) (B + nodeSum (edgeOut i) l)
            s' j'.
    Proof.
      intros Hi Hl Hs.
      destruct (for_range_total
        (λ m (st : reduce_state * nat),
           scan i s0 wi (A + sumR (edgeIn i) (fni net l) m)
             (B + sumR (edgeOut i) (fni net l) m) st.1 st.2)
        (reduce_edge net c i) (fni net l) (fni net (l + 1)) (s, j))
        as ([s' j'] & Hrun & Hpost).
      - by apply slice_le.
      - simpl. eapply scan_eq; [done|reflexivity|..];
          rewrite sumR_empty by lia; ring.
      - intros m [s1 j1] Hm Hs1. simpl in Hs1.
        assert (m < nEdges net) as Hme
          by (apply (slice_lt net Hwf l); [done|lia]).
        destruct (reduce_edge_scan i s0 wi _ _ s1 j1 m Hi Hme Hs1) as
          (s2 & j2 & Hstep & Hs2).
        exists (s2, j2). split; [done|]. simpl.
        eapply scan_eq; [done|reflexivity|..]; rewrite sumR_S by lia; ring.
      - exists s', j'. split; [done|]. done.
    Qed.

Lemma reduce_node_scan i s0 wi A B s j nodes k :
      i < K → k < length nodes → nth k nodes 0 < N →
      scan i s0 wi A B s j →
      ∃ s' j', reduce_node net c i nodes k (s, j) = Some (s', j')
        ∧ scan i s0 (wi + nw net (nth k nodes 0))
            (A + nodeSum (edgeIn i) (nth k nodes 0))
            (B + nodeSum (edgeOut i) (nth k nodes 0)) s' j'.
    Proof.
      intros Hi Hk Hl Hs.
      pose proof Hs as [HnE Hfni Hnb1 Hew1 Hnwl Hnwi Hnwo Hself Hl2 Hsum
                          Hlisted Hnb2 Hjl].
      unfold reduce_node. rewrite (aget_nth nodes k 0) by done.
      cbn [mbind option_bind].
      rewrite (nw_lookup net Hwf _ Hl). cbn [mbind option_bind].
      unfold aaddQ. rewrite (aget_nth _ i 0%Q) by lia.
      cbn [mbind option_bind]. rewrite (aset_lt (rNodeWeights s)) by lia.
      cbn [mbind option_bind].
      rewrite (fni_lookup net Hwf (nth k nodes 0)) by lia.
      cbn [mbind option_bind].
      rewrite (fni_lookup net Hwf (nth k nodes 0 + 1)) by lia.
      cbn [mbind option_bind].
      apply reduce_edges_scan; [done|done|].
      constructor; simpl; try done.
      - by rewrite length_insert.
      - rewrite nth_insert_eq by lia. rewrite Hnwi. reflexivity.
      - intros k' Hk'. rewrite nth_insert_ne by done. by apply Hnwo.
    Qed.

Lemma reduce_nodes_scan i s0 wi A B nodes :
      i < K → Forall (λ l, l < N) nodes → scan i s0 wi A B s0 0 →
      ∃ s' j',
        for_range 0 (length nodes) (reduce_node net c i nodes) (s0, 0)
        = Some (s', j')
        ∧ scan i s0 (wi + lsum (nw net) nodes)
            (A + lsum (nodeSum (edgeIn i)) nodes)
            (B + lsum (nodeSum (edgeOut i)) nodes) s' j'.
    Proof.
      intros Hi Hnodes Hs.
      destruct (for_range_total
        (λ k (st : reduce_state * nat),
           scan i s0 (wi + sumN (λ p, nw net (nth p nodes 0)) k)
             (A + sumN (λ p, nodeSum (edgeIn i) (nth p nodes 0)) k)
             (B + sumN (λ p, nodeSum (edgeOut i) (nth p nodes 0)) k)
             st.1 st.2)
        (reduce_node net c i nodes) 0 (length nodes) (s0, 0))
        as ([s' j'] & Hrun & Hpost).
      - lia.
      - simpl. eapply scan_eq; [done|..]; ring.
      - intros k [s1 j1] Hk Hs1. simpl in Hs1.
        assert (nth k nodes 0 < N) as Hkn.
        { rewrite Forall_lookup in Hnodes. apply (Hnodes k).
          apply lookup_nth. lia. }
        destruct (reduce_node_scan i s0 _ _ _ s1 j1 nodes k Hi ltac:(lia) Hkn
                    Hs1) as (s2 & j2 & Hstep & Hs2).
        exists (s2, j2). split; [done|]. simpl.
        eapply scan_eq; [done|..]; ring.
      - exists s', j'. split; [done|]. done.
    Qed.

    (** ** The loop that copies the neighbouring clusters *)

Record flush_inv (s1 : reduce_state) (j k : nat) (s : reduce_state)
      : Prop := {
      fl_nE : rNEdges s = rNEdges s1;
      fl_nw : rNodeWeights s = rNodeWeights s1;
      fl_fni : rFirstNeighborIndices s = rFirstNeighborIndices s1;
      fl_self : rTotalEdgeWeightSelfLinks s = rTotalEdgeWeightSelfLinks s1;
      fl_nb2 : reducedNetworkNeighbors2 s = reducedNetworkNeighbors2 s1;
      fl_ew2_len : length (reducedNetworkEdgeWeights2 s) = K;
      fl_nb1_len : rNEdges s1 + k ≤ length (reducedNetworkNeighbors1 s);
      fl_ew1_len : rNEdges s1 + k ≤ length (reducedNetworkEdgeWeights1 s);
      fl_nb1_below : ∀ m, m < rNEdges s1 →
        nth m (reducedNetworkNeighbors1 s) 0
        = nth m (reducedNetworkNeighbors1 s1) 0;
      fl_ew1_below : ∀ m, m < rNEdges s1 →
        nth m (reducedNetworkEdgeWeights1 s) 0%Q
        = nth m (reducedNetworkEdgeWeights1 s1) 0%Q;
      fl_copied : ∀ t, t < k →
        nth (rNEdges s1 + t) (reducedNetworkNeighbors1 s) 0
        = nth t (reducedNetworkNeighbors2 s1) 0;
      fl_sum :
        (sumR (λ m, nth m (reducedNetworkEdgeWeights1 s) 0)
           (rNEdges s1) (rNEdges s1 + k)
         + asum (reducedNetworkEdgeWeights2 s) K
         == asum (reducedNetworkEdgeWeights2 s1) K)%Q;
      fl_listed : ∀ x, x < K →
        ¬ (nth x (reducedNetworkEdgeWeights2 s) 0 == 0)%Q →
        ∃ t, k ≤ t < j ∧ nth t (reducedNetworkNeighbors2 s1) 0 = x;
    }.

Lemma reduce_flush_step s1 j k s :
      (∀ t, t < j → nth t (reducedNetworkNeighbors2 s1) 0 < K) →
      j ≤ length (reducedNetworkNeighbors2 s1) → k < j →
      flush_inv s1 j k s →
      ∃ s', reduce_flush k s = Some s' ∧ flush_inv s1 j (S k) s'.
    Proof.
      intros Hrange Hjl Hk [HnE Hnw Hfni Hself Hnb2 Hl2 Hl1 Hle1 Hb1 Hbe1
                              Hcopied Hsum Hlisted].
      unfold reduce_flush. rewrite Hnb2, HnE.
      rewrite (aget_nth _ k 0) by lia. cbn [mbind option_bind].
      pose proof (Hrange k Hk) as Hx.
      set (x := nth k (reducedNetworkNeighbors2 s1) 0) in *.
      destruct (aset_le (reducedNetworkNeighbors1 s) (rNEdges s1 + k) x Hl1)
        as [nb1' Hset1].
      rewrite Hset1. cbn [mbind option_bind].
      rewrite (aget_nth _ x 0%Q) by lia. cbn [mbind option_bind].
      set (w := nth x (reducedNetworkEdgeWeights2 s) 0%Q) in *.
      destruct (aset_le (reducedNetworkEdgeWeights1 s) (rNEdges s1 + k) w Hle1)
        as [ew1' Hsetw].
      rewrite Hsetw. cbn [mbind option_bind].
      rewrite (aset_lt (reducedNetworkEdgeWeights2 s)) by lia.
      cbn [mbind option_bind].
      eexists. split; [reflexivity|].
      constructor; simpl; try done.
      - by rewrite length_insert.
      - apply aset_index_lt in Hset1. lia.
      - apply aset_index_lt in Hsetw. lia.
      - intros m Hm. rewrite (aset_nth_ne _ _ _ _ m 0 Hset1) by lia.
        by apply Hb1.
      - intros m Hm. rewrite (aset_nth_ne _ _ _ _ m 0%Q Hsetw) by lia.
        by apply Hbe1.
      - intros t Ht. destruct (decide (t = k)) as [->|Hne].
        + by rewrite (aset_nth_eq _ _ _ _ 0 Hset1).
        + rewrite (aset_nth_ne _ _ _ _ (rNEdges s1 + t) 0 Hset1) by lia.
          apply Hcopied. lia.
      - replace (rNEdges s1 + S k) with (S (rNEdges s1 + k)) by lia.
        rewrite sumR_S by lia. rewrite (aset_nth_eq _ _ _ _ 0%Q Hsetw).
        rewrite asum_insert by lia. fold w.
        assert (sumR (λ m, nth m ew1' 0%Q) (rNEdges s1) (rNEdges s1 + k)
                == sumR (λ m, nth m (reducedNetworkEdgeWeights1 s) 0%Q)
                     (rNEdges s1) (rNEdges s1 + k))%Q as ->.
        { apply sumR_ext. intros m Hm.
          rewrite (aset_nth_ne _ _ _ _ m 0%Q Hsetw) by lia. reflexivity. }
        rewrite <- Hsum. ring.
      - intros y Hy Hnz. destruct (decide (y = x)) as [->|Hyx].
        + rewrite nth_insert_eq in Hnz by lia. by destruct Hnz.
        + rewrite nth_insert_ne in Hnz by done.
          destruct (Hlisted y Hy Hnz) as (t & Ht & Hv).
          exists t. split; [|done].
          destruct (decide (t = k)) as [->|]; [|lia]. by destruct Hyx.
    Qed.

Lemma reduce_flush_loop s1 j :
      (∀ t, t < j → nth t (reducedNetworkNeighbors2 s1) 0 < K) →
      j ≤ length (reducedNetworkNeighbors2 s1) →
      flush_inv s1 j 0 s1 →
      ∃ s', for_range 0 j reduce_flush s1 = Some s' ∧ flush_inv s1 j j s'.
    Proof.
      intros Hrange Hjl H0.
      apply (for_range_total (flush_inv s1 j)); [lia|done|].
      intros k s Hk Hinv. apply reduce_flush_step; [done|done|lia|done].
    Qed.

    (** ** The loop over the clusters *)

Definition IN (k : nat) : Q := lsum (nodeSum (edgeIn k)) (members c k N).

Definition OUT (k : nat) : Q := lsum (nodeSum (edgeOut k)) (members c k N).

Record reduced_upto (i : nat) (s : reduce_state) : Prop := {
      rd_nb1_len : rNEdges s ≤ length (reducedNetworkNeighbors1 s);
      rd_ew1_len : rNEdges s ≤ length (reducedNetworkEdgeWeights1 s);
      rd_nw_len : length (rNodeWeights s) = K;
      rd_nw_done : ∀ k, k < i →
        (nth k (rNodeWeights s) 0 == clusterWeight net c k)%Q;
      rd_nw_todo : ∀ k, i ≤ k → (nth k (rNodeWeights s) 0 == 0)%Q;
      rd_fni_len : length (rFirstNeighborIndices s) = K + 1;
      rd_fni_0 : nth 0 (rFirstNeighborIndices s) 0 = 0;
      rd_fni_mono : ∀ k, k < i →
        nth k (rFirstNeighborIndices s) 0
        ≤ nth (k + 1) (rFirstNeighborIndices s) 0;
      rd_fni_i : nth i (rFirstNeighborIndices s) 0 = rNEdges s;
      rd_range : ∀ m, m < rNEdges s →
        nth m (reducedNetworkNeighbors1 s) 0 < K;
      rd_noself : ∀ k m, k < i →
        nth k (rFirstNeighborIndices s) 0 ≤ m
        < nth (k + 1) (rFirstNeighborIndices s) 0 →
        nth m (reducedNetworkNeighbors1 s) 0 ≠ k;
      rd_ew2_len : length (reducedNetworkEdgeWeights2 s) = K;
      rd_ew2_zero : ∀ x, x < K →
        (nth x (reducedNetworkEdgeWeights2 s) 0 == 0)%Q;
      rd_self :
        (rTotalEdgeWeightSelfLinks s
         == totalEdgeWeightSelfLinks net + sumN IN i)%Q;
      rd_out :
        (sumN (λ m, nth m (reducedNetworkEdgeWeights1 s) 0) (rNEdges s)
         == sumN OUT i)%Q;
    }.

Lemma reduced_fni_le i s :
      reduced_upto i s →
      ∀ k, k ≤ i → nth k (rFirstNeighborIndices s) 0 ≤ rNEdges s.
    Proof.
      intros Hs k Hk. rewrite <- (rd_fni_i _ _ Hs).
      assert (∀ d, k + d ≤ i →
                   nth k (rFirstNeighborIndices s) 0
                   ≤ nth (k + d) (rFirstNeighborIndices s) 0) as Hgen.
      { induction d as [|d IH]; intros Hd.
        - by rewrite Nat.add_0_r.
        - etransitivity; [apply IH; lia|].
          replace (k + S d) with (k + d + 1) by lia.
          apply (rd_fni_mono _ _ Hs). lia. }
      specialize (Hgen (i - k) ltac:(lia)).
      by replace (k + (i - k)) with i in Hgen by lia.
    Qed.

Lemma members_nodes k : Forall (λ l, l < N) (members c k N).
    Proof.
      apply Forall_forall. intros l Hl. by apply elem_of_members in Hl as [_ ?].
    Qed.

Lemma reduce_cluster_total npc i s :
      i < K → npc !! i = Some (members c i N) → reduced_upto i s →
      ∃ s', reduce_cluster net c npc i s = Some s' ∧ reduced_upto (S i) s'.
    Proof.
      intros Hi Hnpc Hs.
      pose proof Hs as [Hl1 Hle1 Hnwl Hdone Htodo Hfl Hf0 Hmono Hfi Hrange
                          Hnoself Hel2 Hzero Hself Hout].
      unfold reduce_cluster, aget. rewrite Hnpc. cbn [mbind option_bind].
      destruct (reduce_nodes_scan i s (nth i (rNodeWeights s) 0%Q)
                  (rTotalEdgeWeightSelfLinks s) 0 (members c i N) Hi
                  (members_nodes i))
        as (s1 & j & -> & Hscan).
      { constructor; try done; try reflexivity.
        - apply sumN_zero. intros x Hx. by apply Hzero.
        - intros x Hx Hnz. by destruct Hnz; apply Hzero.
        - intros t Ht. lia.
        - lia. }
      cbn [mbind option_bind].
      pose proof Hscan as [HnE Hfni Hnb1 Hew1 Hnwl1 Hnwi Hnwo Hself1 Hl21 Hsum
                             Hlisted Hnb2 Hjl].
      destruct (reduce_flush_loop s1 j) as (s2 & -> & Hflush).
      { intros t Ht. by apply Hnb2. }
      { done. }
      { constructor; try done.
        - rewrite Hnb1, HnE. lia.
        - rewrite Hew1, HnE. lia.
        - intros t Ht. lia.
        - rewrite Nat.add_0_r, sumR_empty by lia. ring.
        - intros x Hx Hnz. destruct (Hlisted x Hx Hnz) as (t & Ht & Hv).
          exists t. split; [lia|done]. }
      cbn [mbind option_bind].
      destruct Hflush as [HnE2 Hnw2 Hfni2 Hself2 Hnb22 Hl22 Hl12 Hle12 Hb1 Hbe1
                            Hcopied Hsum2 Hlisted2].
      assert (∀ x, x < K →
                (nth x (reducedNetworkEdgeWeights2 s2) 0 == 0)%Q) as Hzero2.
      { intros x Hx.
        destruct (Qeq_dec (nth x (reducedNetworkEdgeWeights2 s2) 0%Q) 0%Q)
          as [|Hnz]; [done|].
        destruct (Hlisted2 x Hx Hnz) as (t & Ht & _). lia. }
      rewrite aset_lt by (rewrite Hfni2, Hfni, Hfl; lia).
      cbn [mbind option_bind]. eexists. split; [reflexivity|].
      rewrite HnE2, HnE, Hfni2, Hfni, Hnw2, Hself2.
      constructor; simpl.
      - lia.
      - lia.
      - done.
      - intros k Hk. destruct (decide (k = i)) as [->|Hne].
        + rewrite Hnwi. rewrite (Htodo i) by lia.
          rewrite members_sum. unfold clusterWeight. ring.
        + rewrite (Hnwo k Hne). apply Hdone. lia.
      - intros k Hk. rewrite (Hnwo k) by lia. apply Htodo. lia.
      - by rewrite length_insert.
      - rewrite nth_insert_ne by lia. done.
      - intros k Hk. destruct (decide (k = i)) as [->|Hne].
        + rewrite nth_insert_ne by lia.
          rewrite nth_insert_eq by (rewrite Hfl; lia). lia.
        + rewrite !nth_insert_ne by lia. apply Hmono. lia.
      - replace (S i) with (i + 1) by lia.
        rewrite nth_insert_eq by (rewrite Hfl; lia). done.
      - intros m Hm. destruct (decide (m < rNEdges s)) as [Hlt|Hge].
        + rewrite (Hb1 m) by lia. rewrite Hnb1. by apply Hrange.
        + replace m with (rNEdges s1 + (m - rNEdges s)) by lia.
          rewrite Hcopied by lia. apply Hnb2. lia.
      - intros k m Hk Hm. destruct (decide (k = i)) as [->|Hne].
        + rewrite nth_insert_ne in Hm by lia.
          rewrite nth_insert_eq in Hm by (rewrite Hfl; lia).
          replace m with (rNEdges s1 + (m - rNEdges s)) by lia.
          rewrite Hcopied by lia. apply Hnb2. lia.
        + rewrite !nth_insert_ne in Hm by lia.
          pose proof (reduced_fni_le i s Hs (k + 1) ltac:(lia)).
          rewrite (Hb1 m) by lia. rewrite Hnb1. apply Hnoself; [lia|done].
      - done.
      - done.
      - cbn [sumN]. rewrite Hself1, Hself. unfold IN. ring.
      - cbn [sumN]. rewrite <- sumR_0.
        rewrite (sumR_split _ 0 (rNEdges s) (rNEdges s + j)) by lia.
        rewrite sumR_0.
        assert (sumN (λ m, nth m (reducedNetworkEdgeWeights1 s2) 0%Q)
                  (rNEdges s)
                == sumN OUT i)%Q as ->.
        { rewrite <- Hout. apply sumN_ext. intros m Hm.
          rewrite (Hbe1 m) by lia. by rewrite Hew1. }
        rewrite HnE in Hsum2.
        assert (asum (reducedNetworkEdgeWeights2 s2) K == 0)%Q as Hz
          by (by apply sumN_zero).
        rewrite Hz, Hsum in Hsum2. unfold OUT in *.
        rewrite <- (Qplus_0_r (sumR _ _ _)), Hsum2. ring.
    Qed.

Lemma nth_zeros k m : nth k (replicate m 0%Q) 0%Q = 0%Q.
    Proof.
      destruct (decide (k < m)); [by apply nth_replicate_lt|].
      apply nth_overflow. rewrite length_replicate. lia.
    Qed.

Lemma reduce_clusters_total npc nb2 :
      (∀ k, k < K → npc !! k = Some (members c k N)) →
      ∃ s,
        for_range 0 K (reduce_cluster net c npc)
          (mkRS 0 (replicate K 0%Q) (replicate (K + 1) 0)
             (totalEdgeWeightSelfLinks net)
             (replicate (nEdges net) 0) (replicate (nEdges net) 0%Q)
             nb2 (replicate K 0%Q)) = Some s
        ∧ reduced_upto K s.
    Proof.
      intros Hrows. apply (for_range_total reduced_upto); [lia| |].
      - constructor; simpl; try (intros; lia).
        + by rewrite length_replicate.
        + intros k _. by rewrite nth_zeros.
        + by rewrite length_replicate.
        + apply nth_replicate_lt. lia.
        + apply nth_replicate_lt. lia.
        + by rewrite length_replicate.
        + intros x _. by rewrite nth_zeros.
        + ring.
        + reflexivity.
      - intros i s Hi Hs. apply reduce_cluster_total; [lia|apply Hrows; lia|done].
    Qed.

Lemma IN_total : (sumN IN K == edge_term net c)%Q.
    Proof.
      unfold IN.
      transitivity (sumN (λ k, sumN (λ l, if decide (cl c l = k)
                                          then nodeSum (edgeIn k) l else 0) N)
                      K)%Q.
      { apply sumN_ext. intros k _. apply members_sum. }
      rewrite (partition_sum c (λ k l, nodeSum (edgeIn k) l) N K)
        by (intros l Hl; by apply (cl_lt net)).
      reflexivity.
    Qed.

Lemma IN_OUT_total :
      (sumN OUT K + sumN IN K == calcSum (edgeWeights net))%Q.
    Proof.
      rewrite <- sumN_plus.
      transitivity (sumN (λ k, sumN (λ l, if decide (cl c l = k)
                                          then nodeSum (ew net) l else 0) N)
                      K)%Q.
      { apply sumN_ext. intros k _. unfold OUT, IN. rewrite !members_sum.
        rewrite <- sumN_plus. apply sumN_ext. intros l _.
        case_decide; [|ring]. unfold nodeSum. rewrite <- sumR_plus.
        apply sumR_ext. intros m _. unfold edgeIn, edgeOut.
        case_decide; ring. }
      rewrite (partition_sum c (λ _ l, nodeSum (ew net) l) N K)
        by (intros l Hl; by apply (cl_lt net)).
      unfold nodeSum. rewrite (sum_slices net Hwf (ew net) N) by lia.
      rewrite (wf_fni_last _ Hwf), sumR_0, calcSum_sumN.
      rewrite (wf_edgeWeights_length _ Hwf). reflexivity.
    Qed.

Lemma nodeWeights_total :
      (sumN (clusterWeight net c) K == calcSum (nodeWeights net))%Q.
    Proof.
      unfold clusterWeight.
      rewrite (partition_sum c (λ _ l, nw net l) N K)
        by (intros l Hl; by apply (cl_lt net)).
      rewrite calcSum_sumN, (wf_nodeWeights _ Hwf). reflexivity.
    Qed.

Lemma createReducedNetwork_value :
      0 < K →
      ∃ r, createReducedNetwork net c = Some r
        ∧ wf r ∧ no_self_loops r ∧ nNodes r = K
        ∧ (∀ k, k < K → (nw r k == clusterWeight net c k)%Q)
        ∧ (totalEdgeWeightSelfLinks r
           == totalEdgeWeightSelfLinks net + edge_term net c)%Q
        ∧ (calcSum (edgeWeights r) + totalEdgeWeightSelfLinks r
           == calcSum (edgeWeights net) + totalEdgeWeightSelfLinks net)%Q.
    Proof.
      intros HK. unfold createReducedNetwork, newArray.
      rewrite decide_True by lia. cbn [mbind option_bind].
      pose proof Hc as [Hlc Hnc Hrc].
      assert (sized c) as Hsc by (unfold sized; lia).
      destruct (getNodesPerCluster_value c Hsc Hrc) as (npc & -> & Hlen & Hrows).
      cbn [mbind option_bind]. rewrite Hnc in Hrows.
      destruct (reduce_clusters_total npc
                  (replicate (Z.to_nat (Z.of_nat K - 1)) 0) Hrows)
        as (s & -> & Hs).
      cbn [mbind option_bind]. eexists. split; [reflexivity|].
      pose proof Hs as [Hl1 Hle1 Hnwl Hdone Htodo Hfl Hf0 Hmono Hfi Hrange
                          Hnoself Hel2 Hzero Hself Hout].
      split; [|split; [|split; [|split; [|split]]]].
      - constructor; simpl; try done.
        + by rewrite length_take, Nat.min_l.
        + by rewrite length_take, Nat.min_l.
        + intros k Hk. unfold nbr. simpl. rewrite nth_take_lt by done.
          by apply Hrange.
      - intros i k Hi Hk. unfold fni, nbr in *. simpl in *.
        pose proof (reduced_fni_le K s Hs (i + 1) ltac:(lia)).
        rewrite nth_take_lt by lia. by apply Hnoself.
      - done.
      - intros k Hk. unfold nw. simpl. by apply Hdone.
      - simpl. rewrite Hself, IN_total. reflexivity.
      - simpl. rewrite calcSum_sumN, length_take, Nat.min_l by done.
        assert (sumN (λ i, nth i (take (rNEdges s)
                                    (reducedNetworkEdgeWeights1 s)) 0%Q)
                  (rNEdges s) == sumN OUT K)%Q as ->.
        { rewrite <- Hout. apply sumN_ext. intros m Hm.
          by rewrite nth_take_lt. }
        rewrite Hself, <- IN_OUT_total. ring.
    Qed.
End Reduce.

  (** ** The quality on the reduced network *)

Lemma reduced_quality resolution net c r :
    wf net → clustering_of net c → wf r → no_self_loops r →
    nNodes r = Clustering.nClusters c →
    (∀ k, k < Clustering.nClusters c → (nw r k == clusterWeight net c k)%Q) →
    (totalEdgeWeightSelfLinks r
     == totalEdgeWeightSelfLinks net + edge_term net c)%Q →
    (calcSum (edgeWeights r) + totalEdgeWeightSelfLinks r
     == calcSum (edgeWeights net) + totalEdgeWeightSelfLinks net)%Q →
    (cpm_denominator r == cpm_denominator net)%Q
    ∧ (cpm_numerator resolution r (Clustering.initializeBasedOnNNodes (nNodes r))
       == cpm_numerator resolution net c)%Q.
  Proof.
    intros Hwf Hc Hwfr Hns Hn Hnw Hself Htotal. split.
    - unfold cpm_denominator.
      rewrite (totalUndirected_calcSum r Hwfr).
      rewrite (totalUndirected_calcSum net Hwf). done.
    - unfold cpm_numerator.
      rewrite (sumN_zero (λ i, sumN _ (nNodes r))).
      2:{ intros i Hi. apply sumN_zero. intros j Hj.
          rewrite !cl_singleton by done. case_decide; [subst j|reflexivity].
          unfold adj. apply sumR_zero. intros k Hk.
          case_decide; [|reflexivity]. exfalso. by eapply (Hns i k). }
      rewrite <- (edge_term_spec net c Hwf), Hself.
      assert (∀ k, k < Clustering.nClusters c →
                (clusterWeight r (Clustering.initializeBasedOnNNodes (nNodes r)) k
                 == clusterWeight net c k)%Q) as Hcw.
      { intros k Hk. rewrite <- (Hnw k Hk). unfold clusterWeight.
        rewrite <- (sumN_delta' (nw r) (nNodes r) k) by lia.
        apply sumN_ext. intros i Hi. by rewrite cl_singleton. }
      change (Clustering.nClusters
                (Clustering.initializeBasedOnNNodes (nNodes r)))
        with (nNodes r).
      rewrite Hn.
      assert (sumN (λ k, clusterWeight r
                           (Clustering.initializeBasedOnNNodes
                              (Clustering.nClusters c)) k
                         * clusterWeight r
                             (Clustering.initializeBasedOnNNodes
                                (Clustering.nClusters c)) k)
                (Clustering.nClusters c)
              == sumN (λ k, clusterWeight net c k * clusterWeight net c k)
                   (Clustering.nClusters c))%Q as ->; [|ring].
      apply sumN_ext. intros k Hk. rewrite <- Hn. rewrite (Hcw k Hk).
      reflexivity.
  Qed.
End AggregateFacts.

Import Network NetworkFacts ClusteringFacts QualityFacts CPMFacts AggregateFacts.

(** [createReducedNetwork] on a well-formed network and a clustering of its
    nodes with at least one cluster returns a well-formed network with one
    node per cluster and no node among its own neighbours; the weight of a
    node is the total node weight of its cluster; the total node weight and
    twice the total edge weight plus the self-link weight are those of the
    network.  With no cluster it throws an error. *)
Theorem createReducedNetwork_aggregates (net : Network.t) (c : Clustering.t) :
  wf net → clustering_of net c →
  (Clustering.nClusters c = 0 → createReducedNetwork net c = None)
  ∧ (0 < Clustering.nClusters c →
     ∃ r, createReducedNetwork net c = Some r
       ∧ wf r ∧ no_self_loops r ∧ nNodes r = Clustering.nClusters c
       ∧ (∀ k, k < Clustering.nClusters c →
               (nw r k == clusterWeight net c k)%Q)
       ∧ (getTotalNodeWeight r == getTotalNodeWeight net)%Q
       ∧ (2 * getTotalEdgeWeight r + totalEdgeWeightSelfLinks r
          == 2 * getTotalEdgeWeight net + totalEdgeWeightSelfLinks net)%Q).
Proof.
  intros Hwf Hc. split.
  - intros HK. unfold createReducedNetwork, newArray. rewrite HK.
    by rewrite decide_False by lia.
  - intros HK.
    destruct (createReducedNetwork_value net c Hwf Hc HK)
      as (r & Hrun & Hwfr & Hns & Hn & Hnw & Hself & Htotal).
    exists r. split; [done|]. split; [done|]. split; [done|]. split; [done|].
    split; [done|]. split.
    + unfold getTotalNodeWeight.
      rewrite <- (nodeWeights_total net c Hwf Hc).
      rewrite calcSum_sumN, (wf_nodeWeights _ Hwfr), Hn.
      apply sumN_ext. intros k Hk. by apply Hnw.
    + unfold getTotalEdgeWeight.
      assert (∀ x, 2 * (x / 2) == x)%Q as Hhalf by (intros; field).
      by rewrite !Hhalf.
Qed.

Lemma createReducedNetwork_aggregates_witness :
  (Clustering.nClusters two_triangles = 0 →
   createReducedNetwork triangle_pair two_triangles = None)
  ∧ (0 < Clustering.nClusters two_triangles →
     ∃ r, createReducedNetwork triangle_pair two_triangles = Some r
       ∧ wf r ∧ no_self_loops r ∧ nNodes r = Clustering.nClusters two_triangles
       ∧ (∀ k, k < Clustering.nClusters two_triangles →
               (nw r k == clusterWeight triangle_pair two_triangles k)%Q)
       ∧ (getTotalNodeWeight r == getTotalNodeWeight triangle_pair)%Q
       ∧ (2 * getTotalEdgeWeight r + totalEdgeWeightSelfLinks r
          == 2 * getTotalEdgeWeight triangle_pair
             + totalEdgeWeightSelfLinks triangle_pair)%Q).
Proof.
  apply (createReducedNetwork_aggregates triangle_pair two_triangles
           triangle_pair_wf two_triangles_clustering).
Defined.

(** Aggregation keeps the quality: on a well-formed network (with
    [2W + S] not 0) and a clustering of its nodes with at least one cluster,
    [calcQuality] of the clustering equals [calcQuality] of the singleton
    clustering on the network that [createReducedNetwork] returns. *)
Theorem createReducedNetwork_keeps_quality (resolution : Q) (net : Network.t)
    (c : Clustering.t) :
  wf net → clustering_of net c → 0 < Clustering.nClusters c →
  ¬ (cpm_denominator net == 0)%Q →
  ∃ r q q',
    createReducedNetwork net c = Some r
    ∧ CPMClusteringAlgorithm.calcQuality resolution net c = Some q
    ∧ CPMClusteringAlgorithm.calcQuality resolution r
        (Clustering.initializeBasedOnNNodes (nNodes r)) = Some q'
    ∧ (q == q')%Q.
Proof.
  intros Hwf Hc HK Hden.
  destruct (createReducedNetwork_value net c Hwf Hc HK)
    as (r & Hrun & Hwfr & Hns & Hn & Hnw & Hself & Htotal).
  destruct (reduced_quality resolution net c r Hwf Hc Hwfr Hns Hn Hnw Hself
              Htotal) as [Hd Hnum].
  destruct (proj1 (calcQuality_value net c Hwf Hc resolution) Hden)
    as (q & Hq & Hqv).
  destruct (proj1 (calcQuality_value r _ Hwfr (singleton_clustering_of r)
                     resolution)) as (q' & Hq' & Hqv').
  { by rewrite Hd. }
  exists r, q, q'. split; [done|]. split; [done|]. split; [done|].
  rewrite Hqv, Hqv'. unfold cpm_quality. by rewrite Hd, Hnum.
Qed.

Lemma createReducedNetwork_keeps_quality_witness :
  ∃ r q q',
    createReducedNetwork triangle_pair two_triangles = Some r
    ∧ CPMClusteringAlgorithm.calcQuality (1 # 5) triangle_pair two_triangles
      = Some q
    ∧ CPMClusteringAlgorithm.calcQuality (1 # 5) r
        (Clustering.initializeBasedOnNNodes (nNodes r)) = Some q'
    ∧ (q == q')%Q.
Proof.
  apply (createReducedNetwork_keeps_quality (1 # 5) triangle_pair two_triangles
           triangle_pair_wf two_triangles_clustering).
  - simpl. lia.
  - apply triangle_pair_denominator.
Defined.

(** * layout.ts: flips, rotations, bounds and medians *)

Module TransformFacts.
Import Layout LayoutFacts ConstructorFacts.
Local Open Scope R_scope.

  (** Both arrays of coordinates have one entry per node. *)
Definition rectangular (l : t) : Prop :=
    length (coordinates0 l) = nNodes l ∧ length (coordinates1 l) = nNodes l.

  (** ** Loops that rewrite every coordinate *)

Lemma single_loop (body : nat → list R → option (list R)) (f : R → R)
      (n : nat) (c : list R) :
    (∀ i a x, a !! i = Some x → body i a = Some (<[i:=f x]> a)) →
    (n ≤ length c)%nat →
    ∃ c', for_range 0 n body c = Some c' ∧ length c' = length c
          ∧ (∀ i, (i < n)%nat → nth i c' 0 = f (nth i c 0))
          ∧ (∀ i, (n ≤ i)%nat → nth i c' 0 = nth i c 0).
  Proof.
    intros Hbody Hn.
    pose (P := λ (m : nat) (s : list R),
      length s = length c
      ∧ (∀ i, (i < m)%nat → nth i s 0 = f (nth i c 0))
      ∧ (∀ i, (m ≤ i)%nat → nth i s 0 = nth i c 0)).
    apply (for_range_total P); [lia| |].
    - split; [done|]. split; [intros; lia|done].
    - intros i s Hi (Hl & Hlo & Hhi).
      rewrite (Hbody i s (nth i s 0)) by (apply lookup_nth; lia).
      eexists. split; [done|]. split; [by rewrite length_insert|]. split.
      + intros k Hk. destruct (decide (k = i)) as [->|Hne].
        * rewrite nth_insert_eq by lia. by rewrite Hhi.
        * rewrite nth_insert_ne by lia. apply Hlo. lia.
      + intros k Hk. rewrite nth_insert_ne by lia. apply Hhi. lia.
  Qed.

Lemma pair_loop (body : nat → list R * list R → option (list R * list R))
      (f g : R → R → R) (n : nat) (c0 c1 : list R) :
    (∀ i a b x y, a !! i = Some x → b !! i = Some y →
       body i (a, b) = Some (<[i:=f x y]> a, <[i:=g x y]> b)) →
    (n ≤ length c0)%nat → (n ≤ length c1)%nat →
    ∃ c0' c1', for_range 0 n body (c0, c1) = Some (c0', c1')
      ∧ length c0' = length c0 ∧ length c1' = length c1
      ∧ (∀ i, (i < n)%nat → nth i c0' 0 = f (nth i c0 0) (nth i c1 0)
                             ∧ nth i c1' 0 = g (nth i c0 0) (nth i c1 0))
      ∧ (∀ i, (n ≤ i)%nat → nth i c0' 0 = nth i c0 0
                             ∧ nth i c1' 0 = nth i c1 0).
  Proof.
    intros Hbody Hn0 Hn1.
    pose (P := λ (m : nat) (s : list R * list R),
      length s.1 = length c0 ∧ length s.2 = length c1
      ∧ (∀ i, (i < m)%nat → nth i s.1 0 = f (nth i c0 0) (nth i c1 0)
                             ∧ nth i s.2 0 = g (nth i c0 0) (nth i c1 0))
      ∧ (∀ i, (m ≤ i)%nat → nth i s.1 0 = nth i c0 0
                             ∧ nth i s.2 0 = nth i c1 0)).
    destruct (for_range_total P body 0 n (c0, c1))
      as ([c0' c1'] & Hrun & HP); [lia| | |by exists c0', c1'].
    - split; [done|]. split; [done|]. split; [intros; lia|done].
    - intros i [a b] Hi (Hl0 & Hl1 & Hlo & Hhi). cbn [fst snd] in *.
      rewrite (Hbody i a b (nth i a 0) (nth i b 0))
        by (apply lookup_nth; lia).
      eexists. split; [done|]. unfold P. cbn [fst snd].
      rewrite !length_insert. split; [done|]. split; [done|]. split.
      + intros k Hk. destruct (decide (k = i)) as [->|Hne].
        * rewrite !nth_insert_eq by lia.
          destruct (Hhi i ltac:(lia)) as [-> ->]. done.
        * rewrite !nth_insert_ne by lia. apply Hlo. lia.
      + intros k Hk. rewrite !nth_insert_ne by lia. apply Hhi. lia.
  Qed.

  (** ** flip *)

Lemma flip_body i (a : list R) x :
    a !! i = Some x →
    (x ← aget a i; aset a i (x * -1)) = Some (<[i:=x * -1]> a).
  Proof.
    intros Hx. unfold aget. rewrite Hx. cbn [mbind option_bind].
    apply aset_lt. by eapply lookup_lt_Some.
  Qed.

Lemma flip_value l dimension c :
    row l dimension = Some c → (nNodes l ≤ length c)%nat →
    ∃ c', flip l dimension = set_row l dimension c'
          ∧ length c' = length c
          ∧ (∀ i, (i < nNodes l)%nat → nth i c' 0 = nth i c 0 * -1)
          ∧ (∀ i, (nNodes l ≤ i)%nat → nth i c' 0 = nth i c 0).
  Proof.
    intros Hrow Hn. unfold flip. rewrite Hrow. cbn [mbind option_bind].
    destruct (single_loop (λ i values, x ← aget values i; aset values i (x * -1))
                (λ x, x * -1) (nNodes l) c)
      as (c' & Hrun & Hl & Hlo & Hhi); [apply flip_body|done|].
    rewrite Hrun. cbn [mbind option_bind]. by exists c'.
  Qed.

Lemma flip_twice l dimension :
    (dimension < 2)%nat → rectangular l →
    (l' ← flip l dimension; flip l' dimension) = Some l.
  Proof.
    intros Hd [H0 H1].
    assert (∃ c, row l dimension = Some c ∧ length c = nNodes l)
      as (c & Hrow & Hlen).
    { destruct dimension as [|[|d]]; [by eexists..|lia]. }
    destruct (flip_value l dimension c Hrow ltac:(lia))
      as (c' & -> & Hl & Hlo & _).
    assert (∃ l', set_row l dimension c' = Some l'
                  ∧ row l' dimension = Some c' ∧ nNodes l' = nNodes l
                  ∧ ∀ c'', set_row l' dimension c'' = set_row l dimension c'')
      as (l' & -> & Hrow' & Hn' & Hset).
    { destruct dimension as [|[|d]]; [by eexists..|lia]. }
    cbn [mbind option_bind].
    destruct (flip_value l' dimension c' Hrow' ltac:(lia))
      as (c'' & -> & Hl' & Hlo' & _).
    rewrite Hset. assert (c'' = c) as ->.
    { apply (nth_ext _ _ 0 0); [lia|]. intros i Hi.
      rewrite Hlo' by lia. rewrite Hlo by lia. lra. }
    destruct l as [c0 c1 n]. cbn in *.
    destruct dimension as [|[|d]]; [by simplify_eq/=..|lia].
  Qed.

  (** ** rotate *)

Lemma rotate_body (s c : R) i (a b : list R) x y :
    a !! i = Some x → b !! i = Some y →
    (coordinateOld1 ← aget a i;
     coordinateOld2 ← aget b i;
     c0 ← aset a i (c * coordinateOld1 - s * coordinateOld2);
     c1 ← aset b i (s * coordinateOld1 + c * coordinateOld2);
     Some (c0, c1))
    = Some (<[i:=c * x - s * y]> a, <[i:=s * x + c * y]> b).
  Proof.
    intros Hx Hy. unfold aget. rewrite Hx, Hy. cbn [mbind option_bind].
    rewrite (aset_lt a) by by eapply lookup_lt_Some.
    cbn [mbind option_bind].
    rewrite (aset_lt b) by by eapply lookup_lt_Some. done.
  Qed.

Lemma rotate_value l angle :
    rectangular l →
    ∃ c0 c1, rotate l angle = Some (mk c0 c1 (nNodes l))
      ∧ length c0 = nNodes l ∧ length c1 = nNodes l
      ∧ ∀ i, (i < nNodes l)%nat →
             nth i c0 0 = cos (- angle * PI / 180) * nth i (coordinates0 l) 0
                          - sin (- angle * PI / 180) * nth i (coordinates1 l) 0
             ∧ nth i c1 0
               = sin (- angle * PI / 180) * nth i (coordinates0 l) 0
                 + cos (- angle * PI / 180) * nth i (coordinates1 l) 0.
  Proof.
    intros [H0 H1]. unfold rotate.
    set (s := sin (- angle * PI / 180)). set (c := cos (- angle * PI / 180)).
    destruct (pair_loop
      (λ i '(c0, c1),
         coordinateOld1 ← aget c0 i;
         coordinateOld2 ← aget c1 i;
         c0 ← aset c0 i (c * coordinateOld1 - s * coordinateOld2);
         c1 ← aset c1 i (s * coordinateOld1 + c * coordinateOld2);
         Some (c0, c1))
      (λ x y, c * x - s * y) (λ x y, s * x + c * y)
      (nNodes l) (coordinates0 l) (coordinates1 l))
      as (c0 & c1 & Hrun & Hl0 & Hl1 & Hlo & _); [|lia|lia|].
    { intros i a b x y. apply rotate_body. }
    rewrite Hrun. cbn [mbind option_bind]. exists c0, c1.
    split; [done|]. split; [lia|]. split; [lia|done].
  Qed.

Lemma rotate_back l angle :
    rectangular l → (l' ← rotate l angle; rotate l' (- angle)) = Some l.
  Proof.
    intros Hrect. pose proof Hrect as [H0 H1].
    destruct (rotate_value l angle Hrect) as (c0 & c1 & -> & Hl0 & Hl1 & Hv).
    cbn [mbind option_bind].
    destruct (rotate_value (mk c0 c1 (nNodes l)) (- angle))
      as (d0 & d1 & -> & Hm0 & Hm1 & Hw); [done|].
    cbn [nNodes coordinates0 coordinates1] in *.
    assert (- - angle * PI / 180 = - (- angle * PI / 180)) as Hneg by lra.
    rewrite Hneg in Hw. rewrite sin_neg, cos_neg in Hw.
    pose proof (sin2_cos2 (- angle * PI / 180)) as Hsc. unfold Rsqr in Hsc.
    set (s := sin (- angle * PI / 180)) in *.
    set (c := cos (- angle * PI / 180)) in *.
    destruct l as [a0 a1 n]. cbn in *. f_equal. f_equal.
    - apply (nth_ext _ _ 0 0); [lia|]. intros i Hi.
      destruct (Hw i ltac:(lia)) as [-> _].
      destruct (Hv i ltac:(lia)) as [-> ->].
      transitivity ((s * s + c * c) * nth i a0 0); [ring|rewrite Hsc; ring].
    - apply (nth_ext _ _ 0 0); [lia|]. intros i Hi.
      destruct (Hw i ltac:(lia)) as [_ ->].
      destruct (Hv i ltac:(lia)) as [-> ->].
      transitivity ((s * s + c * c) * nth i a1 0); [ring|rewrite Hsc; ring].
  Qed.

  (** ** Minimum and maximum *)

Lemma fold_Rmin_spec (r : list R) a :
    fold_left Rmin r a <= a
    ∧ Forall (λ x, fold_left Rmin r a <= x) r
    ∧ (fold_left Rmin r a = a ∨ fold_left Rmin r a ∈ r).
  Proof.
    revert a. induction r as [|x r IH]; intros a; simpl.
    - split; [lra|]. split; [constructor|by left].
    - destruct (IH (Rmin a x)) as (Hle & Hall & Hin).
      pose proof (Rmin_l a x). pose proof (Rmin_r a x).
      split; [lra|]. split; [constructor; [lra|done]|].
      destruct Hin as [Heq|Hin]; [|right; by right].
      rewrite Heq. unfold Rmin. destruct (Rle_dec a x); [by left|].
      right. by left.
  Qed.

Lemma fold_Rmax_spec (r : list R) a :
    a <= fold_left Rmax r a
    ∧ Forall (λ x, x <= fold_left Rmax r a) r
    ∧ (fold_left Rmax r a = a ∨ fold_left Rmax r a ∈ r).
  Proof.
    revert a. induction r as [|x r IH]; intros a; simpl.
    - split; [lra|]. split; [constructor|by left].
    - destruct (IH (Rmax a x)) as (Hle & Hall & Hin).
      pose proof (Rmax_l a x). pose proof (Rmax_r a x).
      split; [lra|]. split; [constructor; [lra|done]|].
      destruct Hin as [Heq|Hin]; [|right; by right].
      rewrite Heq. unfold Rmax. destruct (Rle_dec a x); [|by left].
      right. by left.
  Qed.

Lemma coordinate_minimum_spec (values : list R) m :
    calcMinimum values = Some m → Forall (λ x, m <= x) values ∧ m ∈ values.
  Proof.
    destruct values as [|v0 rest]; [done|]. simpl. intros [= <-].
    destruct (fold_Rmin_spec rest v0) as (Hle & Hall & Hin).
    split; [by constructor|]. destruct Hin as [->|Hin]; [by left|by right].
  Qed.

Lemma coordinate_maximum_spec (values : list R) m :
    calcMaximum values = Some m → Forall (λ x, x <= m) values ∧ m ∈ values.
  Proof.
    destruct values as [|v0 rest]; [done|]. simpl. intros [= <-].
    destruct (fold_Rmax_spec rest v0) as (Hle & Hall & Hin).
    split; [by constructor|]. destruct Hin as [->|Hin]; [by left|by right].
  Qed.

  (** ** calcMedian *)

Lemma Rle_bool_true a b : Rle_bool a b = true ↔ a <= b.
  Proof. unfold Rle_bool. destruct (Rle_dec a b); split; (done || lra). Qed.

Lemma sorted_values (values : list R) :
    StronglySorted Rle (js_sort Rle_bool values).
  Proof.
    apply Sorted_StronglySorted; [intros x y z; apply Rle_trans|].
    eapply Sorted_ind with (P := λ l, Sorted Rle l);
      [constructor| |apply (js_sort_sorted Rle_bool values)].
    - intros a l _ Hs Hhd. constructor; [done|].
      destruct Hhd; constructor. by apply Rle_bool_true.
    - intros a b Hab. unfold Rle_bool in *.
      destruct (Rle_dec a b); [done|]. destruct (Rle_dec b a); [done|lra].
  Qed.

Lemma sorted_unique (l1 l2 : list R) :
    StronglySorted Rle l1 → StronglySorted Rle l2 → l1 ≡ₚ l2 → l1 = l2.
  Proof.
    intros H1. revert l2. induction H1 as [|x l1 Hs1 IH Hx]; intros l2 H2 Hp.
    - by apply Permutation_nil_l in Hp.
    - destruct H2 as [|y l2 Hs2 Hy].
      + by apply Permutation_nil_r in Hp.
      + assert (x = y) as ->.
        { assert (x ∈ y :: l2) as Hin1 by (rewrite <- Hp; by left).
          assert (y ∈ x :: l1) as Hin2 by (rewrite Hp; by left).
          rewrite Forall_forall in Hx, Hy.
          apply elem_of_cons in Hin1 as [?|Hin1]; [done|].
          apply elem_of_cons in Hin2 as [?|Hin2]; [done|].
          pose proof (Hx y Hin2). pose proof (Hy x Hin1). lra. }
        f_equal. apply IH; [done|]. by apply Permutation_cons_inv in Hp.
  Qed.

Lemma calcMedian_perm (values1 values2 : list R) :
    values1 ≡ₚ values2 → calcMedian values1 = calcMedian values2.
  Proof.
    intros Hp. unfold calcMedian.
    assert (js_sort Rle_bool values1 = js_sort Rle_bool values2) as ->; [|done].
    apply sorted_unique; [apply sorted_values..|].
    by rewrite !js_sort_perm.
  Qed.

End TransformFacts.

Import Layout LayoutFacts TransformFacts.
Local Open Scope R_scope.

(** The layout with the four nodes (1, 1), (1, -1), (-1, 1), (-1, -1). *)
Definition square_layout : Layout.t :=
  Layout.initializeBasedOnCoordinates [1; 1; -1; -1] [1; -1; 1; -1].

(** ** Layouts on a diagonal *)

Lemma calcSum_scaled (s : R) (values : list R) :
  Layout.calcSum (Rmult s <$> values) = s * Layout.calcSum values.
Proof.
  unfold Layout.calcSum.
  assert (∀ a, fold_left Rplus (Rmult s <$> values) (s * a)
               = s * fold_left Rplus values a) as Hgen.
  { induction values as [|x values IH]; intros a; simpl; [done|].
    rewrite <- IH. f_equal. ring. }
  specialize (Hgen 0). by rewrite Rmult_0_r in Hgen.
Qed.

(** Centring keeps the second coordinates [s] times the first ones. *)
Lemma center_scaled (s : R) (c0 : list R) (n : nat) (l' : Layout.t) :
  center (mk c0 (Rmult s <$> c0) n) = Some l' →
  ∃ d0, l' = mk d0 (Rmult s <$> d0) n.
Proof.
  unfold center, calcAverage. cbn [coordinates0 coordinates1 nNodes].
  rewrite length_fmap, calcSum_scaled. intros Hrun.
  apply bind_Some in Hrun as (a1 & Ha1 & Hrun).
  apply bind_Some in Hrun as (a2 & Ha2 & Hrun).
  apply bind_Some in Hrun as ([d0 d1] & Hloop & Hrun).
  cbv beta iota zeta in Hrun. simplify_eq.
  assert (a2 = s * a1) as ->.
  { unfold rdiv in *. destruct (Req_EM_T (INR (length c0)) 0); [done|].
    simplify_eq. by field. }
  exists d0. f_equal.
  apply (for_range_partial
           (λ _ (st : list R * list R), st.2 = Rmult s <$> st.1)
           _ _ _ _ _ Hloop); [lia|done|].
  intros i [e0 e1] [e0' e1'] Hi He Hbody. simpl in He. subst e1. simpl.
  apply bind_Some in Hbody as (x & Hx & Hbody).
  apply bind_Some in Hbody as (f0 & Hf0 & Hbody).
  apply bind_Some in Hbody as (y & Hy & Hbody).
  apply bind_Some in Hbody as (f1 & Hf1 & Hbody). simplify_eq.
  pose proof (aget_Some_lt _ _ _ Hx) as Hlt.
  unfold aget in Hx, Hy. rewrite list_lookup_fmap, Hx in Hy. simplify_eq/=.
  rewrite aset_lt in Hf0 by done.
  rewrite aset_lt in Hf1 by (by rewrite length_fmap). simplify_eq.
  rewrite list_fmap_insert. f_equal. ring.
Qed.

(** With [s] either 1 or -1 the two variances are equal. *)
Lemma moments_scaled (s : R) (d0 : list R) (n : nat) (v1 v2 c : R) :
  s * s = 1 → moments (mk d0 (Rmult s <$> d0) n) = Some (v1, v2, c) → v1 = v2.
Proof.
  intros Hs. unfold moments. cbn [coordinates0 coordinates1 nNodes].
  intros Hrun.
  apply bind_Some in Hrun as ([[w1 w2] w] & Hloop & Hrun).
  cbv beta iota zeta in Hrun.
  apply bind_Some in Hrun as (u1 & H1 & Hrun).
  apply bind_Some in Hrun as (u2 & H2 & Hrun).
  apply bind_Some in Hrun as (u & H3 & Hrun). simplify_eq.
  assert (w2 = w1) as ->; [|congruence].
  apply (for_range_partial
           (λ _ (st : R * R * R), st.1.2 = st.1.1) _ _ _ _ _ Hloop);
    [lia|done|].
  intros i [[a b] cc] [[a' b'] cc'] Hi Hab Hbody. simpl in Hab. subst b. simpl.
  apply bind_Some in Hbody as (x & Hx & Hbody).
  apply bind_Some in Hbody as (y & Hy & Hbody). simplify_eq.
  unfold aget in Hx, Hy. rewrite list_lookup_fmap, Hx in Hy. simplify_eq/=.
  replace (s * x * (s * x)) with (s * s * (x * x)) by ring.
  rewrite Hs. ring.
Qed.

Lemma standardize_scaled (standardizeDistances : bool) (s : R) (c0 : list R)
    (n : nat) :
  s * s = 1 →
  Layout.standardize standardizeDistances (mk c0 (Rmult s <$> c0) n) = None.
Proof.
  intros Hs. unfold Layout.standardize.
  destruct (center (mk c0 (Rmult s <$> c0) n)) as [l'|] eqn:Hcenter; [|done].
  destruct (center_scaled s c0 n l' Hcenter) as [d0 ->].
  cbn [mbind option_bind].
  destruct (moments (mk d0 (Rmult s <$> d0) n)) as [[[v1 v2] c]|] eqn:Hm;
    [|done].
  rewrite (moments_scaled s d0 n v1 v2 c Hs Hm). cbn [mbind option_bind].
  by rewrite eigenvectors_equal_variances.
Qed.

Lemma fmap_one (x : list R) : Rmult 1 <$> x = x.
Proof.
  induction x as [|a x IH]; [done|]. rewrite !fmap_cons, IH. f_equal. ring.
Qed.

Lemma fmap_minus_one (x : list R) : Rmult (-1) <$> x = Ropp <$> x.
Proof.
  induction x as [|a x IH]; [done|]. rewrite !fmap_cons, IH. f_equal. ring.
Qed.

(** [standardize] has no result (the coordinates become [NaN]) for every
    layout with at least one node whose nodes all have their two coordinates
    equal, and for every such layout whose nodes all have them opposite,
    whether the distances are standardized or not: the two variances are
    sums of the same squares, so they are equal, and one of the two
    eigenvectors is computed as (0, 0). *)
Theorem standardize_diagonal_layouts (standardizeDistances : bool)
    (x : list R) :
  x ≠ [] →
  Layout.standardize standardizeDistances
    (Layout.initializeBasedOnCoordinates x x) = None
  ∧ Layout.standardize standardizeDistances
      (Layout.initializeBasedOnCoordinates x (Ropp <$> x)) = None.
Proof.
  intros _. unfold initializeBasedOnCoordinates. split.
  - pose proof (standardize_scaled standardizeDistances 1 x (length x)
                  ltac:(ring)) as H.
    by rewrite fmap_one in H.
  - pose proof (standardize_scaled standardizeDistances (-1) x (length x)
                  ltac:(ring)) as H.
    by rewrite fmap_minus_one in H.
Qed.

Lemma standardize_diagonal_layouts_witness :
  Layout.standardize true (Layout.initializeBasedOnCoordinates [1; 2; 4] [1; 2; 4])
  = None
  ∧ Layout.standardize true
      (Layout.initializeBasedOnCoordinates [1; 2; 4] (Ropp <$> [1; 2; 4]))
    = None.
Proof. by apply (standardize_diagonal_layouts true [1; 2; 4]). Defined.

(** Flipping a dimension twice gives back the layout. *)
Theorem flip_involutive (l : Layout.t) (dimension : nat) :
  (dimension < 2)%nat → rectangular l →
  (l' ← Layout.flip l dimension; Layout.flip l' dimension) = Some l.
Proof. apply flip_twice. Qed.

Lemma flip_involutive_witness :
  (l' ← Layout.flip square_layout 1; Layout.flip l' 1) = Some square_layout.
Proof.
  apply (flip_involutive square_layout 1); [lia|]. split; reflexivity.
Defined.

(** Rotating a layout by an angle and then by the opposite angle gives back
    the layout. *)
Theorem rotate_inverse (l : Layout.t) (angle : R) :
  rectangular l →
  (l' ← Layout.rotate l angle; Layout.rotate l' (- angle)) = Some l.
Proof. apply rotate_back. Qed.

Lemma rotate_inverse_witness :
  (l' ← Layout.rotate square_layout 30; Layout.rotate l' (- 30))
  = Some square_layout.
Proof. apply (rotate_inverse square_layout 30). split; reflexivity. Defined.

(** When [getMinCoordinates] and [getMaxCoordinates] return, every
    coordinate lies between the minimum and the maximum of its dimension, and
    the minima and maxima are coordinates of nodes. *)
Theorem coordinates_within_bounds (l : Layout.t) (min0 min1 max0 max1 : R) :
  Layout.getMinCoordinates l = Some (min0, min1) →
  Layout.getMaxCoordinates l = Some (max0, max1) →
  (∀ x, x ∈ coordinates0 l → min0 <= x <= max0)
  ∧ (∀ y, y ∈ coordinates1 l → min1 <= y <= max1)
  ∧ min0 ∈ coordinates0 l ∧ max0 ∈ coordinates0 l
  ∧ min1 ∈ coordinates1 l ∧ max1 ∈ coordinates1 l.
Proof.
  unfold getMinCoordinates, getMaxCoordinates. intros Hmin Hmax.
  apply bind_Some in Hmin as (m0 & Hm0 & Hmin).
  apply bind_Some in Hmin as (m1 & Hm1 & Hmin).
  apply bind_Some in Hmax as (x0 & Hx0 & Hmax).
  apply bind_Some in Hmax as (x1 & Hx1 & Hmax). simplify_eq.
  apply TransformFacts.coordinate_minimum_spec in Hm0 as [Hm0 ?], Hm1 as [Hm1 ?].
  apply TransformFacts.coordinate_maximum_spec in Hx0 as [Hx0 ?], Hx1 as [Hx1 ?].
  rewrite Forall_forall in Hm0, Hm1, Hx0, Hx1.
  split; [intros x Hx; split; [by apply Hm0|by apply Hx0]|].
  split; [intros y Hy; split; [by apply Hm1|by apply Hx1]|]. done.
Qed.

Lemma coordinates_within_bounds_witness :
  (∀ x, x ∈ coordinates0 diagonal_pair → -1 <= x <= 1)
  ∧ (∀ y, y ∈ coordinates1 diagonal_pair → -1 <= y <= 1)
  ∧ -1 ∈ coordinates0 diagonal_pair ∧ 1 ∈ coordinates0 diagonal_pair
  ∧ -1 ∈ coordinates1 diagonal_pair ∧ 1 ∈ coordinates1 diagonal_pair.
Proof.
  apply (coordinates_within_bounds diagonal_pair).
  - unfold getMinCoordinates. simpl. do 2 f_equal.
    + unfold Rmin. destruct (Rle_dec 1 (-1)); lra.
    + unfold Rmin. destruct (Rle_dec (-1) 1); lra.
  - unfold getMaxCoordinates. simpl. do 2 f_equal.
    + unfold Rmax. destruct (Rle_dec 1 (-1)); lra.
    + unfold Rmax. destruct (Rle_dec (-1) 1); lra.
Defined.

(** [calcMedian] does not depend on the order of the values. *)
Theorem calcMedian_order_independent (values1 values2 : list R) :
  values1 ≡ₚ values2 → Layout.calcMedian values1 = Layout.calcMedian values2.
Proof. apply calcMedian_perm. Qed.

Lemma calcMedian_order_independent_witness :
  Layout.calcMedian [3; 1; 2] = Layout.calcMedian [1; 2; 3].
Proof.
  apply (calcMedian_order_independent [3; 1; 2] [1; 2; 3]).
  rewrite (Permutation_swap 1 3 [2]).
  apply Permutation_skip, Permutation_swap.
Defined.

Local Close Scope R_scope.
